(** * Shallow embedding of the linear-scan register allocator (src/jit/lsra.cpp)

    The development embeds the parts of [LinearScan] that decide the
    properties of the allocator: the write-back spill accounting
    ([updateMaxSpill]), the block sequencer ([setBlockSequence]), the
    register-freeing bookkeeping of [allocateRegisters], the register
    selection loops of [tryAllocateFreeReg] and [allocateBusyReg], the
    unallocated-reference outcome of [allocateRegisters], the resolution
    of variable locations across flow edges ([resolveEdges]) and the
    move ordering of [resolveEdge].  It also embeds the register-mask
    helpers ([getConstrainedRegMask], [stressLimitRegs],
    [rotateBlockStartLocation]) and the register file: the assignment,
    unassignment, spilling and freeing of physical registers.

    Registers are natural numbers; a register mask is a list of
    registers, except in the register-mask helpers and the register
    file, where it is a 64-bit [Z] as in the source; locations
    ([LsraLocation]) are natural numbers. *)

From Stdlib Require Import List Arith Lia Bool ZArith Permutation Sorted.
Import ListNotations.

(* ------------------------------------------------------------------ *)
(** ** Common vocabulary *)

(** [RefType] (lsra_reftypes.h). *)
Inductive RefType :=
| RefTypeInvalid
| RefTypeDef
| RefTypeUse
| RefTypeKill
| RefTypeBB
| RefTypeFixedReg
| RefTypeExpUse
| RefTypeParamDef
| RefTypeDummyDef
| RefTypeZeroInit
| RefTypeUpperVectorSave
| RefTypeUpperVectorRestore
| RefTypeKillGCRefs.

Definition RefType_eqb (a b : RefType) : bool :=
  match a, b with
  | RefTypeInvalid, RefTypeInvalid | RefTypeDef, RefTypeDef
  | RefTypeUse, RefTypeUse | RefTypeKill, RefTypeKill
  | RefTypeBB, RefTypeBB | RefTypeFixedReg, RefTypeFixedReg
  | RefTypeExpUse, RefTypeExpUse | RefTypeParamDef, RefTypeParamDef
  | RefTypeDummyDef, RefTypeDummyDef | RefTypeZeroInit, RefTypeZeroInit
  | RefTypeUpperVectorSave, RefTypeUpperVectorSave
  | RefTypeUpperVectorRestore, RefTypeUpperVectorRestore
  | RefTypeKillGCRefs, RefTypeKillGCRefs => true
  | _, _ => false
  end.

(** Modelled from the spec: the use and def kinds of a RefPosition
    (§3, [refType]: use, exposed-use and the upper-vector restore read a
    value; def, parameter-def, dummy-def, zero-init and the upper-vector
    save write one).  The bit tests [RefTypeIsUse]/[RefTypeIsDef] live in
    a header outside src/. *)
Definition RefTypeIsUse (t : RefType) : bool :=
  match t with
  | RefTypeUse | RefTypeExpUse | RefTypeUpperVectorRestore => true
  | _ => false
  end.

Definition RefTypeIsDef (t : RefType) : bool :=
  match t with
  | RefTypeDef | RefTypeParamDef | RefTypeDummyDef | RefTypeZeroInit
  | RefTypeUpperVectorSave => true
  | _ => false
  end.

(** Register numbers; [None] plays the part of [REG_NA]. *)
Definition regNumber := nat.
Definition LsraLocation := nat.

(* ------------------------------------------------------------------ *)
(** ** Write-back spill accounting: [updateMaxSpill] / [recordMaxSpill] *)

Module SpillAccounting.

(** The value types that reach the spill accounting. *)
Inductive var_types :=
| TYP_BYTE | TYP_SHORT | TYP_INT | TYP_LONG | TYP_REF | TYP_BYREF
| TYP_FLOAT | TYP_DOUBLE | TYP_SIMD16.

Definition var_types_eqb (a b : var_types) : bool :=
  match a, b with
  | TYP_BYTE, TYP_BYTE | TYP_SHORT, TYP_SHORT | TYP_INT, TYP_INT
  | TYP_LONG, TYP_LONG | TYP_REF, TYP_REF | TYP_BYREF, TYP_BYREF
  | TYP_FLOAT, TYP_FLOAT | TYP_DOUBLE, TYP_DOUBLE
  | TYP_SIMD16, TYP_SIMD16 => true
  | _, _ => false
  end.

Lemma var_types_eqb_spec a b : var_types_eqb a b = true <-> a = b.
Proof. destruct a, b; simpl; split; congruence. Qed.

(** Modelled from the spec: [RegSet::tmpNormalizeType] (regset.cpp, not
    under src/) maps every type to the category of spill temp it needs
    (§4.3: integer, GC-reference, byref, float, double, wide/vector);
    small integers share the integer temps. *)
Definition tmpNormalizeType (t : var_types) : var_types :=
  match t with
  | TYP_BYTE | TYP_SHORT | TYP_INT => TYP_INT
  | t => t
  end.

(** What [updateMaxSpill] reads of a RefPosition and of its Interval.
    [sr_nodeType] is the type that the source computes from the tree
    node (the node of the Interval's first RefPosition when the
    RefPosition has none, the register type at [multiRegIdx] for
    multi-reg nodes), before normalization; [sr_hasTreeNode] and
    [sr_firstRefHasTreeNode] tell whether the RefPosition and the
    Interval's first RefPosition have a tree node, which two asserts
    check. *)
Record SpillRef := {
  sr_refType     : RefType;
  sr_spillAfter  : bool;
  sr_reload      : bool;
  sr_regOptional : bool;            (* RegOptional() *)
  sr_assignedReg : option regNumber; (* assignedReg(); None = REG_NA *)
  sr_isLocalVar  : bool;            (* getInterval()->isLocalVar *)
  sr_hasTreeNode : bool;            (* treeNode != nullptr *)
  sr_firstRefHasTreeNode : bool;    (* interval->firstRefPosition->treeNode != nullptr *)
  sr_nodeType    : var_types
}.

(** The two per-type arrays [currentSpill] and [maxSpill].  They hold
    [unsigned] values (lsra.h, outside the sources): numbers in
    [0, 2^32), on which [++], [--] and [+= 1] wrap around. *)
Record SpillState := {
  currentSpill : var_types -> Z;
  maxSpill     : var_types -> Z
}.

Definition UINT_MOD : Z := 2 ^ 32.

Definition wrap32 (z : Z) : Z := z mod UINT_MOD.

Definition upd (f : var_types -> Z) (t : var_types) (v : Z) : var_types -> Z :=
  fun t' => if var_types_eqb t t' then v else f t'.

Definition initSpillState : SpillState :=
  {| currentSpill := fun _ => 0%Z; maxSpill := fun _ => 0%Z |}.

Definition isNone {A} (o : option A) : bool :=
  match o with None => true | Some _ => false end.

(** [assert(cond)]: in a checked build ([checked = true]) a false
    condition stops the compilation ([None]); a release build goes on. *)
Definition assertS {A} (checked cond : bool) (k : option A) : option A :=
  if checked && negb cond then None else k.

(** [LinearScan::updateMaxSpill].  The asserts of the
    [FEATURE_PARTIAL_SIMD_CALLEE_SAVE] early return, which inspect other
    RefPositions of the Interval, are not modelled: that path returns
    without touching the counters. *)
Definition updateMaxSpill (checked : bool) (st : SpillState) (rp : SpillRef)
    : option SpillState :=
  let refType := sr_refType rp in
  if RefType_eqb refType RefTypeUpperVectorSave
     || RefType_eqb refType RefTypeUpperVectorRestore then Some st
  else if sr_spillAfter rp || sr_reload rp
          || (sr_regOptional rp && isNone (sr_assignedReg rp)) then
    if negb (sr_isLocalVar rp) then
      assertS checked (sr_hasTreeNode rp || RefTypeIsUse refType)
      (assertS checked (sr_hasTreeNode rp || sr_firstRefHasTreeNode rp)
      (let typ := tmpNormalizeType (sr_nodeType rp) in
       if sr_spillAfter rp && negb (sr_reload rp) then
         let cur := wrap32 (currentSpill st typ + 1) in
         Some {| currentSpill := upd (currentSpill st) typ cur;
                 maxSpill := if (maxSpill st typ <? cur)%Z
                             then upd (maxSpill st) typ cur else maxSpill st |}
       else if sr_reload rp then
         assertS checked (0 <? currentSpill st typ)%Z
           (Some {| currentSpill := upd (currentSpill st) typ (wrap32 (currentSpill st typ - 1));
                    maxSpill := maxSpill st |})
       else if sr_regOptional rp && isNone (sr_assignedReg rp) then
         assertS checked (RefTypeIsUse refType)
           (assertS checked (0 <? currentSpill st typ)%Z
             (Some {| currentSpill := upd (currentSpill st) typ (wrap32 (currentSpill st typ - 1));
                      maxSpill := maxSpill st |}))
       else Some st))
    else Some st
  else Some st.

Definition spillStep (checked : bool) (acc : option SpillState) (rp : SpillRef)
    : option SpillState :=
  match acc with Some st => updateMaxSpill checked st rp | None => None end.

(** The write-back walk calls [updateMaxSpill] for every real
    RefPosition, in location order; [None] is a failed assert. *)
Definition writeBackSpills (checked : bool) (rs : list SpillRef) : option SpillState :=
  fold_left (spillStep checked) rs (Some initSpillState).

Definition all_var_types : list var_types :=
  [TYP_BYTE; TYP_SHORT; TYP_INT; TYP_LONG; TYP_REF; TYP_BYREF;
   TYP_FLOAT; TYP_DOUBLE; TYP_SIMD16].

(** [LinearScan::recordMaxSpill]: from the [maxSpill] array [ms0], the
    number of spill temps of each type it pre-allocates
    ([tmpPreAllocateTemps] is called for the nonzero ones).  [isX86]
    selects the [_TARGET_X86_] block; [None] is the failed
    [assert(maxSpill[i] == 0)] for a type that does not normalize to
    itself. *)
Definition recordMaxSpill (checked isX86 needDoubleTmpForFPCall needFloatTmpForFPCall : bool)
    (compRetType : var_types) (ms0 : var_types -> Z) : option (var_types -> Z) :=
  let ms :=
    if isX86 then
      let returnType := tmpNormalizeType compRetType in
      let ms1 := if needDoubleTmpForFPCall || var_types_eqb returnType TYP_DOUBLE
                 then upd ms0 TYP_DOUBLE (wrap32 (ms0 TYP_DOUBLE + 1)) else ms0 in
      if needFloatTmpForFPCall || var_types_eqb returnType TYP_FLOAT
      then upd ms1 TYP_FLOAT (wrap32 (ms1 TYP_FLOAT + 1)) else ms1
    else ms0 in
  assertS checked
    (forallb (fun t => var_types_eqb t (tmpNormalizeType t) || (ms t =? 0)%Z) all_var_types)
    (Some ms).

(** Spec-side reading of "spilled and not yet reloaded": the change of
    the number of outstanding spilled values of type [typ] caused by one
    RefPosition, for all Intervals (as the spec sentence states it). *)
Definition spec_delta_all (typ : var_types) (rp : SpillRef) : Z :=
  if var_types_eqb (tmpNormalizeType (sr_nodeType rp)) typ then
    if sr_spillAfter rp && negb (sr_reload rp) then 1%Z
    else if sr_reload rp then (-1)%Z
    else 0%Z
  else 0%Z.

(** The same count restricted as the code restricts it: compiler
    temporaries only, upper-vector save/restore excluded, and a
    regOptional use left without a register counted as a reload. *)
Definition spec_delta_temps (typ : var_types) (rp : SpillRef) : Z :=
  if RefType_eqb (sr_refType rp) RefTypeUpperVectorSave
     || RefType_eqb (sr_refType rp) RefTypeUpperVectorRestore then 0%Z
  else if sr_isLocalVar rp then 0%Z
  else if var_types_eqb (tmpNormalizeType (sr_nodeType rp)) typ then
    if sr_spillAfter rp && negb (sr_reload rp) then 1%Z
    else if sr_reload rp then (-1)%Z
    else if sr_regOptional rp && isNone (sr_assignedReg rp) then (-1)%Z
    else 0%Z
  else 0%Z.

Definition net (delta : SpillRef -> Z) (rs : list SpillRef) : Z :=
  fold_right (fun rp acc => (delta rp + acc)%Z) 0%Z rs.

(** Maximum, over the prefixes of [rs], of the outstanding count when
    the count starts at [c]. *)
Fixpoint pm_from (d : SpillRef -> Z) (c : Z) (rs : list SpillRef) : Z :=
  match rs with
  | [] => c
  | rp :: rs' => Z.max c (pm_from d (c + d rp)%Z rs')
  end.

(** A source-level local variable spilled after its definition. *)
Definition local_spill_def : SpillRef :=
  {| sr_refType := RefTypeDef; sr_spillAfter := true; sr_reload := false;
     sr_regOptional := false; sr_assignedReg := Some 0;
     sr_isLocalVar := true; sr_hasTreeNode := true; sr_firstRefHasTreeNode := true;
     sr_nodeType := TYP_INT |}.

Definition local_spill_stream : list SpillRef := [local_spill_def].

(** A compiler temporary of type [TYP_INT] spilled after its definition
    and reloaded at its use, with an unrelated local-variable use in
    between. *)
Definition temp_spill_def : SpillRef :=
  {| sr_refType := RefTypeDef; sr_spillAfter := true; sr_reload := false;
     sr_regOptional := false; sr_assignedReg := Some 0;
     sr_isLocalVar := false; sr_hasTreeNode := true; sr_firstRefHasTreeNode := true;
     sr_nodeType := TYP_INT |}.

Definition local_use : SpillRef :=
  {| sr_refType := RefTypeUse; sr_spillAfter := false; sr_reload := false;
     sr_regOptional := false; sr_assignedReg := Some 1;
     sr_isLocalVar := true; sr_hasTreeNode := true; sr_firstRefHasTreeNode := true;
     sr_nodeType := TYP_INT |}.

Definition temp_reload_use : SpillRef :=
  {| sr_refType := RefTypeUse; sr_spillAfter := false; sr_reload := true;
     sr_regOptional := false; sr_assignedReg := Some 0;
     sr_isLocalVar := false; sr_hasTreeNode := true; sr_firstRefHasTreeNode := true;
     sr_nodeType := TYP_INT |}.

Definition temp_spill_reload_stream : list SpillRef :=
  [temp_spill_def; local_use; temp_reload_use].

End SpillAccounting.

(* ------------------------------------------------------------------ *)
(** ** Register-freeing bookkeeping of [allocateRegisters] *)

Module RegFreeing.

(** What the freeing bookkeeping distinguishes among RefPosition kinds:
    the block boundary [RefTypeBB], the [RefTypeDummyDef]s handled with
    it, and every other kind. *)
Inductive RefKind := KBB | KDummyDef | KOther.

(** The updates that the allocation part of one loop iteration applies
    to the two masks: [regsToFree |= bit], [delayRegsToFree |= bit] and
    [regsToFree &= ~bit]. *)
Inductive FreeAction :=
| AddFree (r : regNumber)
| AddDelay (r : regNumber)
| ClearReg (r : regNumber).

Definition action_reg (a : FreeAction) : regNumber :=
  match a with AddFree r | AddDelay r | ClearReg r => r end.

(** One RefPosition as seen by the bookkeeping: its [nodeLocation], its
    kind, and the mask updates its allocation performs (empty for the
    kinds that [continue] before allocation). *)
Record FreeRef := {
  fr_loc     : LsraLocation;
  fr_kind    : RefKind;
  fr_actions : list FreeAction
}.

(** A register mask as the list of its registers. *)
Definition regMask := list regNumber.

Definition maskAdd (r : regNumber) (m : regMask) : regMask :=
  if existsb (Nat.eqb r) m then m else m ++ [r].

Definition maskClear (r : regNumber) (m : regMask) : regMask :=
  filter (fun x => negb (Nat.eqb x r)) m.

Definition maskNonEmpty (m : regMask) : bool :=
  match m with [] => false | _ => true end.

(** The loop-carried locals of [allocateRegisters], with [freedLog]
    recording every register passed to [freeRegisters], together with
    the [currentLocation] at which it was freed. *)
Record FreeState := {
  regsToFree      : regMask;
  delayRegsToFree : regMask;
  prevLocation    : LsraLocation;
  handledBlockEnd : bool;
  freedLog        : list (regNumber * LsraLocation)
}.

Definition mkFreeState regs delay prev handled log : FreeState :=
  {| regsToFree := regs; delayRegsToFree := delay; prevLocation := prev;
     handledBlockEnd := handled; freedLog := log |}.

(** [prevLocation] starts at [MinLocation], location 0. *)
Definition initFreeState : FreeState := mkFreeState [] [] 0 false [].

(** [freeRegisters]: every register of the mask is freed at [cur]. *)
Definition freeRegisters (m : regMask) (cur : LsraLocation)
           (log : list (regNumber * LsraLocation)) :=
  log ++ map (fun x => (x, cur)) m.

Definition applyAction (st : FreeState) (a : FreeAction) : FreeState :=
  match a with
  | AddFree r => mkFreeState (maskAdd r (regsToFree st)) (delayRegsToFree st)
                   (prevLocation st) (handledBlockEnd st) (freedLog st)
  | AddDelay r => mkFreeState (regsToFree st) (maskAdd r (delayRegsToFree st))
                    (prevLocation st) (handledBlockEnd st) (freedLog st)
  | ClearReg r => mkFreeState (maskClear r (regsToFree st)) (delayRegsToFree st)
                    (prevLocation st) (handledBlockEnd st) (freedLog st)
  end.

Definition isBB (k : RefKind) : bool := match k with KBB => true | _ => false end.
Definition isDummyDef (k : RefKind) : bool :=
  match k with KDummyDef => true | _ => false end.

(** One iteration of the [allocateRegisters] loop, restricted to the
    freeing bookkeeping. *)
Definition allocStep (st : FreeState) (rp : FreeRef) : FreeState :=
  let currentLocation := fr_loc rp in
  let st1 :=
    if (maskNonEmpty (regsToFree st) || maskNonEmpty (delayRegsToFree st))
       && (prevLocation st <? currentLocation) then
      let log1 := freeRegisters (regsToFree st) currentLocation (freedLog st) in
      if (prevLocation st + 1 <? currentLocation)
         && maskNonEmpty (delayRegsToFree st) then
        mkFreeState [] [] (prevLocation st) (handledBlockEnd st)
          (freeRegisters (delayRegsToFree st) currentLocation log1)
      else
        mkFreeState (delayRegsToFree st) [] (prevLocation st)
          (handledBlockEnd st) log1
    else st in
  let st2 := mkFreeState (regsToFree st1) (delayRegsToFree st1) currentLocation
               (handledBlockEnd st1) (freedLog st1) in
  let st3 :=
    if negb (handledBlockEnd st2) && (isBB (fr_kind rp) || isDummyDef (fr_kind rp)) then
      mkFreeState [] (delayRegsToFree st2) (prevLocation st2) true
        (freeRegisters (regsToFree st2) currentLocation (freedLog st2))
    else st2 in
  if isBB (fr_kind rp) then
    mkFreeState (regsToFree st3) (delayRegsToFree st3) (prevLocation st3)
      false (freedLog st3)
  else fold_left applyAction (fr_actions rp) st3.

Definition runAlloc (st : FreeState) (rs : list FreeRef) : FreeState :=
  fold_left allocStep rs st.

(** None of the mask updates [acts] concerns register [r]. *)
Definition noRegAction (r : regNumber) (acts : list FreeAction) : bool :=
  forallb (fun a => negb (Nat.eqb (action_reg a) r)) acts.

(** A last use of the value in register 3 at location 10 (an ordinary
    one, [lastuse_ok], or a delayRegFree one, [lastuse_delayed]), another
    reference at location 11, and a reference at location 12. *)
Definition lastuse_ok : FreeRef :=
  {| fr_loc := 10; fr_kind := KOther; fr_actions := [ClearReg 3; AddFree 3] |}.
Definition lastuse_delayed : FreeRef :=
  {| fr_loc := 10; fr_kind := KOther; fr_actions := [ClearReg 3; AddDelay 3] |}.
Definition def_at_11 : FreeRef :=
  {| fr_loc := 11; fr_kind := KOther; fr_actions := [ClearReg 4] |}.
Definition use_at_12 : FreeRef :=
  {| fr_loc := 12; fr_kind := KOther; fr_actions := [] |}.

End RegFreeing.

(* ------------------------------------------------------------------ *)
(** ** Free-register selection: [tryAllocateFreeReg] *)

Module FreeRegSelection.

(** What the selection loop reads of one candidate register (a
    [RegRecord] of [candidates], in [regOrder]).  [rc_available] and
    [rc_nextPhysRef] are the result and the out-parameter of
    [registerIsAvailable]; [rc_conflictingFixed] is
    [conflictingFixedRegReference]; [rc_isAssigned] is
    [isAssigned(physRegRecord, lastLocation)]. *)
Record RegCand := {
  rc_reg               : regNumber;
  rc_holdsInterval     : bool;  (* assignedInterval == currentInterval *)
  rc_available         : bool;
  rc_nextPhysRef       : LsraLocation;
  rc_conflictingFixed  : bool;
  rc_matchingConstant  : bool;  (* isMatchingConstant *)
  rc_fixedRefOfRangeEnd : bool; (* rangeEndRefPosition->isFixedRefOfReg *)
  rc_isCalleeSave      : bool;
  rc_isAssigned        : bool
}.

(** The values computed before the selection loop. *)
Record SelectCtx := {
  sc_isConstantDef      : bool;  (* isConstant && RefTypeIsDef(refType) *)
  sc_preferences        : list regNumber;
  sc_relatedPreferences : list regNumber;
  sc_relatedLastLoc     : LsraLocation; (* relatedInterval->lastRefPosition *)
  sc_registerAssignment : list regNumber; (* refPosition->registerAssignment *)
  sc_preferCalleeSave   : bool;
  sc_rangeEndLocation   : LsraLocation;
  sc_lastLocation       : LsraLocation;
  sc_prevReg            : option regNumber
}.

Definition VALUE_AVAILABLE := 64.
Definition COVERS := 32.
Definition OWN_PREFERENCE := 16.
Definition COVERS_RELATED := 8.
Definition RELATED_PREFERENCE := 4.
Definition CALLER_CALLEE := 2.
Definition UNASSIGNED := 1.

Definition mem (r : regNumber) (m : list regNumber) : bool := existsb (Nat.eqb r) m.

(** [candidateBit == refPosition->registerAssignment]. *)
Definition isSingleMask (m : list regNumber) (r : regNumber) : bool :=
  match m with [x] => Nat.eqb x r | _ => false end.

Definition optRegEqb (o : option regNumber) (r : regNumber) : bool :=
  match o with Some p => Nat.eqb p r | None => false end.

(** [nextPhysRefLocation], incremented when it is a fixed reference of
    this register at the range end. *)
Definition adjNext (ctx : SelectCtx) (c : RegCand) : LsraLocation :=
  if Nat.eqb (rc_nextPhysRef c) (sc_rangeEndLocation ctx) && rc_fixedRefOfRangeEnd c
  then S (rc_nextPhysRef c) else rc_nextPhysRef c.

Definition score (ctx : SelectCtx) (c : RegCand) : nat :=
  let nextPhysRefLocation := adjNext ctx c in
  let s0 := if sc_isConstantDef ctx && rc_matchingConstant c then VALUE_AVAILABLE else 0 in
  let s1 := if mem (rc_reg c) (sc_preferences ctx) then
              Nat.lor (Nat.lor s0 OWN_PREFERENCE)
                (if sc_rangeEndLocation ctx <? nextPhysRefLocation then COVERS else 0)
            else s0 in
  let s2 := if mem (rc_reg c) (sc_relatedPreferences ctx) then
              Nat.lor (Nat.lor s1 RELATED_PREFERENCE)
                (if sc_relatedLastLoc ctx <? nextPhysRefLocation then COVERS_RELATED else 0)
            else if isSingleMask (sc_registerAssignment ctx) (rc_reg c)
            then Nat.lor s1 RELATED_PREFERENCE
            else s1 in
  let s3 := if (sc_preferCalleeSave ctx && rc_isCalleeSave c)
               || (negb (sc_preferCalleeSave ctx) && negb (rc_isCalleeSave c))
            then Nat.lor s2 CALLER_CALLEE else s2 in
  if negb (rc_isAssigned c) then Nat.lor s3 UNASSIGNED else s3.

Definition bestPossibleScore (ctx : SelectCtx) : nat :=
  let b := COVERS + UNASSIGNED + OWN_PREFERENCE + CALLER_CALLEE in
  match sc_relatedPreferences ctx with
  | [] => b
  | _ => Nat.lor b (RELATED_PREFERENCE + COVERS_RELATED)
  end.

(** [foundBetterCandidate] (release build: no reverse selection). *)
Definition foundBetterCandidate (ctx : SelectCtx) (bestScore bestLocation : nat)
           (c : RegCand) : bool :=
  let s := score ctx c in
  let nextPhysRefLocation := adjNext ctx c in
  (bestScore <? s)
  || (Nat.eqb s bestScore
      && (if bestLocation <=? sc_lastLocation ctx then bestLocation <? nextPhysRefLocation
          else if sc_lastLocation ctx <? nextPhysRefLocation then
            (nextPhysRefLocation <? bestLocation)
            || (Nat.eqb nextPhysRefLocation bestLocation
                && optRegEqb (sc_prevReg ctx) (rc_reg c))
          else false)).

(** The register-selection loop; [best] is [availablePhysRegInterval],
    initially null, with [bestScore = 0] and [bestLocation = MinLocation]. *)
Fixpoint selectLoop (ctx : SelectCtx) (cands : list RegCand) (best : option RegCand)
         (bestScore bestLocation : nat) : option RegCand :=
  match cands with
  | [] => best
  | c :: rest =>
      if rc_holdsInterval c then Some c
      else if negb (rc_available c) then selectLoop ctx rest best bestScore bestLocation
      else if rc_conflictingFixed c then selectLoop ctx rest best bestScore bestLocation
      else
        let s := score ctx c in
        let better := foundBetterCandidate ctx bestScore bestLocation c in
        let best' := if better then Some c else best in
        let bestScore' := if better then s else bestScore in
        let bestLocation' := if better then adjNext ctx c else bestLocation in
        if Nat.eqb s (bestPossibleScore ctx)
           && Nat.eqb bestLocation' (sc_rangeEndLocation ctx + 1)
        then best'
        else selectLoop ctx rest best' bestScore' bestLocation'
  end.

(** [tryAllocateFreeReg] from the point where the candidates and the
    preferences are known: first the re-use of the Interval's previous
    register, then the scoring loop.  The result is the chosen
    [RegRecord], or [None] for [REG_NA]. *)
Definition tryAllocateFreeReg (ctx : SelectCtx) (cands : list RegCand) : option RegCand :=
  let loop := selectLoop ctx cands None 0 0 in
  match sc_prevReg ctx with
  | Some prevReg =>
      match find (fun c => Nat.eqb (rc_reg c) prevReg) cands with
      | Some regRec =>
          if mem prevReg (sc_preferences ctx) && rc_available regRec
             && negb (rc_conflictingFixed regRec)
          then Some regRec else loop
      | None => loop
      end
  | None => loop
  end.

(** A candidate the loop scores: free and without a conflicting fixed
    reference. *)
Definition eligible (c : RegCand) : bool :=
  negb (rc_holdsInterval c) && rc_available c && negb (rc_conflictingFixed c).

(** The candidate's register is free beyond the Interval's last location. *)
Definition covers (ctx : SelectCtx) (c : RegCand) : Prop :=
  sc_lastLocation ctx < adjNext ctx c.

(** Among the free candidates of [l] that score as much as [b], [b] is
    the one the tie rule prefers: if one of them covers the Interval's
    last location, [b] does and its next reference is the nearest among
    those that do, the Interval's previous register winning at equal
    distance; if [b] does not cover, its next reference is the farthest. *)
Definition TieRule (ctx : SelectCtx) (l : list RegCand) (b : RegCand) : Prop :=
  forall c, In c l -> eligible c = true -> score ctx c = score ctx b ->
    (covers ctx c ->
       covers ctx b /\ adjNext ctx b <= adjNext ctx c /\
       (adjNext ctx c = adjNext ctx b -> sc_prevReg ctx = Some (rc_reg c) ->
        rc_reg b = rc_reg c)) /\
    (~ covers ctx b -> adjNext ctx c <= adjNext ctx b).

(** [b] scores at least as much as every free candidate of [l]. *)
Definition MaxScore (ctx : SelectCtx) (l : list RegCand) (b : RegCand) : Prop :=
  forall c, In c l -> eligible c = true -> score ctx c <= score ctx b.

(** The state of the selection loop after the candidates [p]. *)
Definition LoopInv (ctx : SelectCtx) (p : list RegCand) (best : option RegCand)
           (bestScore bestLocation : nat) : Prop :=
  match best with
  | None => bestScore = 0 /\ bestLocation = 0 /\ forall c, In c p -> eligible c = false
  | Some b => In b p /\ eligible b = true /\ bestScore = score ctx b /\
              bestLocation = adjNext ctx b /\ MaxScore ctx p b /\ TieRule ctx p b
  end.

(** What the loop guarantees of its choice [b] among [all]: a free
    candidate of highest score, chosen by the tie rule among the
    candidates scanned, which are all of them unless the scan stopped
    early at a candidate of the best possible score whose next
    reference follows the range end. *)
Definition LoopResult (ctx : SelectCtx) (all : list RegCand) (b : RegCand) : Prop :=
  In b all /\ eligible b = true /\ MaxScore ctx all b /\
  exists k, (k = length all \/
             (score ctx b = bestPossibleScore ctx /\
              adjNext ctx b = S (sc_rangeEndLocation ctx))) /\
            In b (firstn k all) /\ TieRule ctx (firstn k all) b.

(** Two free candidates, registers 0 and 1, both preferred and both free
    past the Interval's last location (20); register 0 is next referenced
    at 50, register 1 at 100. *)
Definition tie_ctx : SelectCtx :=
  {| sc_isConstantDef := false; sc_preferences := [0; 1];
     sc_relatedPreferences := []; sc_relatedLastLoc := 0;
     sc_registerAssignment := [0; 1]; sc_preferCalleeSave := false;
     sc_rangeEndLocation := 10; sc_lastLocation := 20; sc_prevReg := None |}.

Definition tie_r0 : RegCand :=
  {| rc_reg := 0; rc_holdsInterval := false; rc_available := true;
     rc_nextPhysRef := 50; rc_conflictingFixed := false;
     rc_matchingConstant := false; rc_fixedRefOfRangeEnd := false;
     rc_isCalleeSave := false; rc_isAssigned := false |}.

Definition tie_r1 : RegCand :=
  {| rc_reg := 1; rc_holdsInterval := false; rc_available := true;
     rc_nextPhysRef := 100; rc_conflictingFixed := false;
     rc_matchingConstant := false; rc_fixedRefOfRangeEnd := false;
     rc_isCalleeSave := false; rc_isAssigned := false |}.

End FreeRegSelection.

(* ------------------------------------------------------------------ *)
(** ** Spill-candidate selection: [allocateBusyReg] *)

Module BusySelection.

(** The [recentRefPosition] of an occupant Interval, with what
    [allocateBusyReg], [unassignPhysReg] and [spillInterval] read and
    write of it.  [rr_activeAt] is [isRefPositionActive(recentAssignedRef,
    refLocation)]; [rr_weight] is [getWeight(recentAssignedRef)];
    [rr_hasNext] says whether [nextRefPosition] is non-null. *)
Record RecentRef := {
  rr_activeAt      : bool;
  rr_weight        : N;
  rr_reload        : bool;
  rr_regOptional   : bool;  (* RegOptional() *)
  rr_lastUse       : bool;
  rr_isActualRef   : bool;  (* IsActualRef() *)
  rr_hasNext       : bool;
  rr_spillAfter    : bool;
  rr_regAssignNone : bool   (* registerAssignment == RBM_NONE *)
}.

(** The part of an [Interval] that the eviction touches. *)
Record Interval := {
  iv_physReg    : option regNumber;  (* None is REG_NA *)
  iv_isActive   : bool;
  iv_isSpilled  : bool;
  iv_isLocalVar : bool
}.

(** One register of [Registers(regType)], in register order.
    [bc_inCandidates] is [candidates & candidateBit];
    [bc_isSpillCandidate] is the result of [isSpillCandidate] and
    [bc_occupantNextLoc] the [nextLocation] it writes back (the
    occupant's [getNextRefLocation()]); [bc_physRegNextLoc] is
    [physRegRecord->getNextRefLocation()], the register's next fixed
    reference; [bc_occupant] and [bc_recent] are [assignedInterval] and
    its [recentRefPosition] (None for nullptr). *)
Record BusyCand := {
  bc_reg              : regNumber;
  bc_inCandidates     : bool;
  bc_isSpillCandidate : bool;
  bc_occupantNextLoc  : LsraLocation;
  bc_physRegNextLoc   : LsraLocation;
  bc_occupant         : Interval;
  bc_recent           : option RecentRef
}.

(** [BB_ZERO_WEIGHT] and [BB_MAX_WEIGHT] are defined in block.h, outside
    the sources examined here; [BB_MAX_WEIGHT] is taken as the largest
    unsigned 32-bit value.  None of the results below depends on it. *)
Definition BB_ZERO_WEIGHT : N := 0%N.
Definition BB_MAX_WEIGHT : N := 4294967295%N.
Definition MinLocation : LsraLocation := 0.

(** [canSpillReg]: None when it returns false, otherwise the
    [recentAssignedRefWeight] it leaves behind. *)
Definition canSpillReg (c : BusyCand) : option N :=
  match bc_recent c with
  | Some rr => if rr_activeAt rr then None else Some (rr_weight rr)
  | None => Some BB_ZERO_WEIGHT
  end.

(** [nextLocation] after the clamp by [physRegNextLocation]. *)
Definition nextLoc (c : BusyCand) : LsraLocation :=
  if Nat.ltb (bc_physRegNextLoc c) (bc_occupantNextLoc c)
  then bc_physRegNextLoc c else bc_occupantNextLoc c.

(** The loop state: [farthestRefPhysRegRecord], [farthestLocation],
    [farthestRefPosWeight]. *)
Record BusyState := {
  bs_farthest : option BusyCand;
  bs_location : LsraLocation;
  bs_weight   : N
}.

Definition isNoneB {A} (o : option A) : bool :=
  match o with None => true | Some _ => false end.

(** The equal-location tie rule (non-ARM). *)
Definition recentIsOptionalReload (c : BusyCand) : bool :=
  match bc_recent c with
  | Some rr => rr_reload rr && rr_regOptional rr
  | None => false
  end.

(** One iteration of the loop over [Registers(regType)] (release build:
    no [doSelectNearest] stress mode). *)
Definition busyStep (allocateIfProfitable : bool) (st : BusyState)
    (c : BusyCand) : BusyState :=
  if negb (bc_inCandidates c) then st else
  if negb (bc_isSpillCandidate c) then st else
  match canSpillReg c with
  | None => st
  | Some w =>
      if N.ltb (bs_weight st) w then st else
      let nextLocation := nextLoc c in
      let isBetterLocation :=
        if N.ltb w (bs_weight st) then true
        else if allocateIfProfitable && isNoneB (bs_farthest st) then false
        else if Nat.ltb (bs_location st) nextLocation then true
        else if Nat.eqb nextLocation (bs_location st) then recentIsOptionalReload c
        else false in
      if isBetterLocation
      then {| bs_farthest := Some c; bs_location := nextLocation; bs_weight := w |}
      else st
  end.

Definition initWeight (allocateIfProfitable : bool) (ownWeight : N) : N :=
  if allocateIfProfitable then ownWeight else BB_MAX_WEIGHT.

Definition selectBusy (allocateIfProfitable : bool) (ownWeight : N)
    (cands : list BusyCand) : BusyState :=
  fold_left (busyStep allocateIfProfitable) cands
    {| bs_farthest := None; bs_location := MinLocation;
       bs_weight := initWeight allocateIfProfitable ownWeight |}.

(** [spillInterval(interval, fromRefPosition, toRefPosition)]. *)
Definition spillInterval (iv : Interval) (rr : RecentRef) : Interval * RecentRef :=
  let rr' :=
    if negb (rr_lastUse rr) then
      if rr_regOptional rr && negb (iv_isLocalVar iv && rr_isActualRef rr)
      then {| rr_activeAt := rr_activeAt rr; rr_weight := rr_weight rr;
              rr_reload := rr_reload rr; rr_regOptional := rr_regOptional rr;
              rr_lastUse := rr_lastUse rr; rr_isActualRef := rr_isActualRef rr;
              rr_hasNext := rr_hasNext rr; rr_spillAfter := rr_spillAfter rr;
              rr_regAssignNone := true |}
      else {| rr_activeAt := rr_activeAt rr; rr_weight := rr_weight rr;
              rr_reload := rr_reload rr; rr_regOptional := rr_regOptional rr;
              rr_lastUse := rr_lastUse rr; rr_isActualRef := rr_isActualRef rr;
              rr_hasNext := rr_hasNext rr; rr_spillAfter := true;
              rr_regAssignNone := rr_regAssignNone rr |}
    else rr in
  ({| iv_physReg := iv_physReg iv; iv_isActive := false; iv_isSpilled := true;
      iv_isLocalVar := iv_isLocalVar iv |}, rr').

Definition optRegEqb (o : option regNumber) (r : regNumber) : bool :=
  match o with Some p => Nat.eqb p r | None => false end.

(** [unassignPhysReg(regRec, spillRefPosition)] on the Interval side
    (non-ARM, release build); the register record side is not modelled. *)
Definition unassignPhysReg (thisRegNum : regNumber) (iv : Interval)
    (spillRefPosition : option RecentRef) : Interval * option RecentRef :=
  let intervalIsAssigned := optRegEqb (iv_physReg iv) thisRegNum in
  if negb intervalIsAssigned && negb (isNoneB (iv_physReg iv))
  then (iv, spillRefPosition)
  else
    let iv1 := {| iv_physReg := None; iv_isActive := iv_isActive iv;
                  iv_isSpilled := iv_isSpilled iv;
                  iv_isLocalVar := iv_isLocalVar iv |} in
    match spillRefPosition with
    | Some rr =>
        if iv_isActive iv && rr_hasNext rr
        then let (iv2, rr2) := spillInterval iv1 rr in (iv2, Some rr2)
        else (iv1, spillRefPosition)
    | None => (iv1, None)
    end.

(** [allocateBusyReg]: the register chosen, and the evicted occupant and
    its recent reference after [unassignPhysReg]. *)
Definition allocateBusyReg (allocateIfProfitable : bool) (ownWeight : N)
    (cands : list BusyCand) : option (regNumber * Interval * option RecentRef) :=
  match bs_farthest (selectBusy allocateIfProfitable ownWeight cands) with
  | Some b =>
      let (iv', rr') := unassignPhysReg (bc_reg b) (bc_occupant b) (bc_recent b) in
      Some (bc_reg b, iv', rr')
  | None => None
  end.

(** allocateRegisters, lines 5472-5475: a use of an Interval that is not
    in a register ([assignedRegister = currentInterval->physReg] is
    REG_NA) is marked [reload]. *)
Definition reloadMark (iv : Interval) (refType : RefType) : bool :=
  isNoneB (iv_physReg iv) && RefTypeIsUse refType.

(** A candidate from which [canSpillReg] lets the loop take a weight. *)
Definition spillable (c : BusyCand) (w : N) : Prop :=
  bc_inCandidates c = true /\ bc_isSpillCandidate c = true /\ canSpillReg c = Some w.

(** Example: a mandatory reference at location 10 whose own next use is
    at 20.  Register 0 holds an active Interval next used at 100, but
    register 0 itself has a fixed reference at 40; register 1 holds an
    active Interval next used at 50.  Both recent references weigh 5. *)
Definition busy_recent : RecentRef :=
  {| rr_activeAt := false; rr_weight := 5%N; rr_reload := false;
     rr_regOptional := false; rr_lastUse := false; rr_isActualRef := true;
     rr_hasNext := true; rr_spillAfter := false; rr_regAssignNone := false |}.

Definition busy_occ (r : regNumber) : Interval :=
  {| iv_physReg := Some r; iv_isActive := true; iv_isSpilled := false;
     iv_isLocalVar := true |}.

Definition busy_r0 : BusyCand :=
  {| bc_reg := 0; bc_inCandidates := true; bc_isSpillCandidate := true;
     bc_occupantNextLoc := 100; bc_physRegNextLoc := 40;
     bc_occupant := busy_occ 0; bc_recent := Some busy_recent |}.

Definition busy_r1 : BusyCand :=
  {| bc_reg := 1; bc_inCandidates := true; bc_isSpillCandidate := true;
     bc_occupantNextLoc := 50; bc_physRegNextLoc := 1000;
     bc_occupant := busy_occ 1; bc_recent := Some busy_recent |}.

End BusySelection.

(* ------------------------------------------------------------------ *)
(** ** No register for a RefPosition: allocateRegisters, lines 5685-5767 *)

Module NoRegister.
Import BusySelection.

(** What the allocation tail reads and writes of [currentRefPosition].
    [nr_isActualRef] is [IsActualRef()] (defined in lsra.h, outside the
    sources examined here, hence taken as given). *)
Record NoRegRef := {
  nr_refType       : RefType;
  nr_regOptional   : bool;  (* RegOptional() *)
  nr_lastUse       : bool;
  nr_reload        : bool;  (* as set at lines 5472-5475 *)
  nr_isActualRef   : bool;
  nr_regAssignNone : bool   (* registerAssignment == RBM_NONE *)
}.

(** The build and target settings the block depends on: a checked
    ([DEBUG]) build, where [assert] is active and the
    [regOptionalNoAlloc()] stress mode may be on, and
    [FEATURE_PARTIAL_SIMD_CALLEE_SAVE] on an xarch or an ARM64 target. *)
Record NoRegConfig := {
  cf_checked            : bool;
  cf_regOptionalNoAlloc : bool;
  cf_partialSimdXarch   : bool;
  cf_partialSimdArm64   : bool
}.

(** The result of the block: a register, no register (with the updated
    RefPosition and Interval), the failure of the [noway_assert], which
    stops the compilation in every build, or the failure of an [assert]
    in a checked build. *)
Inductive AllocOutcome :=
  | Allocated (r : regNumber)
  | NoRegAllocated (rp : NoRegRef) (iv : Interval)
  | NowayAssertFailure
  | AssertFailure.

Definition setAssignNone (rp : NoRegRef) (reload : bool) : NoRegRef :=
  {| nr_refType := nr_refType rp;
     nr_regOptional := nr_regOptional rp; nr_lastUse := nr_lastUse rp;
     nr_reload := reload; nr_isActualRef := nr_isActualRef rp;
     nr_regAssignNone := true |}.

(** [setIntervalAsSpilled], with [isActive] set as given. *)
Definition setSpilled (iv : Interval) (isActive : bool) : Interval :=
  {| iv_physReg := iv_physReg iv; iv_isActive := isActive;
     iv_isSpilled := true; iv_isLocalVar := iv_isLocalVar iv |}.

(** The [assignedRegister == REG_NA] branch of [allocateRegisters]
    (lines 5685-5767).  [tryFree] is the result of [tryAllocateFreeReg];
    the spill candidate comes from [allocateBusyReg(currentInterval,
    currentRefPosition, currentRefPosition->RegOptional())] on the
    registers [cands], the reference's own weight being [ownWeight];
    [isUpperVector] is [currentInterval->isUpperVector].  The xarch
    [assert(currentRefPosition->regOptional)] sits inside the
    [RegOptional()] test and always holds. *)
Definition allocateNoAssigned (cfg : NoRegConfig) (tryFree : option regNumber) (ownWeight : N)
    (cands : list BusyCand) (rp : NoRegRef) (iv : Interval) (isUpperVector : bool)
    : AllocOutcome :=
  let allocateReg :=
    if nr_regOptional rp then
      let a1 := negb (nr_lastUse rp && nr_reload rp) in
      let a2 := if cf_partialSimdXarch cfg
                   && RefType_eqb (nr_refType rp) RefTypeUpperVectorRestore
                   && isNoneB (iv_physReg iv)
                then false else a1 in
      if a2 && cf_checked cfg && cf_regOptionalNoAlloc cfg then false else a2
    else true in
  let assignedRegister := if allocateReg then tryFree else None in
  match assignedRegister with
  | Some r => Allocated r
  | None =>
      let isAllocatable :=
        if cf_partialSimdArm64 cfg && isUpperVector then true else nr_isActualRef rp in
      if cf_checked cfg && cf_partialSimdArm64 cfg && isUpperVector && nr_regOptional rp
      then AssertFailure
      else if isAllocatable then
        let assignedRegister :=
          if allocateReg then
            option_map (fun x => fst (fst x))
              (allocateBusyReg (nr_regOptional rp) ownWeight cands)
          else None in
        match assignedRegister with
        | Some r => Allocated r
        | None =>
            if negb (nr_regOptional rp) then NowayAssertFailure
            else NoRegAllocated (setAssignNone rp false) (setSpilled iv (iv_isActive iv))
        end
      else NoRegAllocated (setAssignNone rp (nr_reload rp)) (setSpilled iv false)
  end.

(** A release build for a target without
    [FEATURE_PARTIAL_SIMD_CALLEE_SAVE], and a checked ARM64 build with
    it. *)
Definition cfg_release : NoRegConfig :=
  {| cf_checked := false; cf_regOptionalNoAlloc := false;
     cf_partialSimdXarch := false; cf_partialSimdArm64 := false |}.

Definition cfg_arm64_checked : NoRegConfig :=
  {| cf_checked := true; cf_regOptionalNoAlloc := false;
     cf_partialSimdXarch := false; cf_partialSimdArm64 := true |}.

(** Examples.  A mandatory RefPosition that is not an actual reference,
    with no free register; and a regOptional use of weight 5 whose only
    spill candidate weighs 5 as well. *)
Definition nr_nonactual : NoRegRef :=
  {| nr_refType := RefTypeUpperVectorSave; nr_regOptional := false; nr_lastUse := false; nr_reload := false;
     nr_isActualRef := false; nr_regAssignNone := false |}.

Definition nr_optional : NoRegRef :=
  {| nr_refType := RefTypeUse; nr_regOptional := true; nr_lastUse := false; nr_reload := true;
     nr_isActualRef := true; nr_regAssignNone := false |}.

Definition nr_iv : Interval :=
  {| iv_physReg := None; iv_isActive := true; iv_isSpilled := false;
     iv_isLocalVar := true |}.

Definition nr_busy_r0 : BusyCand :=
  {| bc_reg := 0; bc_inCandidates := true; bc_isSpillCandidate := true;
     bc_occupantNextLoc := 100; bc_physRegNextLoc := 1000;
     bc_occupant := busy_occ 0; bc_recent := Some busy_recent |}.

End NoRegister.

(* ------------------------------------------------------------------ *)
(** ** Block sequencing: [setBlockSequence] *)

Module BlockSequencing.

(** What the sequencing reads of a [BasicBlock]: [bbNum],
    [getBBWeight(compiler)], [isRunRarely()], the bbNums of its normal
    successors ([GetSucc], in order) and of its predecessors
    ([bbPreds]). *)
Record Block := {
  b_num    : nat;
  b_weight : nat;
  b_rarely : bool;
  b_succs  : list nat;
  b_preds  : list nat
}.

Definition memNum (n : nat) (l : list nat) : bool := existsb (Nat.eqb n) l.

(** [compareBlocksForSequencing]: -1 prefers [block1], 1 [block2]. *)
Definition compareBlocksForSequencing (block1 block2 : Block) (useBlockWeights : bool) : Z :=
  let byNum :=
    if Nat.ltb (b_num block1) (b_num block2) then (-1)%Z
    else if Nat.eqb (b_num block1) (b_num block2) then 0%Z else 1%Z in
  if useBlockWeights then
    if Nat.ltb (b_weight block2) (b_weight block1) then (-1)%Z
    else if Nat.ltb (b_weight block1) (b_weight block2) then 1%Z
    else byNum
  else byNum.

(** The insertion loop of [addToBlockSequenceWorkList]: [block] goes
    before the first node for which [seqResult > 0]. *)
Fixpoint insertWorkList (block : Block) (predSet : list nat) (useBlockWeight : bool)
    (wl : list Block) : list Block :=
  match wl with
  | [] => [block]
  | n :: rest =>
      let seqResult :=
        if b_rarely n then compareBlocksForSequencing n block true
        else if memNum (b_num n) predSet then (-1)%Z
        else compareBlocksForSequencing n block useBlockWeight in
      if Z.ltb 0 seqResult then block :: wl
      else n :: insertWorkList block predSet useBlockWeight rest
  end.

Section BlockSeq.

(** [BlockSetOps::IsSubset] is defined in bitset.h, outside the sources
    examined here; the development is carried out for any such test. *)
Variable IsSubset : list nat -> list nat -> bool.

(** The flow graph's blocks from [fgFirstBB] along [bbNext]. *)
Variable blocks : list Block.

Definition addToBlockSequenceWorkList (sequencedBlockSet : list nat) (wl : list Block)
    (block : Block) : list Block :=
  let predSet := b_preds block in
  let useBlockWeight := b_rarely block || IsSubset sequencedBlockSet predSet in
  insertWorkList block predSet useBlockWeight wl.

(** The block a successor bbNum denotes. *)
Definition lookupBlock (n : nat) : option Block :=
  find (fun b => Nat.eqb (b_num b) n) blocks.

(** [isBlockVisited]: the visited set is the set of sequenced blocks. *)
Definition isBlockVisited (sq : list Block) (b : Block) : bool :=
  memNum (b_num b) (map b_num sq).

(** [getNextCandidateFromWorkList]: pops visited blocks and then the
    first unvisited one. *)
Fixpoint getNextCandidateFromWorkList (sq : list Block) (wl : list Block)
    : option Block * list Block :=
  match wl with
  | [] => (None, [])
  | c :: rest =>
      if isBlockVisited sq c then getNextCandidateFromWorkList sq rest
      else (Some c, rest)
  end.

(** One successor of the loop over [GetSucc] (non-layout traversal). *)
Definition addSucc (sq : list Block) (rw : list nat * list Block) (n : nat)
    : list nat * list Block :=
  let (readySet, wl) := rw in
  match lookupBlock n with
  | None => rw
  | Some succ =>
      if isBlockVisited sq succ then rw
      else if memNum (b_num succ) readySet then rw
      else (b_num succ :: readySet, addToBlockSequenceWorkList readySet wl succ)
  end.

Definition addSuccs (sq : list Block) (rw : list nat * list Block) (succs : list nat)
    : list nat * list Block :=
  fold_left (addSucc sq) succs rw.

(** The sweep over [fgFirstBB .. bbNext]; the loop over [fgAddCodeList]
    before it tests the current block, which is visited, and adds
    nothing. *)
Definition sweepBlock (sq : list Block) (rw : list nat * list Block) (b : Block)
    : list nat * list Block :=
  let (readySet, wl) := rw in
  if isBlockVisited sq b then rw
  else (b_num b :: readySet, addToBlockSequenceWorkList readySet wl b).

Definition sweep (sq : list Block) (rw : list nat * list Block) : list nat * list Block :=
  fold_left (sweepBlock sq) blocks rw.

Record SeqState := {
  ss_seq      : list Block;  (* blockSequence[0 .. bbSeqCount) *)
  ss_ready    : list nat;    (* readySet *)
  ss_wl       : list Block;  (* blockSequenceWorkList *)
  ss_verified : bool         (* verifiedAllBBs *)
}.

(** The outer loop of [setBlockSequence], one iteration per block, with
    [fuel] bounding the number of iterations. *)
Fixpoint seqLoop (fuel : nat) (block : Block) (st : SeqState) : list Block :=
  match fuel with
  | O => ss_seq st
  | S f =>
      let sq := ss_seq st ++ [block] in
      let (readySet, wl) := addSuccs sq (ss_ready st, ss_wl st) (b_succs block) in
      match getNextCandidateFromWorkList sq wl with
      | (Some nextBlock, wl1) =>
          seqLoop f nextBlock {| ss_seq := sq; ss_ready := readySet; ss_wl := wl1;
                                 ss_verified := ss_verified st |}
      | (None, wl1) =>
          if ss_verified st then sq
          else
            let (readySet2, wl2) := sweep sq (readySet, wl1) in
            match getNextCandidateFromWorkList sq wl2 with
            | (Some nextBlock, wl3) =>
                seqLoop f nextBlock {| ss_seq := sq; ss_ready := readySet2; ss_wl := wl3;
                                       ss_verified := true |}
            | (None, _) => sq
            end
      end
  end.

Definition setBlockSequence : list Block :=
  match blocks with
  | [] => []
  | first :: _ =>
      seqLoop (length blocks) first
        {| ss_seq := []; ss_ready := []; ss_wl := []; ss_verified := false |}
  end.

(** [s] is a normal successor of [p]. *)
Definition isSucc (p s : Block) : Prop := In (b_num s) (b_succs p).

(** Every block of [l] after the first follows one of its predecessors. *)
Definition ReachedPrefix (l : list Block) : Prop :=
  forall l1 b l2, l = l1 ++ b :: l2 -> l1 <> [] -> exists p, In p l1 /\ isSucc p b.

(** [l] holds every block of the graph that a block of [l] flows to. *)
Definition ClosedUnderSucc (l : list Block) : Prop :=
  forall p s, In p l -> In s blocks -> isSucc p s -> In s l.

End BlockSeq.

(** Example: an entry block 1 with no successors, then two blocks not
    reached from it: block 2, rarely run (weight 0), and block 3 of
    weight 100. *)
Definition seq_E : Block :=
  {| b_num := 1; b_weight := 100; b_rarely := false; b_succs := []; b_preds := [] |}.
Definition seq_U1 : Block :=
  {| b_num := 2; b_weight := 0; b_rarely := true; b_succs := []; b_preds := [] |}.
Definition seq_U2 : Block :=
  {| b_num := 3; b_weight := 100; b_rarely := false; b_succs := []; b_preds := [] |}.

(** A concrete [IsSubset] for the examples: inclusion of block-number
    sets represented as lists. *)
Definition seq_IsSubset (a b : list nat) : bool := forallb (fun n => memNum n b) a.

End BlockSequencing.

(* ------------------------------------------------------------------ *)
(** ** Move ordering on one flow edge: [resolveEdge] *)

Module EdgeResolution.

(** The [regNumber] values [resolveEdge] handles: [REG_NA], [REG_STK]
    (the variable's stack home) or a register. *)
Inductive Loc :=
| REG_NA
| REG_STK
| RegR (r : regNumber).

Definition Loc_eqb (a b : Loc) : bool :=
  match a, b with
  | REG_NA, REG_NA | REG_STK, REG_STK => true
  | RegR x, RegR y => Nat.eqb x y
  | _, _ => false
  end.

Inductive ResolveType :=
| ResolveSplit
| ResolveJoin
| ResolveCritical
| ResolveSharedCritical.

(** A [VarToRegMap], indexed by tracked variable index. *)
Definition VarToRegMap := nat -> Loc.

Definition getVarReg (m : VarToRegMap) (varIndex : nat) : Loc := m varIndex.

Definition setVarReg (m : VarToRegMap) (varIndex : nat) (reg : Loc) : VarToRegMap :=
  fun x => if Nat.eqb x varIndex then reg else m x.

(** A store into the [REG_COUNT]-sized arrays of [resolveEdge]. *)
Definition upd {A : Type} (f : nat -> A) (r : regNumber) (a : A) : nat -> A :=
  fun x => if Nat.eqb x r then a else f x.

(** A register mask as the ascending list of its registers: [m |= r],
    [m &= ~r] and [genFindLowestBit]. *)
Definition regMask := list regNumber.

Fixpoint insertSorted (r : regNumber) (m : regMask) : regMask :=
  match m with
  | [] => [r]
  | x :: rest => if Nat.leb r x then r :: m else x :: insertSorted r rest
  end.

Definition maskSet (r : regNumber) (m : regMask) : regMask :=
  if existsb (Nat.eqb r) m then m else insertSorted r m.

Definition maskClear (r : regNumber) (m : regMask) : regMask :=
  filter (fun x => negb (Nat.eqb x r)) m.

Definition genFindLowestBit (m : regMask) : option regNumber := hd_error m.

(** The code [resolveEdge] emits: [addResolution(block, insertionPoint,
    interval, toReg, fromReg)], the interval being named by its variable
    index, and [insertSwap(block, insertionPoint, lclNum1, reg1, lclNum2,
    reg2)]. *)
Inductive ResolutionMove :=
| addResolution (interval : nat) (toReg fromReg : Loc)
| insertSwap (lclNum1 : nat) (reg1 : regNumber) (lclNum2 : nat) (reg2 : regNumber).

(** The locals of the register-to-register part of [resolveEdge]; the
    code emitted so far is [emitted]. *)
Record MoveLocals := mkML {
  location        : nat -> Loc;
  source          : nat -> Loc;
  sourceIntervals : nat -> option nat;
  targetRegsToDo  : regMask;
  targetRegsReady : regMask;
  emitted         : list ResolutionMove
}.

Definition ml_setLoc (ml : MoveLocals) (r : regNumber) (x : Loc) : MoveLocals :=
  mkML (upd (location ml) r x) (source ml) (sourceIntervals ml)
       (targetRegsToDo ml) (targetRegsReady ml) (emitted ml).

Definition ml_setSource (ml : MoveLocals) (r : regNumber) (x : Loc) : MoveLocals :=
  mkML (location ml) (upd (source ml) r x) (sourceIntervals ml)
       (targetRegsToDo ml) (targetRegsReady ml) (emitted ml).

Definition ml_setSI (ml : MoveLocals) (r : regNumber) (x : option nat) : MoveLocals :=
  mkML (location ml) (source ml) (upd (sourceIntervals ml) r x)
       (targetRegsToDo ml) (targetRegsReady ml) (emitted ml).

Definition ml_setToDo (ml : MoveLocals) (m : regMask) : MoveLocals :=
  mkML (location ml) (source ml) (sourceIntervals ml) m (targetRegsReady ml) (emitted ml).

Definition ml_setReady (ml : MoveLocals) (m : regMask) : MoveLocals :=
  mkML (location ml) (source ml) (sourceIntervals ml) (targetRegsToDo ml) m (emitted ml).

Definition ml_emit (ml : MoveLocals) (mv : ResolutionMove) : MoveLocals :=
  mkML (location ml) (source ml) (sourceIntervals ml)
       (targetRegsToDo ml) (targetRegsReady ml) (emitted ml ++ [mv]).

(** The locals of the first loop of [resolveEdge], over [liveSet]. *)
Record ScanLocals := mkSL {
  sl_fromMap             : VarToRegMap;  (* fromVarToRegMap *)
  sl_toMap               : VarToRegMap;  (* toVarToRegMap *)
  sl_ml                  : MoveLocals;
  sl_stackToRegIntervals : nat -> option nat;
  sl_targetRegsFromStack : regMask
}.

(** One variable of the first loop: the map update of the edge kind,
    then a register-to-stack move emitted at once, a stack-to-register
    move recorded, or a register-to-register move recorded in
    [location], [source] and [sourceIntervals]. A map never holds
    [REG_NA] ([assert(fromReg < UCHAR_MAX && toReg < UCHAR_MAX)]). *)
Definition scanVar (resolveType : ResolveType) (sl : ScanLocals) (varIndex : nat)
    : ScanLocals :=
  let fromReg := getVarReg (sl_fromMap sl) varIndex in
  let toReg := getVarReg (sl_toMap sl) varIndex in
  if Loc_eqb fromReg toReg then sl
  else
    let fm := match resolveType with
              | ResolveJoin | ResolveSharedCritical => setVarReg (sl_fromMap sl) varIndex toReg
              | _ => sl_fromMap sl
              end in
    let tm := match resolveType with
              | ResolveSplit => setVarReg (sl_toMap sl) varIndex fromReg
              | _ => sl_toMap sl
              end in
    let ml := sl_ml sl in
    match fromReg, toReg with
    | REG_STK, RegR t =>
        mkSL fm tm ml (upd (sl_stackToRegIntervals sl) t (Some varIndex))
             (maskSet t (sl_targetRegsFromStack sl))
    | RegR f, REG_STK =>
        mkSL fm tm (ml_emit ml (addResolution varIndex REG_STK (RegR f)))
             (sl_stackToRegIntervals sl) (sl_targetRegsFromStack sl)
    | RegR f, RegR t =>
        let ml1 := ml_setSI (ml_setSource (ml_setLoc ml f (RegR f)) t (RegR f)) f (Some varIndex) in
        mkSL fm tm (ml_setToDo ml1 (maskSet t (targetRegsToDo ml1)))
             (sl_stackToRegIntervals sl) (sl_targetRegsFromStack sl)
    | _, _ => mkSL fm tm ml (sl_stackToRegIntervals sl) (sl_targetRegsFromStack sl)
    end.

(** The [targetCandidates] loop: every target whose register holds no
    value to be moved ([location[targetReg] == REG_NA]) is ready. *)
Definition initReady (ml : MoveLocals) : MoveLocals :=
  fold_left (fun ml0 targetReg =>
               if Loc_eqb (location ml0 targetReg) REG_NA
               then ml_setReady ml0 (maskSet targetReg (targetRegsReady ml0))
               else ml0)
            (targetRegsToDo ml) ml.

(** One iteration of the inner [while (targetRegsReady != RBM_NONE)]
    loop, for its lowest ready register [targetReg]. [None] is a failed
    [assert(interval != nullptr)]. *)
Definition readyMove (ml : MoveLocals) (targetReg : regNumber) : option MoveLocals :=
  let ml1 := ml_setReady (ml_setToDo ml (maskClear targetReg (targetRegsToDo ml)))
                         (maskClear targetReg (targetRegsReady ml)) in
  match source ml targetReg with
  | RegR sourceReg =>
      let fromReg := location ml sourceReg in
      match sourceIntervals ml sourceReg with
      | Some interval =>
          let ml2 := ml_setLoc (ml_setSI (ml_emit ml1 (addResolution interval (RegR targetReg) fromReg))
                                         sourceReg None) sourceReg REG_NA in
          if Loc_eqb fromReg (RegR sourceReg) && negb (Loc_eqb (source ml sourceReg) REG_NA)
          then Some (ml_setReady ml2 (maskSet sourceReg (targetRegsReady ml2)))
          else Some ml2
      | None => None
      end
  | _ => None
  end.

Fixpoint drainReady (fuel : nat) (ml : MoveLocals) : option MoveLocals :=
  match genFindLowestBit (targetRegsReady ml) with
  | None => Some ml
  | Some targetReg =>
      match fuel with
      | O => None
      | S f =>
          match readyMove ml targetReg with
          | Some ml' => drainReady f ml'
          | None => None
          end
      end
  end.

(** [location[source[reg]]]; every register of [targetRegsToDo] has a
    [source]. *)
Definition locationOfSource (ml : MoveLocals) (reg : regNumber) : Loc :=
  match source ml reg with
  | RegR s => location ml s
  | _ => REG_NA
  end.

(** The search of [targetRegsToDo] for the register [otherTargetReg] the
    value now in [targetReg] has to go to. *)
Definition findOtherTarget (ml : MoveLocals) (targetReg : regNumber) : Loc :=
  match find (fun nextReg => Loc_eqb (locationOfSource ml nextReg) (RegR targetReg))
             (targetRegsToDo ml) with
  | Some r => RegR r
  | None => REG_NA
  end.

Section CycleStep.

(** [_TARGET_XARCH_] (x86 and x64), and [emitter::isFloatReg]. *)
Variable isXarch : bool.
Variable isFloatReg : regNumber -> bool.

(** The [if (targetRegsToDo != RBM_NONE)] part of the outer loop, run
    when no target is ready: its lowest target is already in place, or
    the value in it is swapped out (integer registers on x86/x64), moved
    to [tempReg], or, without a [tempReg], spilled to its stack home.
    [None] is a failed assertion on a [sourceIntervals] entry or
    [otherTargetReg]. *)
Definition cycleStep (tempRegInt tempRegFlt : Loc) (ml : MoveLocals) : option MoveLocals :=
  match genFindLowestBit (targetRegsToDo ml) with
  | None => Some ml
  | Some targetReg =>
      match source ml targetReg with
      | RegR sourceReg =>
          let fromReg := location ml sourceReg in
          if Loc_eqb (RegR targetReg) fromReg then
            Some (ml_setToDo ml (maskClear targetReg (targetRegsToDo ml)))
          else
            let tempReg := if isFloatReg targetReg then tempRegFlt
                           else if isXarch then REG_NA else tempRegInt in
            let useSwap := negb (isFloatReg targetReg) && isXarch in
            if useSwap || Loc_eqb tempReg REG_NA then
              match fromReg with
              | RegR fromR =>
                  let '(otherTargetReg, toDo1) :=
                    if Loc_eqb (locationOfSource ml fromR) (RegR targetReg)
                    then (RegR fromR,
                          if useSwap then maskClear fromR (targetRegsToDo ml)
                          else targetRegsToDo ml)
                    else (findOtherTarget ml targetReg, targetRegsToDo ml) in
                  match otherTargetReg with
                  | RegR other =>
                      match source ml other with
                      | RegR otherSrc =>
                          match sourceIntervals ml otherSrc, sourceIntervals ml sourceReg with
                          | Some otherInterval, Some interval =>
                              let ml1 :=
                                if useSwap then
                                  ml_setLoc
                                    (ml_setLoc
                                       (ml_emit ml (insertSwap otherInterval targetReg interval fromR))
                                       sourceReg REG_NA)
                                    otherSrc (RegR fromR)
                                else
                                  let ml2 := ml_setLoc (ml_emit ml (addResolution otherInterval REG_STK
                                                                     (RegR targetReg)))
                                                       otherSrc REG_STK in
                                  let ml3 := ml_setLoc (ml_emit ml2 (addResolution interval (RegR targetReg)
                                                                      (RegR fromR)))
                                                       sourceReg REG_NA in
                                  ml_setReady ml3 (maskSet fromR (targetRegsReady ml3)) in
                              Some (ml_setToDo ml1 (maskClear targetReg toDo1))
                          | _, _ => None
                          end
                      | _ => None
                      end
                  | _ => None
                  end
              | _ => None
              end
            else
              match sourceIntervals ml targetReg with
              | Some interval =>
                  let ml1 := ml_setLoc (ml_emit ml (addResolution interval tempReg (RegR targetReg)))
                                       targetReg tempReg in
                  Some (ml_setReady ml1 (maskSet targetReg (targetRegsReady ml1)))
              | None => None
              end
      | _ => None
      end
  end.

(** The outer [while (targetRegsToDo != RBM_NONE)] loop. *)
Fixpoint regMoves (tempRegInt tempRegFlt : Loc) (fuel : nat) (ml : MoveLocals)
    : option MoveLocals :=
  match targetRegsToDo ml with
  | [] => Some ml
  | _ :: _ =>
      match fuel with
      | O => None
      | S f =>
          match drainReady (length (targetRegsToDo ml)) ml with
          | None => None
          | Some ml1 =>
              match targetRegsToDo ml1 with
              | [] => Some ml1
              | _ :: _ =>
                  match cycleStep tempRegInt tempRegFlt ml1 with
                  | Some ml2 => regMoves tempRegInt tempRegFlt f ml2
                  | None => None
                  end
              end
          end
      end
  end.

End CycleStep.

(** The last loop: a load of each [targetRegsFromStack] register from the
    stack home of its variable. *)
Definition stackLoads (stackToRegIntervals : nat -> option nat) (fromStack : regMask)
    : option (list ResolutionMove) :=
  fold_right (fun targetReg acc =>
                match acc, stackToRegIntervals targetReg with
                | Some l, Some interval => Some (addResolution interval (RegR targetReg) REG_STK :: l)
                | _, _ => None
                end)
             (Some []) fromStack.

(** [getTempRegForResolution] (without the ARM double case and the
    stress modes): the lowest register of [allRegs(type)] that no
    variable live into the target block occupies on either side. *)
Definition getTempRegForResolution (allRegs : regMask) (fromMap toMap : VarToRegMap)
    (toLiveIn : list nat) : Loc :=
  let freeRegs :=
    fold_left (fun freeRegs varIndex =>
                 let free1 := match getVarReg fromMap varIndex with
                              | RegR r => maskClear r freeRegs
                              | _ => freeRegs
                              end in
                 match getVarReg toMap varIndex with
                 | RegR r => maskClear r free1
                 | _ => free1
                 end)
              toLiveIn allRegs in
  match genFindLowestBit freeRegs with
  | Some r => RegR r
  | None => REG_NA
  end.

Section ResolveEdgeDef.

Variable isXarch : bool.
Variable isFloatReg : regNumber -> bool.
(** [allRegs(TYP_INT)], [allRegs(TYP_FLOAT)] and
    [compiler->compFloatingPointUsed]. *)
Variable allRegsInt allRegsFlt : regMask.
Variable compFloatingPointUsed : bool.

Definition isSharedCritical (rt : ResolveType) : bool :=
  match rt with ResolveSharedCritical => true | _ => false end.

Definition ml0 : MoveLocals :=
  mkML (fun _ => REG_NA) (fun _ => REG_NA) (fun _ => None) [] [] [].

(** [resolveEdge] (for targets without the ARM32 register pairs):
    [fromMap] is the out map of the from block, [toMap] the in map of the
    to block (the shared critical map for [ResolveSharedCritical]),
    [toLiveIn] the live-in set of the to block and [liveSet] the
    variables to resolve, in ascending order. The result is the two maps
    after the updates and the code emitted, in order. *)
Definition resolveEdge (resolveType : ResolveType) (fromMap toMap : VarToRegMap)
    (toLiveIn liveSet : list nat)
    : option (VarToRegMap * VarToRegMap * list ResolutionMove) :=
  let tempRegInt :=
    if isXarch then REG_NA
    else if isSharedCritical resolveType then REG_NA
    else getTempRegForResolution allRegsInt fromMap toMap toLiveIn in
  let tempRegFlt :=
    if compFloatingPointUsed && negb (isSharedCritical resolveType)
    then getTempRegForResolution allRegsFlt fromMap toMap toLiveIn
    else REG_NA in
  let sl := fold_left (scanVar resolveType) liveSet
                      (mkSL fromMap toMap ml0 (fun _ => None) []) in
  let ml := initReady (sl_ml sl) in
  match regMoves isXarch isFloatReg tempRegInt tempRegFlt
                 (2 * length (targetRegsToDo ml) + 1) ml with
  | None => None
  | Some ml' =>
      match stackLoads (sl_stackToRegIntervals sl) (sl_targetRegsFromStack sl) with
      | None => None
      | Some loads => Some (sl_fromMap sl, sl_toMap sl, emitted ml' ++ loads)
      end
  end.

End ResolveEdgeDef.

(** What the emitted code does: a machine location is a register or the
    stack home of a variable, and holds the value of a variable (or
    anything else). [addResolution(interval, toReg, fromReg)] copies the
    variable from [fromReg] to [toReg], [REG_STK] standing for its home;
    [insertSwap] exchanges two registers. *)
Inductive MLoc := MReg (r : regNumber) | MHome (v : nat).

Definition MLoc_eqb (a b : MLoc) : bool :=
  match a, b with
  | MReg x, MReg y => Nat.eqb x y
  | MHome x, MHome y => Nat.eqb x y
  | _, _ => false
  end.

Definition Machine := MLoc -> option nat.

Definition mloc (v : nat) (l : Loc) : option MLoc :=
  match l with
  | RegR r => Some (MReg r)
  | REG_STK => Some (MHome v)
  | REG_NA => None
  end.

Definition readM (M : Machine) (v : nat) (l : Loc) : option nat :=
  match mloc v l with Some x => M x | None => None end.

Definition writeM (M : Machine) (v : nat) (l : Loc) (val : option nat) : Machine :=
  match mloc v l with
  | Some x => fun y => if MLoc_eqb y x then val else M y
  | None => M
  end.

Definition execMove (M : Machine) (mv : ResolutionMove) : Machine :=
  match mv with
  | addResolution v toReg fromReg => writeM M v toReg (readM M v fromReg)
  | insertSwap _ r1 _ r2 =>
      fun y => if MLoc_eqb y (MReg r1) then M (MReg r2)
               else if MLoc_eqb y (MReg r2) then M (MReg r1)
               else M y
  end.

Definition execMoves (M : Machine) (l : list ResolutionMove) : Machine :=
  fold_left execMove l M.

(** The registers a sequence of moves writes. *)
Definition writtenRegs (l : list ResolutionMove) : list regNumber :=
  flat_map (fun mv => match mv with
                      | addResolution _ (RegR r) _ => [r]
                      | addResolution _ _ _ => []
                      | insertSwap _ r1 _ r2 => [r1; r2]
                      end) l.

(** Example edge: variables 0 and 1 swap the integer registers 0 and 1,
    variables 2 and 3 swap the floating-point registers 10 and 11;
    registers 0-3 are integer registers, 10-13 floating-point ones. *)
Definition ex_isFloatReg (r : regNumber) : bool := Nat.leb 10 r.
Definition ex_allRegsInt : regMask := [0; 1; 2; 3].
Definition ex_allRegsFlt : regMask := [10; 11; 12; 13].
Definition ex_fromMap : VarToRegMap :=
  fun v => match v with 0 => RegR 0 | 1 => RegR 1 | 2 => RegR 10 | 3 => RegR 11 | _ => REG_STK end.
Definition ex_toMap : VarToRegMap :=
  fun v => match v with 0 => RegR 1 | 1 => RegR 0 | 2 => RegR 11 | 3 => RegR 10 | _ => REG_STK end.
Definition ex_live : list nat := [0; 1; 2; 3].
(** The machine on entry to the edge: each variable in its [ex_fromMap]
    register. *)
Definition ex_M0 : Machine :=
  fun l => match l with
           | MReg 0 => Some 0 | MReg 1 => Some 1 | MReg 10 => Some 2 | MReg 11 => Some 3
           | _ => None
           end.

End EdgeResolution.

(* ================================================================== *)
(** * Resolution over the flow graph: [resolveEdges] *)
(* ================================================================== *)

Module ResolutionPass.
Import EdgeResolution.

(** The maps part of [resolveEdge]: its first loop is the only code of
    [resolveEdge] that writes [fromVarToRegMap] and [toVarToRegMap]. *)
Definition resolveEdgeMaps (resolveType : ResolveType) (fromMap toMap : VarToRegMap)
    (liveSet : list nat) : VarToRegMap * VarToRegMap :=
  let sl := fold_left (scanVar resolveType) liveSet (mkSL fromMap toMap ml0 (fun _ => None) []) in
  (sl_fromMap sl, sl_toMap sl).

(** A [VARSET_TP] as the ascending list of its variable indices. *)
Definition varMember (v : nat) (s : list nat) : bool := existsb (Nat.eqb v) s.
Definition varIntersection (a b : list nat) : list nat := filter (fun v => varMember v b) a.
Definition varUnion (a b : list nat) : list nat := fold_left (fun acc v => maskSet v acc) b a.
Definition varIsEmpty (s : list nat) : bool := match s with [] => true | _ => false end.

(** What [resolveEdges] reads and writes: [fgBBNumMax], the critical
    edges split so far ([(fromBlock, toBlock, newBlock)]), whether a new
    block was left without code, the live-in and live-out sets, the
    arrays [inVarToRegMaps] and [outVarToRegMaps], the
    [sharedCriticalVarToRegMap] and the [splitBBNumToTargetBBNumMap]. *)
Record RState := mkRS {
  rs_bbNumMax  : nat;
  rs_splits    : list (nat * nat * nat);
  rs_empty     : nat -> bool;
  rs_liveIn    : nat -> list nat;
  rs_liveOut   : nat -> list nat;
  rs_inMaps    : nat -> VarToRegMap;
  rs_outMaps   : nat -> VarToRegMap;
  rs_shared    : VarToRegMap;
  rs_splitInfo : nat -> nat * nat
}.

(** A [VarToRegMap] is a pointer: the in or out map of a block, or the
    shared critical map. *)
Inductive MapRef := InMap (b : nat) | OutMap (b : nat) | SharedMap.

Definition derefMap (st : RState) (r : MapRef) : VarToRegMap :=
  match r with
  | InMap b => rs_inMaps st b
  | OutMap b => rs_outMaps st b
  | SharedMap => rs_shared st
  end.

Definition storeMap (st : RState) (r : MapRef) (m : VarToRegMap) : RState :=
  match r with
  | InMap b => mkRS (rs_bbNumMax st) (rs_splits st) (rs_empty st) (rs_liveIn st) (rs_liveOut st)
                    (upd (rs_inMaps st) b m) (rs_outMaps st) (rs_shared st) (rs_splitInfo st)
  | OutMap b => mkRS (rs_bbNumMax st) (rs_splits st) (rs_empty st) (rs_liveIn st) (rs_liveOut st)
                     (rs_inMaps st) (upd (rs_outMaps st) b m) (rs_shared st) (rs_splitInfo st)
  | SharedMap => mkRS (rs_bbNumMax st) (rs_splits st) (rs_empty st) (rs_liveIn st) (rs_liveOut st)
                      (rs_inMaps st) (rs_outMaps st) m (rs_splitInfo st)
  end.

Section Pass.

(** The flow graph before resolution: its edges [(pred, succ)], its
    blocks in layout order, [bbNumMaxBeforeResolution] and [fgFirstBB];
    [switchRegs] gives the registers the [GT_SWITCH_TABLE] ending a
    block reads (targets other than ARM64). *)
Variable flowEdges0 : list (nat * nat).
Variable blocks0 : list nat.
Variable bbNumMaxBeforeResolution : nat.
Variable fgFirstBB : nat.
Variable switchRegs : nat -> regMask.

Definition succs0 (b : nat) : list nat :=
  map snd (filter (fun e => Nat.eqb (fst e) b) flowEdges0).
Definition preds0 (s : nat) : list nat :=
  map fst (filter (fun e => Nat.eqb (snd e) s) flowEdges0).

Definition splitOf (st : RState) (b s : nat) : option nat :=
  match find (fun e => match e with (b', s', _) => Nat.eqb b' b && Nat.eqb s' s end) (rs_splits st) with
  | Some (_, _, n) => Some n
  | None => None
  end.

Definition splitEdgeOf (st : RState) (n : nat) : option (nat * nat) :=
  match find (fun e => match e with (_, _, n') => Nat.eqb n' n end) (rs_splits st) with
  | Some (b, s, _) => Some (b, s)
  | None => None
  end.

(** Modelled from the spec: the successors and predecessors of a block
    ([GetSucc], [NumSucc], [bbPreds]); a split edge is replaced, in
    place, by the new block. [GetUniquePred] is [nullptr] for
    [fgFirstBB], as the inline test of [handleOutgoingCriticalEdges]
    ([bbPreds->flNext == nullptr && succBlock != fgFirstBB]) has it. *)
Definition GetSuccs (st : RState) (b : nat) : list nat :=
  if Nat.leb b bbNumMaxBeforeResolution
  then map (fun s => match splitOf st b s with Some n => n | None => s end) (succs0 b)
  else match splitEdgeOf st b with Some (_, s) => [s] | None => [] end.

Definition GetPreds (st : RState) (s : nat) : list nat :=
  if Nat.leb s bbNumMaxBeforeResolution
  then map (fun b => match splitOf st b s with Some n => n | None => b end) (preds0 s)
  else match splitEdgeOf st s with Some (b, _) => [b] | None => [] end.

Definition NumSucc (st : RState) (b : nat) : nat := length (GetSuccs st b).
Definition GetSucc (st : RState) (b i : nat) : nat := nth i (GetSuccs st b) 0.

Definition GetUniquePred (st : RState) (b : nat) : option nat :=
  if Nat.eqb b fgFirstBB then None
  else match GetPreds st b with [p] => Some p | _ => None end.

Definition GetUniqueSucc (st : RState) (b : nat) : option nat :=
  match GetSuccs st b with [s] => Some s | _ => None end.

(** The edges of the flow graph: the original blocks, then the new ones. *)
Definition flowEdges (st : RState) : list (nat * nat) :=
  flat_map (fun b => map (pair b) (GetSuccs st b))
           (blocks0 ++ seq (S bbNumMaxBeforeResolution) (rs_bbNumMax st - bbNumMaxBeforeResolution)).

(** [blockInfo[].hasCriticalOutEdge], [hasCriticalInEdge] and
    [hasCriticalEdges], as [setBlockSequence] computes them. *)
Definition hasCriticalOutEdge (st : RState) (b : nat) : bool :=
  Nat.ltb 1 (NumSucc st b) &&
  existsb (fun s => match GetUniquePred st s with None => true | Some _ => false end) (GetSuccs st b).

Definition hasCriticalInEdge (st : RState) (b : nat) : bool :=
  match GetUniquePred st b with
  | None => existsb (fun p => Nat.ltb 1 (NumSucc st p)) (GetPreds st b)
  | Some _ => false
  end.

Definition hasCriticalEdges (st : RState) : bool :=
  existsb (fun b => hasCriticalInEdge st b || hasCriticalOutEdge st b) blocks0.

(** [getInVarToRegMap] and [getOutVarToRegMap]: a block added by
    resolution shares the map of the block its [SplitEdgeInfo] names. *)
Definition getInVarToRegMapRef (st : RState) (bbNum : nat) : MapRef :=
  if Nat.ltb bbNumMaxBeforeResolution bbNum then
    let (fromBBNum, toBBNum) := rs_splitInfo st bbNum in
    if Nat.eqb fromBBNum 0 then InMap toBBNum else OutMap fromBBNum
  else InMap bbNum.

Definition getOutVarToRegMapRef (st : RState) (bbNum : nat) : MapRef :=
  if Nat.ltb bbNumMaxBeforeResolution bbNum then
    let (fromBBNum, toBBNum) := rs_splitInfo st bbNum in
    if Nat.eqb toBBNum 0 then OutMap fromBBNum else InMap toBBNum
  else OutMap bbNum.

Definition getInVarToRegMap (st : RState) (bbNum : nat) : VarToRegMap :=
  derefMap st (getInVarToRegMapRef st bbNum).
Definition getOutVarToRegMap (st : RState) (bbNum : nat) : VarToRegMap :=
  derefMap st (getOutVarToRegMapRef st bbNum).

(** Modelled from the spec: [fgSplitEdge] links a new block, numbered
    [fgBBNumMax + 1], into the graph in place of the edge; [empty] tells
    whether resolution leaves it without code. *)
Definition fgSplitEdge (st : RState) (fromBlock toBlock : nat) (empty : bool) : RState :=
  let n := S (rs_bbNumMax st) in
  mkRS n ((fromBlock, toBlock, n) :: rs_splits st) (upd (rs_empty st) n empty)
       (rs_liveIn st) (rs_liveOut st) (rs_inMaps st) (rs_outMaps st) (rs_shared st) (rs_splitInfo st).

(** [resolveEdge] on the maps and the graph: a split edge writes the to
    map, a join or shared critical edge the from map; a critical edge
    gets a new block, with a move for each variable whose locations
    differ. *)
Definition resolveEdgeSt (st : RState) (fromBlock toBlock : nat) (rt : ResolveType)
    (liveSet : list nat) : RState :=
  let fromRef := getOutVarToRegMapRef st fromBlock in
  let toRef := match rt with
               | ResolveSharedCritical => SharedMap
               | _ => getInVarToRegMapRef st toBlock
               end in
  let fromMap := derefMap st fromRef in
  let toMap := derefMap st toRef in
  let maps := resolveEdgeMaps rt fromMap toMap liveSet in
  match rt with
  | ResolveSplit => storeMap st toRef (snd maps)
  | ResolveJoin | ResolveSharedCritical => storeMap st fromRef (fst maps)
  | ResolveCritical =>
      fgSplitEdge st fromBlock toBlock
        (negb (existsb (fun v => negb (Loc_eqb (getVarReg fromMap v) (getVarReg toMap v))) liveSet))
  end.

(** The locals of [handleOutgoingCriticalEdges]. *)
Record CritLocals := mkCL {
  cl_same          : list nat;     (* sameResolutionSet *)
  cl_diff          : list nat;     (* diffResolutionSet *)
  cl_sameMap       : VarToRegMap;  (* sameVarToRegMap *)
  cl_sameWriteRegs : regMask;
  cl_diffReadRegs  : regMask
}.

(** The loop over the successors for one variable: [sameToReg],
    [maybeSameLivePaths] and [liveOnlyAtSplitEdge] at its end. *)
Fixpoint scanSuccs (st : RState) (v : nat) (succs : list nat) (sameToReg : Loc)
    (maybeSameLivePaths liveOnlyAtSplitEdge : bool) : Loc * bool * bool :=
  match succs with
  | [] => (sameToReg, maybeSameLivePaths, liveOnlyAtSplitEdge)
  | succBlock :: rest =>
      if negb (varMember v (rs_liveIn st succBlock))
      then scanSuccs st v rest sameToReg true liveOnlyAtSplitEdge
      else
        let lo := if liveOnlyAtSplitEdge
                  then Nat.eqb (length (GetPreds st succBlock)) 1 && negb (Nat.eqb succBlock fgFirstBB)
                  else false in
        let toReg := getVarReg (getInVarToRegMap st succBlock) v in
        if Loc_eqb sameToReg REG_NA then scanSuccs st v rest toReg maybeSameLivePaths lo
        else if Loc_eqb toReg sameToReg then scanSuccs st v rest sameToReg maybeSameLivePaths lo
        else (REG_NA, maybeSameLivePaths, lo)
  end.

(** One variable of [outResolutionSet]: into [diffResolutionSet], into
    [sameResolutionSet], or neither when it already is where every
    successor wants it. *)
Definition classifyVar (st : RState) (block : nat) (outVarToRegMap : VarToRegMap)
    (liveOutRegs : regMask) (cl : CritLocals) (v : nat) : CritLocals :=
  let fromReg := getVarReg outVarToRegMap v in
  let '(sameToReg0, maybeSameLivePaths, liveOnlyAtSplitEdge) :=
    scanSuccs st v (GetSuccs st block) REG_NA false true in
  let sameToReg :=
    match sameToReg0 with
    | RegR r =>
        if (maybeSameLivePaths && (existsb (Nat.eqb r) liveOutRegs || existsb (Nat.eqb r) (cl_sameWriteRegs cl)))
           || existsb (Nat.eqb r) (switchRegs block)
           || (liveOnlyAtSplitEdge && maybeSameLivePaths)
        then REG_NA else sameToReg0
    | _ => sameToReg0
    end in
  if Loc_eqb sameToReg REG_NA then
    mkCL (cl_same cl) (maskSet v (cl_diff cl)) (cl_sameMap cl) (cl_sameWriteRegs cl)
         (match fromReg with RegR r => maskSet r (cl_diffReadRegs cl) | _ => cl_diffReadRegs cl end)
  else if negb (Loc_eqb sameToReg fromReg) then
    mkCL (maskSet v (cl_same cl)) (cl_diff cl) (setVarReg (cl_sameMap cl) v sameToReg)
         (match sameToReg with RegR r => maskSet r (cl_sameWriteRegs cl) | _ => cl_sameWriteRegs cl end)
         (cl_diffReadRegs cl)
  else cl.

(** One successor of the last loop of [handleOutgoingCriticalEdges]. *)
Definition critEdgeStep (block : nat) (diffResolutionSet : list nat) (st : RState)
    (succIndex : nat) : RState :=
  let succBlock := GetSucc st block succIndex in
  if Nat.eqb (length (GetPreds st succBlock)) 1 && negb (Nat.eqb succBlock fgFirstBB) then st
  else
    let succInVarToRegMap := getInVarToRegMap st succBlock in
    let outVarToRegMap := getOutVarToRegMap st block in
    let edgeResolutionSet :=
      filter (fun v => negb (Loc_eqb (getVarReg outVarToRegMap v) (getVarReg succInVarToRegMap v)))
             (varIntersection diffResolutionSet (rs_liveIn st succBlock)) in
    if varIsEmpty edgeResolutionSet then st
    else resolveEdgeSt st block succBlock ResolveCritical edgeResolutionSet.

(** [handleOutgoingCriticalEdges] (targets other than ARM64), for the
    resolution candidates [cand]. *)
Definition handleOutgoingCriticalEdges (cand : list nat) (st : RState) (block : nat) : RState :=
  let outResolutionSet := varIntersection (rs_liveOut st block) cand in
  if varIsEmpty outResolutionSet then st else
  let outVarToRegMap := getOutVarToRegMap st block in
  let succCount := NumSucc st block in
  let liveOutRegs :=
    fold_left (fun m v => match getVarReg outVarToRegMap v with RegR r => maskSet r m | _ => m end)
              (rs_liveOut st block) [] in
  let cl := fold_left (classifyVar st block outVarToRegMap liveOutRegs) outResolutionSet
                      (mkCL [] [] (rs_shared st) [] []) in
  let st1 := storeMap st SharedMap (cl_sameMap cl) in
  let '(st2, diffResolutionSet) :=
    if varIsEmpty (cl_same cl) then (st1, cl_diff cl)
    else if existsb (fun r => existsb (Nat.eqb r) (cl_diffReadRegs cl)) (cl_sameWriteRegs cl)
    then (st1, varUnion (cl_diff cl) (cl_same cl))
    else (resolveEdgeSt st1 block 0 ResolveSharedCritical (cl_same cl), cl_diff cl) in
  if varIsEmpty diffResolutionSet then st2
  else fold_left (critEdgeStep block diffResolutionSet) (seq 0 succCount) st2.

(** [while (uniquePredBlock->bbNum > bbNumMaxBeforeResolution)
    uniquePredBlock = uniquePredBlock->GetUniquePred(compiler)];
    [None] is a failed [noway_assert]. *)
Fixpoint walkUniquePred (fuel : nat) (st : RState) (b : nat) : option nat :=
  if Nat.ltb bbNumMaxBeforeResolution b then
    match fuel with
    | O => None
    | S f => match GetUniquePred st b with Some p => walkUniquePred f st p | None => None end
    end
  else Some b.

(** One block of the second loop of [resolveEdges]: split resolution at
    its top, then join resolution at its end. *)
Definition resolveBlock (cand : list nat) (st : RState) (block : nat) : option RState :=
  if Nat.ltb bbNumMaxBeforeResolution block then Some st else
  let succCount := NumSucc st block in
  let inResolutionSet := varIntersection (rs_liveIn st block) cand in
  let st1 :=
    if varIsEmpty inResolutionSet then Some st
    else match GetUniquePred st block with
         | None => Some st
         | Some p =>
             match walkUniquePred (rs_bbNumMax st) st p with
             | Some p' => Some (resolveEdgeSt st p' block ResolveSplit inResolutionSet)
             | None => None
             end
         end in
  match st1 with
  | None => None
  | Some st1 =>
      if Nat.eqb succCount 1 then
        let succBlock := GetSucc st1 block 0 in
        match GetUniquePred st1 succBlock with
        | Some _ => Some st1
        | None =>
            let outResolutionSet := varIntersection (rs_liveIn st1 succBlock) cand in
            if varIsEmpty outResolutionSet then Some st1
            else Some (resolveEdgeSt st1 block succBlock ResolveJoin outResolutionSet)
        end
      else Some st1
  end.

(** The [do ... while] walks of the fix-up loop over the new blocks. *)
Fixpoint walkSucc (fuel : nat) (st : RState) (b : nat) : option nat :=
  match fuel with
  | O => None
  | S f =>
      match GetUniqueSucc st b with
      | None => None
      | Some s => if Nat.ltb bbNumMaxBeforeResolution s && rs_empty st s then walkSucc f st s else Some s
      end
  end.

Fixpoint walkPred (fuel : nat) (st : RState) (b : nat) : option nat :=
  match fuel with
  | O => None
  | S f =>
      match GetUniquePred st b with
      | None => None
      | Some p => if Nat.ltb bbNumMaxBeforeResolution p && rs_empty st p then walkPred f st p else Some p
      end
  end.

(** One new block of the fix-up loop: its [SplitEdgeInfo], and its
    live-in and live-out sets set to the live-in set of its successor. *)
Definition fixupSplitBlock (st : RState) (block : nat) : option RState :=
  match walkSucc (S (rs_bbNumMax st)) st block, walkPred (S (rs_bbNumMax st)) st block with
  | Some succBlock, Some predBlock =>
      let info :=
        if rs_empty st block
        then (if Nat.ltb bbNumMaxBeforeResolution predBlock then (0, succBlock) else (predBlock, 0))
        else (predBlock, succBlock) in
      Some (mkRS (rs_bbNumMax st) (rs_splits st) (rs_empty st)
                 (upd (rs_liveIn st) block (rs_liveIn st succBlock))
                 (upd (rs_liveOut st) block (rs_liveIn st succBlock))
                 (rs_inMaps st) (rs_outMaps st) (rs_shared st)
                 (upd (rs_splitInfo st) block info))
  | _, _ => None
  end.

Definition optFold (f : RState -> nat -> option RState) (l : list nat) (st : RState) : option RState :=
  fold_left (fun acc x => match acc with Some s => f s x | None => None end) l (Some st).

(** [resolveEdges]: [resolutionCandidateVars] (the variables live into
    some block) and [splitOrSpilledVars] give the candidates. The loops
    over the blocks visit the original blocks in layout order and skip
    the new ones. *)
Definition resolveEdges (resolutionCandidateVars splitOrSpilledVars : list nat) (st0 : RState)
    : option RState :=
  let cand := varIntersection resolutionCandidateVars splitOrSpilledVars in
  if varIsEmpty cand then Some st0 else
  let st1 :=
    if hasCriticalEdges st0
    then fold_left (fun st block =>
                      if Nat.ltb bbNumMaxBeforeResolution block then st
                      else if hasCriticalOutEdge st0 block then handleOutgoingCriticalEdges cand st block
                      else st) blocks0 st0
    else st0 in
  match optFold (resolveBlock cand) blocks0 st1 with
  | None => None
  | Some st2 =>
      if Nat.ltb bbNumMaxBeforeResolution (rs_bbNumMax st2)
      then optFold fixupSplitBlock
                   (seq (S bbNumMaxBeforeResolution) (rs_bbNumMax st2 - bbNumMaxBeforeResolution)) st2
      else Some st2
  end.

End Pass.

(** Example: blocks 1..4 with edges 1->2, 1->3, 2->3, 2->4, 3->4; the
    edges 1->3, 2->3 and 2->4 are critical. Variables 0 and 1 are both
    resolution candidates and change location along several edges. *)
Definition ex_flowEdges : list (nat * nat) := [(1, 2); (1, 3); (2, 3); (2, 4); (3, 4)].
Definition ex_blocks : list nat := [1; 2; 3; 4].
Definition ex_liveIn (b : nat) : list nat :=
  match b with 2 | 3 => [0; 1] | 4 => [0] | _ => [] end.
Definition ex_liveOut (b : nat) : list nat :=
  match b with 1 | 2 => [0; 1] | 3 => [0] | _ => [] end.
Definition ex_inMaps (b : nat) : VarToRegMap :=
  fun v => match b, v with
           | 2, 0 => RegR 0 | 2, 1 => RegR 1
           | 3, 0 => RegR 1 | 3, 1 => REG_STK
           | 4, 0 => RegR 2
           | _, _ => REG_NA end.
Definition ex_outMaps (b : nat) : VarToRegMap :=
  fun v => match b, v with
           | 1, 0 | 2, 0 => RegR 0 | 1, 1 | 2, 1 => RegR 1
           | 3, 0 => RegR 1
           | _, _ => REG_NA end.
Definition ex_st0 : RState :=
  mkRS 4 [] (fun _ => false) ex_liveIn ex_liveOut ex_inMaps ex_outMaps
       (fun _ => REG_NA) (fun _ => (0, 0)).

End ResolutionPass.

(* ================================================================== *)
(** * Register masks and the register file *)
(* ================================================================== *)

Module RegMaskOps.
Import EdgeResolution.

(** A [regMaskTP]: a 64-bit unsigned mask, bit [r] standing for
    register [r]. *)
Definition regMaskTP := Z.
Definition RBM_NONE : regMaskTP := 0%Z.
Definition MASK_MOD : Z := (2 ^ 64)%Z.

(** [genRegMask(reg)]: the mask of the single register [reg]. *)
Definition genRegMask (reg : regNumber) : regMaskTP := Z.shiftl 1 (Z.of_nat reg).

(** [genFindLowestBit] (utils.h, outside the sources):
    [value & (0 - value)], the subtraction wrapping modulo 2^64. *)
Definition genFindLowestBit (value : regMaskTP) : regMaskTP :=
  Z.land value ((0 - value) mod MASK_MOD).

(** [genRegNumFromMask] (outside the sources): the register of a
    one-register mask, the base-2 logarithm of the mask. *)
Definition genRegNumFromMask (mask : regMaskTP) : regNumber := Z.to_nat (Z.log2 mask).

(** [mask &= ~bit] on a 64-bit mask. *)
Definition maskRemove (mask bit : regMaskTP) : regMaskTP :=
  Z.land mask (Z.lnot bit mod MASK_MOD).

(** [genCountBits] (utils.h, outside the sources): the number of set
    bits of a 64-bit mask. *)
Definition genCountBits (mask : regMaskTP) : nat :=
  length (filter (fun i => Z.testbit mask (Z.of_nat i)) (seq 0 64)).

(** [getConstrainedRegMask]. *)
Definition getConstrainedRegMask (regMaskActual regMaskConstraint : regMaskTP)
    (minRegCount : nat) : regMaskTP :=
  let newMask := Z.land regMaskActual regMaskConstraint in
  if Nat.leb minRegCount (genCountBits newMask) then newMask else regMaskActual.

(** [LsraStressLimitRegs] (lsra.h): the two bits of [COMPlus_JitStressRegs]
    that select the register-limiting stress mode. *)
Inductive LsraStressLimitRegs :=
| LSRA_LIMIT_NONE
| LSRA_LIMIT_CALLEE
| LSRA_LIMIT_CALLER
| LSRA_LIMIT_SMALL_SET.

(** What [stressLimitRegs] reads of its RefPosition. *)
Record LimitRef := mkLimitRef {
  lr_minRegCandidateCount : nat;
  lr_isFixedRegRef        : bool;
  lr_registerAssignment   : regMaskTP
}.

Section StressLimit.

(** The target's callee-saved and callee-trash masks, the two small
    register sets of the stress mode, and [compiler->opts.compDbgEnC]. *)
Variable RBM_CALLEE_SAVED RBM_CALLEE_TRASH : regMaskTP.
Variable LsraLimitSmallIntSet LsraLimitSmallFPSet : regMaskTP.
Variable compDbgEnC : bool.

(** [stressLimitRegs(refPosition, mask)], for the stress mode
    [getStressLimitRegs()]; [None] is a null [refPosition]. *)
Definition stressLimitRegs (limit : LsraStressLimitRegs) (refPosition : option LimitRef)
    (mask : regMaskTP) : regMaskTP :=
  match limit with
  | LSRA_LIMIT_NONE => mask
  | _ =>
      let minRegCount := match refPosition with
                         | Some rp => lr_minRegCandidateCount rp
                         | None => 1
                         end in
      let mask1 :=
        match limit with
        | LSRA_LIMIT_CALLEE =>
            if compDbgEnC then mask else getConstrainedRegMask mask RBM_CALLEE_SAVED minRegCount
        | LSRA_LIMIT_CALLER => getConstrainedRegMask mask RBM_CALLEE_TRASH minRegCount
        | LSRA_LIMIT_SMALL_SET =>
            if negb (Z.eqb (Z.land mask LsraLimitSmallIntSet) RBM_NONE)
            then getConstrainedRegMask mask LsraLimitSmallIntSet minRegCount
            else if negb (Z.eqb (Z.land mask LsraLimitSmallFPSet) RBM_NONE)
            then getConstrainedRegMask mask LsraLimitSmallFPSet minRegCount
            else mask
        | LSRA_LIMIT_NONE => mask
        end in
      match refPosition with
      | Some rp => if lr_isFixedRegRef rp then Z.lor mask1 (lr_registerAssignment rp) else mask1
      | None => mask1
      end
  end.

End StressLimit.

(** The [while (candidateRegs != RBM_NONE)] loop of
    [rotateBlockStartLocation]: the pair ([newReg], [firstReg]) at its
    exit.  [REG_NA], like [REG_STK], is numbered above every register
    (target.h), so no register compares greater than it. *)
Definition regGreater (nextReg : regNumber) (targetReg : Loc) : bool :=
  match targetReg with
  | RegR t => Nat.ltb t nextReg
  | _ => false
  end.

Fixpoint rotateLoop (fuel : nat) (targetReg : Loc) (candidateRegs : regMaskTP)
    (firstReg : Loc) : Loc * Loc :=
  match fuel with
  | O => (REG_NA, firstReg)
  | S f =>
      if Z.eqb candidateRegs RBM_NONE then (REG_NA, firstReg)
      else
        let nextRegBit := genFindLowestBit candidateRegs in
        let candidateRegs' := maskRemove candidateRegs nextRegBit in
        let nextReg := genRegNumFromMask nextRegBit in
        if regGreater nextReg targetReg then (RegR nextReg, firstReg)
        else rotateLoop f targetReg candidateRegs'
               (match firstReg with REG_NA => RegR nextReg | _ => firstReg end)
  end.

(** [rotateBlockStartLocation(interval, targetReg, availableRegs)];
    [allRegsOfType] is [allRegs(interval->registerType)] and [rotate]
    tells whether [getLsraBlockBoundaryLocations()] is
    [LSRA_BLOCK_BOUNDARY_ROTATE].  [None] is the failed
    [assert(firstReg != REG_NA)] of a checked build ([checked = true]);
    a release build goes on with [firstReg]. *)
Definition rotateBlockStartLocation (checked rotate : bool) (allRegsOfType : regMaskTP)
    (targetReg : Loc) (availableRegs : regMaskTP) : option Loc :=
  match targetReg with
  | REG_STK => Some targetReg
  | _ =>
      if rotate then
        let candidateRegs := Z.land allRegsOfType availableRegs in
        let '(newReg, firstReg) := rotateLoop 64 targetReg candidateRegs REG_NA in
        match newReg with
        | REG_NA =>
            if checked && match firstReg with REG_NA => true | _ => false end
            then None else Some firstReg
        | _ => Some newReg
        end
      else Some targetReg
  end.

(** The registers of a 64-bit mask, in ascending order. *)
Definition bitsOf (mask : regMaskTP) : list regNumber :=
  filter (fun i => Z.testbit mask (Z.of_nat i)) (seq 0 64).

End RegMaskOps.

Module RegisterFile.
Import EdgeResolution RegMaskOps.

(** The register file is modelled for targets other than ARM32: the
    [_TARGET_ARM_] blocks, which on ARM32 also update or test the other
    half of a [TYP_DOUBLE] register pair ([findAnotherHalfRegRec],
    [isSecondHalfReg]), are left out, and every property proved below
    of the register file holds for those targets only. *)

(** The fields of a [RefPosition] that the register-file operations read
    or write.  [rp_nextRefPosition] is the index of [nextRefPosition]
    ([None] for nullptr); [rp_regOptional] and [rp_isActualRef] are
    [RegOptional()] and [IsActualRef()] (lsra.h, outside the sources). *)
Record RefPosition := mkRefPosition {
  rp_nodeLocation       : LsraLocation;
  rp_refType            : RefType;
  rp_nextRefPosition    : option nat;
  rp_delayRegFree       : bool;
  rp_lastUse            : bool;
  rp_regOptional        : bool;
  rp_isActualRef        : bool;
  rp_spillAfter         : bool;
  rp_registerAssignment : regMaskTP
}.

(** The fields of an [Interval] that they read or write.  [iv_physReg]
    is [physReg] ([None] for [REG_NA]); [iv_assignedReg] is the register
    of [assignedReg] ([None] for nullptr); [iv_relatedInterval] is read
    only for an upper-vector interval, whose [relatedInterval] is the
    local it belongs to; [iv_varIndex] is [getVarIndex(compiler)], the
    [lvVarIndex] of [varNum]; [iv_isGC] is
    [varTypeIsGC(registerType)]. *)
Record Interval := mkInterval {
  iv_physReg           : option regNumber;
  iv_assignedReg       : option regNumber;
  iv_isActive          : bool;
  iv_isSpilled         : bool;
  iv_isSplit           : bool;
  iv_isLocalVar        : bool;
  iv_isConstant        : bool;
  iv_isUpperVector     : bool;
  iv_relatedInterval   : nat;
  iv_varIndex          : nat;
  iv_isGC              : bool;
  iv_firstRefPosition  : option nat;
  iv_recentRefPosition : option nat
}.

(** The fields of a [RegRecord]: [assignedInterval] and
    [previousInterval] as interval indices ([None] for nullptr). *)
Record RegRecord := mkRegRecord {
  rg_assignedInterval    : option nat;
  rg_previousInterval    : option nat;
  rg_isBusyUntilNextKill : bool
}.

(** The [LinearScan] state the operations share: the RefPositions,
    Intervals and [physRegs] by index, [splitOrSpilledVars] (an
    ascending list of variable indices), [inVarToRegMaps] by block
    number, [curBBNum], [curBBStartLocation], and the
    [rsModifiedRegsMask] of [codeGen->regSet]. *)
Record LS := mkLS {
  ls_refs               : nat -> RefPosition;
  ls_intervals          : nat -> Interval;
  ls_regs               : regNumber -> RegRecord;
  ls_splitOrSpilledVars : list nat;
  ls_inVarToRegMaps     : nat -> VarToRegMap;
  ls_curBBNum           : nat;
  ls_curBBStartLocation : LsraLocation;
  ls_regsModified       : regMaskTP
}.

(** Stores through a [RefPosition*], [Interval*] or [RegRecord*]. *)
Definition setRef (st : LS) (r : nat) (x : RefPosition) : LS :=
  mkLS (upd (ls_refs st) r x) (ls_intervals st) (ls_regs st) (ls_splitOrSpilledVars st)
       (ls_inVarToRegMaps st) (ls_curBBNum st) (ls_curBBStartLocation st) (ls_regsModified st).

Definition setInterval (st : LS) (i : nat) (x : Interval) : LS :=
  mkLS (ls_refs st) (upd (ls_intervals st) i x) (ls_regs st) (ls_splitOrSpilledVars st)
       (ls_inVarToRegMaps st) (ls_curBBNum st) (ls_curBBStartLocation st) (ls_regsModified st).

Definition setReg (st : LS) (reg : regNumber) (x : RegRecord) : LS :=
  mkLS (ls_refs st) (ls_intervals st) (upd (ls_regs st) reg x) (ls_splitOrSpilledVars st)
       (ls_inVarToRegMaps st) (ls_curBBNum st) (ls_curBBStartLocation st) (ls_regsModified st).

Definition interval (st : LS) (i : nat) : Interval := ls_intervals st i.
Definition regRec (st : LS) (reg : regNumber) : RegRecord := ls_regs st reg.
Definition refPos (st : LS) (r : nat) : RefPosition := ls_refs st r.

(** The single-field stores the operations make. *)
Definition setPhysReg (st : LS) (i : nat) (v : option regNumber) : LS :=
  let x := interval st i in
  setInterval st i (mkInterval v (iv_assignedReg x) (iv_isActive x) (iv_isSpilled x) (iv_isSplit x)
    (iv_isLocalVar x) (iv_isConstant x) (iv_isUpperVector x) (iv_relatedInterval x) (iv_varIndex x)
    (iv_isGC x) (iv_firstRefPosition x) (iv_recentRefPosition x)).

Definition setAssignedReg (st : LS) (i : nat) (v : option regNumber) : LS :=
  let x := interval st i in
  setInterval st i (mkInterval (iv_physReg x) v (iv_isActive x) (iv_isSpilled x) (iv_isSplit x)
    (iv_isLocalVar x) (iv_isConstant x) (iv_isUpperVector x) (iv_relatedInterval x) (iv_varIndex x)
    (iv_isGC x) (iv_firstRefPosition x) (iv_recentRefPosition x)).

Definition setIsActive (st : LS) (i : nat) (v : bool) : LS :=
  let x := interval st i in
  setInterval st i (mkInterval (iv_physReg x) (iv_assignedReg x) v (iv_isSpilled x) (iv_isSplit x)
    (iv_isLocalVar x) (iv_isConstant x) (iv_isUpperVector x) (iv_relatedInterval x) (iv_varIndex x)
    (iv_isGC x) (iv_firstRefPosition x) (iv_recentRefPosition x)).

Definition setIsSpilled (st : LS) (i : nat) (v : bool) : LS :=
  let x := interval st i in
  setInterval st i (mkInterval (iv_physReg x) (iv_assignedReg x) (iv_isActive x) v (iv_isSplit x)
    (iv_isLocalVar x) (iv_isConstant x) (iv_isUpperVector x) (iv_relatedInterval x) (iv_varIndex x)
    (iv_isGC x) (iv_firstRefPosition x) (iv_recentRefPosition x)).

Definition setIsSplit (st : LS) (i : nat) (v : bool) : LS :=
  let x := interval st i in
  setInterval st i (mkInterval (iv_physReg x) (iv_assignedReg x) (iv_isActive x) (iv_isSpilled x) v
    (iv_isLocalVar x) (iv_isConstant x) (iv_isUpperVector x) (iv_relatedInterval x) (iv_varIndex x)
    (iv_isGC x) (iv_firstRefPosition x) (iv_recentRefPosition x)).

Definition setRegisterAssignment (st : LS) (r : nat) (v : regMaskTP) : LS :=
  let x := refPos st r in
  setRef st r (mkRefPosition (rp_nodeLocation x) (rp_refType x) (rp_nextRefPosition x)
    (rp_delayRegFree x) (rp_lastUse x) (rp_regOptional x) (rp_isActualRef x) (rp_spillAfter x) v).

Definition setSpillAfter (st : LS) (r : nat) (v : bool) : LS :=
  let x := refPos st r in
  setRef st r (mkRefPosition (rp_nodeLocation x) (rp_refType x) (rp_nextRefPosition x)
    (rp_delayRegFree x) (rp_lastUse x) (rp_regOptional x) (rp_isActualRef x) v (rp_registerAssignment x)).

(** [updateAssignedInterval] and [updatePreviousInterval], off ARM32
    (no update of the other half of a [TYP_DOUBLE] pair). *)
Definition updateAssignedInterval (st : LS) (reg : regNumber) (v : option nat) : LS :=
  let x := regRec st reg in
  setReg st reg (mkRegRecord v (rg_previousInterval x) (rg_isBusyUntilNextKill x)).

Definition updatePreviousInterval (st : LS) (reg : regNumber) (v : option nat) : LS :=
  let x := regRec st reg in
  setReg st reg (mkRegRecord (rg_assignedInterval x) v (rg_isBusyUntilNextKill x)).

(** [VarSetOps::AddElemD(compiler, splitOrSpilledVars, varIndex)]. *)
Definition addSplitOrSpilledVar (st : LS) (v : nat) : LS :=
  mkLS (ls_refs st) (ls_intervals st) (ls_regs st) (maskSet v (ls_splitOrSpilledVars st))
       (ls_inVarToRegMaps st) (ls_curBBNum st) (ls_curBBStartLocation st) (ls_regsModified st).

(** [setInVarRegForBB(bbNum, varNum, reg)], the variable given by its
    [lvVarIndex]. *)
Definition setInVarRegForBB (st : LS) (bbNum varIndex : nat) (reg : Loc) : LS :=
  mkLS (ls_refs st) (ls_intervals st) (ls_regs st) (ls_splitOrSpilledVars st)
       (upd (ls_inVarToRegMaps st) bbNum (setVarReg (ls_inVarToRegMaps st bbNum) varIndex reg))
       (ls_curBBNum st) (ls_curBBStartLocation st) (ls_regsModified st).

(** [rsSetRegsModified(mask)] (regset.cpp, outside the sources):
    [rsModifiedRegsMask |= mask]. *)
Definition rsSetRegsModified (st : LS) (mask : regMaskTP) : LS :=
  mkLS (ls_refs st) (ls_intervals st) (ls_regs st) (ls_splitOrSpilledVars st)
       (ls_inVarToRegMaps st) (ls_curBBNum st) (ls_curBBStartLocation st)
       (Z.lor (ls_regsModified st) mask).

(** [Referenceable::getNextRefPosition]. *)
Definition getNextRefPosition (st : LS) (i : nat) : option nat :=
  match iv_recentRefPosition (interval st i) with
  | None => iv_firstRefPosition (interval st i)
  | Some r => rp_nextRefPosition (refPos st r)
  end.

(** [RegRecord::isFree] and [registerIsFree], off ARM32. *)
Definition isFree (st : LS) (reg : regNumber) : bool :=
  match rg_assignedInterval (regRec st reg) with
  | None => true
  | Some a => negb (iv_isActive (interval st a))
  end && negb (rg_isBusyUntilNextKill (regRec st reg)).

Definition registerIsFree (st : LS) (reg : regNumber) : bool := isFree st reg.

(** [setIntervalAsSplit]. *)
Definition setIntervalAsSplit (st : LS) (i : nat) : LS :=
  let x := interval st i in
  let st1 := if iv_isLocalVar x && negb (iv_isSplit x)
             then addSplitOrSpilledVar st (iv_varIndex x) else st in
  setIsSplit st1 i true.

(** [setIntervalAsSpilled], with [FEATURE_PARTIAL_SIMD_CALLEE_SAVE]. *)
Definition setIntervalAsSpilled (st : LS) (i : nat) : LS :=
  let '(st0, i0) :=
    if iv_isUpperVector (interval st i)
    then (setIsSpilled st i true, iv_relatedInterval (interval st i))
    else (st, i) in
  let x := interval st0 i0 in
  let st1 := if iv_isLocalVar x && negb (iv_isSpilled x)
             then addSplitOrSpilledVar st0 (iv_varIndex x) else st0 in
  setIsSpilled st1 i0 true.

(** [spillInterval(interval, fromRefPosition, toRefPosition)];
    [toRefPosition] only takes part in its asserts. *)
Definition spillInterval (st : LS) (i fromRefPosition toRefPosition : nat) : LS :=
  let from := refPos st fromRefPosition in
  let st1 :=
    if negb (rp_lastUse from) then
      if rp_regOptional from && negb (iv_isLocalVar (interval st i) && rp_isActualRef from)
      then setRegisterAssignment st fromRefPosition RBM_NONE
      else setSpillAfter st fromRefPosition true
    else st in
  let st2 := setIsActive st1 i false in
  let st3 := setIntervalAsSpilled st2 i in
  if Nat.leb (rp_nodeLocation from) (ls_curBBStartLocation st3)
  then setInVarRegForBB st3 (ls_curBBNum st3) (iv_varIndex (interval st3 i)) REG_STK
  else st3.

(** [checkAndClearInterval]: its body past the asserts. *)
Definition checkAndClearInterval (st : LS) (reg : regNumber) (spillRefPosition : option nat) : LS :=
  updateAssignedInterval st reg None.

(** [canRestorePreviousInterval], off ARM32. *)
Definition canRestorePreviousInterval (st : LS) (reg : regNumber) (assignedInterval : nat) : bool :=
  match rg_previousInterval (regRec st reg) with
  | None => false
  | Some p =>
      negb (Nat.eqb p assignedInterval)
      && match iv_assignedReg (interval st p) with Some r => Nat.eqb r reg | None => false end
      && match getNextRefPosition st p with Some _ => true | None => false end
  end.

Definition optReg_eqb (a : option regNumber) (r : regNumber) : bool :=
  match a with Some x => Nat.eqb x r | None => false end.

(** [unassignPhysReg(regRec, spillRefPosition)], off ARM32 (no release
    of the other half of a [TYP_DOUBLE] pair) and with the
    [extendLifetimes()] stress mode of DEBUG builds off.  The
    [assignedInterval] is asserted to be non-null; a null one leaves the
    state as it is. *)
Definition unassignPhysReg (st : LS) (reg : regNumber) (spillRefPosition : option nat) : LS :=
  match rg_assignedInterval (regRec st reg) with
  | None => st
  | Some a =>
      let intervalIsAssigned := optReg_eqb (iv_physReg (interval st a)) reg in
      let st1 := checkAndClearInterval st reg spillRefPosition in
      let nextRefPosition :=
        match spillRefPosition with
        | Some s => rp_nextRefPosition (refPos st1 s)
        | None => None
        end in
      if negb intervalIsAssigned
         && match iv_physReg (interval st1 a) with Some _ => true | None => false end
      then st1
      else
        let st2 := setPhysReg st1 a None in
        let spill := iv_isActive (interval st2 a)
                     && match nextRefPosition with Some _ => true | None => false end in
        let st3 :=
          if spill then
            match spillRefPosition, nextRefPosition with
            | Some s, Some n => spillInterval st2 a s n
            | _, _ => st2
            end
          else st2 in
        match nextRefPosition with
        | Some _ => setAssignedReg st3 a (Some reg)
        | None =>
            if canRestorePreviousInterval st3 reg a then
              let x := regRec st3 reg in
              setReg st3 reg (mkRegRecord (rg_previousInterval x) None (rg_isBusyUntilNextKill x))
            else updatePreviousInterval (updateAssignedInterval st3 reg None) reg None
        end
  end.

(** [unassignPhysReg(regRec)], off ARM32: spill the occupant at its
    [recentRefPosition]. *)
Definition unassignPhysRegRec (st : LS) (reg : regNumber) : LS :=
  match rg_assignedInterval (regRec st reg) with
  | Some a => unassignPhysReg st reg (iv_recentRefPosition (interval st a))
  | None => st
  end.

(** [unassignPhysRegNoSpill]; its occupant is asserted non-null. *)
Definition unassignPhysRegNoSpill (st : LS) (reg : regNumber) : LS :=
  match rg_assignedInterval (regRec st reg) with
  | Some a =>
      let st1 := setIsActive st a false in
      let st2 := unassignPhysReg st1 reg None in
      setIsActive st2 a true
  | None => st
  end.

(** [checkAndAssignInterval], off ARM32 (no unassignment of the other
    half of a [TYP_DOUBLE] pair). *)
Definition checkAndAssignInterval (st : LS) (reg : regNumber) (i : nat) : LS :=
  let st1 :=
    match rg_assignedInterval (regRec st reg) with
    | Some a =>
        if negb (Nat.eqb a i) then
          let st' := if optReg_eqb (iv_assignedReg (interval st a)) reg
                     then setPhysReg st a None else st in
          unassignPhysRegRec st' reg
        else st
    | None => st
    end in
  updateAssignedInterval st1 reg (Some i).

(** [assignPhysReg]; [updateRegisterPreferences] only changes the
    register preferences, which are not modelled. *)
Definition assignPhysReg (st : LS) (reg : regNumber) (i : nat) : LS :=
  let assignedRegMask := genRegMask reg in
  let st1 := rsSetRegsModified st assignedRegMask in
  let st2 := checkAndAssignInterval st1 reg i in
  let st3 := setAssignedReg st2 i (Some reg) in
  let st4 := setPhysReg st3 i (Some reg) in
  setIsActive st4 i true.

(** [freeRegister], off ARM32 (without its assert on the register of a
    [TYP_DOUBLE] interval). *)
Definition freeRegister (st : LS) (reg : regNumber) : LS :=
  match rg_assignedInterval (regRec st reg) with
  | None => st
  | Some a =>
      let st1 := setIsActive st a false in
      if negb (iv_isConstant (interval st1 a)) then
        match getNextRefPosition st1 a with
        | None => unassignPhysReg st1 reg None
        | Some n =>
            if RefTypeIsDef (rp_refType (refPos st1 n)) then unassignPhysReg st1 reg None
            else st1
        end
      else st1
  end.

(** The [while (regsToFree != RBM_NONE)] loop of [freeRegisters]; a
    64-bit mask empties in at most 64 rounds. *)
Fixpoint freeRegistersLoop (fuel : nat) (st : LS) (regsToFree : regMaskTP) : LS :=
  match fuel with
  | O => st
  | S f =>
      if Z.eqb regsToFree RBM_NONE then st
      else
        let nextRegBit := genFindLowestBit regsToFree in
        let regsToFree' := maskRemove regsToFree nextRegBit in
        let nextReg := genRegNumFromMask nextRegBit in
        freeRegistersLoop f (freeRegister st nextReg) regsToFree'
  end.

(** [freeRegisters]. *)
Definition freeRegisters (st : LS) (regsToFree : regMaskTP) : LS :=
  if Z.eqb regsToFree RBM_NONE then st else freeRegistersLoop 64 st regsToFree.

(** One round of the [spillGCRefs] loop. *)
Definition spillGCRef (st : LS) (nextReg : regNumber) : LS :=
  match rg_assignedInterval (regRec st nextReg) with
  | None => st
  | Some a =>
      if negb (iv_isActive (interval st a)) || negb (iv_isGC (interval st a)) then st
      else unassignPhysReg st nextReg (iv_recentRefPosition (interval st a))
  end.

Fixpoint spillGCRefsLoop (fuel : nat) (st : LS) (candidateRegs : regMaskTP) : LS :=
  match fuel with
  | O => st
  | S f =>
      if Z.eqb candidateRegs RBM_NONE then st
      else
        let nextRegBit := genFindLowestBit candidateRegs in
        let candidateRegs' := maskRemove candidateRegs nextRegBit in
        let nextReg := genRegNumFromMask nextRegBit in
        spillGCRefsLoop f (spillGCRef st nextReg) candidateRegs'
  end.

(** [spillGCRefs(killRefPosition)]. *)
Definition spillGCRefs (st : LS) (killRefPosition : nat) : LS :=
  spillGCRefsLoop 64 st (rp_registerAssignment (refPos st killRefPosition)).

(** [isAssignedToInterval], off ARM32 (no [isSecondHalfReg] test). *)
Definition isAssignedToInterval (st : LS) (i : nat) (reg : regNumber) : bool :=
  optReg_eqb (iv_assignedReg (interval st i)) reg.

(** [unassignIntervalBlockStart(regRecord, inVarToRegMap)], the map
    given by its block number ([None] for nullptr); the store
    [inVarToRegMap[varIndex] = REG_STK] is the one [setInVarRegForBB]
    makes. *)
Definition unassignIntervalBlockStart (st : LS) (reg : regNumber) (inVarToRegMap : option nat) : LS :=
  match rg_assignedInterval (regRec st reg) with
  | None => st
  | Some a =>
      if isAssignedToInterval st a reg then
        let inMap := if negb (iv_isLocalVar (interval st a)) then None else inVarToRegMap in
        let assignedRegNum := match iv_assignedReg (interval st a) with Some r => r | None => reg end in
        let st1 := setIsActive st a false in
        let st2 := unassignPhysReg st1 assignedRegNum None in
        match inMap with
        | Some b =>
            let v := iv_varIndex (interval st2 a) in
            if Loc_eqb (getVarReg (ls_inVarToRegMaps st2 b) v) (RegR assignedRegNum)
            then setInVarRegForBB st2 b v REG_STK
            else st2
        | None => st2
        end
      else updateAssignedInterval st reg None
  end.

(** A call of one of the operations above on the shared state, with
    its arguments; [runOps] makes the calls in order. *)
Inductive RegFileOp :=
  | OpAssignPhysReg (reg : regNumber) (i : nat)
  | OpCheckAndAssignInterval (reg : regNumber) (i : nat)
  | OpUnassignPhysReg (reg : regNumber) (spillRefPosition : option nat)
  | OpUnassignPhysRegRec (reg : regNumber)
  | OpUnassignPhysRegNoSpill (reg : regNumber)
  | OpFreeRegister (reg : regNumber)
  | OpFreeRegisters (regsToFree : regMaskTP)
  | OpSpillGCRefs (killRefPosition : nat)
  | OpSpillInterval (i fromRefPosition toRefPosition : nat)
  | OpSetIntervalAsSplit (i : nat)
  | OpSetIntervalAsSpilled (i : nat)
  | OpUnassignIntervalBlockStart (reg : regNumber) (inVarToRegMap : option nat).

Definition runOp (st : LS) (op : RegFileOp) : LS :=
  match op with
  | OpAssignPhysReg reg i => assignPhysReg st reg i
  | OpCheckAndAssignInterval reg i => checkAndAssignInterval st reg i
  | OpUnassignPhysReg reg s => unassignPhysReg st reg s
  | OpUnassignPhysRegRec reg => unassignPhysRegRec st reg
  | OpUnassignPhysRegNoSpill reg => unassignPhysRegNoSpill st reg
  | OpFreeRegister reg => freeRegister st reg
  | OpFreeRegisters m => freeRegisters st m
  | OpSpillGCRefs k => spillGCRefs st k
  | OpSpillInterval i f t => spillInterval st i f t
  | OpSetIntervalAsSplit i => setIntervalAsSplit st i
  | OpSetIntervalAsSpilled i => setIntervalAsSpilled st i
  | OpUnassignIntervalBlockStart reg m => unassignIntervalBlockStart st reg m
  end.

Definition runOps (st : LS) (ops : list RegFileOp) : LS := fold_left runOp ops st.

End RegisterFile.

(* ================================================================== *)
(** * Proofs *)
(* ================================================================== *)

Module SpillAccountingFacts.
Import SpillAccounting.

Lemma var_types_eqb_refl t : var_types_eqb t t = true.
Proof. destruct t; reflexivity. Qed.

Ltac case_ifs :=
  repeat match goal with
  | |- context [if (?a <? ?b)%Z then _ else _] => destruct (Z.ltb_spec a b)
  | |- context [if ?b then _ else _] => destruct b eqn:?
  end.

Lemma upd_same f t v : upd f t v t = v.
Proof. unfold upd. destruct t; reflexivity. Qed.

Lemma upd_other f t t' v : t <> t' -> upd f t v t' = f t'.
Proof.
  intro H. unfold upd. destruct (var_types_eqb t t') eqn:E; [|reflexivity].
  apply var_types_eqb_spec in E. contradiction.
Qed.

Lemma upd_eq f t t' v : upd f t v t' = if var_types_eqb t t' then v else f t'.
Proof. reflexivity. Qed.

(** One call of [updateMaxSpill] that does not fail, seen from one type
    [typ]: while the count stays within the [unsigned] range, the current
    count moves by [spec_delta_temps], and, while the current count never
    exceeds the maximum, the maximum becomes the larger of the two. *)
Lemma updateMaxSpill_typ checked st rp typ st' :
  updateMaxSpill checked st rp = Some st' ->
  (currentSpill st typ <= maxSpill st typ)%Z ->
  (0 <= currentSpill st typ + spec_delta_temps typ rp < 2 ^ 32)%Z ->
  currentSpill st' typ = (currentSpill st typ + spec_delta_temps typ rp)%Z /\
  maxSpill st' typ = Z.max (maxSpill st typ) (currentSpill st' typ).
Proof.
  intros H Hle Hr.
  destruct rp as [rt sa rl ro ar loc h f nt].
  unfold updateMaxSpill, assertS in H. unfold spec_delta_temps in *. cbn in *.
  destruct (RefType_eqb rt RefTypeUpperVectorSave || RefType_eqb rt RefTypeUpperVectorRestore).
  { injection H as <-. split; lia. }
  destruct loc; cbn in *.
  { destruct (_ || _); injection H as <-; split; lia. }
  destruct (var_types_eqb (tmpNormalizeType nt) typ) eqn:Et.
  - apply var_types_eqb_spec in Et. subst typ.
    destruct sa, rl, ro, (isNone ar), h, f, (RefTypeIsUse rt), checked; cbn in *;
      try discriminate H;
      repeat match type of H with context [if ?c then _ else _] =>
        destruct c eqn:?; cbn in H end;
      try discriminate H; injection H as <-; cbn;
      unfold upd, wrap32, UINT_MOD in *; rewrite ?var_types_eqb_refl;
      rewrite ?negb_false_iff, ?negb_true_iff, ?Z.ltb_lt, ?Z.ltb_ge in *;
      change (2 ^ 32)%Z with 4294967296%Z in *;
      rewrite ?Z.mod_small in * by lia; split; lia.
  - destruct sa, rl, ro, (isNone ar), h, f, (RefTypeIsUse rt), checked; cbn in *;
      try discriminate H;
      repeat match type of H with context [if ?c then _ else _] =>
        destruct c eqn:?; cbn in H end;
      try discriminate H; injection H as <-; cbn; unfold upd; rewrite ?Et;
      try (split; lia).
Qed.

Lemma pm_from_ge d c rs : (c <= pm_from d c rs)%Z.
Proof. destruct rs; simpl; lia. Qed.

Lemma spillStep_None checked rs : fold_left (spillStep checked) rs None = None.
Proof. induction rs as [| rp rs IH]; [reflexivity | exact IH]. Qed.

Ltac lia32 := change (2 ^ 32)%Z with 4294967296%Z in *; lia.

(** Every prefix count, starting from [c], lies in the [unsigned]
    range. *)
Fixpoint inRange (d : SpillRef -> Z) (c : Z) (rs : list SpillRef) : Prop :=
  (0 <= c < 2 ^ 32)%Z /\
  match rs with [] => True | rp :: rs' => inRange d (c + d rp)%Z rs' end.

Lemma inRange_firstn d rs : forall c,
  (forall k, k <= length rs -> (0 <= c + net d (firstn k rs) < 2 ^ 32)%Z) ->
  inRange d c rs.
Proof.
  induction rs as [| rp rs IH]; intros c H; simpl.
  - split; [| exact I]. specialize (H 0 (le_n 0)). simpl in H. lia.
  - split; [specialize (H 0 ltac:(lia)); simpl in H; lia |].
    apply IH. intros k Hk. specialize (H (S k) ltac:(simpl; lia)). simpl in H. lia.
Qed.

Lemma inRange_zeros d c l m :
  (forall x, In x l -> d x = 0%Z) -> inRange d c m -> inRange d c (l ++ m).
Proof.
  induction l as [| x l IH]; intros Hz Hm; simpl; [exact Hm |].
  split; [destruct m; simpl in Hm; tauto |].
  rewrite (Hz x (or_introl eq_refl)), Z.add_0_r.
  apply IH; [intros y Hy; apply Hz; right; exact Hy | exact Hm].
Qed.

Lemma fold_updateMaxSpill checked typ rs : forall st st',
  fold_left (spillStep checked) rs (Some st) = Some st' ->
  inRange (spec_delta_temps typ) (currentSpill st typ) rs ->
  (currentSpill st typ <= maxSpill st typ)%Z ->
  maxSpill st' typ
    = Z.max (maxSpill st typ) (pm_from (spec_delta_temps typ) (currentSpill st typ) rs).
Proof.
  induction rs as [| rp rs IH]; intros st st' H Hr Hle; simpl in *.
  - injection H as <-. lia.
  - destruct (updateMaxSpill checked st rp) as [st1 |] eqn:E;
      [| rewrite spillStep_None in H; discriminate H].
    destruct Hr as [_ Hr].
    assert (Hr1 : (0 <= currentSpill st typ + spec_delta_temps typ rp < 2 ^ 32)%Z)
      by (destruct rs; simpl in Hr; tauto).
    destruct (updateMaxSpill_typ checked st rp typ st1 E Hle Hr1) as [Hc Hm].
    rewrite <- Hc in Hr.
    rewrite (IH st1 st' H Hr) by lia. rewrite Hm, Hc.
    pose proof (pm_from_ge (spec_delta_temps typ)
                  (currentSpill st typ + spec_delta_temps typ rp) rs).
    lia.
Qed.

Lemma pm_from_upper d rs : forall c k,
  k <= length rs -> (c + net d (firstn k rs) <= pm_from d c rs)%Z.
Proof.
  induction rs as [|rp rs IH]; intros c k Hk; simpl in *.
  - destruct k; simpl; lia.
  - destruct k as [|k]; simpl.
    + lia.
    + specialize (IH (c + d rp)%Z k ltac:(lia)). lia.
Qed.

Lemma pm_from_attained d rs : forall c,
  exists k, k <= length rs /\ pm_from d c rs = (c + net d (firstn k rs))%Z.
Proof.
  induction rs as [|rp rs IH]; intros c; simpl.
  - exists 0. simpl. split; [lia|]. lia.
  - destruct (IH (c + d rp)%Z) as [k [Hk Heq]].
    destruct (Z.max_spec c (pm_from d (c + d rp)%Z rs)) as [[H1 H2]|[H1 H2]].
    + exists (S k). simpl. split; [lia|]. lia.
    + exists 0. simpl. split; [lia|]. lia.
Qed.

Lemma pm_from_zeros d c l m :
  (forall x, In x l -> d x = 0%Z) -> pm_from d c (l ++ m) = Z.max c (pm_from d c m).
Proof.
  revert c. induction l as [|x l IH]; intros c Hz; simpl.
  - pose proof (pm_from_ge d c m). lia.
  - rewrite (Hz x (or_introl eq_refl)), Z.add_0_r.
    rewrite IH by (intros y Hy; apply Hz; right; exact Hy).
    lia.
Qed.

Lemma updateMaxSpill_local checked st rp :
  sr_isLocalVar rp = true -> updateMaxSpill checked st rp = Some st.
Proof.
  intro H. unfold updateMaxSpill. rewrite H. simpl.
  destruct (_ || _); [reflexivity|].
  destruct (_ || _); reflexivity.
Qed.

Lemma fold_updateMaxSpill_filter checked rs : forall acc,
  fold_left (spillStep checked) rs acc
  = fold_left (spillStep checked) (filter (fun rp => negb (sr_isLocalVar rp)) rs) acc.
Proof.
  induction rs as [|rp rs IH]; intro acc; simpl; [reflexivity|].
  destruct (sr_isLocalVar rp) eqn:H; simpl.
  - destruct acc as [st |].
    + simpl. rewrite updateMaxSpill_local by exact H. apply IH.
    + apply IH.
  - apply IH.
Qed.

(** Claim C10.  [updateMaxSpill] leaves both per-type counters untouched
    for every RefPosition whose Interval is a local variable (whatever
    its spill, reload and regOptional flags, and in every build), so the
    write-back result is the one of the stream with every local-variable
    RefPosition removed: the counts cover compiler temporaries only. *)
Theorem updateMaxSpill_ignores_local_vars :
  (forall checked st rp, sr_isLocalVar rp = true -> updateMaxSpill checked st rp = Some st) /\
  (forall checked rs, writeBackSpills checked rs
              = writeBackSpills checked (filter (fun rp => negb (sr_isLocalVar rp)) rs)).
Proof.
  split.
  - exact updateMaxSpill_local.
  - intros checked rs. unfold writeBackSpills. apply fold_updateMaxSpill_filter.
Qed.

Lemma updateMaxSpill_ignores_local_vars_witness :
  sr_isLocalVar local_spill_def = true /\
  updateMaxSpill true initSpillState local_spill_def = Some initSpillState.
Proof.
  split; [reflexivity|].
  apply (proj1 updateMaxSpill_ignores_local_vars). reflexivity.
Defined.

(** Claim C6, counterexample.  The spec counts every spilled-and-not-yet-
    reloaded value; a spilled local variable of type [TYP_INT] makes that
    count 1 after the first RefPosition, yet the write-back [maxSpill] for
    [TYP_INT] stays 0, because [updateMaxSpill] skips local variables. *)
Lemma maxSpill_counts_all_spills_cex :
  writeBackSpills true local_spill_stream = Some initSpillState /\
  maxSpill initSpillState TYP_INT = 0%Z /\
  net (spec_delta_all TYP_INT) (firstn 1 local_spill_stream) = 1%Z /\
  ~ (forall k, k <= length local_spill_stream ->
       (net (spec_delta_all TYP_INT) (firstn k local_spill_stream)
        <= maxSpill initSpillState TYP_INT)%Z).
Proof.
  split; [reflexivity|]. split; [reflexivity|]. split; [reflexivity|].
  intro H. specialize (H 1 ltac:(simpl; lia)). vm_compute in H. apply H. reflexivity.
Qed.

(** The spill temps [recordMaxSpill] adds on x86: one [TYP_DOUBLE] temp
    when a double call value or return value needs one, one [TYP_FLOAT]
    temp likewise. *)
Definition x86ExtraTemps (isX86 needDoubleTmpForFPCall needFloatTmpForFPCall : bool)
    (compRetType typ : var_types) : Z :=
  if isX86 then
    ((if var_types_eqb typ TYP_DOUBLE
         && (needDoubleTmpForFPCall
             || var_types_eqb (tmpNormalizeType compRetType) TYP_DOUBLE) then 1 else 0) +
     (if var_types_eqb typ TYP_FLOAT
         && (needFloatTmpForFPCall
             || var_types_eqb (tmpNormalizeType compRetType) TYP_FLOAT) then 1 else 0))%Z
  else 0%Z.

(** Claim C6, amended.  In a checked or a release build, when the
    write-back walk completes (no assert fails) and the number of
    compiler-temporary values of type [typ] spilled and not yet reloaded
    stays within the range of the [unsigned] counters on every prefix of
    the location-ordered stream ([spec_delta_temps]: a spillAfter without
    reload counts +1, a reload or a regOptional use left without a
    register counts -1, local variables and upper-vector save/restore
    count 0), the write-back [maxSpill typ] is the maximum of these
    prefix counts: it bounds every one and equals one of them.  When the
    stream holds a single spill of a temporary of type [typ] and a later
    reload of it, and no other RefPosition counts for [typ], the maximum
    is exactly 1.  [recordMaxSpill] then reserves [maxSpill typ] temps,
    plus on x86 one more [TYP_DOUBLE] or [TYP_FLOAT] temp when a call or
    return value of that type needs one. *)
Theorem maxSpill_is_max_outstanding_temps :
  (forall checked typ rs st,
     writeBackSpills checked rs = Some st ->
     (forall k, k <= length rs ->
        (0 <= net (spec_delta_temps typ) (firstn k rs) < 2 ^ 32)%Z) ->
     (forall k, k <= length rs ->
        (net (spec_delta_temps typ) (firstn k rs) <= maxSpill st typ)%Z) /\
     (exists k, k <= length rs /\
        net (spec_delta_temps typ) (firstn k rs) = maxSpill st typ)) /\
  (forall checked typ pre sp mid rl post st,
     (forall x, In x (pre ++ mid ++ post) -> spec_delta_temps typ x = 0%Z) ->
     spec_delta_temps typ sp = 1%Z -> spec_delta_temps typ rl = (-1)%Z ->
     writeBackSpills checked (pre ++ sp :: mid ++ rl :: post) = Some st ->
     maxSpill st typ = 1%Z) /\
  (forall checked isX86 needDouble needFloat compRetType ms0 ms typ,
     recordMaxSpill checked isX86 needDouble needFloat compRetType ms0 = Some ms ->
     (0 <= ms0 typ < 2 ^ 32)%Z ->
     ms typ = wrap32 (ms0 typ + x86ExtraTemps isX86 needDouble needFloat compRetType typ)).
Proof.
  assert (Hw : forall checked typ rs st, writeBackSpills checked rs = Some st ->
                 inRange (spec_delta_temps typ) 0%Z rs ->
                 maxSpill st typ = pm_from (spec_delta_temps typ) 0%Z rs).
  { intros checked typ rs st H Hr. unfold writeBackSpills in H.
    rewrite (fold_updateMaxSpill checked typ rs initSpillState st H Hr) by (simpl; lia).
    simpl. pose proof (pm_from_ge (spec_delta_temps typ) 0%Z rs). lia. }
  split; [| split].
  - intros checked typ rs st H Hr.
    rewrite (Hw checked typ rs st H) by (apply inRange_firstn; intros k Hk; simpl; apply Hr, Hk).
    split.
    + intros k Hk. pose proof (pm_from_upper (spec_delta_temps typ) rs 0%Z k Hk). lia.
    + destruct (pm_from_attained (spec_delta_temps typ) rs 0%Z) as [k [Hk Heq]].
      exists k. split; [exact Hk|]. lia.
  - intros checked typ pre sp mid rl post st Hz Hsp Hrl H.
    assert (Hzp : forall x, In x pre -> spec_delta_temps typ x = 0%Z)
      by (intros x Hx; apply Hz, in_or_app; auto).
    assert (Hzm : forall x, In x mid -> spec_delta_temps typ x = 0%Z)
      by (intros x Hx; apply Hz, in_or_app; right; apply in_or_app; auto).
    assert (Hzq : forall x, In x post -> spec_delta_temps typ x = 0%Z)
      by (intros x Hx; apply Hz, in_or_app; right; apply in_or_app; auto).
    assert (Hpost : forall c, (0 <= c < 2 ^ 32)%Z -> inRange (spec_delta_temps typ) c post).
    { intros c Hc. rewrite <- (app_nil_r post). apply inRange_zeros; [exact Hzq |].
      simpl. split; [exact Hc | exact I]. }
    rewrite (Hw checked typ _ st H).
    2: { apply inRange_zeros; [exact Hzp |]. cbn [inRange app]. split; [lia32 |].
         rewrite Hsp. apply inRange_zeros; [exact Hzm |]. cbn [inRange app].
         split; [lia32 |]. rewrite Hrl. apply Hpost. lia32. }
    rewrite pm_from_zeros by exact Hzp.
    cbn [pm_from app]. rewrite Hsp.
    rewrite pm_from_zeros by exact Hzm.
    cbn [pm_from app]. rewrite Hrl.
    replace (0 + 1 + -1)%Z with 0%Z by lia.
    assert (pm_from (spec_delta_temps typ) 0%Z post = 0%Z).
    { replace post with (post ++ []) by apply app_nil_r.
      rewrite pm_from_zeros by exact Hzq. simpl. lia. }
    lia.
  - intros checked isX86 needDouble needFloat compRetType ms0 ms typ H Hr.
    unfold recordMaxSpill, assertS in H.
    match type of H with context [if ?c then None else _] => destruct c end;
      [discriminate H |]. injection H as <-.
    unfold x86ExtraTemps, upd, wrap32, UINT_MOD.
    destruct isX86; [| rewrite Z.add_0_r, Z.mod_small by lia; reflexivity].
    destruct needDouble, needFloat,
      (var_types_eqb (tmpNormalizeType compRetType) TYP_DOUBLE),
      (var_types_eqb (tmpNormalizeType compRetType) TYP_FLOAT), typ; cbn;
      rewrite ?Z.add_0_r, ?Z.mod_small by lia; reflexivity.
Qed.

Lemma maxSpill_is_max_outstanding_temps_witness :
  (exists st, writeBackSpills true temp_spill_reload_stream = Some st /\
              maxSpill st TYP_INT = 1%Z) /\
  (exists ms, recordMaxSpill true true true false TYP_INT (upd (fun _ => 0%Z) TYP_INT 1%Z)
                = Some ms /\
              ms TYP_DOUBLE = 1%Z /\
              ms TYP_DOUBLE = wrap32 (upd (fun _ => 0%Z) TYP_INT 1%Z TYP_DOUBLE
                                      + x86ExtraTemps true true false TYP_INT TYP_DOUBLE)).
Proof.
  split.
  - destruct (writeBackSpills true temp_spill_reload_stream) as [st |] eqn:Hwb;
      [| discriminate Hwb].
    exists st. split; [reflexivity |].
    exact (proj1 (proj2 maxSpill_is_max_outstanding_temps) true TYP_INT []
             temp_spill_def [local_use] temp_reload_use [] st
             ltac:(intros x Hx; simpl in Hx; destruct Hx as [<-|[]]; reflexivity)
             eq_refl eq_refl Hwb).
  - destruct (recordMaxSpill true true true false TYP_INT (upd (fun _ => 0%Z) TYP_INT 1%Z))
      as [ms |] eqn:Hrm; [| discriminate Hrm].
    exists ms. split; [reflexivity |]. split.
    + injection Hrm as <-. reflexivity.
    + exact (proj2 (proj2 maxSpill_is_max_outstanding_temps) true true true false TYP_INT _ _
               TYP_DOUBLE Hrm ltac:(vm_compute; split; congruence)).
Defined.

End SpillAccountingFacts.

Module RegFreeingFacts.
Import RegFreeing.

Lemma In_maskAdd x r m : In x (maskAdd r m) <-> r = x \/ In x m.
Proof.
  unfold maskAdd. destruct (existsb (Nat.eqb r) m) eqn:E.
  - apply existsb_exists in E. destruct E as [y [Hy Hry]].
    apply Nat.eqb_eq in Hry. subst y. split; [auto|]. intros [<-|H]; auto.
  - rewrite in_app_iff. simpl. split; intros [H|H]; auto.
    + destruct H as [H|[]]; auto.
Qed.

Lemma In_maskClear x r m : In x (maskClear r m) <-> In x m /\ x <> r.
Proof.
  unfold maskClear. rewrite filter_In, negb_true_iff, Nat.eqb_neq. tauto.
Qed.

Lemma maskNonEmpty_In r m : In r m -> maskNonEmpty m = true.
Proof. destruct m; simpl; tauto. Qed.

(** The mask updates touch neither the log nor [prevLocation]. *)
Lemma actions_keep acts : forall st,
  prevLocation (fold_left applyAction acts st) = prevLocation st /\
  freedLog (fold_left applyAction acts st) = freedLog st.
Proof.
  induction acts as [|a acts IH]; intro st; simpl; [auto|].
  destruct (IH (applyAction st a)) as [H1 H2]. rewrite H1, H2.
  destruct a; simpl; auto.
Qed.

(** Mask updates that do not concern [r] keep [r]'s membership. *)
Lemma actions_no_r r acts : forall st,
  noRegAction r acts = true ->
  (In r (regsToFree (fold_left applyAction acts st)) <-> In r (regsToFree st)) /\
  (In r (delayRegsToFree (fold_left applyAction acts st)) <-> In r (delayRegsToFree st)).
Proof.
  induction acts as [|a acts IH]; intros st Hn; simpl in *; [tauto|].
  apply andb_true_iff in Hn. destruct Hn as [Ha Hn].
  apply negb_true_iff, Nat.eqb_neq in Ha.
  destruct (IH (applyAction st a) Hn) as [H1 H2]. rewrite H1, H2.
  destruct a; simpl in *; rewrite ?In_maskAdd, ?In_maskClear;
    split; split; intuition congruence.
Qed.

Lemma actions_last_AddFree r a1 a2 st :
  noRegAction r a2 = true ->
  In r (regsToFree (fold_left applyAction (a1 ++ AddFree r :: a2) st)).
Proof.
  intro Hn. rewrite fold_left_app. simpl.
  apply (actions_no_r r a2 _ Hn). simpl. apply In_maskAdd. auto.
Qed.

Lemma actions_last_AddDelay r a1 a2 st :
  noRegAction r a2 = true ->
  In r (delayRegsToFree (fold_left applyAction (a1 ++ AddDelay r :: a2) st)).
Proof.
  intro Hn. rewrite fold_left_app. simpl.
  apply (actions_no_r r a2 _ Hn). simpl. apply In_maskAdd. auto.
Qed.

Lemma allocStep_prevLocation st rp : prevLocation (allocStep st rp) = fr_loc rp.
Proof.
  unfold allocStep.
  destruct (isBB (fr_kind rp)); [destruct (_ && _); reflexivity|].
  rewrite (proj1 (actions_keep _ _)). destruct (_ && _); reflexivity.
Qed.

(** The block-end and mask-transfer part of [allocStep], before the mask
    updates of the RefPosition itself. *)
Lemma allocStep_unfold st rp :
  isBB (fr_kind rp) = false ->
  allocStep st rp = fold_left applyAction (fr_actions rp)
    (let currentLocation := fr_loc rp in
     let st1 :=
       if (maskNonEmpty (regsToFree st) || maskNonEmpty (delayRegsToFree st))
          && (prevLocation st <? currentLocation) then
         let log1 := freeRegisters (regsToFree st) currentLocation (freedLog st) in
         if (prevLocation st + 1 <? currentLocation)
            && maskNonEmpty (delayRegsToFree st) then
           mkFreeState [] [] (prevLocation st) (handledBlockEnd st)
             (freeRegisters (delayRegsToFree st) currentLocation log1)
         else
           mkFreeState (delayRegsToFree st) [] (prevLocation st)
             (handledBlockEnd st) log1
       else st in
     let st2 := mkFreeState (regsToFree st1) (delayRegsToFree st1) currentLocation
                  (handledBlockEnd st1) (freedLog st1) in
     if negb (handledBlockEnd st2) && (isBB (fr_kind rp) || isDummyDef (fr_kind rp)) then
       mkFreeState [] (delayRegsToFree st2) (prevLocation st2) true
         (freeRegisters (regsToFree st2) currentLocation (freedLog st2))
     else st2).
Proof. intro H. unfold allocStep. rewrite H. reflexivity. Qed.

(** A non-boundary RefPosition at the current location frees nothing
    and, if its mask updates do not concern [r], keeps [r]'s place. *)
Lemma allocStep_same_loc r st m :
  fr_loc m = prevLocation st -> fr_kind m = KOther ->
  noRegAction r (fr_actions m) = true ->
  freedLog (allocStep st m) = freedLog st /\
  prevLocation (allocStep st m) = prevLocation st /\
  (In r (regsToFree (allocStep st m)) <-> In r (regsToFree st)) /\
  (In r (delayRegsToFree (allocStep st m)) <-> In r (delayRegsToFree st)).
Proof.
  intros Hl Hk Hn.
  rewrite allocStep_unfold by (rewrite Hk; reflexivity).
  cbv zeta. rewrite Hl, Nat.ltb_irrefl, andb_false_r, Hk. simpl.
  rewrite andb_false_r.
  destruct (actions_keep (fr_actions m)
              (mkFreeState (regsToFree st) (delayRegsToFree st) (prevLocation st)
                 (handledBlockEnd st) (freedLog st))) as [H1 H2].
  destruct (actions_no_r r (fr_actions m)
              (mkFreeState (regsToFree st) (delayRegsToFree st) (prevLocation st)
                 (handledBlockEnd st) (freedLog st)) Hn) as [H3 H4].
  rewrite H1, H2, H3, H4. simpl. tauto.
Qed.

Lemma run_same_loc r mid : forall st,
  Forall (fun m => fr_loc m = prevLocation st /\ fr_kind m = KOther /\
                   noRegAction r (fr_actions m) = true) mid ->
  freedLog (runAlloc st mid) = freedLog st /\
  prevLocation (runAlloc st mid) = prevLocation st /\
  (In r (regsToFree (runAlloc st mid)) <-> In r (regsToFree st)) /\
  (In r (delayRegsToFree (runAlloc st mid)) <-> In r (delayRegsToFree st)).
Proof.
  induction mid as [|m mid IH]; intros st Hf; simpl; [tauto|].
  inversion Hf as [|? ? [Hl [Hk Hn]] Hf']; subst.
  destruct (allocStep_same_loc r st m Hl Hk Hn) as [H1 [H2 [H3 H4]]].
  assert (Hf'' : Forall (fun m0 => fr_loc m0 = prevLocation (allocStep st m) /\
                   fr_kind m0 = KOther /\ noRegAction r (fr_actions m0) = true) mid).
  { rewrite H2. exact Hf'. }
  destruct (IH _ Hf'') as [G1 [G2 [G3 G4]]].
  unfold runAlloc in *. rewrite G1, G2, G3, G4. tauto.
Qed.

(** Everything [allocStep] frees is appended to the log, and the
    actions leave the log alone: the log after the step is the log after
    the block-end handling. *)
Lemma allocStep_log_st3 st rp :
  freedLog (allocStep st rp) =
  freedLog (let currentLocation := fr_loc rp in
     let st1 :=
       if (maskNonEmpty (regsToFree st) || maskNonEmpty (delayRegsToFree st))
          && (prevLocation st <? currentLocation) then
         let log1 := freeRegisters (regsToFree st) currentLocation (freedLog st) in
         if (prevLocation st + 1 <? currentLocation)
            && maskNonEmpty (delayRegsToFree st) then
           mkFreeState [] [] (prevLocation st) (handledBlockEnd st)
             (freeRegisters (delayRegsToFree st) currentLocation log1)
         else
           mkFreeState (delayRegsToFree st) [] (prevLocation st)
             (handledBlockEnd st) log1
       else st in
     let st2 := mkFreeState (regsToFree st1) (delayRegsToFree st1) currentLocation
                  (handledBlockEnd st1) (freedLog st1) in
     if negb (handledBlockEnd st2) && (isBB (fr_kind rp) || isDummyDef (fr_kind rp)) then
       mkFreeState [] (delayRegsToFree st2) (prevLocation st2) true
         (freeRegisters (regsToFree st2) currentLocation (freedLog st2))
     else st2).
Proof.
  unfold allocStep. destruct (isBB (fr_kind rp)).
  - reflexivity.
  - apply (proj2 (actions_keep _ _)).
Qed.

Ltac find_in r :=
  first [ solve [apply in_map_iff; exists r; auto]
        | solve [apply in_or_app; left; find_in r]
        | solve [apply in_or_app; right; find_in r] ].

Ltac log_extends :=
  unfold freeRegisters; simpl; rewrite <- ?app_assoc; eexists; split; [reflexivity|].

(** A register waiting in [regsToFree] is freed by the first
    RefPosition at a later location. *)
Lemma allocStep_frees_regsToFree r st q :
  prevLocation st < fr_loc q -> In r (regsToFree st) ->
  exists new, freedLog (allocStep st q) = freedLog st ++ new /\ In (r, fr_loc q) new.
Proof.
  intros Hlt Hin. rewrite allocStep_log_st3. cbv zeta.
  rewrite (maskNonEmpty_In _ _ Hin), (proj2 (Nat.ltb_lt _ _) Hlt). simpl.
  destruct (_ && _); simpl; destruct (_ && _); simpl; log_extends; find_in r.
Qed.

(** A register waiting in [delayRegsToFree] is freed by a RefPosition
    more than one location later. *)
Lemma allocStep_frees_delay_jump r st q :
  prevLocation st + 1 < fr_loc q -> In r (delayRegsToFree st) ->
  exists new, freedLog (allocStep st q) = freedLog st ++ new /\ In (r, fr_loc q) new.
Proof.
  intros Hlt Hin. rewrite allocStep_log_st3. cbv zeta.
  assert (Hlt' : prevLocation st < fr_loc q) by lia.
  rewrite (maskNonEmpty_In _ _ Hin), orb_true_r,
    (proj2 (Nat.ltb_lt _ _) Hlt'), (proj2 (Nat.ltb_lt _ _) Hlt). simpl.
  destruct (_ && _); simpl; log_extends; find_in r.
Qed.

(** At the next location, a non-boundary RefPosition frees the current
    [regsToFree] (not containing [r]) and moves the delayed registers,
    [r] among them, into [regsToFree]. *)
Lemma allocStep_transfer r st m :
  fr_loc m = S (prevLocation st) -> fr_kind m = KOther ->
  noRegAction r (fr_actions m) = true ->
  In r (delayRegsToFree st) -> ~ In r (regsToFree st) ->
  (exists new, freedLog (allocStep st m) = freedLog st ++ new /\
               forall l, ~ In (r, l) new) /\
  prevLocation (allocStep st m) = S (prevLocation st) /\
  In r (regsToFree (allocStep st m)).
Proof.
  intros Hl Hk Hn Hd Hr.
  rewrite allocStep_prevLocation, Hl. split; [|split; [reflexivity|]].
  - rewrite allocStep_log_st3. cbv zeta.
    rewrite (maskNonEmpty_In _ _ Hd), orb_true_r, Hl,
      Hk, (proj2 (Nat.ltb_lt _ _) (Nat.lt_succ_diag_r _)).
    rewrite Nat.add_1_r, Nat.ltb_irrefl. simpl. rewrite andb_false_r. simpl.
    exists (map (fun x => (x, S (prevLocation st))) (regsToFree st)).
    split; [reflexivity|].
    intros l Hin. apply in_map_iff in Hin. destruct Hin as [x [Hx Hx']].
    inversion Hx; subst. contradiction.
  - rewrite allocStep_unfold by (rewrite Hk; reflexivity). cbv zeta.
    apply (actions_no_r r _ _ Hn).
    rewrite (maskNonEmpty_In _ _ Hd), orb_true_r, Hl,
      (proj2 (Nat.ltb_lt _ _) (Nat.lt_succ_diag_r _)), Hk.
    rewrite Nat.add_1_r, Nat.ltb_irrefl. simpl. rewrite andb_false_r. simpl.
    exact Hd.
Qed.

Lemma runAlloc_snoc st pre rp :
  runAlloc st (pre ++ [rp]) = allocStep (runAlloc st pre) rp.
Proof. unfold runAlloc. rewrite fold_left_app. reflexivity. Qed.

Lemma runAlloc_app st l1 l2 :
  runAlloc st (l1 ++ l2) = runAlloc (runAlloc st l1) l2.
Proof. unfold runAlloc. apply fold_left_app. Qed.

Lemma Forall_same_loc r (L : LsraLocation) st mid :
  prevLocation st = L ->
  Forall (fun m => fr_loc m = L /\ fr_kind m = KOther /\
                   noRegAction r (fr_actions m) = true) mid ->
  Forall (fun m => fr_loc m = prevLocation st /\ fr_kind m = KOther /\
                   noRegAction r (fr_actions m) = true) mid.
Proof. intros <- H. exact H. Qed.

(** Claim C9.  Take a RefPosition [rp] at location [L] that is not a
    block boundary.
    - If its mask updates end, for register [r], by [regsToFree |= r]
      (an ordinary last use), then the further RefPositions at [L] (none
      of them a block boundary, none touching [r]) free nothing at all,
      and the first RefPosition at a location beyond [L] frees [r].
    - If they end by [delayRegsToFree |= r] (a delayRegFree last use)
      and [r] is not also waiting in [regsToFree], then the further
      RefPositions at [L] and at [L + 1] (no block boundary, none
      touching [r]) never free [r], and the first RefPosition at a
      location beyond [L + 1] frees it: during location [L + 1] the
      register is still held. *)
Theorem lastUse_free_timing :
  (forall pre rp mid q r a1 a2,
     fr_kind rp <> KBB ->
     fr_actions rp = a1 ++ AddFree r :: a2 -> noRegAction r a2 = true ->
     Forall (fun m => fr_loc m = fr_loc rp /\ fr_kind m = KOther /\
                      noRegAction r (fr_actions m) = true) mid ->
     fr_loc rp < fr_loc q ->
     freedLog (runAlloc (runAlloc initFreeState (pre ++ [rp])) mid)
       = freedLog (runAlloc initFreeState (pre ++ [rp])) /\
     exists new,
       freedLog (allocStep (runAlloc (runAlloc initFreeState (pre ++ [rp])) mid) q)
         = freedLog (runAlloc initFreeState (pre ++ [rp])) ++ new /\
       In (r, fr_loc q) new) /\
  (forall pre rp mid1 mid2 q r a1 a2,
     fr_kind rp <> KBB ->
     fr_actions rp = a1 ++ AddDelay r :: a2 -> noRegAction r a2 = true ->
     ~ In r (regsToFree (runAlloc initFreeState (pre ++ [rp]))) ->
     Forall (fun m => fr_loc m = fr_loc rp /\ fr_kind m = KOther /\
                      noRegAction r (fr_actions m) = true) mid1 ->
     Forall (fun m => fr_loc m = S (fr_loc rp) /\ fr_kind m = KOther /\
                      noRegAction r (fr_actions m) = true) mid2 ->
     S (fr_loc rp) < fr_loc q ->
     (exists new,
        freedLog (runAlloc (runAlloc initFreeState (pre ++ [rp])) (mid1 ++ mid2))
          = freedLog (runAlloc initFreeState (pre ++ [rp])) ++ new /\
        forall l, ~ In (r, l) new) /\
     (exists new,
        freedLog (allocStep (runAlloc (runAlloc initFreeState (pre ++ [rp]))
                                      (mid1 ++ mid2)) q)
          = freedLog (runAlloc (runAlloc initFreeState (pre ++ [rp])) (mid1 ++ mid2))
            ++ new /\
        In (r, fr_loc q) new)).
Proof.
  split.
  - intros pre rp mid q r a1 a2 Hk Ha Hn Hmid Hq.
    set (s0 := runAlloc initFreeState (pre ++ [rp])).
    assert (Hp : prevLocation s0 = fr_loc rp).
    { unfold s0. rewrite runAlloc_snoc. apply allocStep_prevLocation. }
    assert (Hr : In r (regsToFree s0)).
    { unfold s0. rewrite runAlloc_snoc, allocStep_unfold
        by (destruct (fr_kind rp) eqn:Ek; simpl; congruence).
      rewrite Ha. apply actions_last_AddFree, Hn. }
    destruct (run_same_loc r mid s0 (Forall_same_loc r _ s0 mid Hp Hmid))
      as [H1 [H2 [H3 _]]].
    split; [exact H1|].
    destruct (allocStep_frees_regsToFree r (runAlloc s0 mid) q
                ltac:(rewrite H2, Hp; exact Hq) (proj2 H3 Hr)) as [new [Hl Hin]].
    exists new. rewrite Hl, H1. split; [reflexivity | exact Hin].
  - intros pre rp mid1 mid2 q r a1 a2 Hk Ha Hn Hnr Hmid1 Hmid2 Hq.
    set (s0 := runAlloc initFreeState (pre ++ [rp])).
    fold s0 in Hnr.
    assert (Hp : prevLocation s0 = fr_loc rp).
    { unfold s0. rewrite runAlloc_snoc. apply allocStep_prevLocation. }
    assert (Hd : In r (delayRegsToFree s0)).
    { unfold s0. rewrite runAlloc_snoc, allocStep_unfold
        by (destruct (fr_kind rp) eqn:Ek; simpl; congruence).
      rewrite Ha. apply actions_last_AddDelay, Hn. }
    destruct (run_same_loc r mid1 s0 (Forall_same_loc r _ s0 mid1 Hp Hmid1))
      as [H1 [H2 [H3 H4]]].
    set (s1 := runAlloc s0 mid1) in *.
    rewrite runAlloc_app. fold s1.
    destruct mid2 as [|m mid2].
    + split.
      * exists []. rewrite app_nil_r. split; [exact H1 | intros l []].
      * apply allocStep_frees_delay_jump; [simpl; lia | apply H4, Hd].
    + inversion Hmid2 as [|? ? [Hl [Hkm Hnm]] Hmid2']; subst.
      destruct (allocStep_transfer r s1 m ltac:(rewrite Hl, H2, Hp; reflexivity)
                  Hkm Hnm (proj2 H4 Hd) (fun H => Hnr (proj1 H3 H)))
        as [[new [Hlog Hnot]] [Hp' Hr']].
      assert (Hp2 : prevLocation (allocStep s1 m) = S (fr_loc rp)) by (rewrite Hp', H2, Hp; reflexivity).
      destruct (run_same_loc r mid2 (allocStep s1 m)
                  (Forall_same_loc r _ _ mid2 Hp2 Hmid2'))
        as [G1 [G2 [G3 _]]].
      simpl. fold (runAlloc (allocStep s1 m) mid2).
      split.
      * exists new. rewrite G1, Hlog, H1. split; [reflexivity | exact Hnot].
      * apply allocStep_frees_regsToFree; [rewrite G2, Hp2; exact Hq | apply G3, Hr'].
Qed.

Lemma lastUse_free_timing_witness :
  (freedLog (runAlloc (runAlloc initFreeState ([] ++ [lastuse_ok])) [])
     = freedLog (runAlloc initFreeState ([] ++ [lastuse_ok])) /\
   exists new,
     freedLog (allocStep (runAlloc (runAlloc initFreeState ([] ++ [lastuse_ok])) [])
                 def_at_11)
       = freedLog (runAlloc initFreeState ([] ++ [lastuse_ok])) ++ new /\
     In (3, fr_loc def_at_11) new) /\
  ((exists new,
      freedLog (runAlloc (runAlloc initFreeState ([] ++ [lastuse_delayed]))
                         ([] ++ [def_at_11]))
        = freedLog (runAlloc initFreeState ([] ++ [lastuse_delayed])) ++ new /\
      forall l, ~ In (3, l) new) /\
   (exists new,
      freedLog (allocStep (runAlloc (runAlloc initFreeState ([] ++ [lastuse_delayed]))
                                    ([] ++ [def_at_11])) use_at_12)
        = freedLog (runAlloc (runAlloc initFreeState ([] ++ [lastuse_delayed]))
                             ([] ++ [def_at_11])) ++ new /\
      In (3, fr_loc use_at_12) new)).
Proof.
  split.
  - apply (proj1 lastUse_free_timing [] lastuse_ok [] def_at_11 3 [ClearReg 3] []).
    + discriminate.
    + reflexivity.
    + reflexivity.
    + constructor.
    + simpl. lia.
  - apply (proj2 lastUse_free_timing [] lastuse_delayed [] [def_at_11] use_at_12 3
             [ClearReg 3] []).
    + discriminate.
    + reflexivity.
    + reflexivity.
    + vm_compute. tauto.
    + constructor.
    + repeat constructor.
    + simpl. lia.
Defined.

End RegFreeingFacts.



Module FreeRegSelectionFacts.
Import FreeRegSelection.

Lemma optRegEqb_true o r : optRegEqb o r = true <-> o = Some r.
Proof.
  destruct o as [p|]; simpl; [rewrite Nat.eqb_eq; split; congruence | split; discriminate].
Qed.

Lemma foundBetter_true ctx bs bl c :
  foundBetterCandidate ctx bs bl c = true <->
  bs < score ctx c \/
  (score ctx c = bs /\
   ((bl <= sc_lastLocation ctx /\ bl < adjNext ctx c) \/
    (sc_lastLocation ctx < bl /\ sc_lastLocation ctx < adjNext ctx c /\
     (adjNext ctx c < bl \/
      (adjNext ctx c = bl /\ sc_prevReg ctx = Some (rc_reg c)))))).
Proof.
  unfold foundBetterCandidate.
  set (n := adjNext ctx c). set (sc := score ctx c). set (last := sc_lastLocation ctx).
  assert (Hp : optRegEqb (sc_prevReg ctx) (rc_reg c) = true <->
               sc_prevReg ctx = Some (rc_reg c)) by apply optRegEqb_true.
  destruct (optRegEqb (sc_prevReg ctx) (rc_reg c));
  destruct (Nat.ltb_spec bs sc); destruct (Nat.eqb_spec sc bs);
  destruct (Nat.leb_spec bl last); destruct (Nat.ltb_spec bl n);
  destruct (Nat.ltb_spec last n); destruct (Nat.ltb_spec n bl);
  destruct (Nat.eqb_spec n bl); simpl;
  intuition (first [lia | discriminate | congruence]).
Qed.

Lemma in_snoc {A} (x y : A) l : In x (l ++ [y]) <-> In x l \/ x = y.
Proof. rewrite in_app_iff. simpl. intuition. Qed.

Lemma step_inv ctx p best bs bl c :
  eligible c = true -> 0 < adjNext ctx c ->
  LoopInv ctx p best bs bl ->
  LoopInv ctx (p ++ [c])
    (if foundBetterCandidate ctx bs bl c then Some c else best)
    (if foundBetterCandidate ctx bs bl c then score ctx c else bs)
    (if foundBetterCandidate ctx bs bl c then adjNext ctx c else bl).
Proof.
  intros Hel Hpos Hinv.
  destruct (foundBetterCandidate ctx bs bl c) eqn:Hb.
  - apply foundBetter_true in Hb.
    simpl. split; [apply in_snoc; auto|]. split; [exact Hel|].
    split; [reflexivity|]. split; [reflexivity|].
    destruct best as [b|].
    + destruct Hinv as [Hbin [Hbel [Hbs [Hbl [Hmax Htie]]]]]. subst bs bl.
      split.
      * intros c' Hin Hel'. apply in_snoc in Hin. destruct Hin as [Hin| ->]; [|lia].
        specialize (Hmax c' Hin Hel'). lia.
      * intros c' Hin Hel' Hsc. apply in_snoc in Hin.
        destruct Hin as [Hin| ->].
        2:{ split; [intros Hc; split; [exact Hc|split; [lia|auto]] | lia]. }
        pose proof (Hmax c' Hin Hel') as Hm.
        assert (Hsb : score ctx c = score ctx b) by lia.
        destruct (Htie c' Hin Hel' ltac:(lia)) as [T1 T2].
        unfold covers in *.
        destruct Hb as [Hb|[_ [[Hb1 Hb2]|[Hb1 [Hb2 Hb3]]]]]; [lia| |].
        -- split; [intros Hc; destruct (T1 Hc) as [Hc' _]; lia|].
           intros _. specialize (T2 ltac:(lia)). lia.
        -- split; [|intros Hn; lia].
           intros Hc. destruct (T1 Hc) as [_ [Hle Heq]].
           split; [lia|]. split; [lia|].
           intros Heq' Hprev. destruct Hb3 as [Hb3|[Hb3 Hb4]]; [lia|].
           rewrite Hprev in Hb4. congruence.
    + destruct Hinv as [-> [-> Hnone]]. split.
      * intros c' Hin Hel'. apply in_snoc in Hin. destruct Hin as [Hin| ->].
        -- rewrite Hnone in Hel' by exact Hin. discriminate.
        -- lia.
      * intros c' Hin Hel' Hsc. apply in_snoc in Hin. destruct Hin as [Hin| ->].
        -- rewrite Hnone in Hel' by exact Hin. discriminate.
        -- split; [intros Hc; split; [exact Hc|split; [lia|auto]] | lia].
  - destruct best as [b|].
    + destruct Hinv as [Hbin [Hbel [Hbs [Hbl [Hmax Htie]]]]]. subst bs bl.
      assert (Hnb : ~ (foundBetterCandidate ctx (score ctx b) (adjNext ctx b) c = true))
        by congruence.
      rewrite foundBetter_true in Hnb.
      split; [apply in_snoc; auto|]. split; [exact Hbel|].
      split; [reflexivity|]. split; [reflexivity|]. split.
      * intros c' Hin Hel'. apply in_snoc in Hin. destruct Hin as [Hin| ->].
        -- apply Hmax; auto.
        -- lia.
      * intros c' Hin Hel' Hsc. apply in_snoc in Hin. destruct Hin as [Hin| ->].
        -- apply Htie; auto.
        -- unfold covers in *.
           destruct (Nat.leb_spec (adjNext ctx b) (sc_lastLocation ctx)).
           ++ split; [intros Hc; exfalso; apply Hnb; right; split; [exact Hsc|left; lia]|].
              intros _. destruct (Nat.lt_ge_cases (adjNext ctx b) (adjNext ctx c)) as [Hlt|Hge];
                [exfalso; apply Hnb; right; split; [exact Hsc|left; lia] | exact Hge].
           ++ split; [|intros Hn; lia].
              intros Hc. split; [lia|]. split.
              ** destruct (Nat.lt_ge_cases (adjNext ctx c) (adjNext ctx b)) as [Hlt|Hge];
                   [exfalso; apply Hnb; right; split; [exact Hsc|right; split; [lia|split; [lia|left; lia]]] | exact Hge].
              ** intros Heq Hprev. exfalso. apply Hnb. right.
                 split; [exact Hsc|right; split; [lia|split; [lia|right; split; [lia|exact Hprev]]]].
    + exfalso. destruct Hinv as [-> [-> _]].
      assert (Hnb : ~ (foundBetterCandidate ctx 0 0 c = true)) by congruence.
      apply Hnb, foundBetter_true.
      destruct (Nat.eq_0_gt_0_cases (score ctx c)) as [H0|H0]; [right|left; exact H0].
      split; [exact H0|left; lia].
Qed.

(** With no constant-value bit and no overloaded fixed-register-def
    bit, no candidate scores above [bestPossibleScore]. *)
Lemma score_le_bestPossible ctx c :
  sc_isConstantDef ctx = false ->
  (sc_relatedPreferences ctx <> [] \/
   isSingleMask (sc_registerAssignment ctx) (rc_reg c) = false) ->
  score ctx c <= bestPossibleScore ctx.
Proof.
  intros Hk Hs. unfold score, bestPossibleScore. rewrite Hk. cbv zeta. simpl andb.
  destruct (sc_relatedPreferences ctx) as [|x xs] eqn:Hr.
  - destruct Hs as [Hs|Hs]; [congruence|]. rewrite Hs. simpl mem.
    repeat match goal with |- context [if ?b then _ else _] => destruct b end;
      vm_compute; lia.
  - repeat match goal with |- context [if ?b then _ else _] => destruct b end;
      vm_compute; lia.
Qed.

Lemma inv_skip ctx p best bs bl c :
  eligible c = false -> LoopInv ctx p best bs bl -> LoopInv ctx (p ++ [c]) best bs bl.
Proof.
  intros Hel Hinv. destruct best as [b|]; simpl in *.
  - destruct Hinv as [Hbin [Hbel [Hbs [Hbl [Hmax Htie]]]]].
    split; [apply in_snoc; auto|]. do 3 (split; [assumption|]). split.
    + intros c' Hin Hel'. apply in_snoc in Hin. destruct Hin as [Hin| ->]; [auto|congruence].
    + intros c' Hin Hel'. apply in_snoc in Hin. destruct Hin as [Hin| ->]; [auto|congruence].
  - destruct Hinv as [H1 [H2 H3]]. split; [exact H1|]. split; [exact H2|].
    intros c' Hin. apply in_snoc in Hin. destruct Hin as [Hin| ->]; auto.
Qed.

Lemma app_snoc_cons {A} (p : list A) c rest : p ++ c :: rest = (p ++ [c]) ++ rest.
Proof. rewrite <- app_assoc. reflexivity. Qed.

Lemma selectLoop_spec ctx rest : forall p best bs bl,
  (forall c, In c (p ++ rest) -> rc_holdsInterval c = false) ->
  (forall c, In c (p ++ rest) -> eligible c = true -> 0 < adjNext ctx c) ->
  (forall c, In c (p ++ rest) -> score ctx c <= bestPossibleScore ctx) ->
  LoopInv ctx p best bs bl ->
  match selectLoop ctx rest best bs bl with
  | None => forall c, In c (p ++ rest) -> eligible c = false
  | Some b => LoopResult ctx (p ++ rest) b
  end.
Proof.
  induction rest as [|c rest IH]; intros p best bs bl Hh Hpos Hbound Hinv.
  - simpl. rewrite app_nil_r. destruct best as [b|]; simpl in Hinv.
    + destruct Hinv as [Hbin [Hbel [_ [_ [Hmax Htie]]]]].
      split; [exact Hbin|]. split; [exact Hbel|]. split; [exact Hmax|].
      exists (length p). rewrite firstn_all. auto.
    + apply Hinv.
  - rewrite app_snoc_cons in Hh, Hpos, Hbound |- *.
    assert (Hc : In c ((p ++ [c]) ++ rest)) by (apply in_or_app; left; apply in_snoc; auto).
    simpl. rewrite (Hh c Hc).
    destruct (rc_available c) eqn:Ha; simpl.
    2:{ apply IH; auto. apply inv_skip; [unfold eligible; rewrite Ha, andb_false_r; reflexivity|exact Hinv]. }
    destruct (rc_conflictingFixed c) eqn:Hcf; simpl.
    { apply IH; auto. apply inv_skip; [unfold eligible; rewrite Hcf, andb_false_r; reflexivity|exact Hinv]. }
    assert (Hel : eligible c = true) by (unfold eligible; rewrite (Hh c Hc), Ha, Hcf; reflexivity).
    pose proof (step_inv ctx p best bs bl c Hel (Hpos c Hc Hel) Hinv) as Hstep.
    destruct (foundBetterCandidate ctx bs bl c) eqn:Hb.
    + destruct (Nat.eqb (score ctx c) (bestPossibleScore ctx)
                && Nat.eqb (adjNext ctx c) (sc_rangeEndLocation ctx + 1)) eqn:Hbrk.
      * apply andb_true_iff in Hbrk. destruct Hbrk as [Hs Hl].
        apply Nat.eqb_eq in Hs. apply Nat.eqb_eq in Hl.
        destruct Hstep as [Hbin [Hbel [_ [_ [Hmax Htie]]]]].
        split; [apply in_or_app; left; exact Hbin|]. split; [exact Hbel|].
        split.
        -- intros c' Hin Hel'. apply in_app_or in Hin. destruct Hin as [Hin|Hin].
           ++ apply Hmax; auto.
           ++ pose proof (Hbound c' ltac:(apply in_or_app; right; exact Hin)). lia.
        -- exists (length (p ++ [c])).
           rewrite firstn_app, Nat.sub_diag, firstn_all, firstn_O, app_nil_r.
           split; [right; split; lia|]. split; [exact Hbin|exact Htie].
      * apply IH; auto.
    + destruct (Nat.eqb (score ctx c) (bestPossibleScore ctx)
                && Nat.eqb bl (sc_rangeEndLocation ctx + 1)) eqn:Hbrk.
      * apply andb_true_iff in Hbrk. destruct Hbrk as [Hs Hl].
        apply Nat.eqb_eq in Hs. apply Nat.eqb_eq in Hl.
        destruct best as [b|]; simpl in Hstep.
        2:{ destruct Hstep as [_ [Hbl _]]. lia. }
        destruct Hstep as [Hbin [Hbel [Hbs [Hbl [Hmax Htie]]]]].
        split; [apply in_or_app; left; exact Hbin|]. split; [exact Hbel|].
        assert (Hcb : score ctx c <= score ctx b) by (apply Hmax; [apply in_snoc; auto|exact Hel]).
        assert (Hbb : score ctx b <= bestPossibleScore ctx)
          by (apply Hbound; apply in_or_app; left; exact Hbin).
        split.
        -- intros c' Hin Hel'. apply in_app_or in Hin. destruct Hin as [Hin|Hin].
           ++ apply Hmax; auto.
           ++ pose proof (Hbound c' ltac:(apply in_or_app; right; exact Hin)). lia.
        -- exists (length (p ++ [c])).
           rewrite firstn_app, Nat.sub_diag, firstn_all, firstn_O, app_nil_r.
           split; [right; split; lia|]. split; [exact Hbin|exact Htie].
      * apply IH; auto.
Qed.

(** Claim C4, counterexample.  Registers 0 and 1 are both free
    candidates with the same score, and both stay free past the
    Interval's last location (20); register 1's next reference (100) is
    farther than register 0's (50), yet register 0 is chosen: once the
    best candidate covers the Interval, the code prefers the register
    whose next reference is nearer. *)
Lemma tryAllocateFreeReg_farthest_tie_cex :
  eligible tie_r0 = true /\ eligible tie_r1 = true /\
  score tie_ctx tie_r0 = score tie_ctx tie_r1 /\
  adjNext tie_ctx tie_r0 < adjNext tie_ctx tie_r1 /\
  tryAllocateFreeReg tie_ctx [tie_r0; tie_r1] = Some tie_r0.
Proof.
  split; [reflexivity|]. split; [reflexivity|]. split; [reflexivity|].
  split; [vm_compute; lia|reflexivity].
Qed.

(** Registers of a candidate list with distinct registers determine
    the candidate. *)
Lemma NoDup_map_inj {A B} (f : A -> B) (l : list A) x y :
  NoDup (map f l) -> In x l -> In y l -> f x = f y -> x = y.
Proof.
  induction l as [| z l IH]; intros Hd Hx Hy Hf; [destruct Hx |].
  inversion Hd as [| ? ? Hn Hd']; subst.
  destruct Hx as [<- | Hx], Hy as [<- | Hy]; [reflexivity | | | exact (IH Hd' Hx Hy Hf)].
  - exfalso. apply Hn. rewrite Hf. apply in_map, Hy.
  - exfalso. apply Hn. rewrite <- Hf. apply in_map, Hx.
Qed.

(** The Interval's previous register, as a candidate [c], passes the
    tests that make [tryAllocateFreeReg] re-use it at once: preferred,
    available and without a conflicting fixed reference. *)
Definition prevRegUsable (ctx : SelectCtx) (c : RegCand) : Prop :=
  sc_prevReg ctx = Some (rc_reg c) /\ In (rc_reg c) (sc_preferences ctx) /\
  rc_available c = true /\ rc_conflictingFixed c = false.

(** Claim C4, amended.  Let the candidates have distinct registers.  If
    the Interval's previous register is a candidate that is preferred,
    available and without a conflicting fixed reference,
    [tryAllocateFreeReg] returns it.  Otherwise, assume further that no
    candidate register already holds the Interval, the reference is not
    the definition of a constant, and either the related Interval has
    preferences or no candidate is the single register of
    [registerAssignment] (so no candidate scores above
    [bestPossibleScore]); locations are positive.  Then
    [tryAllocateFreeReg] returns no register only when no candidate is
    free, and otherwise returns a free candidate of highest score which,
    among the candidates it scanned of that score, is the one the tie
    rule prefers (nearest next reference among those covering the
    Interval's last location, the previous register at equal distance;
    else the farthest next reference); the scan covers all candidates
    unless it stopped at a candidate of the best possible score whose
    next reference follows the range end. *)
Theorem tryAllocateFreeReg_selection ctx cands :
  NoDup (map rc_reg cands) ->
  (forall c, In c cands -> prevRegUsable ctx c -> tryAllocateFreeReg ctx cands = Some c) /\
  ((forall c, In c cands -> ~ prevRegUsable ctx c) ->
   (forall c, In c cands -> rc_holdsInterval c = false) ->
   sc_isConstantDef ctx = false ->
   (sc_relatedPreferences ctx <> [] \/
    forall c, In c cands -> isSingleMask (sc_registerAssignment ctx) (rc_reg c) = false) ->
   (forall c, In c cands -> eligible c = true -> 0 < adjNext ctx c) ->
   match tryAllocateFreeReg ctx cands with
   | None => forall c, In c cands -> eligible c = false
   | Some b => LoopResult ctx cands b
   end).
Proof.
  intros Hnd. split.
  - intros c Hin (Hp & Hm & Ha & Hcf). unfold tryAllocateFreeReg. rewrite Hp.
    destruct (find (fun c' => Nat.eqb (rc_reg c') (rc_reg c)) cands) as [c' |] eqn:Hf.
    + apply find_some in Hf as [Hin' Hr]. apply Nat.eqb_eq in Hr.
      pose proof (NoDup_map_inj rc_reg cands c' c Hnd Hin' Hin Hr) as ->.
      assert (Hm' : mem (rc_reg c) (sc_preferences ctx) = true)
        by (apply existsb_exists; exists (rc_reg c); split; [exact Hm | apply Nat.eqb_refl]).
      rewrite Hm', Ha, Hcf. reflexivity.
    + exfalso. apply (find_none _ _ Hf) in Hin. rewrite Nat.eqb_refl in Hin. discriminate Hin.
  - intros Hnu Hh Hk Hs Hpos.
    assert (Hloop : match selectLoop ctx cands None 0 0 with
                    | None => forall c, In c cands -> eligible c = false
                    | Some b => LoopResult ctx cands b
                    end).
    { apply (selectLoop_spec ctx cands [] None 0 0); simpl; auto.
      - intros c Hc. apply score_le_bestPossible; [exact Hk|].
        destruct Hs as [Hs|Hs]; [left; exact Hs|right; apply Hs, Hc].
      - split; [reflexivity|]. split; [reflexivity|]. intros c []. }
    unfold tryAllocateFreeReg.
    destruct (sc_prevReg ctx) as [prevReg|] eqn:Hp; [|exact Hloop].
    destruct (find (fun c => Nat.eqb (rc_reg c) prevReg) cands) as [regRec|] eqn:Hf;
      [|exact Hloop].
    destruct (mem prevReg (sc_preferences ctx) && rc_available regRec
              && negb (rc_conflictingFixed regRec)) eqn:Hc; [|exact Hloop].
    exfalso.
    apply find_some in Hf. destruct Hf as [Hin Hreg]. apply Nat.eqb_eq in Hreg.
    apply andb_true_iff in Hc. destruct Hc as [Hc Hcf].
    apply andb_true_iff in Hc. destruct Hc as [Hm Ha].
    apply (Hnu regRec Hin). split; [rewrite Hreg; exact Hp |].
    split; [| split; [exact Ha | apply negb_true_iff, Hcf]].
    unfold mem in Hm. apply existsb_exists in Hm. destruct Hm as [x [Hx Hxe]].
    apply Nat.eqb_eq in Hxe. rewrite Hreg, Hxe. exact Hx.
Qed.

(** The tie example with register 1 as the Interval's previous
    register. *)
Definition prev_ctx : SelectCtx :=
  {| sc_isConstantDef := false; sc_preferences := [0; 1];
     sc_relatedPreferences := []; sc_relatedLastLoc := 0;
     sc_registerAssignment := [0; 1]; sc_preferCalleeSave := false;
     sc_rangeEndLocation := 10; sc_lastLocation := 20; sc_prevReg := Some 1 |}.

Lemma tryAllocateFreeReg_selection_witness :
  NoDup (map rc_reg [tie_r0; tie_r1]) /\
  tryAllocateFreeReg prev_ctx [tie_r0; tie_r1] = Some tie_r1 /\
  match tryAllocateFreeReg tie_ctx [tie_r0; tie_r1] with
  | None => forall c, In c [tie_r0; tie_r1] -> eligible c = false
  | Some b => LoopResult tie_ctx [tie_r0; tie_r1] b
  end.
Proof.
  assert (Hnd : NoDup (map rc_reg [tie_r0; tie_r1]))
    by (constructor; [intros [H | []]; discriminate H | constructor; [intros [] | constructor]]).
  split; [exact Hnd |]. split.
  - apply (proj1 (tryAllocateFreeReg_selection prev_ctx [tie_r0; tie_r1] Hnd)).
    + right. left. reflexivity.
    + split; [reflexivity |]. split; [right; left; reflexivity |]. split; reflexivity.
  - apply (proj2 (tryAllocateFreeReg_selection tie_ctx [tie_r0; tie_r1] Hnd)).
    + intros c _ (Hp & _). discriminate Hp.
    + intros c [<-|[<-|[]]]; reflexivity.
    + reflexivity.
    + right. intros c [<-|[<-|[]]]; reflexivity.
    + intros c [<-|[<-|[]]] _; vm_compute; lia.
Defined.

End FreeRegSelectionFacts.



Module BusySelectionFacts.
Import BusySelection.

(** The loop invariant of [allocateBusyReg] over the registers seen so far. *)
Definition BInv (p : bool) (ownW : N) (seen : list BusyCand) (st : BusyState) : Prop :=
  (forall c w, In c seen -> spillable c w ->
     (bs_weight st < w)%N \/
     (w = bs_weight st /\
      (nextLoc c <= bs_location st \/ (p = true /\ bs_farthest st = None))))
  /\ (bs_farthest st = None -> bs_weight st = initWeight p ownW)
  /\ (forall b, bs_farthest st = Some b ->
        In b seen /\ spillable b (bs_weight st) /\ nextLoc b = bs_location st /\
        (p = true -> (bs_weight st < ownW)%N))
  /\ (bs_weight st <= initWeight p ownW)%N.

Lemma BInv_init p ownW :
  BInv p ownW [] {| bs_farthest := None; bs_location := MinLocation;
                    bs_weight := initWeight p ownW |}.
Proof.
  repeat split; simpl; try tauto; try discriminate; lia.
Qed.

Lemma BInv_keep p ownW seen st c :
  BInv p ownW seen st ->
  (forall w, spillable c w ->
     (bs_weight st < w)%N \/
     (w = bs_weight st /\
      (nextLoc c <= bs_location st \/ (p = true /\ bs_farthest st = None)))) ->
  BInv p ownW (seen ++ [c]) st.
Proof.
  intros (H1 & H2 & H3 & H4) Hc.
  refine (conj _ (conj H2 (conj _ H4))).
  - intros c' w Hin Hsp. apply in_app_or in Hin as [Hin | [<- | []]].
    + eauto.
    + auto.
  - intros b Hb. destruct (H3 b Hb) as (Hi & Hs & Hl & Hw).
    refine (conj _ (conj Hs (conj Hl Hw))). apply in_or_app; auto.
Qed.

Lemma BInv_take p ownW seen st c w :
  BInv p ownW seen st ->
  spillable c w -> (w <= bs_weight st)%N ->
  (forall c' w', In c' seen -> spillable c' w' ->
     (w < w')%N \/ (w' = w /\ nextLoc c' <= nextLoc c)) ->
  (p = true -> (w < ownW)%N) ->
  BInv p ownW (seen ++ [c])
    {| bs_farthest := Some c; bs_location := nextLoc c; bs_weight := w |}.
Proof.
  intros (H1 & H2 & H3 & H4) Hsp Hle Hseen Hp.
  refine (conj _ (conj _ (conj _ _))); simpl.
  - intros c' w' Hin Hsp'. apply in_app_or in Hin as [Hin | [<- | []]].
    + destruct (Hseen c' w' Hin Hsp') as [Hl | [-> Hn]]; [left | right]; auto.
    + right. destruct Hsp as (_ & _ & Hw). destruct Hsp' as (_ & _ & Hw').
      split; [congruence | left; lia].
  - discriminate.
  - intros b Hb. inversion Hb; subst.
    refine (conj _ (conj Hsp (conj eq_refl Hp))).
    apply in_or_app; right; left; auto.
  - lia.
Qed.

Lemma busyStep_inv p ownW seen st c :
  BInv p ownW seen st -> BInv p ownW (seen ++ [c]) (busyStep p st c).
Proof.
  intros Hinv.
  unfold busyStep.
  destruct (bc_inCandidates c) eqn:Ein; simpl;
    [| apply BInv_keep; auto; intros w (Hc & _); congruence].
  destruct (bc_isSpillCandidate c) eqn:Esc; simpl;
    [| apply BInv_keep; auto; intros w (_ & Hc & _); congruence].
  destruct (canSpillReg c) as [w|] eqn:Ecs;
    [| apply BInv_keep; auto; intros w (_ & _ & Hc); congruence].
  assert (Hspc : spillable c w) by (repeat split; auto).
  assert (Hw : forall w', spillable c w' -> w' = w)
    by (intros w' (_ & _ & Hw'); congruence).
  pose proof Hinv as (H1 & H2 & H3 & H4).
  destruct (N.ltb_spec (bs_weight st) w) as [Hlt | Hle].
  { (* heavier than the best so far: skipped *)
    apply BInv_keep; [exact Hinv |]. intros w' Hw'. apply Hw in Hw'. subst. auto. }
  destruct (N.ltb_spec w (bs_weight st)) as [Hwlt | Hwge].
  { (* strictly lighter: taken *)
    apply (BInv_take p ownW seen st c w Hinv Hspc); [lia | |].
    - intros c' w' Hin Hsp. destruct (H1 c' w' Hin Hsp) as [Hl | [-> _]]; left; lia.
    - intros Hp. subst p. simpl in H4. lia. }
  assert (Heq : w = bs_weight st) by lia. subst w.
  destruct (p && isNoneB (bs_farthest st)) eqn:Epn.
  { (* allocate-if-profitable, nothing found yet: not taken *)
    apply andb_true_iff in Epn as [Ep Enone].
    destruct (bs_farthest st) eqn:Ef; [discriminate |].
    apply BInv_keep; [exact Hinv |]. intros w' Hw'. apply Hw in Hw'. subst. auto. }
  assert (Htake : nextLoc c >= bs_location st ->
            BInv p ownW (seen ++ [c])
              {| bs_farthest := Some c; bs_location := nextLoc c;
                 bs_weight := bs_weight st |}).
  { intros Hge. apply (BInv_take p ownW seen st c (bs_weight st) Hinv Hspc); [lia | |].
    - intros c' w' Hin Hsp. destruct (H1 c' w' Hin Hsp) as [Hl | [-> [Hn | [Hp Hnone]]]].
      + left; auto.
      + right. split; auto. lia.
      + subst p. rewrite Hnone in Epn. discriminate.
    - intros Hp. subst p. destruct (bs_farthest st) as [b0|] eqn:Ef.
      + destruct (H3 b0 eq_refl) as (_ & _ & _ & Hb). auto.
      + discriminate. }
  destruct (Nat.ltb_spec (bs_location st) (nextLoc c)) as [Hfar | Hnear].
  { apply Htake. lia. }
  assert (Hkeep : BInv p ownW (seen ++ [c]) st).
  { apply BInv_keep; [exact Hinv |]. intros w' Hw'. apply Hw in Hw'. subst. right. auto. }
  destruct (Nat.eqb_spec (nextLoc c) (bs_location st)) as [Hsame | Hdiff];
    [| exact Hkeep].
  destruct (recentIsOptionalReload c); [| exact Hkeep].
  apply Htake. lia.
Qed.

Lemma selectBusy_inv_gen p ownW cands seen st :
  BInv p ownW seen st ->
  BInv p ownW (seen ++ cands) (fold_left (busyStep p) cands st).
Proof.
  revert seen st. induction cands as [|c cs IH]; intros seen st H; simpl.
  - rewrite app_nil_r. exact H.
  - replace (seen ++ c :: cs) with ((seen ++ [c]) ++ cs)
      by (rewrite <- app_assoc; reflexivity).
    apply IH, busyStep_inv, H.
Qed.

Lemma selectBusy_inv p ownW cands :
  BInv p ownW cands (selectBusy p ownW cands).
Proof.
  unfold selectBusy.
  apply (selectBusy_inv_gen p ownW cands []), BInv_init.
Qed.

(** Evicting an active occupant whose recent reference has a successor. *)
Lemma unassign_spills r iv rr :
  iv_physReg iv = Some r -> iv_isActive iv = true -> rr_hasNext rr = true ->
  exists iv' rr', unassignPhysReg r iv (Some rr) = (iv', Some rr') /\
    iv_physReg iv' = None /\ iv_isActive iv' = false /\ iv_isSpilled iv' = true /\
    (rr_lastUse rr = false -> rr_spillAfter rr' = true \/ rr_regAssignNone rr' = true) /\
    (forall rt, RefTypeIsUse rt = true -> reloadMark iv' rt = true).
Proof.
  intros Hr Ha Hn. unfold unassignPhysReg. rewrite Hr. simpl.
  rewrite Nat.eqb_refl. simpl. rewrite Ha, Hn. simpl.
  unfold spillInterval. simpl.
  eexists; eexists; split; [reflexivity |].
  repeat split.
  - intros Hl. rewrite Hl. simpl.
    destruct (rr_regOptional rr && negb (iv_isLocalVar iv && rr_isActualRef rr));
      simpl; auto.
  - intros rt Hrt. unfold reloadMark. simpl. exact Hrt.
Qed.

(** Claim C3, counterexample.  A mandatory reference (not regOptional)
    finds registers 0 and 1 busy, their occupants' recent references of
    equal weight 5 and next used at 100 and 50.  The claim has register 0
    chosen, whose occupant's next use is the farthest; allocateBusyReg
    chooses register 1, since register 0 has its own fixed reference at
    40 and the location compared is the earlier of the two. *)
Lemma allocateBusyReg_farthest_occupant_cex :
  (forall c, In c [busy_r0; busy_r1] -> spillable c 5%N) /\
  bc_occupantNextLoc busy_r0 = 100 /\ bc_occupantNextLoc busy_r1 = 50 /\
  option_map (fun x => fst (fst x)) (allocateBusyReg false 5%N [busy_r0; busy_r1])
    = Some 1 /\
  ~ (option_map (fun x => fst (fst x)) (allocateBusyReg false 5%N [busy_r0; busy_r1])
       = Some (bc_reg busy_r0)).
Proof.
  split; [| split; [reflexivity | split; [reflexivity | split]]].
  - intros c [<- | [<- | []]]; repeat split.
  - vm_compute. reflexivity.
  - vm_compute. discriminate.
Qed.

(** Claim C3 (amended).  The register allocateBusyReg picks is a
    candidate that [canSpillReg] accepts, of minimum recent-reference
    weight among all such candidates (strictly below the reference's own
    weight when it is only allocated if profitable), and among those of
    that weight one whose next location, the earlier of the occupant's
    next reference and the register's own next fixed reference, is the
    farthest.  When its occupant is active in it and its recent reference
    has a successor, the occupant loses the register, becomes inactive
    and is marked spilled, its recent reference is marked [spillAfter]
    (or left without a register) unless it was a last use, and a later use
    of it is marked [reload].  When nothing is picked, no acceptable
    candidate weighs less than the initial bound. *)
Lemma allocateBusyReg_selection p ownW cands :
  (forall b, bs_farthest (selectBusy p ownW cands) = Some b ->
     In b cands /\
     (exists wb, spillable b wb /\ (p = true -> (wb < ownW)%N) /\
        forall c w, In c cands -> spillable c w ->
          (wb < w)%N \/ (w = wb /\ nextLoc c <= nextLoc b)) /\
     (iv_physReg (bc_occupant b) = Some (bc_reg b) ->
      iv_isActive (bc_occupant b) = true ->
      forall rr, bc_recent b = Some rr -> rr_hasNext rr = true ->
      exists iv' rr', allocateBusyReg p ownW cands = Some (bc_reg b, iv', Some rr') /\
        iv_physReg iv' = None /\ iv_isActive iv' = false /\ iv_isSpilled iv' = true /\
        (rr_lastUse rr = false -> rr_spillAfter rr' = true \/ rr_regAssignNone rr' = true) /\
        (forall rt, RefTypeIsUse rt = true -> reloadMark iv' rt = true)))
  /\ (bs_farthest (selectBusy p ownW cands) = None ->
      allocateBusyReg p ownW cands = None /\
      forall c w, In c cands -> spillable c w -> (initWeight p ownW <= w)%N).
Proof.
  destruct (selectBusy_inv p ownW cands) as (H1 & H2 & H3 & H4).
  split.
  - intros b Hb. destruct (H3 b Hb) as (Hin & Hsp & Hloc & Hp).
    split; [exact Hin | split].
    + exists (bs_weight (selectBusy p ownW cands)). split; [exact Hsp | split; [exact Hp |]].
      intros c w Hc Hsc. rewrite Hloc.
      destruct (H1 c w Hc Hsc) as [Hl | [Heq [Hn | [_ Hnone]]]].
      * left; auto.
      * right; auto.
      * congruence.
    + intros Hr Ha rr Hrr Hn.
      destruct (unassign_spills (bc_reg b) (bc_occupant b) rr Hr Ha Hn)
        as (iv' & rr' & Hu & R).
      exists iv', rr'. split; [| exact R].
      unfold allocateBusyReg. rewrite Hb, Hrr, Hu. reflexivity.
  - intros Hnone. split.
    + unfold allocateBusyReg. rewrite Hnone. reflexivity.
    + intros c w Hc Hsc. rewrite <- (H2 Hnone).
      destruct (H1 c w Hc Hsc) as [Hl | [-> _]]; lia.
Qed.

(** Witness for C3 (amended): on the example of the counterexample,
    register 1 is picked and its occupant is spilled. *)
Lemma allocateBusyReg_selection_witness :
  bs_farthest (selectBusy false 5%N [busy_r0; busy_r1]) = Some busy_r1 /\
  exists iv' rr', allocateBusyReg false 5%N [busy_r0; busy_r1] = Some (1, iv', Some rr') /\
    iv_isSpilled iv' = true /\ rr_spillAfter rr' = true.
Proof.
  assert (Hb : bs_farthest (selectBusy false 5%N [busy_r0; busy_r1]) = Some busy_r1)
    by (vm_compute; reflexivity).
  split; [exact Hb |].
  destruct (proj2 (proj2 (proj1 (allocateBusyReg_selection false 5%N [busy_r0; busy_r1])
                                busy_r1 Hb))
              eq_refl eq_refl busy_recent eq_refl eq_refl)
    as (iv' & rr' & Ha & _ & _ & Hs & Hsa & _).
  exists iv', rr'. split; [exact Ha | split; [exact Hs |]].
  destruct (Hsa eq_refl) as [Ht | Hnone]; [exact Ht |].
  vm_compute in Ha. injection Ha as _ <-. vm_compute. reflexivity.
Defined.

End BusySelectionFacts.

Module NoRegisterFacts.
Import BusySelection BusySelectionFacts NoRegister.

(** With allocate-if-profitable, a loop state holding no register and the
    reference's own weight is left unchanged by candidates no lighter than
    that weight. *)
Lemma busyStep_profitable_keep ownW loc c :
  (forall w, spillable c w -> (ownW <= w)%N) ->
  busyStep true {| bs_farthest := None; bs_location := loc; bs_weight := ownW |} c
  = {| bs_farthest := None; bs_location := loc; bs_weight := ownW |}.
Proof.
  intros Hc. unfold busyStep. simpl.
  destruct (bc_inCandidates c) eqn:Ein; simpl; [| reflexivity].
  destruct (bc_isSpillCandidate c) eqn:Esc; simpl; [| reflexivity].
  destruct (canSpillReg c) as [w|] eqn:Ecs; [| reflexivity].
  assert (Hw : (ownW <= w)%N) by (apply Hc; repeat split; auto).
  destruct (N.ltb_spec ownW w); [reflexivity |].
  destruct (N.ltb_spec w ownW); [lia |]. reflexivity.
Qed.

Lemma selectBusy_profitable_none ownW cands :
  (forall c w, In c cands -> spillable c w -> (ownW <= w)%N) ->
  bs_farthest (selectBusy true ownW cands) = None.
Proof.
  unfold selectBusy, initWeight. generalize MinLocation as loc.
  induction cands as [|c cs IH]; intros loc Hall; simpl; [reflexivity |].
  rewrite busyStep_profitable_keep by (intros w; apply Hall; left; auto).
  apply IH. intros c' w Hin. apply Hall. right. exact Hin.
Qed.

Lemma selectBusy_profitable_none_iff ownW cands :
  bs_farthest (selectBusy true ownW cands) = None <->
  (forall c w, In c cands -> spillable c w -> (ownW <= w)%N).
Proof.
  split; [| apply selectBusy_profitable_none].
  intros Hnone c w Hin Hsp.
  destruct (proj2 (allocateBusyReg_selection true ownW cands)) as [_ H]; auto.
  exact (H c w Hin Hsp).
Qed.

(** Claim C5, counterexample.  In a release build for a target without
    [FEATURE_PARTIAL_SIMD_CALLEE_SAVE], a mandatory RefPosition that is
    not an actual reference, with no free register and no spill candidate
    at all, is not a fatal failure; and a regOptional use of weight 5 is
    declined although register 0 is a spill candidate whose occupant's
    recent reference does not weigh more than 5. *)
Lemma noRegister_outcome_cex :
  nr_regOptional nr_nonactual = false /\
  bs_farthest (selectBusy false 5%N []) = None /\
  allocateNoAssigned cfg_release None 5%N [] nr_nonactual nr_iv false <> NowayAssertFailure /\
  nr_regOptional nr_optional = true /\
  spillable nr_busy_r0 5%N /\
  allocateNoAssigned cfg_release None 5%N [nr_busy_r0] nr_optional nr_iv false
    = NoRegAllocated (setAssignNone nr_optional false) (setSpilled nr_iv true).
Proof.
  split; [reflexivity |]. split; [reflexivity |].
  split; [vm_compute; discriminate |]. split; [reflexivity |].
  split; [repeat split | vm_compute; reflexivity].
Qed.

(** Claim C5 (amended).  When no free register is found, a RefPosition
    is allocatable when it is an actual reference or, with
    [FEATURE_PARTIAL_SIMD_CALLEE_SAVE] on ARM64, when its Interval is an
    upper vector.  On ARM64 a regOptional upper-vector RefPosition fails
    an [assert] in a checked build.  Otherwise, for an allocatable
    reference for which allocateBusyReg picks no register, a mandatory
    reference fails the [noway_assert] and a regOptional one is declined,
    its register assignment set to none, its reload flag cleared and its
    Interval marked spilled; a reference that is not allocatable is never
    fatal, its register assignment is set to none and its Interval made
    inactive and marked spilled.  For a regOptional reference,
    allocateBusyReg picks no register exactly when every spill candidate's
    occupant has a recent-reference weight at least the reference's own. *)
Lemma allocateNoAssigned_outcome cfg tryFree ownW cands rp iv isUpperVector :
  tryFree = None ->
  let isAllocatable := (cf_partialSimdArm64 cfg && isUpperVector) || nr_isActualRef rp in
  ((cf_checked cfg && cf_partialSimdArm64 cfg && isUpperVector && nr_regOptional rp) = true ->
   allocateNoAssigned cfg tryFree ownW cands rp iv isUpperVector = AssertFailure)
  /\ ((cf_checked cfg && cf_partialSimdArm64 cfg && isUpperVector && nr_regOptional rp) = false ->
      isAllocatable = true ->
      bs_farthest (selectBusy (nr_regOptional rp) ownW cands) = None ->
      allocateNoAssigned cfg tryFree ownW cands rp iv isUpperVector =
        if nr_regOptional rp
        then NoRegAllocated (setAssignNone rp false) (setSpilled iv (iv_isActive iv))
        else NowayAssertFailure)
  /\ (isAllocatable = false ->
      allocateNoAssigned cfg tryFree ownW cands rp iv isUpperVector =
        NoRegAllocated (setAssignNone rp (nr_reload rp)) (setSpilled iv false))
  /\ (nr_regOptional rp = true ->
      (bs_farthest (selectBusy true ownW cands) = None <->
       forall c w, In c cands -> spillable c w -> (ownW <= w)%N)).
Proof.
  intros ->. cbv zeta.
  split; [| split; [| split]].
  - intros H. unfold allocateNoAssigned. cbv zeta. rewrite H.
    destruct (nr_regOptional rp); [| rewrite !andb_false_r in H; discriminate H].
    repeat match goal with |- context [if ?c then _ else _] =>
      lazymatch c with true => fail | false => fail | _ => destruct c end end;
    reflexivity.
  - intros Hc Ha Hnone. unfold allocateNoAssigned. cbv zeta.
    assert (Hb : allocateBusyReg (nr_regOptional rp) ownW cands = None)
      by (unfold allocateBusyReg; rewrite Hnone; reflexivity).
    rewrite Hb, Hc.
    destruct (cf_partialSimdArm64 cfg && isUpperVector); simpl in Ha; [| rewrite Ha].
    all: destruct (nr_regOptional rp); simpl;
    repeat match goal with |- context [if ?c then _ else _] =>
      lazymatch c with true => fail | false => fail | _ => destruct c end end;
    reflexivity.
  - intros Ha. unfold allocateNoAssigned. cbv zeta.
    destruct (cf_checked cfg), (cf_partialSimdArm64 cfg), isUpperVector,
      (nr_isActualRef rp), (nr_regOptional rp); simpl in Ha; try discriminate Ha; simpl;
    repeat match goal with |- context [if ?c then _ else _] =>
      lazymatch c with true => fail | false => fail | _ => destruct c end end;
    reflexivity.
  - intros _. apply selectBusy_profitable_none_iff.
Qed.

(** Witness for C5 (amended), on the regOptional example in a release
    build, and on a mandatory upper-vector RefPosition that is not an
    actual reference in a checked ARM64 build, which fails the
    [noway_assert] when no register can be spilled. *)
Lemma allocateNoAssigned_outcome_witness :
  allocateNoAssigned cfg_release None 5%N [nr_busy_r0] nr_optional nr_iv false
    = NoRegAllocated (setAssignNone nr_optional false) (setSpilled nr_iv true) /\
  bs_farthest (selectBusy true 5%N [nr_busy_r0]) = None /\
  allocateNoAssigned cfg_arm64_checked None 5%N [] nr_nonactual nr_iv true = NowayAssertFailure.
Proof.
  destruct (allocateNoAssigned_outcome cfg_release None 5%N [nr_busy_r0] nr_optional nr_iv false eq_refl)
    as (_ & Ha & _ & Hiff).
  assert (Hn : bs_farthest (selectBusy true 5%N [nr_busy_r0]) = None).
  { apply (proj2 (Hiff eq_refl)).
    intros c w [<- | []] (_ & _ & Hw). vm_compute in Hw. injection Hw as <-. lia. }
  split; [exact (Ha eq_refl eq_refl Hn) |]. split; [exact Hn |].
  destruct (allocateNoAssigned_outcome cfg_arm64_checked None 5%N [] nr_nonactual nr_iv true eq_refl)
    as (_ & Hb & _).
  exact (Hb eq_refl eq_refl eq_refl).
Defined.

End NoRegisterFacts.

Module BlockSequencingFacts.
Import BlockSequencing.

Lemma memNum_iff n l : memNum n l = true <-> In n l.
Proof.
  unfold memNum. rewrite existsb_exists. split.
  - intros (x & Hx & Heq). apply Nat.eqb_eq in Heq. subst. exact Hx.
  - intros H. exists n. split; [exact H | apply Nat.eqb_refl].
Qed.

Lemma insertWorkList_In b ps u wl x :
  In x (insertWorkList b ps u wl) <-> x = b \/ In x wl.
Proof.
  induction wl as [|n rest IH]; simpl.
  - intuition (subst; auto).
  - destruct (Z.ltb 0 _); simpl; [intuition (subst; auto) |]. rewrite IH. intuition (subst; auto).
Qed.

Lemma NoDup_snoc {A} (l : list A) a : NoDup l -> ~ In a l -> NoDup (l ++ [a]).
Proof.
  intros Hl Ha. apply NoDup_app; auto.
  - constructor; [intros [] | constructor].
  - intros x Hx [<- | []]. contradiction.
Qed.

Lemma hd_error_app_ne {A} (l l' : list A) : l <> [] -> hd_error (l ++ l') = hd_error l.
Proof. destruct l; [congruence | reflexivity]. Qed.

Section Facts.
Variable IsSubset : list nat -> list nat -> bool.
Variable blocks : list Block.
Hypothesis Hnd : NoDup (map b_num blocks).

Lemma num_in x y : In x blocks -> In y blocks -> b_num x = b_num y -> x = y.
Proof.
  clear IsSubset. revert Hnd. induction blocks as [|a l IH]; intros Hn Hx Hy Heq; [destruct Hx |].
  simpl in Hn. inversion Hn as [|? ? Hna Hnl]; subst.
  destruct Hx as [<- | Hx]; destruct Hy as [<- | Hy]; auto.
  - exfalso. apply Hna. rewrite Heq. apply in_map. exact Hy.
  - exfalso. apply Hna. rewrite <- Heq. apply in_map. exact Hx.
Qed.

Lemma visited_In sq b :
  incl sq blocks -> In b blocks -> In (b_num b) (map b_num sq) -> In b sq.
Proof.
  intros Hi Hb Hn. apply in_map_iff in Hn as (x & Hx & Hxs).
  rewrite (num_in b x Hb (Hi x Hxs) (eq_sym Hx)). exact Hxs.
Qed.

Lemma lookupBlock_some n s :
  lookupBlock blocks n = Some s -> In s blocks /\ b_num s = n.
Proof.
  unfold lookupBlock. intros H. apply find_some in H as [Hin Heq].
  apply Nat.eqb_eq in Heq. auto.
Qed.

Lemma lookupBlock_complete s : In s blocks -> lookupBlock blocks (b_num s) = Some s.
Proof.
  intros Hs. unfold lookupBlock.
  destruct (find (fun b => Nat.eqb (b_num b) (b_num s)) blocks) as [x|] eqn:E.
  - apply find_some in E as [Hx Heq]. apply Nat.eqb_eq in Heq.
    rewrite (num_in x s Hx Hs Heq). reflexivity.
  - exfalso. apply (find_none _ _ E s) in Hs. rewrite Nat.eqb_refl in Hs. discriminate.
Qed.

Lemma getNext_None sq wl r :
  getNextCandidateFromWorkList sq wl = (None, r) ->
  forall x, In x wl -> In (b_num x) (map b_num sq).
Proof.
  induction wl as [|c rest IH]; simpl; intros H x Hx; [destruct Hx |].
  unfold isBlockVisited in H.
  destruct (memNum (b_num c) (map b_num sq)) eqn:Ev; [| discriminate].
  destruct Hx as [<- | Hx].
  - apply memNum_iff. exact Ev.
  - exact (IH H x Hx).
Qed.

Lemma getNext_None_nil sq wl r :
  getNextCandidateFromWorkList sq wl = (None, r) -> r = [].
Proof.
  induction wl as [|c rest IH]; simpl; intros H; [congruence |].
  destruct (isBlockVisited sq c); [exact (IH H) | discriminate].
Qed.

Lemma getNext_Some sq wl c r :
  getNextCandidateFromWorkList sq wl = (Some c, r) ->
  In c wl /\ ~ In (b_num c) (map b_num sq) /\ incl r wl /\
  (forall x, In x wl -> x = c \/ In x r \/ In (b_num x) (map b_num sq)).
Proof.
  induction wl as [|d rest IH]; simpl; intros H; [discriminate |].
  unfold isBlockVisited in H.
  destruct (memNum (b_num d) (map b_num sq)) eqn:Ev.
  - destruct (IH H) as (Hc & Hv & Hr & Hall).
    split; [right; exact Hc | split; [exact Hv | split]].
    + intros x Hx. right. exact (Hr x Hx).
    + intros x [<- | Hx]; [right; right; apply memNum_iff; exact Ev | exact (Hall x Hx)].
  - injection H as <- <-.
    split; [left; reflexivity | split].
    + intros Hin. apply memNum_iff in Hin. congruence.
    + split; [intros x Hx; right; exact Hx |].
      intros x [<- | Hx]; auto.
Qed.

Lemma addSuccs_spec sq succs : forall ready wl ready' wl',
  addSuccs IsSubset blocks sq (ready, wl) succs = (ready', wl') ->
  (forall x, In x wl' -> In x wl \/ exists n, In n succs /\ lookupBlock blocks n = Some x) /\
  (forall x, In x wl -> In x wl') /\
  (forall r, In r ready' -> In r ready \/ exists x, In x wl' /\ b_num x = r) /\
  (forall r, In r ready -> In r ready') /\
  (forall n s, In n succs -> lookupBlock blocks n = Some s ->
     In (b_num s) (map b_num sq) \/ In (b_num s) ready').
Proof.
  unfold addSuccs. induction succs as [|n ns IH]; simpl; intros ready wl ready' wl' H.
  - injection H as <- <-. repeat split; auto. intros n s [].
  -
    destruct (lookupBlock blocks n) as [s|] eqn:El.
    + destruct (isBlockVisited sq s) eqn:Ev.
      * destruct (IH _ _ _ _ H) as (A & B & C & D & E).
        repeat split; auto.
        -- intros x Hx. destruct (A x Hx) as [? | (m & Hm & Hl)]; [left; auto | right; eauto].
        -- intros m t [<- | Hm] Hl; [| eauto].
           rewrite El in Hl. injection Hl as <-. left. apply memNum_iff. exact Ev.
      * destruct (memNum (b_num s) ready) eqn:Er.
        -- destruct (IH _ _ _ _ H) as (A & B & C & D & E).
           repeat split; auto.
           ++ intros x Hx. destruct (A x Hx) as [? | (m & Hm & Hl)]; [left; auto | right; eauto].
           ++ intros m t [<- | Hm] Hl; [| eauto].
              rewrite El in Hl. injection Hl as <-. right. apply D. apply memNum_iff. exact Er.
        -- destruct (IH _ _ _ _ H) as (A & B & C & D & E).
           unfold addToBlockSequenceWorkList in *.
           repeat split.
           ++ intros x Hx. destruct (A x Hx) as [Hx' | (m & Hm & Hl)].
              ** apply insertWorkList_In in Hx' as [-> | Hx']; [right; exists n; auto | left; auto].
              ** right; eauto.
           ++ intros x Hx. apply B. apply insertWorkList_In. right. exact Hx.
           ++ intros r Hr. destruct (C r Hr) as [[<- | Hr'] | Hx]; [| left; auto | right; auto].
              right. exists s. split; [apply B; apply insertWorkList_In; left; auto | auto].
           ++ intros r Hr. apply D. right. exact Hr.
           ++ intros m t [<- | Hm] Hl; [| eauto].
              rewrite El in Hl. injection Hl as <-. right. apply D. left. reflexivity.
    + destruct (IH _ _ _ _ H) as (A & B & C & D & E).
      repeat split; auto.
      * intros x Hx. destruct (A x Hx) as [? | (m & Hm & Hl)]; [left; auto | right; eauto].
      * intros m t [<- | Hm] Hl; [| eauto]. congruence.
Qed.

Lemma sweep_spec sq bs : forall ready wl ready2 wl2,
  fold_left (sweepBlock IsSubset sq) bs (ready, wl) = (ready2, wl2) ->
  (forall b, In b bs -> In (b_num b) (map b_num sq) \/ In b wl2) /\
  (forall x, In x wl -> In x wl2) /\
  (forall x, In x wl2 -> In x wl \/ In x bs) /\
  (forall r, In r ready -> In r ready2) /\
  (forall r, In r ready2 -> In r ready \/ exists x, In x wl2 /\ b_num x = r).
Proof.
  induction bs as [|b bs IH]; simpl; intros ready wl ready2 wl2 H.
  - injection H as <- <-. repeat split; auto. intros b [].
  - unfold isBlockVisited in H.
    destruct (memNum (b_num b) (map b_num sq)) eqn:Ev.
    + destruct (IH _ _ _ _ H) as (A & B & C & D & E).
      repeat split; auto.
      * intros b' [<- | Hb]; [left; apply memNum_iff; exact Ev | auto].
      * intros x Hx. destruct (C x Hx); auto.
    + destruct (IH _ _ _ _ H) as (A & B & C & D & E).
      unfold addToBlockSequenceWorkList in *.
      repeat split.
      * intros b' [<- | Hb]; [right; apply B; apply insertWorkList_In; left; auto | auto].
      * intros x Hx. apply B. apply insertWorkList_In. right. exact Hx.
      * intros x Hx. destruct (C x Hx) as [Hx' | Hx']; [| right; right; auto].
        apply insertWorkList_In in Hx' as [-> | Hx']; [right; left; auto | left; auto].
      * intros r Hr. apply D. right. exact Hr.
      * intros r Hr. destruct (E r Hr) as [[<- | Hr'] | Hx]; [| left; auto | right; auto].
        right. exists b. split; [apply B; apply insertWorkList_In; left; auto | auto].
Qed.

(** The invariant of [seqLoop] when it is about to sequence [block]. *)
Definition SeqInv (f : nat) (block : Block) (st : SeqState) : Prop :=
  let sq := ss_seq st ++ [block] in
  NoDup (map b_num sq) /\ incl sq blocks /\
  length (ss_seq st) + f = length blocks /\
  incl (ss_wl st) blocks /\
  (forall r, In r (ss_ready st) ->
     In r (map b_num sq) \/ exists x, In x (ss_wl st) /\ b_num x = r) /\
  (forall p n s, In p (ss_seq st) -> In n (b_succs p) -> lookupBlock blocks n = Some s ->
     In (b_num s) (map b_num sq) \/ In (b_num s) (ss_ready st)) /\
  hd_error sq = hd_error blocks /\
  (ss_verified st = false ->
     ReachedPrefix sq /\ forall x, In x (ss_wl st) -> exists p, In p (ss_seq st) /\ isSucc p x) /\
  (ss_verified st = true ->
     (forall b, In b blocks -> In (b_num b) (map b_num sq) \/ In b (ss_wl st)) /\
     exists pre post, sq = pre ++ post /\ pre <> [] /\ ReachedPrefix pre /\
       ClosedUnderSucc blocks pre).

(** What [setBlockSequence] returns. *)
Definition SeqResult (res : list Block) : Prop :=
  NoDup (map b_num res) /\ incl res blocks /\ (forall b, In b blocks -> In b res) /\
  hd_error res = hd_error blocks /\
  exists pre post, res = pre ++ post /\ pre <> [] /\ ReachedPrefix pre /\
    ClosedUnderSucc blocks pre.

Lemma ReachedPrefix_snoc l x :
  ReachedPrefix l -> (l <> [] -> exists p, In p l /\ isSucc p x) -> ReachedPrefix (l ++ [x]).
Proof.
  intros Hl Hx l1 b l2 Heq Hne.
  destruct l2 as [|c l2] using rev_ind.
  - apply app_inj_tail in Heq as [<- <-]. apply Hx. exact Hne.
  - rewrite app_comm_cons, app_assoc in Heq. apply app_inj_tail in Heq as [Heq _].
    exact (Hl l1 b l2 Heq Hne).
Qed.

Lemma ReachedPrefix_single x : ReachedPrefix [x].
Proof.
  intros l1 b l2 Heq Hne. destruct l1 as [|a l1]; [congruence |].
  simpl in Heq. injection Heq as _ Heq. destruct l1; discriminate.
Qed.

Lemma seq_too_long sq :
  NoDup (map b_num sq) -> incl sq blocks -> length sq <= length blocks.
Proof.
  intros Hn Hi. rewrite <- (length_map b_num sq), <- (length_map b_num blocks).
  apply NoDup_incl_length; [exact Hn |].
  intros x Hx. apply in_map_iff in Hx as (y & <- & Hy). apply in_map. exact (Hi y Hy).
Qed.

Lemma in_nums_snoc sq b x : In x (map b_num sq) -> In x (map b_num (sq ++ [b])).
Proof. intros H. rewrite map_app. apply in_or_app. left. exact H. Qed.

Lemma seqLoop_correct f : forall block st,
  SeqInv f block st -> SeqResult (seqLoop IsSubset blocks f block st).
Proof.
  induction f as [|f IH]; intros block st Hinv.
  - exfalso. destruct Hinv as (Hn & Hi & Hl & _).
    pose proof (seq_too_long _ Hn Hi) as Hle. rewrite length_app in Hle. simpl in Hle. lia.
  - destruct Hinv as (Hn & Hi & Hl & Hwl & Hr & Hcl & Hhd & Hunv & Hver).
    simpl.
    set (sq := ss_seq st ++ [block]) in *.
    destruct (addSuccs IsSubset blocks sq (ss_ready st, ss_wl st) (b_succs block))
      as [ready' wl'] eqn:Ea.
    destruct (addSuccs_spec sq _ _ _ _ _ Ea) as (A1 & A2 & A3 & A4 & A5).
    assert (Hwl' : incl wl' blocks).
    { intros x Hx. destruct (A1 x Hx) as [Hx' | (m & _ & Hm)];
        [exact (Hwl x Hx') | exact (proj1 (lookupBlock_some _ _ Hm))]. }
    (* every successor of a sequenced block is sequenced or ready *)
    assert (Hcl' : forall p n s, In p sq -> In n (b_succs p) -> lookupBlock blocks n = Some s ->
              In (b_num s) (map b_num sq) \/ In (b_num s) ready').
    { intros p n s Hp Hn' Hs. unfold sq in Hp. apply in_app_or in Hp as [Hp | [<- | []]].
      - destruct (Hcl p n s Hp Hn' Hs) as [? | ?]; auto.
      - exact (A5 n s Hn' Hs). }
    assert (Hr' : forall r, In r ready' ->
              In r (map b_num sq) \/ exists x, In x wl' /\ b_num x = r).
    { intros r Hrr. destruct (A3 r Hrr) as [Hr0 | Hx]; [| right; exact Hx].
      destruct (Hr r Hr0) as [? | (x & Hx & Hxr)]; [left; auto | right; eauto]. }
    destruct (getNextCandidateFromWorkList sq wl') as [[nb|] wl1] eqn:Eg.
    + (* the next block comes from the work list *)
      destruct (getNext_Some _ _ _ _ Eg) as (G1 & G2 & G3 & G4).
      apply IH. unfold SeqInv; simpl.
      split; [rewrite map_app; apply NoDup_snoc; auto |].
      split; [intros x Hx; apply in_app_or in Hx as [Hx | [<- | []]]; auto |].
      split; [unfold sq; rewrite length_app; simpl; lia |].
      split; [intros x Hx; exact (Hwl' x (G3 x Hx)) |].
      split.
      { intros r Hrr. destruct (Hr' r Hrr) as [Hin | (x & Hx & <-)];
          [left; apply in_nums_snoc; auto |].
        destruct (G4 x Hx) as [-> | [Hx1 | Hv]].
        - left. rewrite map_app. apply in_or_app. right. left. reflexivity.
        - right. eauto.
        - left. apply in_nums_snoc. exact Hv. }
      split.
      { intros p n s Hp Hn' Hs. destruct (Hcl' p n s Hp Hn' Hs); auto.
        left. apply in_nums_snoc. auto. }
      split; [rewrite hd_error_app_ne by (unfold sq; destruct (ss_seq st); discriminate); exact Hhd |].
      split.
      { intros Hv. destruct (Hunv Hv) as (Hrp & Hw).
        split.
        - apply ReachedPrefix_snoc; [exact Hrp |]. intros _.
          destruct (A1 nb G1) as [Hx | (m & Hm & Hs)].
          + destruct (Hw nb Hx) as (p & Hp & Hps). exists p. split; [| exact Hps].
            unfold sq. apply in_or_app. left. exact Hp.
          + exists block. split; [unfold sq; apply in_or_app; right; left; auto |].
            unfold isSucc. apply lookupBlock_some in Hs as [_ ->]. exact Hm.
        - intros x Hx. destruct (A1 x (G3 x Hx)) as [Hx' | (m & Hm & Hs)].
          + destruct (Hw x Hx') as (p & Hp & Hps). exists p. split; [| exact Hps].
            unfold sq. apply in_or_app. left. exact Hp.
          + exists block. split; [unfold sq; apply in_or_app; right; left; auto |].
            unfold isSucc. apply lookupBlock_some in Hs as [_ ->]. exact Hm. }
      { intros Hv. destruct (Hver Hv) as (Hall & pre & post & Hsq & Hpre).
        split.
        - intros b Hb. destruct (Hall b Hb) as [Hin | Hin]; [left; apply in_nums_snoc; auto |].
          destruct (G4 b (A2 b Hin)) as [-> | [Hx1 | Hv']].
          + left. rewrite map_app. apply in_or_app. right. left. reflexivity.
          + right. exact Hx1.
          + left. apply in_nums_snoc. exact Hv'.
        - exists pre, (post ++ [nb]). split; [rewrite Hsq, app_assoc; reflexivity | exact Hpre]. }
    + (* the work list is exhausted *)
      pose proof (getNext_None _ _ _ Eg) as G.
      assert (Hcl_sq : forall p n s, In p sq -> In n (b_succs p) ->
                lookupBlock blocks n = Some s -> In s sq).
      { intros p n s Hp Hn' Hs.
        assert (Hsb : In s blocks) by exact (proj1 (lookupBlock_some _ _ Hs)).
        apply visited_In; auto.
        destruct (Hcl' p n s Hp Hn' Hs) as [? | Hrs]; auto.
        destruct (Hr' _ Hrs) as [? | (x & Hx & Hxr)]; auto.
        rewrite <- Hxr. exact (G x Hx). }
      assert (Hclosed : ClosedUnderSucc blocks sq).
      { intros p s Hp Hs Hps. apply (Hcl_sq p (b_num s) s Hp Hps).
        apply lookupBlock_complete; auto. }
      destruct (ss_verified st) eqn:Ev.
      * destruct (Hver eq_refl) as (Hall & Hpre).
        split; [exact Hn | split; [exact Hi | split; [| split; [exact Hhd | exact Hpre]]]].
        intros b Hb. apply visited_In; auto.
        destruct (Hall b Hb) as [? | Hin]; auto.
      * destruct (Hunv eq_refl) as (Hrp & _).
        destruct (sweep IsSubset blocks sq (ready', wl1)) as [ready2 wl2] eqn:Es.
        destruct (sweep_spec sq blocks _ _ _ _ Es) as (S1 & S2 & S3 & S4 & S5).
        assert (Hsq_ne : sq <> []) by (unfold sq; destruct (ss_seq st); discriminate).
        destruct (getNextCandidateFromWorkList sq wl2) as [[nb|] wl3] eqn:Eg2.
        -- destruct (getNext_Some _ _ _ _ Eg2) as (G1 & G2 & G3 & G4).
           assert (Hwl1 : incl wl1 blocks).
           { rewrite (getNext_None_nil _ _ _ Eg). intros x []. }
           assert (Hwl2 : incl wl2 blocks).
           { intros x Hx. destruct (S3 x Hx); auto. }
           apply IH. unfold SeqInv; simpl.
           split; [rewrite map_app; apply NoDup_snoc; auto |].
           split; [intros x Hx; apply in_app_or in Hx as [Hx | [<- | []]]; auto |].
           split; [unfold sq; rewrite length_app; simpl; lia |].
           split; [intros x Hx; exact (Hwl2 x (G3 x Hx)) |].
           split.
           { intros r Hrr. destruct (S5 r Hrr) as [Hr0 | (x & Hx & <-)].
             - destruct (Hr' r Hr0) as [Hin | (x & Hx & <-)]; left; apply in_nums_snoc; auto.
             - destruct (G4 x Hx) as [-> | [Hx1 | Hv]].
               + left. rewrite map_app. apply in_or_app. right. left. reflexivity.
               + right. eauto.
               + left. apply in_nums_snoc. exact Hv. }
           split.
           { intros p n s Hp Hn' Hs. left. apply in_nums_snoc. apply in_map.
             apply (Hcl_sq p n s); auto. }
           split; [rewrite hd_error_app_ne by (unfold sq; destruct (ss_seq st); discriminate); exact Hhd |].
           split; [discriminate |].
           intros _. split.
           ++ intros b Hb. destruct (S1 b Hb) as [Hin | Hin]; [left; apply in_nums_snoc; auto |].
              destruct (G4 b Hin) as [-> | [Hx1 | Hv']].
              ** left. rewrite map_app. apply in_or_app. right. left. reflexivity.
              ** right. exact Hx1.
              ** left. apply in_nums_snoc. exact Hv'.
           ++ exists sq, [nb]. repeat split; auto.
        -- pose proof (getNext_None _ _ _ Eg2) as G'.
           split; [exact Hn | split; [exact Hi | split; [| split; [exact Hhd |]]]].
           ++ intros b Hb. apply visited_In; auto.
              destruct (S1 b Hb) as [? | Hin]; auto.
           ++ exists sq, []. rewrite app_nil_r. repeat split; auto.
Qed.

Lemma setBlockSequence_result :
  blocks <> [] -> SeqResult (setBlockSequence IsSubset blocks).
Proof.
  intros Hne. unfold setBlockSequence.
  assert (H : forall l, l = blocks ->
            SeqResult (match l with
                       | [] => []
                       | first :: _ =>
                           seqLoop IsSubset blocks (length blocks) first
                             {| ss_seq := []; ss_ready := []; ss_wl := [];
                                ss_verified := false |}
                       end)).
  2: exact (H blocks eq_refl).
  intros [|first rest] Eb; [congruence |].
  apply seqLoop_correct.
  unfold SeqInv; simpl.
  assert (Hf : In first blocks) by (rewrite <- Eb; left; reflexivity).
  split; [constructor; [intros [] | constructor] |].
  split; [intros x [<- | []]; exact Hf |].
  split; [reflexivity |].
  split; [intros x [] |].
  split; [intros r [] |].
  split; [intros p n s [] |].
  split; [rewrite <- Eb; reflexivity |].
  split; [intros _; split; [apply ReachedPrefix_single | intros x []] |].
  discriminate.
Qed.

End Facts.

(** Claim C8, counterexample.  The entry block 1 has no successors;
    blocks 2 (rarely run, weight 0) and 3 (weight 100) follow it in layout
    order and are never reached.  The sweep puts them in the work list,
    where block 3 goes ahead of the rarely run block 2, so they are not
    sequenced in layout order; this holds whatever the subset test. *)
Lemma setBlockSequence_sweep_order_cex :
  b_succs seq_E = [] /\
  map b_num (setBlockSequence seq_IsSubset [seq_E; seq_U1; seq_U2]) = [1; 3; 2].
Proof.
  split; [reflexivity |].
  cbv. reflexivity.
Qed.

(** Claim C8 (amended).  For a flow graph whose blocks have distinct
    numbers, setBlockSequence returns every block exactly once, starting
    with the entry block ([fgFirstBB]).  The sequence starts with a part
    in which every block after the entry follows one of its predecessors
    and which contains every successor of its blocks, i.e. exactly the
    blocks reachable from the entry; the remaining blocks, added to the
    work list by the sweep of the unvisited blocks in layout order, come
    after it. *)
Lemma setBlockSequence_order isSubset blocks :
  NoDup (map b_num blocks) ->
  Permutation (setBlockSequence isSubset blocks) blocks /\
  hd_error (setBlockSequence isSubset blocks) = hd_error blocks /\
  exists pre post, setBlockSequence isSubset blocks = pre ++ post /\
    ReachedPrefix pre /\ ClosedUnderSucc blocks pre /\ (blocks <> [] -> pre <> []).
Proof.
  intros Hnd.
  destruct blocks as [|first rest] eqn:Eb.
  - split; [constructor | split; [reflexivity |]].
    exists [], []. split; [reflexivity | split; [| split]].
    + intros l1 b l2 Heq. destruct l1; discriminate.
    + intros p s [].
    + congruence.
  - rewrite <- Eb in *.
    assert (Hne : blocks <> []) by (rewrite Eb; discriminate).
    destruct (setBlockSequence_result isSubset blocks Hnd Hne)
      as (Hn & Hi & Hall & Hhd & pre & post & Hsq & Hpre & Hrp & Hcl).
    split; [| split; [exact Hhd | exists pre, post; auto]].
    apply NoDup_Permutation.
    + exact (NoDup_map_inv _ _ Hn).
    + exact (NoDup_map_inv _ _ Hnd).
    + intros x. split; [apply Hi | apply Hall].
Qed.

(** Witness for C8 (amended), on the graph of the counterexample. *)
Lemma setBlockSequence_order_witness :
  Permutation (setBlockSequence (fun _ _ => false) [seq_E; seq_U1; seq_U2])
    [seq_E; seq_U1; seq_U2] /\
  hd_error (setBlockSequence (fun _ _ => false) [seq_E; seq_U1; seq_U2]) = Some seq_E.
Proof.
  destruct (setBlockSequence_order (fun _ _ => false) [seq_E; seq_U1; seq_U2]
              ltac:(repeat constructor; simpl; lia)) as (Hp & Hh & _).
  split; [exact Hp | exact Hh].
Defined.

End BlockSequencingFacts.

Module EdgeResolutionFacts.
Import EdgeResolution.

Lemma Loc_eqb_spec a b : Loc_eqb a b = true <-> a = b.
Proof.
  destruct a, b; simpl; split; intro H; try congruence; auto.
  - apply Nat.eqb_eq in H. now subst.
  - inversion H. apply Nat.eqb_refl.
Qed.

Lemma Loc_eqb_refl a : Loc_eqb a a = true.
Proof. apply Loc_eqb_spec. reflexivity. Qed.

Lemma Loc_eqb_neq a b : a <> b -> Loc_eqb a b = false.
Proof. intro H. destruct (Loc_eqb a b) eqn:E; auto. apply Loc_eqb_spec in E. contradiction. Qed.

Lemma MLoc_eqb_spec a b : MLoc_eqb a b = true <-> a = b.
Proof.
  destruct a, b; simpl; split; intro H; try congruence.
  - apply Nat.eqb_eq in H. now subst.
  - inversion H. apply Nat.eqb_refl.
  - apply Nat.eqb_eq in H. now subst.
  - inversion H. apply Nat.eqb_refl.
Qed.

Lemma updr_same {A} (f : nat -> A) r a : upd f r a r = a.
Proof. unfold upd. now rewrite Nat.eqb_refl. Qed.

Lemma updr_other {A} (f : nat -> A) r a x : x <> r -> upd f r a x = f x.
Proof. intro H. unfold upd. apply Nat.eqb_neq in H. now rewrite H. Qed.

Lemma insertSorted_perm r m : Permutation (insertSorted r m) (r :: m).
Proof.
  induction m as [|x m IH]; simpl; auto.
  destruct (Nat.leb r x); auto.
  eapply perm_trans; [apply perm_skip, IH | apply perm_swap].
Qed.

Lemma In_maskSet x r m : In x (maskSet r m) <-> x = r \/ In x m.
Proof.
  unfold maskSet. destruct (existsb (Nat.eqb r) m) eqn:E.
  - apply existsb_exists in E. destruct E as [y [Hy Hr]]. apply Nat.eqb_eq in Hr. subst.
    intuition (subst; auto).
  - split; intro H.
    + apply (Permutation_in _ (insertSorted_perm r m)) in H. destruct H; auto.
    + apply (Permutation_in _ (Permutation_sym (insertSorted_perm r m))).
      destruct H; [left | right]; auto.
Qed.

Lemma NoDup_maskSet r m : NoDup m -> NoDup (maskSet r m).
Proof.
  intro Hn. unfold maskSet. destruct (existsb (Nat.eqb r) m) eqn:E; auto.
  apply (Permutation_NoDup (Permutation_sym (insertSorted_perm r m))).
  constructor; auto. intro Hin.
  assert (existsb (Nat.eqb r) m = true) by (apply existsb_exists; exists r; split; auto; apply Nat.eqb_refl).
  congruence.
Qed.

Lemma In_maskClear_iff x r m : In x (maskClear r m) <-> In x m /\ x <> r.
Proof.
  unfold maskClear. rewrite filter_In, negb_true_iff, Nat.eqb_neq. tauto.
Qed.

Lemma NoDup_maskClear r m : NoDup m -> NoDup (maskClear r m).
Proof. apply NoDup_filter. Qed.

Lemma filter_length_le {A} (f : A -> bool) l : length (filter f l) <= length l.
Proof. induction l; simpl; [lia|]. destruct (f a); simpl; lia. Qed.

Lemma maskClear_length r m : In r m -> length (maskClear r m) < length m.
Proof.
  unfold maskClear, regMask, regNumber in *. induction m as [|x m IH]; simpl; [tauto|].
  intros [Hx|H].
  - subst x. rewrite Nat.eqb_refl. simpl. pose proof (filter_length_le (fun x => negb (Nat.eqb x r)) m). lia.
  - destruct (negb (x =? r)); simpl; [specialize (IH H); lia|].
    pose proof (filter_length_le (fun x => negb (Nat.eqb x r)) m). lia.
Qed.

Lemma genFindLowestBit_In m r : genFindLowestBit m = Some r -> In r m.
Proof. destruct m; simpl; intro H; inversion H; auto. Qed.

Lemma genFindLowestBit_None m : genFindLowestBit m = None -> m = [].
Proof. destruct m; simpl; intro H; congruence. Qed.

Lemma execMoves_app M l1 l2 : execMoves M (l1 ++ l2) = execMoves (execMoves M l1) l2.
Proof. unfold execMoves. apply fold_left_app. Qed.

Lemma writtenRegs_app l1 l2 : writtenRegs (l1 ++ l2) = writtenRegs l1 ++ writtenRegs l2.
Proof. unfold writtenRegs. apply flat_map_app. Qed.

Lemma writeM_reg M v r val y :
  writeM M v (RegR r) val y = if MLoc_eqb y (MReg r) then val else M y.
Proof. reflexivity. Qed.

Lemma writeM_stk M v val y :
  writeM M v REG_STK val y = if MLoc_eqb y (MHome v) then val else M y.
Proof. reflexivity. Qed.

(** A pigeonhole argument: if every element of the duplicate-free [la]
    is related to some element of [lb], no element of [lb] to two of
    [la], and [lb] is no longer than [la], then every element of [lb] is
    related to one of [la]. *)
Lemma pigeon (la lb : list nat) (R : nat -> nat -> Prop) :
  NoDup la ->
  (forall a, In a la -> exists b, In b lb /\ R a b) ->
  (forall a a' b, R a b -> R a' b -> a = a') ->
  length lb <= length la ->
  forall b, In b lb -> exists a, In a la /\ R a b.
Proof.
  revert lb. induction la as [|a la IH]; intros lb Hnd Hcov Hinj Hlen b Hb.
  - destruct lb; simpl in *; [contradiction | lia].
  - inversion Hnd as [|? ? Hna Hnd']; subst.
    destruct (Hcov a (or_introl eq_refl)) as [ba [Hba Ra]].
    destruct (Nat.eq_dec b ba) as [->|Hne]; [exists a; split; auto; left; auto|].
    destruct (IH (remove Nat.eq_dec ba lb) Hnd') with (b := b) as [a' [Ha' Ra']].
    + intros a' Ha'. destruct (Hcov a' (or_intror Ha')) as [b' [Hb' Rb']].
      exists b'. split; auto. apply in_in_remove; auto.
      intros ->. assert (a' = a) by (eapply Hinj; eauto). subst. contradiction.
    + exact Hinj.
    + pose proof (remove_length_lt Nat.eq_dec lb ba Hba). simpl in Hlen. lia.
    + apply in_in_remove; auto.
    + exists a'. split; [right|]; auto.
Qed.

Lemma existsb_eqb_In t l : existsb (Nat.eqb t) l = true <-> In t l.
Proof.
  rewrite existsb_exists. split.
  - intros [y [Hy E]]. apply Nat.eqb_eq in E. now subst.
  - intro H. exists t. split; auto. apply Nat.eqb_refl.
Qed.

Lemma readM_write_reg M v r val w l :
  l <> RegR r -> readM (writeM M v (RegR r) val) w l = readM M w l.
Proof.
  intro H. unfold readM, writeM, mloc. destruct l; simpl; auto.
  destruct (Nat.eqb r0 r) eqn:E; auto. apply Nat.eqb_eq in E. subst. contradiction.
Qed.

Lemma readM_write_home M v val w l :
  l <> REG_STK \/ w <> v -> readM (writeM M v REG_STK val) w l = readM M w l.
Proof.
  intro H. unfold readM, writeM, mloc. destruct l; simpl; auto.
  destruct H as [H|H]; [contradiction|].
  destruct (Nat.eqb w v) eqn:E; auto. apply Nat.eqb_eq in E. contradiction.
Qed.

(** The measure of the outer loop: the targets left, plus those of them
    not ready. *)
Definition notReady (ml : MoveLocals) : nat :=
  length (filter (fun t => negb (existsb (Nat.eqb t) (targetRegsReady ml)))
                 (targetRegsToDo ml)).

Definition mu (ml : MoveLocals) : nat := length (targetRegsToDo ml) + notReady ml.

Lemma notReady_le ml ml' :
  NoDup (targetRegsToDo ml') ->
  (forall x, In x (targetRegsToDo ml') -> ~ In x (targetRegsReady ml') ->
             In x (targetRegsToDo ml) /\ ~ In x (targetRegsReady ml)) ->
  notReady ml' <= notReady ml.
Proof.
  intros Hnd H. unfold notReady. apply NoDup_incl_length; [apply NoDup_filter; auto|].
  intros x Hx. apply filter_In in Hx. destruct Hx as [Hx Hr].
  apply negb_true_iff in Hr. destruct (H x Hx) as [H1 H2].
  - intro Hin. apply existsb_eqb_In in Hin. congruence.
  - apply filter_In. split; auto. apply negb_true_iff.
    destruct (existsb (Nat.eqb x) (targetRegsReady ml)) eqn:E; auto.
    apply existsb_eqb_In in E. contradiction.
Qed.

Lemma notReady_lt ml ml' y :
  NoDup (targetRegsToDo ml') ->
  (forall x, In x (targetRegsToDo ml') -> ~ In x (targetRegsReady ml') ->
             In x (targetRegsToDo ml) /\ ~ In x (targetRegsReady ml) /\ x <> y) ->
  In y (targetRegsToDo ml) -> ~ In y (targetRegsReady ml) ->
  notReady ml' < notReady ml.
Proof.
  intros Hnd H Hy Hyr. unfold notReady.
  set (l := filter (fun t => negb (existsb (Nat.eqb t) (targetRegsReady ml))) (targetRegsToDo ml)).
  assert (Hyl : In y l).
  { apply filter_In. split; auto. apply negb_true_iff.
    destruct (existsb (Nat.eqb y) (targetRegsReady ml)) eqn:E; auto.
    apply existsb_eqb_In in E. contradiction. }
  eapply Nat.le_lt_trans; [|apply (remove_length_lt Nat.eq_dec l y Hyl)].
  apply NoDup_incl_length; [apply NoDup_filter; auto|].
  intros x Hx. apply filter_In in Hx. destruct Hx as [Hx Hr].
  apply negb_true_iff in Hr. destruct (H x Hx) as [H1 [H2 H3]].
  - intro Hin. apply existsb_eqb_In in Hin. congruence.
  - apply in_in_remove; auto. apply filter_In. split; auto. apply negb_true_iff.
    destruct (existsb (Nat.eqb x) (targetRegsReady ml)) eqn:E; auto.
    apply existsb_eqb_In in E. contradiction.
Qed.

Lemma Loc_cases (l : Loc) : l = REG_NA \/ l = REG_STK \/ exists r, l = RegR r.
Proof. destruct l; eauto. Qed.

(** The states the three ways of breaking a cycle in [cycleStep] leave. *)
Definition spillState (ml : MoveLocals) (T F f f2 v v2 : nat) : MoveLocals :=
  let ml3 := ml_setLoc (ml_emit (ml_setLoc (ml_emit ml (addResolution v2 REG_STK (RegR T))) f2 REG_STK)
                                (addResolution v (RegR T) (RegR F))) f REG_NA in
  ml_setToDo (ml_setReady ml3 (maskSet F (targetRegsReady ml3))) (maskClear T (targetRegsToDo ml)).

Definition spillMoves (T F v v2 : nat) : list ResolutionMove :=
  [addResolution v2 REG_STK (RegR T); addResolution v (RegR T) (RegR F)].

Definition tempState (ml : MoveLocals) (T tmp v2 : nat) : MoveLocals :=
  let ml1 := ml_setLoc (ml_emit ml (addResolution v2 (RegR tmp) (RegR T))) T (RegR tmp) in
  ml_setReady ml1 (maskSet T (targetRegsReady ml1)).

Definition swapState (ml : MoveLocals) (T F f f2 v v2 : nat) (toDo1 : regMask) : MoveLocals :=
  ml_setToDo (ml_setLoc (ml_setLoc (ml_emit ml (insertSwap v2 T v F)) f REG_NA) f2 (RegR F))
             (maskClear T toDo1).

Section Resolve.

(** The target, the register classes, the edge's variables with their
    locations on both sides, and the two scratch registers. *)
Variable isXarch : bool.
Variable isFloatReg : regNumber -> bool.
Variable liveSet : list nat.
Variables fromMap toMap : VarToRegMap.
Variables tmpI tmpF : Loc.

(** The variables are distinct and each is in a register or on the
    stack on both sides; no two variables share a register on either
    side; a variable moves between registers of one class; the scratch
    registers hold no variable on either side, and x86/x64 has no
    integer scratch register. *)
Hypothesis Hnd : NoDup liveSet.
Hypothesis Hna : forall v, In v liveSet -> fromMap v <> REG_NA /\ toMap v <> REG_NA.
Hypothesis Hfinj : forall v w r, In v liveSet -> In w liveSet ->
  fromMap v = RegR r -> fromMap w = RegR r -> v = w.
Hypothesis Htinj : forall v w r, In v liveSet -> In w liveSet ->
  toMap v = RegR r -> toMap w = RegR r -> v = w.
Hypothesis Hclass : forall v f t, In v liveSet ->
  fromMap v = RegR f -> toMap v = RegR t -> isFloatReg f = isFloatReg t.
Hypothesis Htmp : forall r v, (tmpI = RegR r \/ tmpF = RegR r) -> In v liveSet ->
  fromMap v <> RegR r /\ toMap v <> RegR r.
Hypothesis HtmpX : isXarch = true -> tmpI = REG_NA.
Hypothesis HtmpS : tmpI <> REG_STK /\ tmpF <> REG_STK.

(** Variable [v] moves from register [f] to register [t]. *)
Definition RR (v f t : nat) : Prop :=
  In v liveSet /\ fromMap v = RegR f /\ toMap v = RegR t /\ f <> t.

Definition isTemp (x : regNumber) : Prop := tmpI = RegR x \/ tmpF = RegR x.

Definition pending (ml : MoveLocals) (v f t : nat) : Prop :=
  RR v f t /\ In t (targetRegsToDo ml).

(** Register [x] holds a value still to be moved. *)
Definition occ (ml : MoveLocals) (x : regNumber) : Prop :=
  exists v f t, pending ml v f t /\ location ml f = RegR x.

Definition moveOK (mv : ResolutionMove) : Prop :=
  (forall r, In r (writtenRegs [mv]) -> (exists v f, RR v f r) \/ isTemp r) /\
  match mv with
  | addResolution v toR fromR => toR = REG_STK \/ fromR = REG_STK -> exists f t, RR v f t
  | insertSwap _ _ _ _ => True
  end.

Lemma isTemp_dec x : {isTemp x} + {~ isTemp x}.
Proof.
  unfold isTemp.
  destruct (Loc_eqb tmpI (RegR x)) eqn:E1; [left; left; apply Loc_eqb_spec; auto|].
  destruct (Loc_eqb tmpF (RegR x)) eqn:E2; [left; right; apply Loc_eqb_spec; auto|].
  right. intros [H|H]; apply Loc_eqb_spec in H; congruence.
Qed.

Lemma RR_var_from v f t v' t' : RR v f t -> RR v' f t' -> v = v'.
Proof. intros (H1 & H2 & _) (H1' & H2' & _). eapply Hfinj; eauto. Qed.

Lemma RR_var_to v f t v' f' : RR v f t -> RR v' f' t -> v = v'.
Proof. intros (H1 & _ & H3 & _) (H1' & _ & H3' & _). eapply Htinj; eauto. Qed.

Lemma RR_same v f t f' t' : RR v f t -> RR v f' t' -> f = f' /\ t = t'.
Proof.
  intros (_ & H2 & H3 & _) (_ & H2' & H3' & _).
  rewrite H2 in H2'. rewrite H3 in H3'. inversion H2'. inversion H3'. auto.
Qed.

Lemma temp_not_target x v f : isTemp x -> RR v f x -> False.
Proof. intros Ht (H1 & _ & H3 & _). apply (Htmp x v Ht H1). exact H3. Qed.

Lemma temp_not_from x v t : isTemp x -> RR v x t -> False.
Proof. intros Ht (H1 & H2 & _). exact (proj1 (Htmp x v Ht H1) H2). Qed.

Lemma RR_class v f t : RR v f t -> isFloatReg f = isFloatReg t.
Proof. intros (H1 & H2 & H3 & _). eapply Hclass; eauto. Qed.

(** The invariant of the register-to-register loop, over the machine
    [M] the code emitted so far has produced. *)
Record Inv (ml : MoveLocals) (M : Machine) : Prop := {
  inv_src : forall t f, source ml t = RegR f <-> exists v, RR v f t;
  inv_srcNA : forall t, source ml t = REG_NA \/ exists f, source ml t = RegR f;
  inv_nodup : NoDup (targetRegsToDo ml);
  inv_todo : forall t, In t (targetRegsToDo ml) -> exists v f, RR v f t;
  inv_ready : forall x, In x (targetRegsReady ml) -> In x (targetRegsToDo ml);
  inv_pend : forall v f t, pending ml v f t ->
    sourceIntervals ml f = Some v /\ readM M v (location ml f) = Some v;
  inv_done : forall v f t, RR v f t -> ~ In t (targetRegsToDo ml) -> M (MReg t) = Some v;
  inv_occ1 : forall x, In x (targetRegsReady ml) -> ~ occ ml x;
  inv_occ2 : forall x, In x (targetRegsToDo ml) -> ~ In x (targetRegsReady ml) -> occ ml x;
  inv_for : forall v f t x, pending ml v f t -> location ml f = RegR x -> x <> f -> ~ isTemp x ->
    isXarch = true /\ isFloatReg f = false /\ isFloatReg x = false /\
    ~ In t (targetRegsReady ml) /\ In x (targetRegsToDo ml) /\
    (forall y, In y (targetRegsReady ml) -> isFloatReg y = true);
  inv_other : forall v, In v liveSet -> (forall f t, ~ RR v f t) ->
    (forall r, fromMap v = RegR r -> toMap v = RegR r -> M (MReg r) = Some v) /\
    (fromMap v = REG_STK \/ toMap v = REG_STK -> M (MHome v) = Some v)
}.

Lemma pending_src ml M v f t : Inv ml M -> pending ml v f t -> source ml t = RegR f.
Proof. intros I [Hrr _]. apply (inv_src _ _ I). eauto. Qed.

(** A register holds at most one value still to be moved. *)
Lemma occ_unique ml M v f t v' f' t' x : Inv ml M ->
  pending ml v f t -> pending ml v' f' t' ->
  location ml f = RegR x -> location ml f' = RegR x -> v = v'.
Proof.
  intros I P P' L L'.
  destruct (inv_pend _ _ I _ _ _ P) as [_ R]. destruct (inv_pend _ _ I _ _ _ P') as [_ R'].
  rewrite L in R. rewrite L' in R'. unfold readM, mloc in R, R'. congruence.
Qed.

Lemma pending_eq ml M v f t v' f' t' : Inv ml M ->
  pending ml v f t -> pending ml v' f' t' -> v = v' -> f = f' /\ t = t'.
Proof. intros I [P _] [P' _] ->. eapply RR_same; eauto. Qed.

(** When no target is ready, every value still to be moved sits in a
    register still to be filled. *)
Lemma stuck_locations ml M : Inv ml M -> targetRegsReady ml = [] ->
  forall v f t, pending ml v f t ->
  exists x, location ml f = RegR x /\ In x (targetRegsToDo ml).
Proof.
  intros I Hr v f t P.
  set (srcOf := fun t => match source ml t with RegR f => f | _ => 0 end).
  assert (Hsrc : forall v f t, pending ml v f t -> srcOf t = f).
  { intros v0 f0 t0 P0. unfold srcOf. now rewrite (pending_src _ _ _ _ _ I P0). }
  destruct (pigeon (targetRegsToDo ml) (map srcOf (targetRegsToDo ml))
                   (fun a b => location ml b = RegR a)) with (b := f)
    as [a [Ha La]].
  - exact (inv_nodup _ _ I).
  - intros a Ha. assert (Hn : ~ In a (targetRegsReady ml)) by (rewrite Hr; auto).
    destruct (inv_occ2 _ _ I a Ha Hn) as [v0 [f0 [t0 [P0 L0]]]].
    exists f0. split; auto. rewrite <- (Hsrc _ _ _ P0). apply in_map. apply P0.
  - intros a a' b L1 L2. rewrite L1 in L2. congruence.
  - rewrite length_map. lia.
  - rewrite <- (Hsrc _ _ _ P). apply in_map. apply P.
  - exists a. auto.
Qed.

Lemma In_readyAfter (c : bool) (f T : regNumber) (ready : regMask) (x : regNumber) :
  In x (if c then maskSet f (maskClear T ready) else maskClear T ready) <->
  (In x ready /\ x <> T) \/ (c = true /\ x = f).
Proof.
  destruct c; [rewrite In_maskSet|]; rewrite In_maskClear_iff; intuition congruence.
Qed.

(** One ready move keeps the invariant; it retires its target. *)
Lemma readyMove_inv ml M T : Inv ml M -> In T (targetRegsReady ml) ->
  exists ml' new, readyMove ml T = Some ml' /\ emitted ml' = emitted ml ++ new /\
    Forall moveOK new /\ Inv ml' (execMoves M new) /\
    length (targetRegsToDo ml') < length (targetRegsToDo ml) /\ notReady ml' <= notReady ml.
Proof.
  intros I HT.
  assert (HTt : In T (targetRegsToDo ml)) by exact (inv_ready _ _ I T HT).
  destruct (inv_todo _ _ I T HTt) as [v [f Hrr]].
  assert (P : pending ml v f T) by (split; auto).
  assert (Hs : source ml T = RegR f) by (apply (inv_src _ _ I); eauto).
  destruct (inv_pend _ _ I _ _ _ P) as [Hsi Hrd].
  assert (HTocc : ~ occ ml T) by exact (inv_occ1 _ _ I T HT).
  assert (Hfne : forall v1 f1 t1, pending ml v1 f1 t1 -> t1 <> T -> f1 <> f).
  { intros v1 f1 t1 [P1 _] Hne Ef. subst f1.
    pose proof (RR_var_from _ _ _ _ _ Hrr P1) as E. subst v1.
    destruct (RR_same _ _ _ _ _ Hrr P1) as [_ E]. congruence. }
  assert (HfT : f <> T) by (destruct Hrr as (_ & _ & _ & H); exact H).
  remember (location ml f) as L eqn:EL.
  assert (HL : L = RegR f \/ L = REG_STK \/ (exists x, L = RegR x /\ isTemp x)).
  { destruct L as [| |x].
    - discriminate Hrd.
    - auto.
    - destruct (Nat.eq_dec x f) as [->|Hxf]; auto.
      destruct (isTemp_dec x) as [Ht|Ht]; [right; right; eauto|].
      destruct (inv_for _ _ I v f T x P (eq_sym EL) Hxf Ht) as (_ & _ & _ & Hn & _).
      contradiction. }
  set (c := Loc_eqb L (RegR f) && negb (Loc_eqb (source ml f) REG_NA)).
  assert (Hc : c = true <-> L = RegR f /\ exists g, source ml f = RegR g).
  { unfold c. rewrite andb_true_iff, negb_true_iff, Loc_eqb_spec. split.
    - intros [H1 H2]. split; auto.
      destruct (inv_srcNA _ _ I f) as [E|E]; auto. rewrite E in H2. discriminate.
    - intros [H1 [g H2]]. split; auto. rewrite H2. reflexivity. }
  (* when [c] holds, [f] is a target still to be filled *)
  assert (HfT2 : c = true -> In f (targetRegsToDo ml)).
  { intro E. apply Hc in E. destruct E as [EL' [g Hg]].
    apply (inv_src _ _ I) in Hg. destruct Hg as [w Hw].
    destruct (in_dec Nat.eq_dec f (targetRegsToDo ml)) as [H|H]; auto.
    pose proof (inv_done _ _ I _ _ _ Hw H) as Hm.
    rewrite EL' in Hrd. unfold readM, mloc in Hrd. rewrite Hm in Hrd. inversion Hrd. subst w.
    destruct (RR_same _ _ _ _ _ Hrr Hw) as [E1 _]. destruct Hw as (_ & _ & _ & Hw). congruence. }
  set (R' := if c then maskSet f (maskClear T (targetRegsReady ml))
             else maskClear T (targetRegsReady ml)).
  set (mv := addResolution v (RegR T) L).
  set (ml' := mkML (upd (location ml) f REG_NA) (source ml) (upd (sourceIntervals ml) f None)
                   (maskClear T (targetRegsToDo ml)) R' (emitted ml ++ [mv])).
  assert (HR' : forall x, In x R' <-> (In x (targetRegsReady ml) /\ x <> T) \/ (c = true /\ x = f))
    by (intro x; apply In_readyAfter).
  assert (HM' : execMoves M [mv] = writeM M v (RegR T) (Some v)).
  { unfold execMoves. simpl. now rewrite Hrd. }
  (* pending values of [ml'] are those of [ml] but the moved one *)
  assert (Hpend' : forall v1 f1 t1, pending ml' v1 f1 t1 ->
                   pending ml v1 f1 t1 /\ t1 <> T /\ f1 <> f).
  { intros v1 f1 t1 [P1 H1]. simpl in H1. apply In_maskClear_iff in H1. destruct H1 as [H1 H2].
    assert (P1' : pending ml v1 f1 t1) by (split; auto).
    refine (conj P1' (conj H2 _)). eapply Hfne; eauto. }
  assert (Hocc' : forall x, occ ml' x -> occ ml x /\ L <> RegR x).
  { intros x [v1 [f1 [t1 [P1 L1]]]]. destruct (Hpend' _ _ _ P1) as (P1' & Ht1 & Hf1).
    simpl in L1. rewrite updr_other in L1 by exact Hf1. split; [exists v1, f1, t1; auto|].
    intro EL2. rewrite EL in EL2.
    pose proof (occ_unique _ _ _ _ _ _ _ _ _ I P P1' EL2 L1) as E. subst v1.
    destruct (pending_eq _ _ _ _ _ _ _ _ I P P1' eq_refl). congruence. }
  exists ml', [mv]. refine (conj _ (conj eq_refl (conj _ (conj _ (conj _ _))))).
  - unfold readyMove. rewrite Hs, Hsi, <- EL. unfold ml', R', c. simpl.
    destruct (Loc_eqb L (RegR f) && negb (Loc_eqb (source ml f) REG_NA)); reflexivity.
  - constructor; [|constructor]. split.
    + intros r Hr. simpl in Hr. destruct Hr as [<-|[]]. left. eauto.
    + intros _. exists f, T. exact Hrr.
  - rewrite HM'. constructor; simpl.
    + exact (inv_src _ _ I).
    + exact (inv_srcNA _ _ I).
    + apply NoDup_maskClear. exact (inv_nodup _ _ I).
    + intros t Ht. apply In_maskClear_iff in Ht. exact (inv_todo _ _ I t (proj1 Ht)).
    + intros x Hx. apply HR' in Hx. apply In_maskClear_iff.
      destruct Hx as [[Hx Hne]|[Ec ->]]; [split; auto; exact (inv_ready _ _ I x Hx)|].
      split; auto.
    + intros v1 f1 t1 P1. destruct (Hpend' _ _ _ P1) as (P1' & Ht1 & Hf1).
      destruct (inv_pend _ _ I _ _ _ P1') as [Hs1 Hr1].
      rewrite !updr_other by exact Hf1. split; auto.
      rewrite readM_write_reg; auto. intro E.
      apply HTocc. exists v1, f1, t1. auto.
    + intros v1 f1 t1 Hrr1 Hn. unfold writeM, mloc.
      destruct (Nat.eq_dec t1 T) as [->|Hne].
      * rewrite (proj2 (MLoc_eqb_spec _ _) eq_refl).
        f_equal. symmetry. eapply RR_var_to; eauto.
      * simpl. apply Nat.eqb_neq in Hne. rewrite Hne. apply Nat.eqb_neq in Hne.
        apply (inv_done _ _ I _ _ _ Hrr1). intro H. apply Hn. apply In_maskClear_iff. auto.
    + intros x Hx Hocc. destruct (Hocc' x Hocc) as [Ho HLx]. apply HR' in Hx.
      destruct Hx as [[Hx _]|[Ec ->]]; [exact (inv_occ1 _ _ I x Hx Ho)|].
      apply Hc in Ec. destruct Ec as [Ec _]. contradiction.
    + intros x Hx Hn. apply In_maskClear_iff in Hx. destruct Hx as [Hx HxT].
      assert (Hnr : ~ In x (targetRegsReady ml)) by (intro H; apply Hn, HR'; auto).
      destruct (inv_occ2 _ _ I x Hx Hnr) as [v1 [f1 [t1 [P1 L1]]]].
      destruct (Nat.eq_dec f1 f) as [->|Hf1].
      * exfalso. rewrite <- EL in L1.
        destruct HL as [E|[E|[y [E Ht]]]]; rewrite E in L1; try discriminate.
        -- inversion L1. subst x. apply Hn, HR'. right. split; auto.
           apply Hc. split; auto. apply (inv_todo _ _ I) in Hx. destruct Hx as [w [g Hw]].
           exists g. apply (inv_src _ _ I). eauto.
        -- inversion L1. subst y. destruct (inv_todo _ _ I x Hx) as [w [g Hw]].
           exact (temp_not_target _ _ _ Ht Hw).
      * exists v1, f1, t1. split.
        -- split; [apply P1|]. simpl. apply In_maskClear_iff. split; [apply P1|].
           intro E. subst t1. apply Hf1.
           pose proof (RR_var_to _ _ _ _ _ Hrr (proj1 P1)) as E. subst v1.
           destruct (RR_same _ _ _ _ _ Hrr (proj1 P1)) as [E' _]. congruence.
        -- simpl. rewrite updr_other by exact Hf1. exact L1.
    + intros v1 f1 t1 x P1 L1 Hx Ht. destruct (Hpend' _ _ _ P1) as (P1' & Ht1 & Hf1).
      simpl in L1. rewrite updr_other in L1 by exact Hf1.
      destruct (inv_for _ _ I _ _ _ _ P1' L1 Hx Ht) as (X1 & X2 & X3 & X4 & X5 & X6).
      assert (HTf : isFloatReg T = true) by exact (X6 T HT).
      assert (Hff : isFloatReg f = true) by (rewrite (RR_class _ _ _ Hrr); exact HTf).
      refine (conj X1 (conj X2 (conj X3 (conj _ (conj _ _))))).
      * intro H. apply HR' in H. destruct H as [[H _]|[_ ->]]; [contradiction|].
        rewrite (RR_class _ _ _ (proj1 P1')) in X2. congruence.
      * apply In_maskClear_iff. split; auto. intros ->. apply HTocc. exists v1, f1, t1. auto.
      * intros y Hy. apply HR' in Hy. destruct Hy as [[Hy _]|[_ ->]]; auto.
    + intros w Hw Hnr. destruct (inv_other _ _ I w Hw Hnr) as [O1 O2]. split.
      * intros r E1 E2. unfold writeM, mloc. simpl.
        destruct (Nat.eqb r T) eqn:E; [|exact (O1 r E1 E2)].
        apply Nat.eqb_eq in E. subst r. exfalso.
        assert (w = v) by (destruct Hrr as (Hv & _ & H3 & _); eapply Htinj; eauto).
        subst w. exact (Hnr f T Hrr).
      * intro H. unfold writeM, mloc. simpl. exact (O2 H).
  - simpl. apply maskClear_length. exact HTt.
  - apply notReady_le; simpl.
    + apply NoDup_maskClear. exact (inv_nodup _ _ I).
    + intros x Hx Hn. apply In_maskClear_iff in Hx. destruct Hx as [Hx HxT]. split; auto.
      intro H. apply Hn, HR'. auto.
Qed.

Lemma target_not_temp ml M x : Inv ml M -> In x (targetRegsToDo ml) -> ~ isTemp x.
Proof. intros I Hx Ht. destruct (inv_todo _ _ I x Hx) as [w [g Hw]]. exact (temp_not_target _ _ _ Ht Hw). Qed.

Lemma own_or_foreign ml M v f t x : Inv ml M -> pending ml v f t -> location ml f = RegR x ->
  In x (targetRegsToDo ml) ->
  x = f \/ (isXarch = true /\ isFloatReg f = false /\ isFloatReg x = false).
Proof.
  intros I P L Hx. destruct (Nat.eq_dec x f) as [->|Hne]; auto. right.
  destruct (inv_for _ _ I _ _ _ _ P L Hne (target_not_temp _ _ _ I Hx)) as (A & B & C & _). auto.
Qed.

Lemma readM_reg M w x : readM M w (RegR x) = M (MReg x).
Proof. reflexivity. Qed.

Lemma readM_stk M w : readM M w REG_STK = M (MHome w).
Proof. reflexivity. Qed.

(** Without a scratch register, the value in [T] goes to its stack home
    and [T] receives its value from [F]. *)
Lemma spill_case ml M T F v f v2 f2 t2 :
  Inv ml M -> targetRegsReady ml = [] ->
  pending ml v f T -> location ml f = RegR F -> In F (targetRegsToDo ml) -> F <> T ->
  pending ml v2 f2 t2 -> location ml f2 = RegR T ->
  (isFloatReg T = true \/ isXarch = false) ->
  emitted (spillState ml T F f f2 v v2) = emitted ml ++ spillMoves T F v v2 /\
  Forall moveOK (spillMoves T F v v2) /\
  Inv (spillState ml T F f f2 v v2) (execMoves M (spillMoves T F v v2)) /\
  mu (spillState ml T F f f2 v v2) < mu ml.
Proof.
  intros I Hr P LF HF HFT P2 L2 Hcl.
  assert (HTt : In T (targetRegsToDo ml)) by apply P.
  assert (Hf2 : T = f2).
  { destruct (own_or_foreign _ _ _ _ _ _ I P2 L2 HTt) as [E|(X & _ & XT)]; auto.
    destruct Hcl; congruence. }
  assert (HFf : F = f).
  { destruct (own_or_foreign _ _ _ _ _ _ I P LF HF) as [E|(X & Xf & _)]; auto.
    rewrite (RR_class _ _ _ (proj1 P)) in Xf. destruct Hcl; congruence. }
  subst f2 F.
  assert (HfT : f <> T) by (destruct P as [(_ & _ & _ & H) _]; exact H).
  assert (Hvv2 : v <> v2).
  { intro E. subst v2. destruct (RR_same _ _ _ _ _ (proj1 P) (proj1 P2)). congruence. }
  destruct (inv_pend _ _ I _ _ _ P) as [_ Rv]. rewrite LF, readM_reg in Rv.
  destruct (inv_pend _ _ I _ _ _ P2) as [_ Rv2]. rewrite L2, readM_reg in Rv2.
  set (M' := execMoves M (spillMoves T f v v2)).
  assert (HM : forall y, M' y = if MLoc_eqb y (MReg T) then Some v
                               else if MLoc_eqb y (MHome v2) then Some v2 else M y).
  { intro y. unfold M', execMoves, spillMoves. simpl. unfold writeM, readM, mloc. simpl.
    rewrite Rv2, Rv. reflexivity. }
  clearbody M'.
  assert (HMr : forall x, x <> T -> M' (MReg x) = M (MReg x)).
  { intros x Hx. rewrite HM. simpl. apply Nat.eqb_neq in Hx. now rewrite Hx. }
  assert (HMh : forall w, w <> v2 -> M' (MHome w) = M (MHome w)).
  { intros w Hw. rewrite HM. simpl. apply Nat.eqb_neq in Hw. now rewrite Hw. }
  set (ml' := spillState ml T f f T v v2).
  assert (Eloc : location ml' = upd (upd (location ml) T REG_STK) f REG_NA) by reflexivity.
  assert (Esrc : source ml' = source ml) by reflexivity.
  assert (Esi : sourceIntervals ml' = sourceIntervals ml) by reflexivity.
  assert (Etodo : targetRegsToDo ml' = maskClear T (targetRegsToDo ml)) by reflexivity.
  assert (Eready : targetRegsReady ml' = [f]) by (unfold ml', spillState; simpl; rewrite Hr; reflexivity).
  assert (Eem : emitted ml' = emitted ml ++ spillMoves T f v v2)
    by (unfold ml', spillState, spillMoves; simpl; rewrite <- app_assoc; reflexivity).
  clearbody ml'.
  (* the values still to be moved after the step *)
  assert (Hp : forall v1 f1 t1, pending ml' v1 f1 t1 ->
               pending ml v1 f1 t1 /\ t1 <> T /\ v1 <> v /\ f1 <> f).
  { intros v1 f1 t1 [Q Ht]. rewrite Etodo in Ht. apply In_maskClear_iff in Ht. destruct Ht as [Ht HtT].
    assert (Q' : pending ml v1 f1 t1) by (split; auto).
    assert (v1 <> v) by (intro E; subst v1; destruct (RR_same _ _ _ _ _ (proj1 P) Q); congruence).
    refine (conj Q' (conj HtT (conj H _))). intro E. subst f1. apply H. symmetry.
    eapply RR_var_from; [exact (proj1 P)| exact Q]. }
  assert (Hloc' : forall v1 f1 t1, pending ml v1 f1 t1 -> f1 <> f -> f1 <> T ->
                  location ml' f1 = location ml f1).
  { intros v1 f1 t1 _ H1 H2. rewrite Eloc. rewrite !updr_other; auto. }
  (* the other values sit in registers other than [T] and [f] *)
  assert (Hrest : forall v1 f1 t1, pending ml v1 f1 t1 -> v1 <> v -> v1 <> v2 ->
                  exists x, location ml f1 = RegR x /\ In x (targetRegsToDo ml) /\ x <> T /\ x <> f).
  { intros v1 f1 t1 Q H1 H2. destruct (stuck_locations _ _ I Hr _ _ _ Q) as [x [Lx Hx]].
    exists x. refine (conj Lx (conj Hx (conj _ _))).
    - intros ->. apply H2. eapply occ_unique; eauto.
    - intros ->. apply H1. eapply occ_unique; eauto. }
  assert (Hv2f : forall v1 f1 t1, pending ml v1 f1 t1 -> f1 = T -> v1 = v2 /\ t1 = t2).
  { intros v1 f1 t1 Q ->. pose proof (RR_var_from _ _ _ _ _ (proj1 Q) (proj1 P2)) as E. subst v1.
    split; auto. apply (RR_same _ _ _ _ _ (proj1 Q) (proj1 P2)). }
  (* class of [f] on x86/x64 *)
  assert (Hff : isXarch = true -> isFloatReg f = true).
  { intro X. rewrite (RR_class _ _ _ (proj1 P)). destruct Hcl; congruence. }
  split; [exact Eem|]. split.
  { unfold spillMoves. constructor; [|constructor; [|constructor]]; split.
    - intros r Hr'. simpl in Hr'. contradiction.
    - intros _. exists T, t2. apply P2.
    - intros r Hr'. simpl in Hr'. destruct Hr' as [<-|[]]. left. exists v, f. apply P.
    - intros [E|E]; discriminate. }
  split.
  - constructor.
    + rewrite Esrc. exact (inv_src _ _ I).
    + rewrite Esrc. exact (inv_srcNA _ _ I).
    + rewrite Etodo. apply NoDup_maskClear. exact (inv_nodup _ _ I).
    + intros t Ht. rewrite Etodo in Ht. apply In_maskClear_iff in Ht. exact (inv_todo _ _ I t (proj1 Ht)).
    + intros x Hx. rewrite Eready in Hx. destruct Hx as [<-|[]]. rewrite Etodo.
      apply In_maskClear_iff. auto.
    + intros v1 f1 t1 Q. destruct (Hp _ _ _ Q) as (Q' & HtT & Hv1 & Hf1).
      destruct (inv_pend _ _ I _ _ _ Q') as [Hs1 _]. rewrite Esi. split; auto.
      destruct (Nat.eq_dec f1 T) as [->|HfT1].
      * destruct (Hv2f _ _ _ Q' eq_refl) as [-> _].
        rewrite Eloc, updr_other by auto. rewrite updr_same, readM_stk, HM. simpl. now rewrite Nat.eqb_refl.
      * assert (Hv12 : v1 <> v2) by (intro E; subst v1; apply HfT1; symmetry;
                                     apply (RR_same _ _ _ _ _ (proj1 P2) (proj1 Q'))).
        destruct (Hrest _ _ _ Q' Hv1 Hv12) as (x & Lx & _ & HxT & _).
        rewrite (Hloc' _ _ _ Q' Hf1 HfT1), Lx, readM_reg, HMr by auto.
        destruct (inv_pend _ _ I _ _ _ Q') as [_ R1]. rewrite Lx, readM_reg in R1. exact R1.
    + intros v1 f1 t1 Q Hn. rewrite Etodo in Hn.
      destruct (Nat.eq_dec t1 T) as [->|HtT].
      * rewrite HM. simpl. rewrite Nat.eqb_refl. f_equal. eapply RR_var_to; [exact (proj1 P)|exact Q].
      * rewrite HMr by auto. apply (inv_done _ _ I _ _ _ Q). intro H. apply Hn.
        apply In_maskClear_iff. auto.
    + intros x Hx [v1 [f1 [t1 [Q Lx]]]]. rewrite Eready in Hx. destruct Hx as [<-|[]].
      destruct (Hp _ _ _ Q) as (Q' & HtT & Hv1 & Hf1).
      destruct (Nat.eq_dec f1 T) as [->|HfT1].
      * rewrite Eloc, updr_other, updr_same in Lx by auto. discriminate.
      * rewrite (Hloc' _ _ _ Q' Hf1 HfT1) in Lx. apply Hv1. eapply occ_unique; eauto.
    + intros x Hx Hn. rewrite Etodo in Hx. apply In_maskClear_iff in Hx. destruct Hx as [Hx HxT].
      rewrite Eready in Hn. assert (Hxf : x <> f) by (intro E; apply Hn; left; auto).
      assert (Hnr : ~ In x (targetRegsReady ml)) by (rewrite Hr; auto).
      destruct (inv_occ2 _ _ I x Hx Hnr) as [v1 [f1 [t1 [Q Lx]]]].
      assert (Hf1 : f1 <> f) by (intro E; subst f1; rewrite LF in Lx; congruence).
      assert (HfT1 : f1 <> T) by (intro E; subst f1; rewrite L2 in Lx; congruence).
      assert (HtT : t1 <> T).
      { intro E. subst t1. apply Hf1. pose proof (RR_var_to _ _ _ _ _ (proj1 P) (proj1 Q)). subst v1.
        symmetry. apply (RR_same _ _ _ _ _ (proj1 P) (proj1 Q)). }
      exists v1, f1, t1. split.
      * split; [apply Q|]. rewrite Etodo. apply In_maskClear_iff. split; [apply Q|auto].
      * rewrite (Hloc' _ _ _ Q Hf1 HfT1). exact Lx.
    + intros v1 f1 t1 x Q Lx Hx Ht. destruct (Hp _ _ _ Q) as (Q' & HtT & Hv1 & Hf1).
      destruct (Nat.eq_dec f1 T) as [->|HfT1].
      { rewrite Eloc, updr_other, updr_same in Lx by auto. discriminate. }
      rewrite (Hloc' _ _ _ Q' Hf1 HfT1) in Lx.
      destruct (inv_for _ _ I _ _ _ _ Q' Lx Hx Ht) as (X1 & X2 & X3 & _ & X5 & _).
      refine (conj X1 (conj X2 (conj X3 (conj _ (conj _ _))))).
      * rewrite Eready. intros [E|[]]. subst t1.
        rewrite (RR_class _ _ _ (proj1 Q')) in X2. rewrite (Hff X1) in X2. discriminate.
      * rewrite Etodo. apply In_maskClear_iff. split; auto. intros ->.
        apply HfT1. pose proof (occ_unique _ _ _ _ _ _ _ _ _ I Q' P2 Lx L2). subst v1.
        symmetry. apply (RR_same _ _ _ _ _ (proj1 P2) (proj1 Q')).
      * rewrite Eready. intros y [<-|[]]. exact (Hff X1).
    + intros w Hw Hnr. destruct (inv_other _ _ I w Hw Hnr) as [O1 O2]. split.
      * intros r E1 E2. rewrite HMr; [exact (O1 r E1 E2)|]. intros ->.
        pose proof P as [(Hv & _ & H3 & _) _].
        assert (w = v) by (eapply Htinj; eauto). subst w. apply (Hnr f T). apply P.
      * intro H. rewrite HMh; [exact (O2 H)|]. intros ->. apply (Hnr T t2). apply P2.
  - unfold mu. rewrite Etodo. pose proof (maskClear_length T _ HTt).
    assert (notReady ml' <= notReady ml).
    { apply notReady_le.
      - rewrite Etodo. apply NoDup_maskClear. exact (inv_nodup _ _ I).
      - intros x Hx _. rewrite Etodo in Hx. apply In_maskClear_iff in Hx. rewrite Hr. split; [apply Hx|auto]. }
    lia.
Qed.

(** With a scratch register of the class, the value in [T] is copied there
    and [T] becomes ready. *)
Lemma temp_case ml M T tmp v2 f2 t2 :
  Inv ml M -> targetRegsReady ml = [] -> In T (targetRegsToDo ml) ->
  pending ml v2 f2 t2 -> location ml f2 = RegR T ->
  (isFloatReg T = true \/ isXarch = false) -> isTemp tmp ->
  emitted (tempState ml T tmp v2) = emitted ml ++ [addResolution v2 (RegR tmp) (RegR T)] /\
  Forall moveOK [addResolution v2 (RegR tmp) (RegR T)] /\
  Inv (tempState ml T tmp v2) (execMoves M [addResolution v2 (RegR tmp) (RegR T)]) /\
  mu (tempState ml T tmp v2) < mu ml.
Proof.
  intros I Hr HTt P2 L2 Hcl Htm.
  assert (Hf2 : T = f2).
  { destruct (own_or_foreign _ _ _ _ _ _ I P2 L2 HTt) as [E|(X & _ & XT)]; auto.
    destruct Hcl; congruence. }
  subst f2.
  assert (HTtmp : tmp <> T) by (intros ->; exact (target_not_temp _ _ _ I HTt Htm)).
  destruct (inv_pend _ _ I _ _ _ P2) as [Hsi2 Rv2]. rewrite L2, readM_reg in Rv2.
  set (new := [addResolution v2 (RegR tmp) (RegR T)]).
  set (M' := execMoves M new).
  assert (HM : forall y, M' y = if MLoc_eqb y (MReg tmp) then Some v2 else M y).
  { intro y. unfold M', execMoves, new. simpl. unfold writeM, readM, mloc. simpl.
    rewrite Rv2. reflexivity. }
  clearbody M'.
  assert (HMr : forall x, x <> tmp -> M' (MReg x) = M (MReg x)).
  { intros x Hx. rewrite HM. simpl. apply Nat.eqb_neq in Hx. now rewrite Hx. }
  assert (HMh : forall w, M' (MHome w) = M (MHome w)) by (intro w; rewrite HM; reflexivity).
  set (ml' := tempState ml T tmp v2).
  assert (Eloc : location ml' = upd (location ml) T (RegR tmp)) by reflexivity.
  assert (Esrc : source ml' = source ml) by reflexivity.
  assert (Esi : sourceIntervals ml' = sourceIntervals ml) by reflexivity.
  assert (Etodo : targetRegsToDo ml' = targetRegsToDo ml) by reflexivity.
  assert (Eready : targetRegsReady ml' = [T]) by (unfold ml', tempState; simpl; rewrite Hr; reflexivity).
  assert (Eem : emitted ml' = emitted ml ++ new) by reflexivity.
  clearbody ml'.
  assert (Hp : forall v1 f1 t1, pending ml' v1 f1 t1 -> pending ml v1 f1 t1).
  { intros v1 f1 t1 [Q Ht]. rewrite Etodo in Ht. split; auto. }
  assert (Hv2f : forall v1 f1 t1, pending ml v1 f1 t1 -> f1 = T -> v1 = v2).
  { intros v1 f1 t1 Q ->. exact (RR_var_from _ _ _ _ _ (proj1 Q) (proj1 P2)). }
  assert (HTf : isXarch = true -> isFloatReg T = true) by (intro X; destruct Hcl; congruence).
  split; [exact Eem|]. split.
  { unfold new. constructor; [|constructor]. split.
    - intros r Hr'. simpl in Hr'. destruct Hr' as [<-|[]]. right. exact Htm.
    - intros [E|E]; discriminate. }
  split.
  - constructor.
    + rewrite Esrc. exact (inv_src _ _ I).
    + rewrite Esrc. exact (inv_srcNA _ _ I).
    + rewrite Etodo. exact (inv_nodup _ _ I).
    + rewrite Etodo. exact (inv_todo _ _ I).
    + intros x Hx. rewrite Eready in Hx. destruct Hx as [<-|[]]. rewrite Etodo. exact HTt.
    + intros v1 f1 t1 Q. apply Hp in Q.
      destruct (inv_pend _ _ I _ _ _ Q) as [Hs1 _]. rewrite Esi. split; auto.
      destruct (Nat.eq_dec f1 T) as [->|HfT1].
      * rewrite (Hv2f _ _ _ Q eq_refl), Eloc, updr_same, readM_reg, HM. simpl.
        now rewrite Nat.eqb_refl.
      * destruct (stuck_locations _ _ I Hr _ _ _ Q) as [x [Lx Hx]].
        rewrite Eloc, updr_other, Lx, readM_reg by auto.
        rewrite HMr; [|intros ->; exact (target_not_temp _ _ _ I Hx Htm)].
        destruct (inv_pend _ _ I _ _ _ Q) as [_ R1]. rewrite Lx, readM_reg in R1. exact R1.
    + intros v1 f1 t1 Q Hn. rewrite Etodo in Hn. rewrite HMr.
      * exact (inv_done _ _ I _ _ _ Q Hn).
      * intros ->. exact (temp_not_target _ _ _ Htm Q).
    + intros x Hx [v1 [f1 [t1 [Q Lx]]]]. rewrite Eready in Hx. destruct Hx as [<-|[]].
      apply Hp in Q. destruct (Nat.eq_dec f1 T) as [->|HfT1].
      * rewrite Eloc, updr_same in Lx. congruence.
      * rewrite Eloc, updr_other in Lx by auto.
        pose proof (occ_unique _ _ _ _ _ _ _ _ _ I Q P2 Lx L2). subst v1.
        apply HfT1. apply (RR_same _ _ _ _ _ (proj1 Q) (proj1 P2)).
    + intros x Hx Hn. rewrite Etodo in Hx. rewrite Eready in Hn.
      assert (HxT : x <> T) by (intro E; apply Hn; left; auto).
      assert (Hnr : ~ In x (targetRegsReady ml)) by (rewrite Hr; auto).
      destruct (inv_occ2 _ _ I x Hx Hnr) as [v1 [f1 [t1 [Q Lx]]]].
      assert (HfT1 : f1 <> T) by (intro E; subst f1; rewrite L2 in Lx; congruence).
      exists v1, f1, t1. split.
      * split; [apply Q|]. rewrite Etodo. apply Q.
      * rewrite Eloc, updr_other by auto. exact Lx.
    + intros v1 f1 t1 x Q Lx Hx Ht. apply Hp in Q.
      destruct (Nat.eq_dec f1 T) as [->|HfT1].
      { rewrite Eloc, updr_same in Lx. inversion Lx. subst x. contradiction. }
      rewrite Eloc, updr_other in Lx by auto.
      destruct (inv_for _ _ I _ _ _ _ Q Lx Hx Ht) as (X1 & X2 & X3 & _ & X5 & _).
      refine (conj X1 (conj X2 (conj X3 (conj _ (conj _ _))))).
      * rewrite Eready. intros [E|[]]. subst t1.
        rewrite (RR_class _ _ _ (proj1 Q)) in X2. rewrite (HTf X1) in X2. discriminate.
      * rewrite Etodo. exact X5.
      * rewrite Eready. intros y [<-|[]]. exact (HTf X1).
    + intros w Hw Hnr. destruct (inv_other _ _ I w Hw Hnr) as [O1 O2]. split.
      * intros r E1 E2. rewrite HMr; [exact (O1 r E1 E2)|]. intros ->.
        exact (proj1 (Htmp tmp w Htm Hw) E1).
      * intro H. rewrite HMh. exact (O2 H).
  - unfold mu. rewrite Etodo.
    assert (notReady ml' < notReady ml).
    { apply (notReady_lt _ _ T).
      - rewrite Etodo. exact (inv_nodup _ _ I).
      - intros x Hx Hn. rewrite Etodo in Hx. rewrite Eready in Hn. rewrite Hr.
        refine (conj Hx (conj (fun h => h) _)). intro E. apply Hn. left. auto.
      - exact HTt.
      - rewrite Hr. auto. }
    lia.
Qed.

(** A register that is the target of a moved variable is not the home
    register of a variable that stays. *)
Lemma target_not_stay w r :
  (exists u g, RR u g r) -> In w liveSet -> (forall f t, ~ RR w f t) -> toMap w = RegR r -> False.
Proof.
  intros [u [g Hu]] Hw Hn E. pose proof Hu as (Hu1 & _ & Hu3 & _).
  assert (w = u) by (eapply Htinj; eauto). subst w. exact (Hn _ _ Hu).
Qed.

(** On x86/x64 an integer cycle is broken by exchanging [T] and [F]. *)
Lemma swap_case ml M T F v f v2 f2 t2 toDo1 :
  Inv ml M -> targetRegsReady ml = [] ->
  pending ml v f T -> location ml f = RegR F -> In F (targetRegsToDo ml) -> F <> T ->
  pending ml v2 f2 t2 -> location ml f2 = RegR T ->
  isXarch = true -> isFloatReg T = false ->
  ((t2 = F /\ toDo1 = maskClear F (targetRegsToDo ml)) \/ (t2 <> F /\ toDo1 = targetRegsToDo ml)) ->
  emitted (swapState ml T F f f2 v v2 toDo1) = emitted ml ++ [insertSwap v2 T v F] /\
  Forall moveOK [insertSwap v2 T v F] /\
  Inv (swapState ml T F f f2 v v2 toDo1) (execMoves M [insertSwap v2 T v F]) /\
  mu (swapState ml T F f f2 v v2 toDo1) < mu ml.
Proof.
  intros I Hr P LF HF HFT P2 L2 X HTf Ht1.
  assert (HTt : In T (targetRegsToDo ml)) by apply P.
  assert (Hvv2 : v <> v2) by (intro E; subst v2; pose proof (RR_same _ _ _ _ _ (proj1 P) (proj1 P2)) as [E _];
                              subst f2; congruence).
  assert (Hff2 : f <> f2) by (intro E; subst f2; apply Hvv2; exact (RR_var_from _ _ _ _ _ (proj1 P) (proj1 P2))).
  destruct (inv_pend _ _ I _ _ _ P) as [_ Rv]. rewrite LF, readM_reg in Rv.
  destruct (inv_pend _ _ I _ _ _ P2) as [_ Rv2]. rewrite L2, readM_reg in Rv2.
  set (new := [insertSwap v2 T v F]).
  set (M' := execMoves M new).
  assert (HM : forall y, M' y = if MLoc_eqb y (MReg T) then M (MReg F)
                               else if MLoc_eqb y (MReg F) then M (MReg T) else M y) by reflexivity.
  clearbody M'.
  assert (HMT : M' (MReg T) = Some v) by (rewrite HM; simpl; now rewrite Nat.eqb_refl).
  assert (HMF : M' (MReg F) = Some v2).
  { rewrite HM. simpl. rewrite Nat.eqb_refl. apply Nat.eqb_neq in HFT. now rewrite HFT. }
  assert (HMr : forall x, x <> T -> x <> F -> M' (MReg x) = M (MReg x)).
  { intros x H1 H2. rewrite HM. simpl. apply Nat.eqb_neq in H1, H2. now rewrite H1, H2. }
  assert (HMh : forall w, M' (MHome w) = M (MHome w)) by (intro w; rewrite HM; reflexivity).
  set (ml' := swapState ml T F f f2 v v2 toDo1).
  assert (Eloc : location ml' = upd (upd (location ml) f REG_NA) f2 (RegR F)) by reflexivity.
  assert (Esrc : source ml' = source ml) by reflexivity.
  assert (Esi : sourceIntervals ml' = sourceIntervals ml) by reflexivity.
  assert (Etodo : targetRegsToDo ml' = maskClear T toDo1) by reflexivity.
  assert (Eready : targetRegsReady ml' = []) by exact Hr.
  assert (Eem : emitted ml' = emitted ml ++ new) by reflexivity.
  clearbody ml'.
  assert (Htd : forall x, In x (targetRegsToDo ml') <->
                          In x (targetRegsToDo ml) /\ x <> T /\ (t2 = F -> x <> F)).
  { intro x. rewrite Etodo, In_maskClear_iff.
    destruct Ht1 as [[E1 ->]|[E1 ->]]; [rewrite In_maskClear_iff|]; intuition. }
  assert (Hnd' : NoDup (targetRegsToDo ml')).
  { rewrite Etodo. apply NoDup_maskClear.
    destruct Ht1 as [[_ ->]|[_ ->]]; [apply NoDup_maskClear|]; exact (inv_nodup _ _ I). }
  assert (Hp : forall v1 f1 t1, pending ml' v1 f1 t1 ->
               pending ml v1 f1 t1 /\ t1 <> T /\ (t2 = F -> t1 <> F)).
  { intros v1 f1 t1 [Q Ht]. apply Htd in Ht. destruct Ht as (H1 & H2 & H3). exact (conj (conj Q H1) (conj H2 H3)). }
  assert (Hpv : forall v1 f1 t1, pending ml v1 f1 t1 -> v1 = v -> f1 = f /\ t1 = T)
    by (intros v1 f1 t1 Q ->; exact (RR_same _ _ _ _ _ (proj1 Q) (proj1 P))).
  assert (Hpv2 : forall v1 f1 t1, pending ml v1 f1 t1 -> v1 = v2 -> f1 = f2 /\ t1 = t2)
    by (intros v1 f1 t1 Q ->; exact (RR_same _ _ _ _ _ (proj1 Q) (proj1 P2))).
  (* the other values sit in registers other than [T] and [F] *)
  assert (Hrest : forall v1 f1 t1, pending ml v1 f1 t1 -> f1 <> f -> f1 <> f2 ->
                  exists x, location ml f1 = RegR x /\ In x (targetRegsToDo ml) /\ x <> T /\ x <> F).
  { intros v1 f1 t1 Q H1 H2. destruct (stuck_locations _ _ I Hr _ _ _ Q) as [x [Lx Hx]].
    exists x. refine (conj Lx (conj Hx (conj _ _))).
    - intros ->. apply H2. pose proof (occ_unique _ _ _ _ _ _ _ _ _ I Q P2 Lx L2). subst v1.
      apply (Hpv2 _ _ _ Q eq_refl).
    - intros ->. apply H1. pose proof (occ_unique _ _ _ _ _ _ _ _ _ I Q P Lx LF). subst v1.
      apply (Hpv _ _ _ Q eq_refl). }
  assert (Hf2c : isFloatReg f2 = false).
  { destruct (own_or_foreign _ _ _ _ _ _ I P2 L2 HTt) as [<-|(_ & H & _)]; auto. }
  assert (HFc : isFloatReg F = false).
  { destruct (own_or_foreign _ _ _ _ _ _ I P LF HF) as [->|(_ & _ & H)]; auto.
    rewrite (RR_class _ _ _ (proj1 P)). exact HTf. }
  split; [exact Eem|]. split.
  { unfold new. constructor; [|constructor]. split; [|trivial].
    intros r Hr'. simpl in Hr'. left. destruct Hr' as [<-|[<-|[]]].
    - exists v, f. apply P.
    - exact (inv_todo _ _ I _ HF). }
  split.
  - constructor.
    + rewrite Esrc. exact (inv_src _ _ I).
    + rewrite Esrc. exact (inv_srcNA _ _ I).
    + exact Hnd'.
    + intros t Ht. apply Htd in Ht. exact (inv_todo _ _ I t (proj1 Ht)).
    + intros x Hx. rewrite Eready in Hx. destruct Hx.
    + intros v1 f1 t1 Q. destruct (Hp _ _ _ Q) as (Q' & HtT & HtF).
      destruct (inv_pend _ _ I _ _ _ Q') as [Hs1 R1]. rewrite Esi. split; auto.
      destruct (Nat.eq_dec f1 f2) as [->|Hf12].
      * pose proof (RR_var_from _ _ _ _ _ (proj1 Q') (proj1 P2)). subst v1.
        rewrite Eloc, updr_same, readM_reg. exact HMF.
      * destruct (Nat.eq_dec f1 f) as [->|Hf1].
        { exfalso. apply HtT. pose proof (RR_var_from _ _ _ _ _ (proj1 P) (proj1 Q')). subst v1.
          symmetry. apply (RR_same _ _ _ _ _ (proj1 P) (proj1 Q')). }
        destruct (Hrest _ _ _ Q' Hf1 Hf12) as (x & Lx & _ & HxT & HxF).
        rewrite Eloc, !updr_other, Lx, readM_reg, HMr by auto.
        rewrite Lx, readM_reg in R1. exact R1.
    + intros v1 f1 t1 Q Hn.
      destruct (in_dec Nat.eq_dec t1 (targetRegsToDo ml)) as [Hin|Hnin].
      * destruct (Nat.eq_dec t1 T) as [->|HtT].
        { rewrite (RR_var_to _ _ _ _ _ Q (proj1 P)). exact HMT. }
        destruct (Nat.eq_dec t1 F) as [->|HtF].
        { destruct (Nat.eq_dec t2 F) as [E|E].
          - subst t2. rewrite (RR_var_to _ _ _ _ _ Q (proj1 P2)). exact HMF.
          - exfalso. apply Hn. apply Htd. repeat split; auto. }
        exfalso. apply Hn. apply Htd. repeat split; auto.
      * rewrite HMr.
        -- exact (inv_done _ _ I _ _ _ Q Hnin).
        -- intros ->. exact (Hnin HTt).
        -- intros ->. exact (Hnin HF).
    + intros x Hx. rewrite Eready in Hx. destruct Hx.
    + intros x Hx _. pose proof Hx as Hx'. apply Htd in Hx'. destruct Hx' as (Hx0 & HxT & HxF).
      assert (Hnr : ~ In x (targetRegsReady ml)) by (rewrite Hr; auto).
      destruct (inv_occ2 _ _ I x Hx0 Hnr) as [v1 [f1 [t1 [Q Lx]]]].
      destruct (Nat.eq_dec f1 f) as [->|Hf1].
      * rewrite LF in Lx. inversion Lx. subst x.
        assert (Ht2F : t2 <> F) by (intro E; exact (HxF E eq_refl)).
        exists v2, f2, t2. split.
        -- split; [apply P2|]. apply Htd. refine (conj (proj2 P2) (conj _ (fun E => False_ind _ (Ht2F E)))).
           intros ->. apply Hvv2. exact (RR_var_to _ _ _ _ _ (proj1 P) (proj1 P2)).
        -- rewrite Eloc, updr_same. reflexivity.
      * destruct (Nat.eq_dec f1 f2) as [->|Hf12].
        { rewrite L2 in Lx. inversion Lx. subst x. contradiction. }
        assert (Hv1 : v1 <> v) by (intro E; exact (Hf1 (proj1 (Hpv _ _ _ Q E)))).
        assert (Hv12 : v1 <> v2) by (intro E; exact (Hf12 (proj1 (Hpv2 _ _ _ Q E)))).
        exists v1, f1, t1. split.
        -- split; [apply Q|]. apply Htd. refine (conj (proj2 Q) (conj _ _)).
           ++ intros ->. exact (Hv1 (RR_var_to _ _ _ _ _ (proj1 Q) (proj1 P))).
           ++ intros E ->. subst t2. exact (Hv12 (RR_var_to _ _ _ _ _ (proj1 Q) (proj1 P2))).
        -- rewrite Eloc, !updr_other by auto. exact Lx.
    + intros v1 f1 t1 x Q Lx Hx Ht. destruct (Hp _ _ _ Q) as (Q' & HtT & HtF).
      rewrite Eready. refine (conj X _).
      destruct (Nat.eq_dec f1 f2) as [->|Hf12].
      * rewrite Eloc, updr_same in Lx. inversion Lx. subst x.
        pose proof (RR_var_from _ _ _ _ _ (proj1 Q') (proj1 P2)). subst v1.
        pose proof (proj2 (Hpv2 _ _ _ Q' eq_refl)). subst t1.
        refine (conj Hf2c (conj HFc (conj (fun h => h) (conj _ (fun y h => False_ind _ h))))).
        apply Htd. refine (conj HF (conj HFT (fun E => False_ind _ (HtF E E)))).
      * destruct (Nat.eq_dec f1 f) as [->|Hf1].
        { rewrite Eloc, updr_other, updr_same in Lx by auto. discriminate. }
        rewrite Eloc, !updr_other in Lx by auto.
        destruct (inv_for _ _ I _ _ _ _ Q' Lx Hx Ht) as (_ & X2 & X3 & _ & X5 & _).
        refine (conj X2 (conj X3 (conj (fun h => h) (conj _ (fun y h => False_ind _ h))))).
        apply Htd. refine (conj X5 (conj _ (fun _ => _))).
        -- intros ->. apply Hf12. pose proof (occ_unique _ _ _ _ _ _ _ _ _ I Q' P2 Lx L2). subst v1.
           apply (Hpv2 _ _ _ Q' eq_refl).
        -- intros ->. apply Hf1. pose proof (occ_unique _ _ _ _ _ _ _ _ _ I Q' P Lx LF). subst v1.
           apply (Hpv _ _ _ Q' eq_refl).
    + intros w Hw Hnr. destruct (inv_other _ _ I w Hw Hnr) as [O1 O2]. split.
      * intros r E1 E2. rewrite HMr; [exact (O1 r E1 E2)| |].
        -- intros ->. refine (target_not_stay w T _ Hw Hnr E2). exists v, f. apply P.
        -- intros ->. exact (target_not_stay w F (inv_todo _ _ I _ HF) Hw Hnr E2).
      * intro H. rewrite HMh. exact (O2 H).
  - unfold mu.
    assert (HT1 : In T toDo1) by (destruct Ht1 as [[_ ->]|[_ ->]]; [apply In_maskClear_iff|]; auto).
    assert (length toDo1 <= length (targetRegsToDo ml))
      by (destruct Ht1 as [[_ ->]|[_ ->]]; [apply filter_length_le|auto]).
    pose proof (maskClear_length T _ HT1). rewrite Etodo.
    assert (notReady ml' <= notReady ml).
    { apply notReady_le; [exact Hnd'|]. intros x Hx _. apply Htd in Hx. rewrite Hr. split; [apply Hx|auto]. }
    lia.
Qed.

(** The lowest target already holds its value: it is dropped from the
    targets to do. *)
Lemma inplace_case ml M T v f :
  Inv ml M -> targetRegsReady ml = [] -> pending ml v f T -> location ml f = RegR T ->
  Inv (ml_setToDo ml (maskClear T (targetRegsToDo ml))) M /\
  mu (ml_setToDo ml (maskClear T (targetRegsToDo ml))) < mu ml.
Proof.
  intros I Hr P LT.
  assert (HTt : In T (targetRegsToDo ml)) by apply P.
  set (ml' := ml_setToDo ml (maskClear T (targetRegsToDo ml))).
  assert (Etodo : targetRegsToDo ml' = maskClear T (targetRegsToDo ml)) by reflexivity.
  assert (Eready : targetRegsReady ml' = targetRegsReady ml) by reflexivity.
  assert (Eloc : location ml' = location ml) by reflexivity.
  assert (Esrc : source ml' = source ml) by reflexivity.
  assert (Esi : sourceIntervals ml' = sourceIntervals ml) by reflexivity.
  clearbody ml'.
  assert (Hp : forall v1 f1 t1, pending ml' v1 f1 t1 -> pending ml v1 f1 t1 /\ t1 <> T).
  { intros v1 f1 t1 [Q Ht]. rewrite Etodo in Ht. apply In_maskClear_iff in Ht.
    exact (conj (conj Q (proj1 Ht)) (proj2 Ht)). }
  split.
  - constructor.
    + rewrite Esrc. exact (inv_src _ _ I).
    + rewrite Esrc. exact (inv_srcNA _ _ I).
    + rewrite Etodo. apply NoDup_maskClear. exact (inv_nodup _ _ I).
    + intros t Ht. rewrite Etodo in Ht. apply In_maskClear_iff in Ht. exact (inv_todo _ _ I t (proj1 Ht)).
    + intros x Hx. rewrite Eready, Hr in Hx. destruct Hx.
    + intros v1 f1 t1 Q. rewrite Esi, Eloc. exact (inv_pend _ _ I _ _ _ (proj1 (Hp _ _ _ Q))).
    + intros v1 f1 t1 Q Hn. rewrite Etodo in Hn.
      destruct (Nat.eq_dec t1 T) as [->|HtT].
      * rewrite (RR_var_to _ _ _ _ _ Q (proj1 P)).
        destruct (inv_pend _ _ I _ _ _ P) as [_ R]. rewrite LT, readM_reg in R. exact R.
      * apply (inv_done _ _ I _ _ _ Q). intro H. apply Hn. apply In_maskClear_iff. auto.
    + intros x Hx. rewrite Eready, Hr in Hx. destruct Hx.
    + intros x Hx _. rewrite Etodo in Hx. apply In_maskClear_iff in Hx. destruct Hx as [Hx HxT].
      assert (Hnr : ~ In x (targetRegsReady ml)) by (rewrite Hr; auto).
      destruct (inv_occ2 _ _ I x Hx Hnr) as [v1 [f1 [t1 [Q Lx]]]].
      exists v1, f1, t1. rewrite Eloc. split; [|exact Lx].
      split; [apply Q|]. rewrite Etodo. apply In_maskClear_iff. split; [apply Q|].
      intros ->. pose proof (RR_var_to _ _ _ _ _ (proj1 Q) (proj1 P)). subst v1.
      destruct (RR_same _ _ _ _ _ (proj1 Q) (proj1 P)) as [-> _]. congruence.
    + intros v1 f1 t1 x Q Lx Hx Ht. destruct (Hp _ _ _ Q) as [Q' HtT]. rewrite Eloc in Lx.
      destruct (inv_for _ _ I _ _ _ _ Q' Lx Hx Ht) as (X1 & X2 & X3 & X4 & X5 & X6).
      rewrite Eready, Etodo. refine (conj X1 (conj X2 (conj X3 (conj X4 (conj _ X6))))).
      apply In_maskClear_iff. split; auto. intros ->.
      pose proof (occ_unique _ _ _ _ _ _ _ _ _ I Q' P Lx LT). subst v1.
      apply HtT. apply (RR_same _ _ _ _ _ (proj1 Q') (proj1 P)).
    + exact (inv_other _ _ I).
  - unfold mu. rewrite Etodo. pose proof (maskClear_length T _ HTt).
    assert (notReady ml' <= notReady ml).
    { apply notReady_le.
      - rewrite Etodo. apply NoDup_maskClear. exact (inv_nodup _ _ I).
      - intros x Hx Hn. rewrite Etodo in Hx. apply In_maskClear_iff in Hx. rewrite Eready in Hn.
        split; [apply Hx|auto]. }
    lia.
Qed.

Lemma locationOfSource_pending ml M w g r : Inv ml M -> pending ml w g r ->
  locationOfSource ml r = location ml g.
Proof. intros I P. unfold locationOfSource. rewrite (pending_src _ _ _ _ _ I P). reflexivity. Qed.

(** The search for [otherTargetReg] finds the target of the value held in
    [T]. *)
Lemma findOtherTarget_occ ml M T v2 f2 t2 : Inv ml M ->
  pending ml v2 f2 t2 -> location ml f2 = RegR T -> findOtherTarget ml T = RegR t2.
Proof.
  intros I P2 L2. unfold findOtherTarget.
  destruct (find _ _) as [r|] eqn:E.
  - apply find_some in E. destruct E as [Hr E]. apply Loc_eqb_spec in E.
    destruct (inv_todo _ _ I r Hr) as [w [g Hw]].
    assert (Q : pending ml w g r) by (split; auto).
    rewrite (locationOfSource_pending _ _ _ _ _ I Q) in E.
    pose proof (occ_unique _ _ _ _ _ _ _ _ _ I Q P2 E L2). subst w.
    destruct (RR_same _ _ _ _ _ Hw (proj1 P2)) as [_ ->]. reflexivity.
  - exfalso. pose proof (find_none _ _ E t2 (proj2 P2)) as N. cbv beta in N.
    rewrite (locationOfSource_pending _ _ _ _ _ I P2), L2, Loc_eqb_refl in N. discriminate.
Qed.

(** One step of the outer loop when no target is ready. *)
Lemma cycleStep_inv ml M : Inv ml M -> targetRegsReady ml = [] -> targetRegsToDo ml <> [] ->
  exists ml' new, cycleStep isXarch isFloatReg tmpI tmpF ml = Some ml' /\
    emitted ml' = emitted ml ++ new /\ Forall moveOK new /\
    Inv ml' (execMoves M new) /\ mu ml' < mu ml.
Proof.
  intros I Hr Hne.
  destruct (genFindLowestBit (targetRegsToDo ml)) as [T|] eqn:HT;
    [|apply genFindLowestBit_None in HT; contradiction].
  pose proof (genFindLowestBit_In _ _ HT) as HTt.
  destruct (inv_todo _ _ I T HTt) as [v [f Hv]].
  assert (P : pending ml v f T) by (split; auto).
  pose proof (pending_src _ _ _ _ _ I P) as Hs.
  destruct (stuck_locations _ _ I Hr _ _ _ P) as [F [LF HF]].
  destruct (inv_pend _ _ I _ _ _ P) as [Hsi _].
  unfold cycleStep. rewrite HT, Hs, LF.
  destruct (Loc_eqb (RegR T) (RegR F)) eqn:ETF.
  { apply Loc_eqb_spec in ETF. inversion ETF. subst F.
    exists (ml_setToDo ml (maskClear T (targetRegsToDo ml))), [].
    destruct (inplace_case _ _ _ _ _ I Hr P LF) as [I' Hmu].
    refine (conj eq_refl (conj _ (conj (Forall_nil _) (conj I' Hmu)))).
    simpl. rewrite app_nil_r. reflexivity. }
  assert (HFT : F <> T) by (intros ->; rewrite Loc_eqb_refl in ETF; discriminate).
  assert (HnT : ~ In T (targetRegsReady ml)) by (rewrite Hr; auto).
  destruct (inv_occ2 _ _ I T HTt HnT) as [v2 [f2 [t2 [P2 L2]]]].
  destruct (inv_pend _ _ I _ _ _ P2) as [Hsi2 _].
  pose proof (pending_src _ _ _ _ _ I P2) as Hs2.
  assert (Hlo : Loc_eqb (locationOfSource ml F) (RegR T) = true -> t2 = F).
  { intro E. apply Loc_eqb_spec in E. destruct (inv_todo _ _ I F HF) as [w [g Hw]].
    assert (Q : pending ml w g F) by (split; auto).
    rewrite (locationOfSource_pending _ _ _ _ _ I Q) in E.
    pose proof (occ_unique _ _ _ _ _ _ _ _ _ I Q P2 E L2). subst w.
    symmetry. apply (RR_same _ _ _ _ _ Hw (proj1 P2)). }
  pose proof (findOtherTarget_occ _ _ _ _ _ _ I P2 L2) as Hfind.
  cbv zeta.
  set (tr := if isFloatReg T then tmpF else if isXarch then REG_NA else tmpI).
  set (us := negb (isFloatReg T) && isXarch).
  assert (Hus : us = true -> isXarch = true /\ isFloatReg T = false).
  { unfold us. destruct (isFloatReg T), isXarch; simpl; intuition congruence. }
  assert (Hnus : us = false -> (tr = tmpI \/ tr = tmpF) /\ (isFloatReg T = true \/ isXarch = false)).
  { unfold us, tr. destruct (isFloatReg T), isXarch; simpl; intuition congruence. }
  clearbody tr us.
  destruct us.
  - (* exchange *)
    destruct (Hus eq_refl) as [X HTf]. cbn [orb].
    destruct (Loc_eqb (locationOfSource ml F) (RegR T)) eqn:Eo.
    + pose proof (Hlo eq_refl). subst t2.
      rewrite Hs2, Hsi2, Hsi.
      exists (swapState ml T F f f2 v v2 (maskClear F (targetRegsToDo ml))), [insertSwap v2 T v F].
      split; [reflexivity|].
      exact (swap_case _ _ _ _ _ _ _ _ _ _ I Hr P LF HF HFT P2 L2 X HTf (or_introl (conj eq_refl eq_refl))).
    + rewrite Hfind, Hs2, Hsi2, Hsi.
      assert (Ht2F : t2 <> F).
      { intros ->. rewrite (locationOfSource_pending _ _ _ _ _ I P2), L2, Loc_eqb_refl in Eo. discriminate. }
      exists (swapState ml T F f f2 v v2 (targetRegsToDo ml)), [insertSwap v2 T v F].
      split; [reflexivity|].
      exact (swap_case _ _ _ _ _ _ _ _ _ _ I Hr P LF HF HFT P2 L2 X HTf (or_intror (conj Ht2F eq_refl))).
  - destruct (Hnus eq_refl) as [Htr Hcl].
    destruct (Loc_cases tr) as [E|[E|[tmp E]]]; subst tr.
    + (* spill to the stack home *)
      cbn [orb Loc_eqb].
      destruct (Loc_eqb (locationOfSource ml F) (RegR T)) eqn:Eo.
      * pose proof (Hlo eq_refl). subst t2.
        rewrite Hs2, Hsi2, Hsi.
        exists (spillState ml T F f f2 v v2), (spillMoves T F v v2). split; [reflexivity|].
        exact (spill_case _ _ _ _ _ _ _ _ _ I Hr P LF HF HFT P2 L2 Hcl).
      * rewrite Hfind, Hs2, Hsi2, Hsi.
        exists (spillState ml T F f f2 v v2), (spillMoves T F v v2). split; [reflexivity|].
        exact (spill_case _ _ _ _ _ _ _ _ _ I Hr P LF HF HFT P2 L2 Hcl).
    + exfalso. destruct HtmpS. destruct Htr; congruence.
    + (* through the scratch register *)
      cbn [orb Loc_eqb].
      assert (Hf2 : T = f2).
      { destruct (own_or_foreign _ _ _ _ _ _ I P2 L2 HTt) as [E'|(X & _ & XT)]; auto.
        destruct Hcl; congruence. }
      subst f2. rewrite Hsi2.
      exists (tempState ml T tmp v2), [addResolution v2 (RegR tmp) (RegR T)]. split; [reflexivity|].
      apply (temp_case _ _ _ _ _ _ _ I Hr HTt P2 L2 Hcl).
      destruct Htr; [left|right]; auto.
Qed.

(** The inner [while (targetRegsReady != RBM_NONE)] loop empties the ready
    set. *)
Lemma drainReady_inv fuel : forall ml M, Inv ml M -> length (targetRegsToDo ml) <= fuel ->
  exists ml' new, drainReady fuel ml = Some ml' /\ emitted ml' = emitted ml ++ new /\
    Forall moveOK new /\ Inv ml' (execMoves M new) /\ targetRegsReady ml' = [] /\
    mu ml' <= mu ml.
Proof.
  induction fuel as [|k IH]; intros ml M I Hf; simpl.
  - destruct (genFindLowestBit (targetRegsReady ml)) as [T|] eqn:HT.
    + apply genFindLowestBit_In, (inv_ready _ _ I) in HT.
      destruct (targetRegsToDo ml); [destruct HT|simpl in Hf; lia].
    + exists ml, []. apply genFindLowestBit_None in HT.
      refine (conj eq_refl (conj (eq_sym (app_nil_r _)) (conj (Forall_nil _) (conj I (conj HT (le_n _)))))).
  - destruct (genFindLowestBit (targetRegsReady ml)) as [T|] eqn:HT.
    + apply genFindLowestBit_In in HT.
      destruct (readyMove_inv _ _ _ I HT) as (ml1 & new1 & E1 & Em1 & Ok1 & I1 & Hl1 & Hn1).
      rewrite E1.
      destruct (IH ml1 _ I1 ltac:(lia)) as (ml2 & new2 & E2 & Em2 & Ok2 & I2 & Hr2 & Hmu2).
      exists ml2, (new1 ++ new2).
      refine (conj E2 (conj _ (conj _ (conj _ (conj Hr2 _))))).
      * rewrite Em2, Em1, app_assoc. reflexivity.
      * apply Forall_app. auto.
      * rewrite execMoves_app. exact I2.
      * unfold mu in *. lia.
    + exists ml, []. apply genFindLowestBit_None in HT.
      refine (conj eq_refl (conj (eq_sym (app_nil_r _)) (conj (Forall_nil _) (conj I (conj HT (le_n _)))))).
Qed.

Lemma notReady_le_length ml : notReady ml <= length (targetRegsToDo ml).
Proof. unfold notReady. apply filter_length_le. Qed.

(** The outer [while (targetRegsToDo != RBM_NONE)] loop ends with every
    target done. *)
Lemma regMoves_inv fuel : forall ml M, Inv ml M -> mu ml < fuel ->
  exists ml' new, regMoves isXarch isFloatReg tmpI tmpF fuel ml = Some ml' /\
    emitted ml' = emitted ml ++ new /\ Forall moveOK new /\
    Inv ml' (execMoves M new) /\ targetRegsToDo ml' = [].
Proof.
  induction fuel as [|k IH]; intros ml M I Hf; [lia|].
  simpl. destruct (targetRegsToDo ml) as [|t0 rest] eqn:Etd.
  { exists ml, []. refine (conj eq_refl (conj (eq_sym (app_nil_r _)) (conj (Forall_nil _) (conj I Etd)))). }
  rewrite <- Etd.
  destruct (drainReady_inv (length (targetRegsToDo ml)) ml M I (le_n _))
    as (ml1 & new1 & E1 & Em1 & Ok1 & I1 & Hr1 & Hmu1).
  rewrite E1.
  destruct (targetRegsToDo ml1) as [|t1 rest1] eqn:Etd1.
  { exists ml1, new1. exact (conj eq_refl (conj Em1 (conj Ok1 (conj I1 Etd1)))). }
  destruct (cycleStep_inv ml1 _ I1 Hr1 ltac:(rewrite Etd1; discriminate))
    as (ml2 & new2 & E2 & Em2 & Ok2 & I2 & Hmu2).
  rewrite E2.
  destruct (IH ml2 _ I2 ltac:(lia)) as (ml3 & new3 & E3 & Em3 & Ok3 & I3 & Htd3).
  exists ml3, (new1 ++ new2 ++ new3).
  refine (conj E3 (conj _ (conj _ (conj _ Htd3)))).
  - rewrite Em3, Em2, Em1, !app_assoc. reflexivity.
  - apply Forall_app. split; [|apply Forall_app]; auto.
  - rewrite !execMoves_app. exact I3.
Qed.

End Resolve.

(** The maps after the first loop, for a variable it has visited. *)
Definition fromAfter (rt : ResolveType) (fromMap toMap : VarToRegMap) (w : nat) : Loc :=
  match rt with ResolveJoin | ResolveSharedCritical => toMap w | _ => fromMap w end.

Definition toAfter (rt : ResolveType) (fromMap toMap : VarToRegMap) (w : nat) : Loc :=
  match rt with ResolveSplit => fromMap w | _ => toMap w end.

(** The stores to the stack the first loop emits, in order. *)
Definition scanEmit (fromMap toMap : VarToRegMap) (l : list nat) : list ResolutionMove :=
  flat_map (fun w => match fromMap w, toMap w with
                     | RegR f, REG_STK => [addResolution w REG_STK (RegR f)]
                     | _, _ => []
                     end) l.

Definition scan0 (fromMap toMap : VarToRegMap) : ScanLocals :=
  mkSL fromMap toMap ml0 (fun _ => None) [].

Section Scan.

Variable rt : ResolveType.
Variables fromMap toMap : VarToRegMap.
Variable live : list nat.
Hypothesis Hna : forall v, In v live -> fromMap v <> REG_NA /\ toMap v <> REG_NA.
Hypothesis Hfinj : forall v w r, In v live -> In w live ->
  fromMap v = RegR r -> fromMap w = RegR r -> v = w.
Hypothesis Htinj : forall v w r, In v live -> In w live ->
  toMap v = RegR r -> toMap w = RegR r -> v = w.

Definition RRp (pre : list nat) (v f t : nat) : Prop :=
  In v pre /\ fromMap v = RegR f /\ toMap v = RegR t /\ f <> t.

Record ScanInv (pre : list nat) (sl : ScanLocals) : Prop := {
  si_from_in : forall w, In w pre -> sl_fromMap sl w = fromAfter rt fromMap toMap w;
  si_from_out : forall w, ~ In w pre -> sl_fromMap sl w = fromMap w;
  si_to_in : forall w, In w pre -> sl_toMap sl w = toAfter rt fromMap toMap w;
  si_to_out : forall w, ~ In w pre -> sl_toMap sl w = toMap w;
  si_loc1 : forall x, location (sl_ml sl) x = REG_NA \/ location (sl_ml sl) x = RegR x;
  si_loc2 : forall x, location (sl_ml sl) x = RegR x <-> exists v t, RRp pre v x t;
  si_src1 : forall t, source (sl_ml sl) t = REG_NA \/ exists f, source (sl_ml sl) t = RegR f;
  si_src2 : forall t f, source (sl_ml sl) t = RegR f <-> exists v, RRp pre v f t;
  si_si : forall v f t, RRp pre v f t -> sourceIntervals (sl_ml sl) f = Some v;
  si_nodup : NoDup (targetRegsToDo (sl_ml sl));
  si_todo : forall t, In t (targetRegsToDo (sl_ml sl)) <-> exists v f, RRp pre v f t;
  si_ready : targetRegsReady (sl_ml sl) = [];
  si_emit : emitted (sl_ml sl) = scanEmit fromMap toMap pre;
  si_sti : forall w t, In w pre -> fromMap w = REG_STK -> toMap w = RegR t ->
           sl_stackToRegIntervals sl t = Some w;
  si_fsnd : NoDup (sl_targetRegsFromStack sl);
  si_fs : forall t, In t (sl_targetRegsFromStack sl) <->
          exists w, In w pre /\ fromMap w = REG_STK /\ toMap w = RegR t
}.

Lemma scan0_inv : ScanInv [] (scan0 fromMap toMap).
Proof.
  constructor; simpl.
  - intros w [].
  - reflexivity.
  - intros w [].
  - reflexivity.
  - left. reflexivity.
  - intros x. split; [discriminate|]. intros (v & t & [] & _).
  - left. reflexivity.
  - intros t f. split; [discriminate|]. intros (v & [] & _).
  - intros v f t [[] _].
  - constructor.
  - intros t. split; [tauto|]. intros (v & f & [] & _).
  - reflexivity.
  - reflexivity.
  - intros w t [].
  - constructor.
  - intros t. split; [tauto|]. intros (w & [] & _).
Qed.

Lemma RRp_app pre w v f t :
  RRp (pre ++ [w]) v f t <-> RRp pre v f t \/ (v = w /\ fromMap w = RegR f /\ toMap w = RegR t /\ f <> t).
Proof.
  unfold RRp. rewrite in_app_iff. simpl. split.
  - intros ([H|[<-|[]]] & H2 & H3 & H4); auto.
  - intros [(H1 & H2 & H3 & H4)|(-> & H2 & H3 & H4)]; auto 6.
Qed.

Lemma RRp_app_same pre w v f t :
  (forall f' t', fromMap w = RegR f' -> toMap w = RegR t' -> f' = t') ->
  RRp (pre ++ [w]) v f t <-> RRp pre v f t.
Proof.
  intros Hw. rewrite RRp_app. split; [|auto].
  intros [H|(-> & H2 & H3 & H4)]; auto. exfalso. exact (H4 (Hw _ _ H2 H3)).
Qed.

Lemma fromAfter_same w : fromMap w = toMap w ->
  fromAfter rt fromMap toMap w = fromMap w /\ toAfter rt fromMap toMap w = toMap w.
Proof. intro E. unfold fromAfter, toAfter. destruct rt; auto. Qed.

Lemma scanEmit_app l1 l2 :
  scanEmit fromMap toMap (l1 ++ l2) = scanEmit fromMap toMap l1 ++ scanEmit fromMap toMap l2.
Proof. unfold scanEmit. apply flat_map_app. Qed.

Lemma maps_step pre w sl : ~ In w pre -> ScanInv pre sl ->
  let fm := match rt with
            | ResolveJoin | ResolveSharedCritical => setVarReg (sl_fromMap sl) w (toMap w)
            | _ => sl_fromMap sl end in
  let tm := match rt with
            | ResolveSplit => setVarReg (sl_toMap sl) w (fromMap w)
            | _ => sl_toMap sl end in
  (forall x, In x (pre ++ [w]) -> fm x = fromAfter rt fromMap toMap x) /\
  (forall x, ~ In x (pre ++ [w]) -> fm x = fromMap x) /\
  (forall x, In x (pre ++ [w]) -> tm x = toAfter rt fromMap toMap x) /\
  (forall x, ~ In x (pre ++ [w]) -> tm x = toMap x).
Proof.
  intros Hw I fm tm. unfold fm, tm, fromAfter, toAfter, setVarReg.
  refine (conj _ (conj _ (conj _ _))); intros x Hx; rewrite in_app_iff in Hx; simpl in Hx.
  - destruct (Nat.eq_dec x w) as [->|Hxw].
    + destruct rt; cbv beta; rewrite ?Nat.eqb_refl; auto; apply (si_from_out _ _ I w Hw).
    + assert (In x pre) by (destruct Hx as [H|[H|[]]]; [exact H|congruence]). pose proof (si_from_in _ _ I x H) as E. unfold fromAfter in E.
      apply Nat.eqb_neq in Hxw. destruct rt; cbv beta; rewrite ?Hxw; exact E.
  - assert (Hxw : x <> w) by (intros ->; apply Hx; right; left; reflexivity). assert (~ In x pre) by tauto.
    apply Nat.eqb_neq in Hxw. destruct rt; cbv beta; rewrite ?Hxw; apply (si_from_out _ _ I x H).
  - destruct (Nat.eq_dec x w) as [->|Hxw].
    + destruct rt; cbv beta; rewrite ?Nat.eqb_refl; auto; apply (si_to_out _ _ I w Hw).
    + assert (In x pre) by (destruct Hx as [H|[H|[]]]; [exact H|congruence]). pose proof (si_to_in _ _ I x H) as E. unfold toAfter in E.
      apply Nat.eqb_neq in Hxw. destruct rt; cbv beta; rewrite ?Hxw; exact E.
  - assert (Hxw : x <> w) by (intros ->; apply Hx; right; left; reflexivity). assert (~ In x pre) by tauto.
    apply Nat.eqb_neq in Hxw. destruct rt; cbv beta; rewrite ?Hxw; apply (si_to_out _ _ I x H).
Qed.

(** The fields of the move state for a variable that adds nothing to
    them. *)
Lemma ml_frame pre w sl ml :
  (forall f t, fromMap w = RegR f -> toMap w = RegR t -> f = t) ->
  ScanInv pre sl -> location ml = location (sl_ml sl) -> source ml = source (sl_ml sl) ->
  sourceIntervals ml = sourceIntervals (sl_ml sl) ->
  targetRegsToDo ml = targetRegsToDo (sl_ml sl) -> targetRegsReady ml = targetRegsReady (sl_ml sl) ->
  (forall x, location ml x = REG_NA \/ location ml x = RegR x) /\
  (forall x, location ml x = RegR x <-> exists v t, RRp (pre ++ [w]) v x t) /\
  (forall t, source ml t = REG_NA \/ exists f, source ml t = RegR f) /\
  (forall t f, source ml t = RegR f <-> exists v, RRp (pre ++ [w]) v f t) /\
  (forall v f t, RRp (pre ++ [w]) v f t -> sourceIntervals ml f = Some v) /\
  NoDup (targetRegsToDo ml) /\
  (forall t, In t (targetRegsToDo ml) <-> exists v f, RRp (pre ++ [w]) v f t) /\
  targetRegsReady ml = [].
Proof.
  intros Hs I E1 E2 E3 E4 E5. rewrite E1, E2, E3, E4, E5.
  pose proof (fun v f t => RRp_app_same pre w v f t Hs) as R.
  refine (conj (si_loc1 _ _ I) (conj _ (conj (si_src1 _ _ I) (conj _ (conj _ (conj (si_nodup _ _ I) (conj _ (si_ready _ _ I)))))))).
  - intro x. rewrite (si_loc2 _ _ I). split; intros (v & t & H); exists v, t; apply R; exact H.
  - intros t f. rewrite (si_src2 _ _ I). split; intros (v & H); exists v; apply R; exact H.
  - intros v f t H. apply R in H. exact (si_si _ _ I _ _ _ H).
  - intro t. rewrite (si_todo _ _ I). split; intros (v & f & H); exists v, f; apply R; exact H.
Qed.

Lemma scan_step pre w sl : incl (pre ++ [w]) live -> NoDup (pre ++ [w]) -> ScanInv pre sl ->
  ScanInv (pre ++ [w]) (scanVar rt sl w).
Proof.
  intros Hinc Hnd I.
  assert (Hwn : ~ In w pre) by (pose proof (NoDup_remove_2 pre [] w Hnd) as H; rewrite app_nil_r in H; exact H).
  assert (Hw : In w live) by (apply Hinc; apply in_app_iff; right; left; reflexivity).
  assert (Hpl : forall x, In x pre -> In x live) by (intros x Hx; apply Hinc; apply in_app_iff; left; exact Hx).
  assert (Ffrom : forall f, fromMap w = RegR f -> forall v t, ~ RRp pre v f t).
  { intros f Ef v t (H1 & H2 & _). apply Hwn. rewrite <- (Hfinj v w f (Hpl v H1) Hw H2 Ef). exact H1. }
  assert (Fto : forall t, toMap w = RegR t -> forall w', In w' pre -> toMap w' <> RegR t).
  { intros t Et w' H1 H2. apply Hwn. rewrite <- (Htinj w' w t (Hpl _ H1) Hw H2 Et). exact H1. }
  assert (Hin : forall x, In x (pre ++ [w]) -> In x pre \/ x = w).
  { intros x Hx. apply in_app_iff in Hx. destruct Hx as [H|[H|[]]]; auto. }
  assert (Hout : forall x, ~ In x (pre ++ [w]) -> ~ In x pre).
  { intros x Hx H. apply Hx. apply in_app_iff. auto. }
  assert (Hwin : In w (pre ++ [w])) by (apply in_app_iff; right; left; reflexivity).
  assert (Hpin : forall x, In x pre -> In x (pre ++ [w])) by (intros x Hx; apply in_app_iff; left; exact Hx).
  pose proof (maps_step pre w sl Hwn I) as (M1 & M2 & M3 & M4).
  unfold scanVar, getVarReg. cbv zeta.
  rewrite (si_from_out _ _ I w Hwn), (si_to_out _ _ I w Hwn).
  destruct (Hna w Hw) as [Ha Hb].
  destruct (Loc_eqb (fromMap w) (toMap w)) eqn:Eab.
  - (* already in place *)
    apply Loc_eqb_spec in Eab.
    destruct (fromAfter_same w Eab) as [FA TA].
    assert (Hs : forall f t, fromMap w = RegR f -> toMap w = RegR t -> f = t) by (intros f t E1 E2; congruence).
    destruct (ml_frame pre w sl (sl_ml sl) Hs I eq_refl eq_refl eq_refl eq_refl eq_refl)
      as (L1 & L2 & S1 & S2 & SI & ND & TD & RD).
    assert (Ew : scanEmit fromMap toMap [w] = [])
      by (unfold scanEmit; simpl; rewrite Eab; destruct (toMap w); reflexivity).
    constructor; auto.
    + intros x Hx. destruct (Hin x Hx) as [H| ->]; [exact (si_from_in _ _ I x H)|].
      rewrite FA. exact (si_from_out _ _ I _ Hwn).
    + intros x Hx. exact (si_from_out _ _ I x (Hout x Hx)).
    + intros x Hx. destruct (Hin x Hx) as [H| ->]; [exact (si_to_in _ _ I x H)|].
      rewrite TA. exact (si_to_out _ _ I _ Hwn).
    + intros x Hx. exact (si_to_out _ _ I x (Hout x Hx)).
    + rewrite scanEmit_app, Ew, app_nil_r. exact (si_emit _ _ I).
    + intros w' t Hw' E1 E2. destruct (Hin w' Hw') as [H| ->]; [exact (si_sti _ _ I w' t H E1 E2)|congruence].
    + exact (si_fsnd _ _ I).
    + intro t. rewrite (si_fs _ _ I). split; intros (w' & H1 & H2 & H3).
      * exists w'. auto.
      * exists w'. destruct (Hin w' H1) as [H| ->]; [auto|congruence].
  - assert (Hab : fromMap w <> toMap w) by (intro E; rewrite E, Loc_eqb_refl in Eab; discriminate).
    destruct (fromMap w) as [| |f] eqn:Ea; [contradiction| |];
      destruct (toMap w) as [| |t] eqn:Eb; try contradiction; rewrite ?Ea, ?Eb in M1, M2, M3, M4.
    + (* a load from the stack *)
      assert (Hs : forall f t, fromMap w = RegR f -> toMap w = RegR t -> f = t) by (intros f t' E1 E2; congruence).
      destruct (ml_frame pre w sl (sl_ml sl) Hs I eq_refl eq_refl eq_refl eq_refl eq_refl)
        as (L1 & L2 & S1 & S2 & SI & ND & TD & RD).
      assert (Ew : scanEmit fromMap toMap [w] = []) by (unfold scanEmit; simpl; rewrite Ea; reflexivity).
      constructor; simpl; auto.
      * rewrite scanEmit_app, Ew, app_nil_r. exact (si_emit _ _ I).
      * intros w' t' Hw' E1 E2. destruct (Hin w' Hw') as [H| ->].
        -- assert (t' <> t) by (intros ->; exact (Fto t eq_refl w' H E2)).
           rewrite updr_other by auto. exact (si_sti _ _ I w' t' H E1 E2).
        -- rewrite Eb in E2. inversion E2. apply updr_same.
      * apply NoDup_maskSet. exact (si_fsnd _ _ I).
      * intro t'. rewrite In_maskSet, (si_fs _ _ I). split.
        -- intros [->|(w' & H1 & H2 & H3)]; [exists w; auto|exists w'; auto].
        -- intros (w' & H1 & H2 & H3). destruct (Hin w' H1) as [H| ->]; [right; exists w'; auto|].
           left. rewrite Eb in H3. inversion H3. reflexivity.
    + (* a store to the stack *)
      assert (Hs : forall f t, fromMap w = RegR f -> toMap w = RegR t -> f = t) by (intros f' t' E1 E2; congruence).
      destruct (ml_frame pre w sl (ml_emit (sl_ml sl) (addResolution w REG_STK (RegR f))) Hs I
                  eq_refl eq_refl eq_refl eq_refl eq_refl)
        as (L1 & L2 & S1 & S2 & SI & ND & TD & RD).
      assert (Ew : scanEmit fromMap toMap [w] = [addResolution w REG_STK (RegR f)])
        by (unfold scanEmit; simpl; rewrite Ea, Eb; reflexivity).
      constructor; simpl; auto.
      * rewrite scanEmit_app, Ew, (si_emit _ _ I). reflexivity.
      * intros w' t' Hw' E1 E2. destruct (Hin w' Hw') as [H| ->]; [exact (si_sti _ _ I w' t' H E1 E2)|congruence].
      * exact (si_fsnd _ _ I).
      * intro t'. rewrite (si_fs _ _ I). split; intros (w' & H1 & H2 & H3).
        -- exists w'. auto.
        -- exists w'. destruct (Hin w' H1) as [H| ->]; [auto|congruence].
    + (* a register to register move *)
      assert (Hft : f <> t) by congruence.
      assert (Ew : scanEmit fromMap toMap [w] = []) by (unfold scanEmit; simpl; rewrite Ea, Eb; reflexivity).
      assert (Hnew : forall v f' t', RRp (pre ++ [w]) v f' t' <-> RRp pre v f' t' \/ (v = w /\ f' = f /\ t' = t)).
      { intros v f' t'. rewrite RRp_app, Ea, Eb. split.
        - intros [H|(-> & E1 & E2 & _)]; [auto|inversion E1; inversion E2; auto].
        - intros [H|(-> & -> & ->)]; auto. }
      assert (Ff := Ffrom f eq_refl).
      assert (Ft : forall v f', ~ RRp pre v f' t) by (intros v f' (H1 & _ & H3 & _); exact (Fto t eq_refl v H1 H3)).
      constructor; simpl; auto.
      * intro x. destruct (Nat.eq_dec x f) as [->|Hx]; [rewrite updr_same; auto|].
        rewrite updr_other by auto. exact (si_loc1 _ _ I x).
      * intro x. destruct (Nat.eq_dec x f) as [->|Hx].
        -- rewrite updr_same. split; [intros _; exists w, t; apply Hnew; auto|reflexivity].
        -- rewrite updr_other by auto. rewrite (si_loc2 _ _ I).
           split; intros (v & t' & H); exists v, t'; [apply Hnew; auto|].
           apply Hnew in H. destruct H as [H|(_ & E & _)]; [exact H|congruence].
      * intro t'. destruct (Nat.eq_dec t' t) as [->|Ht]; [rewrite updr_same; eauto|].
        rewrite updr_other by auto. exact (si_src1 _ _ I t').
      * intros t' f'. destruct (Nat.eq_dec t' t) as [->|Ht].
        -- rewrite updr_same. split.
           ++ intro E. inversion E. subst f'. exists w. apply Hnew. auto.
           ++ intros (v & H). apply Hnew in H. destruct H as [H|(_ & -> & _)]; [exfalso; exact (Ft _ _ H)|reflexivity].
        -- rewrite updr_other by auto. rewrite (si_src2 _ _ I).
           split; intros (v & H); exists v; [apply Hnew; auto|].
           apply Hnew in H. destruct H as [H|(_ & _ & E)]; [exact H|congruence].
      * intros v f' t' H. apply Hnew in H. destruct H as [H|(-> & -> & ->)]; [|apply updr_same].
        assert (f' <> f) by (intros ->; exact (Ff _ _ H)).
        rewrite updr_other by auto. exact (si_si _ _ I _ _ _ H).
      * apply NoDup_maskSet. exact (si_nodup _ _ I).
      * intro t'. rewrite In_maskSet, (si_todo _ _ I). split.
        -- intros [->|(v & f' & H)]; [exists w, f; apply Hnew; auto|exists v, f'; apply Hnew; auto].
        -- intros (v & f' & H). apply Hnew in H. destruct H as [H|(_ & _ & ->)]; [right; eauto|left; reflexivity].
      * exact (si_ready _ _ I).
      * rewrite scanEmit_app, Ew, app_nil_r. exact (si_emit _ _ I).
      * intros w' t' Hw' E1 E2. destruct (Hin w' Hw') as [H| ->]; [exact (si_sti _ _ I w' t' H E1 E2)|congruence].
      * exact (si_fsnd _ _ I).
      * intro t'. rewrite (si_fs _ _ I). split; intros (w' & H1 & H2 & H3).
        -- exists w'. auto.
        -- exists w'. destruct (Hin w' H1) as [H| ->]; [auto|congruence].
Qed.

Lemma scan_inv pre : incl pre live -> NoDup pre ->
  ScanInv pre (fold_left (scanVar rt) pre (scan0 fromMap toMap)).
Proof.
  induction pre as [|w pre IH] using rev_ind; intros Hinc Hnd.
  - exact scan0_inv.
  - rewrite fold_left_app. simpl. apply scan_step; auto.
    apply IH.
    + intros x Hx. apply Hinc. apply in_app_iff. auto.
    + apply NoDup_app_remove_r in Hnd. exact Hnd.
Qed.

End Scan.

Lemma initReady_aux l : forall ml,
  let ml' := fold_left (fun ml0 targetReg =>
               if Loc_eqb (location ml0 targetReg) REG_NA
               then ml_setReady ml0 (maskSet targetReg (targetRegsReady ml0))
               else ml0) l ml in
  location ml' = location ml /\ source ml' = source ml /\
  sourceIntervals ml' = sourceIntervals ml /\ targetRegsToDo ml' = targetRegsToDo ml /\
  emitted ml' = emitted ml /\
  (forall x, In x (targetRegsReady ml') <->
             In x (targetRegsReady ml) \/ (In x l /\ location ml x = REG_NA)).
Proof.
  induction l as [|a l IH]; intros ml ml'; simpl in ml'.
  - subst ml'. repeat split; auto. intros [H|([] & _)]. exact H.
  - destruct (Loc_eqb (location ml a) REG_NA) eqn:E.
    + destruct (IH (ml_setReady ml (maskSet a (targetRegsReady ml)))) as (A & B & C & D & F & G).
      fold ml' in A, B, C, D, F, G. simpl in A, B, C, D, F, G.
      refine (conj A (conj B (conj C (conj D (conj F _))))).
      intro x. rewrite G, In_maskSet. apply Loc_eqb_spec in E. simpl.
      split; [intros [[->|H]|(H1 & H2)]; auto|intros [H|([->|H1] & H2)]; auto].
    + destruct (IH ml) as (A & B & C & D & F & G). fold ml' in A, B, C, D, F, G.
      refine (conj A (conj B (conj C (conj D (conj F _))))).
      intro x. rewrite G. simpl. split; [intros [H|(H1 & H2)]; auto|].
      intros [H|([->|H1] & H2)]; auto. rewrite H2 in E. discriminate.
Qed.

Lemma initReady_spec ml :
  location (initReady ml) = location ml /\ source (initReady ml) = source ml /\
  sourceIntervals (initReady ml) = sourceIntervals ml /\
  targetRegsToDo (initReady ml) = targetRegsToDo ml /\ emitted (initReady ml) = emitted ml /\
  (forall x, In x (targetRegsReady (initReady ml)) <->
             In x (targetRegsReady ml) \/ (In x (targetRegsToDo ml) /\ location ml x = REG_NA)).
Proof. exact (initReady_aux (targetRegsToDo ml) ml). Qed.

(** The load of the last loop for the target register [t]. *)
Definition loadOf (sti : nat -> option nat) (t : regNumber) : ResolutionMove :=
  addResolution (match sti t with Some w => w | None => 0 end) (RegR t) REG_STK.

Lemma stackLoads_ok sti fs : (forall t, In t fs -> sti t <> None) ->
  stackLoads sti fs = Some (map (loadOf sti) fs).
Proof.
  induction fs as [|t fs IH]; intro H; [reflexivity|].
  simpl. rewrite IH by (intros x Hx; apply H; right; exact Hx).
  unfold loadOf. destruct (sti t) eqn:E; [reflexivity|]. exfalso. apply (H t); auto. left. reflexivity.
Qed.

Lemma execMoves_loads sti fs : forall M,
  (forall r, execMoves M (map (loadOf sti) fs) (MReg r) =
             if existsb (Nat.eqb r) fs then M (MHome (match sti r with Some w => w | None => 0 end))
             else M (MReg r)) /\
  (forall h, execMoves M (map (loadOf sti) fs) (MHome h) = M (MHome h)).
Proof.
  induction fs as [|t fs IH]; intro M; [split; reflexivity|].
  destruct (IH (execMove M (loadOf sti t))) as [IH1 IH2].
  split.
  - intro r. simpl. rewrite IH1. unfold loadOf. simpl. unfold writeM, readM, mloc. simpl.
    destruct (Nat.eqb r t) eqn:E; simpl.
    + apply Nat.eqb_eq in E. subst r.
      destruct (existsb (Nat.eqb t) fs); reflexivity.
    + destruct (existsb (Nat.eqb r) fs); reflexivity.
  - intro h. simpl. rewrite IH2. reflexivity.
Qed.

Lemma execMoves_scanEmit_reg fromMap toMap l : forall M r,
  execMoves M (scanEmit fromMap toMap l) (MReg r) = M (MReg r).
Proof.
  induction l as [|a l IH]; intros M r; [reflexivity|].
  change (a :: l) with ([a] ++ l). rewrite scanEmit_app, execMoves_app, IH. unfold scanEmit. simpl.
  destruct (fromMap a), (toMap a); reflexivity.
Qed.


Lemma execMoves_scanEmit_home_out fromMap toMap l : forall M h,
  (forall f, In h l -> fromMap h = RegR f -> toMap h = REG_STK -> False) ->
  execMoves M (scanEmit fromMap toMap l) (MHome h) = M (MHome h).
Proof.
  induction l as [|a l IH]; intros M h H; [reflexivity|].
  change (a :: l) with ([a] ++ l). rewrite scanEmit_app, execMoves_app, IH
    by (intros f Hl; apply H; right; exact Hl).
  unfold scanEmit. simpl. destruct (fromMap a) as [| |f] eqn:Ea, (toMap a) eqn:Eb; try reflexivity.
  simpl. unfold writeM, mloc. simpl. destruct (Nat.eqb h a) eqn:E; [|reflexivity].
  apply Nat.eqb_eq in E. subst a. exfalso. apply (H f); auto. left. reflexivity.
Qed.

Lemma execMoves_scanEmit_home_in fromMap toMap l : forall M h f,
  In h l -> fromMap h = RegR f -> toMap h = REG_STK ->
  execMoves M (scanEmit fromMap toMap l) (MHome h) = M (MReg f).
Proof.
  induction l as [|a l IH]; intros M h f Hin Ef Et; [destruct Hin|].
  change (a :: l) with ([a] ++ l). rewrite scanEmit_app, execMoves_app.
  destruct (in_dec Nat.eq_dec h l) as [Hl|Hl].
  - rewrite (IH _ h f Hl Ef Et). apply execMoves_scanEmit_reg.
  - destruct Hin as [<-|Hin]; [|contradiction].
    rewrite execMoves_scanEmit_home_out by (intros f' Hl'; contradiction).
    unfold scanEmit. simpl. rewrite Ef, Et. simpl. unfold writeM, readM, mloc. simpl.
    rewrite Nat.eqb_refl. reflexivity.
Qed.

(** The scratch register [getTempRegForResolution] picks is in [allRegs]
    and is not the register of any variable of [toLiveIn], on either
    side of the edge. *)
Lemma getTemp_fold fromMap toMap l : forall acc x,
  In x (fold_left (fun freeRegs varIndex =>
                     let free1 := match getVarReg fromMap varIndex with
                                  | RegR r => maskClear r freeRegs
                                  | _ => freeRegs
                                  end in
                     match getVarReg toMap varIndex with
                     | RegR r => maskClear r free1
                     | _ => free1
                     end) l acc) ->
  In x acc /\ forall v, In v l -> fromMap v <> RegR x /\ toMap v <> RegR x.
Proof.
  induction l as [|a l IH]; intros acc x H; simpl in H.
  - split; [exact H|]. intros v [].
  - destruct (IH _ _ H) as [H1 H2]. unfold getVarReg in H1.
    assert (K : In x acc /\ fromMap a <> RegR x /\ toMap a <> RegR x).
    { destruct (fromMap a) as [| |r1] eqn:E1, (toMap a) as [| |r2] eqn:E2;
        repeat rewrite In_maskClear_iff in H1; intuition congruence. }
    destruct K as (K1 & K2 & K3). split; [exact K1|].
    intros v [<-|Hv]; [auto|exact (H2 v Hv)].
Qed.

Lemma getTempRegForResolution_free allRegs fromMap toMap toLiveIn r :
  getTempRegForResolution allRegs fromMap toMap toLiveIn = RegR r ->
  In r allRegs /\ forall v, In v toLiveIn -> fromMap v <> RegR r /\ toMap v <> RegR r.
Proof.
  unfold getTempRegForResolution. cbv zeta.
  destruct (genFindLowestBit _) as [x|] eqn:E; intro H; inversion H; subst x.
  apply genFindLowestBit_In in E. exact (getTemp_fold _ _ _ _ _ E).
Qed.

Lemma getTempRegForResolution_cases allRegs fromMap toMap toLiveIn :
  getTempRegForResolution allRegs fromMap toMap toLiveIn = REG_NA \/
  exists r, getTempRegForResolution allRegs fromMap toMap toLiveIn = RegR r.
Proof.
  unfold getTempRegForResolution. destruct (genFindLowestBit _); eauto.
Qed.

(** The state the loop over [targetRegsToDo] starts from satisfies the
    invariant, over the machine after the stores to the stack. *)
Lemma initial_inv isXarch isFloatReg rt liveSet fromMap toMap tmpI tmpF M0 :
  NoDup liveSet ->
  (forall v, In v liveSet -> fromMap v <> REG_NA /\ toMap v <> REG_NA) ->
  (forall v w r, In v liveSet -> In w liveSet -> fromMap v = RegR r -> fromMap w = RegR r -> v = w) ->
  (forall v w r, In v liveSet -> In w liveSet -> toMap v = RegR r -> toMap w = RegR r -> v = w) ->
  (forall v, In v liveSet -> readM M0 v (fromMap v) = Some v) ->
  Inv isXarch isFloatReg liveSet fromMap toMap tmpI tmpF
      (initReady (sl_ml (fold_left (scanVar rt) liveSet (scan0 fromMap toMap))))
      (execMoves M0 (scanEmit fromMap toMap liveSet)).
Proof.
  intros Hnd Hna Hfinj Htinj H0.
  pose proof (scan_inv rt fromMap toMap liveSet Hna Hfinj Htinj liveSet (incl_refl _) Hnd) as SI.
  set (sl := fold_left (scanVar rt) liveSet (scan0 fromMap toMap)) in *.
  clearbody sl.
  destruct (initReady_spec (sl_ml sl)) as (A & B & C & D & _ & G).
  set (ml := initReady (sl_ml sl)) in *. clearbody ml.
  set (M1 := execMoves M0 (scanEmit fromMap toMap liveSet)).
  assert (HM1 : forall r, M1 (MReg r) = M0 (MReg r)) by (intro r; apply execMoves_scanEmit_reg).
  assert (Hready : forall x, In x (targetRegsReady ml) <->
                   In x (targetRegsToDo (sl_ml sl)) /\ location (sl_ml sl) x = REG_NA).
  { intro x. rewrite G, (si_ready _ _ _ _ _ SI). simpl. tauto. }
  assert (Hlocf : forall v f t, RR liveSet fromMap toMap v f t -> location ml f = RegR f).
  { intros v f t H. rewrite A. apply (si_loc2 _ _ _ _ _ SI). exists v, t. exact H. }
  assert (Htodo : forall v f t, RR liveSet fromMap toMap v f t -> In t (targetRegsToDo ml)).
  { intros v f t H. rewrite D. apply (si_todo _ _ _ _ _ SI). exists v, f. exact H. }
  constructor.
  - intros t f. rewrite B. exact (si_src2 _ _ _ _ _ SI t f).
  - intro t. rewrite B. exact (si_src1 _ _ _ _ _ SI t).
  - rewrite D. exact (si_nodup _ _ _ _ _ SI).
  - intros t Ht. rewrite D in Ht. exact (proj1 (si_todo _ _ _ _ _ SI t) Ht).
  - intros x Hx. apply Hready in Hx. rewrite D. apply Hx.
  - intros v f t [P _]. split.
    + rewrite C. exact (si_si _ _ _ _ _ SI v f t P).
    + rewrite (Hlocf _ _ _ P), readM_reg. unfold M1. rewrite HM1.
      destruct P as (Hv & Ef & _). rewrite <- (H0 v Hv), Ef. reflexivity.
  - intros v f t P Hn. exfalso. exact (Hn (Htodo _ _ _ P)).
  - intros x Hx (v & f & t & [P _] & Lf). apply Hready in Hx. destruct Hx as [_ Lx].
    rewrite (Hlocf _ _ _ P) in Lf. inversion Lf. subst x. rewrite <- A, (Hlocf _ _ _ P) in Lx. discriminate.
  - intros x Hx Hn. rewrite D in Hx.
    assert (Lx : location (sl_ml sl) x = RegR x).
    { destruct (si_loc1 _ _ _ _ _ SI x) as [E|E]; [|exact E]. exfalso. apply Hn. apply Hready. auto. }
    destruct (proj1 (si_loc2 _ _ _ _ _ SI x) Lx) as (v & t & P).
    exists v, x, t. split; [split; [exact P|exact (Htodo _ _ _ P)]|]. rewrite A. exact Lx.
  - intros v f t x [P _] Lf Hx. rewrite (Hlocf _ _ _ P) in Lf. inversion Lf. congruence.
  - intros w Hw Hnr. split.
    + intros r E1 E2. unfold M1. rewrite HM1. rewrite <- (H0 w Hw), E1. reflexivity.
    + intro H. destruct (fromMap w) as [| |f] eqn:Ef.
      * exfalso. exact (proj1 (Hna w Hw) Ef).
      * unfold M1. rewrite execMoves_scanEmit_home_out by (intros f' _ E; congruence).
        rewrite <- (H0 w Hw), Ef. reflexivity.
      * destruct H as [H|H]; [discriminate|].
        unfold M1. rewrite (execMoves_scanEmit_home_in _ _ _ _ _ f Hw Ef H).
        rewrite <- (H0 w Hw), Ef. reflexivity.
Qed.

Lemma In_writtenRegs r l : In r (writtenRegs l) <-> exists mv, In mv l /\ In r (writtenRegs [mv]).
Proof.
  unfold writtenRegs. rewrite in_flat_map.
  split; intros (mv & H1 & H2); exists mv; split; auto; simpl in *; rewrite ?app_nil_r in *; exact H2.
Qed.

Lemma scanEmit_shape fromMap toMap l :
  Forall (fun mv => exists w f, mv = addResolution w REG_STK (RegR f) /\ In w l /\
                                fromMap w = RegR f /\ toMap w = REG_STK)
         (scanEmit fromMap toMap l).
Proof.
  apply Forall_forall. intros mv H. unfold scanEmit in H. apply in_flat_map in H.
  destruct H as (w & Hw & H).
  destruct (fromMap w) as [| |f] eqn:E1, (toMap w) eqn:E2; simpl in H; try contradiction.
  destruct H as [<-|[]]. exists w, f. auto.
Qed.

(** C2: on an edge whose variables sit in a register or on the stack on
    both sides, no two in one register on one side, each moving within a
    register class, [resolveEdge] succeeds and emits the stores to the
    stack first, then the register moves, then the loads from the stack.
    Run from a machine holding every variable in its from location, the
    code leaves every variable in its to location. Apart from the target
    registers of the variables, it writes only the two scratch registers
    [tI] (integer) and [tF] (floating point), each of them [REG_NA] or a
    register of its class that no variable live into the to block
    occupies. On x86/x64 and on shared critical edges there is no integer
    scratch register, and on shared critical edges no floating-point one.
    The register moves ([moveOK]) write only target registers of
    register-to-register variables or scratch registers, and touch the
    stack only at the home of such a variable. *)
Theorem resolveEdge_value_preserving isXarch isFloatReg allRegsInt allRegsFlt fpUsed rt
    fromMap toMap toLiveIn liveSet M0 :
  NoDup liveSet -> incl liveSet toLiveIn ->
  (forall v, In v liveSet -> fromMap v <> REG_NA /\ toMap v <> REG_NA) ->
  (forall v w r, In v liveSet -> In w liveSet -> fromMap v = RegR r -> fromMap w = RegR r -> v = w) ->
  (forall v w r, In v liveSet -> In w liveSet -> toMap v = RegR r -> toMap w = RegR r -> v = w) ->
  (forall v f t, In v liveSet -> fromMap v = RegR f -> toMap v = RegR t ->
                 isFloatReg f = isFloatReg t) ->
  (forall v, In v liveSet -> readM M0 v (fromMap v) = Some v) ->
  exists fm tm stores mid loads tI tF,
    resolveEdge isXarch isFloatReg allRegsInt allRegsFlt fpUsed rt fromMap toMap toLiveIn liveSet
      = Some (fm, tm, stores ++ mid ++ loads) /\
    (forall v, In v liveSet -> readM (execMoves M0 (stores ++ mid ++ loads)) v (toMap v) = Some v) /\
    (forall r, In r (writtenRegs (stores ++ mid ++ loads)) ->
       (exists v, In v liveSet /\ toMap v = RegR r /\ fromMap v <> RegR r) \/
       tI = RegR r \/ tF = RegR r) /\
    Forall (fun mv => exists w f, mv = addResolution w REG_STK (RegR f) /\ In w liveSet /\
                                  fromMap w = RegR f /\ toMap w = REG_STK) stores /\
    Forall (moveOK liveSet fromMap toMap tI tF) mid /\
    Forall (fun mv => exists w t, mv = addResolution w (RegR t) REG_STK /\ In w liveSet /\
                                  fromMap w = REG_STK /\ toMap w = RegR t) loads /\
    (tI = REG_NA \/ exists r, tI = RegR r /\ In r allRegsInt /\
       forall v, In v toLiveIn -> fromMap v <> RegR r /\ toMap v <> RegR r) /\
    (tF = REG_NA \/ exists r, tF = RegR r /\ In r allRegsFlt /\
       forall v, In v toLiveIn -> fromMap v <> RegR r /\ toMap v <> RegR r) /\
    (isXarch = true \/ rt = ResolveSharedCritical -> tI = REG_NA) /\
    (rt = ResolveSharedCritical -> tF = REG_NA).
Proof.
  intros Hnd Hinc Hna Hfinj Htinj Hclass H0.
  set (tI := if isXarch then REG_NA else if isSharedCritical rt then REG_NA
             else getTempRegForResolution allRegsInt fromMap toMap toLiveIn).
  set (tF := if fpUsed && negb (isSharedCritical rt)
             then getTempRegForResolution allRegsFlt fromMap toMap toLiveIn else REG_NA).
  assert (HtI : tI = REG_NA \/ exists r, tI = RegR r /\ In r allRegsInt /\
            forall v, In v toLiveIn -> fromMap v <> RegR r /\ toMap v <> RegR r).
  { unfold tI. destruct isXarch; [left; reflexivity|].
    destruct (isSharedCritical rt); [left; reflexivity|].
    destruct (getTempRegForResolution_cases allRegsInt fromMap toMap toLiveIn) as [E|[r E]];
      [left; exact E|right; exists r; split; [exact E|exact (getTempRegForResolution_free _ _ _ _ _ E)]]. }
  assert (HtF : tF = REG_NA \/ exists r, tF = RegR r /\ In r allRegsFlt /\
            forall v, In v toLiveIn -> fromMap v <> RegR r /\ toMap v <> RegR r).
  { unfold tF. destruct (fpUsed && negb (isSharedCritical rt)); [|left; reflexivity].
    destruct (getTempRegForResolution_cases allRegsFlt fromMap toMap toLiveIn) as [E|[r E]];
      [left; exact E|right; exists r; split; [exact E|exact (getTempRegForResolution_free _ _ _ _ _ E)]]. }
  assert (Htmp : forall r v, (tI = RegR r \/ tF = RegR r) -> In v liveSet ->
                   fromMap v <> RegR r /\ toMap v <> RegR r).
  { intros r v [E|E] Hv.
    - destruct HtI as [E'|(r' & E' & _ & F)]; rewrite E' in E; [discriminate|].
      injection E as ->. exact (F v (Hinc v Hv)).
    - destruct HtF as [E'|(r' & E' & _ & F)]; rewrite E' in E; [discriminate|].
      injection E as ->. exact (F v (Hinc v Hv)). }
  assert (HtmpX : isXarch = true -> tI = REG_NA) by (intro X; unfold tI; rewrite X; reflexivity).
  assert (HtmpS : tI <> REG_STK /\ tF <> REG_STK).
  { split; [destruct HtI as [->|(r & -> & _)]|destruct HtF as [->|(r & -> & _)]]; discriminate. }
  pose proof (scan_inv rt fromMap toMap liveSet Hna Hfinj Htinj liveSet (incl_refl _) Hnd) as SI.
  pose proof (initial_inv isXarch isFloatReg rt liveSet fromMap toMap tI tF M0 Hnd Hna Hfinj Htinj H0) as I0.
  set (sl := fold_left (scanVar rt) liveSet (scan0 fromMap toMap)) in *.
  destruct (initReady_spec (sl_ml sl)) as (_ & _ & _ & _ & Eem & _).
  destruct (regMoves_inv isXarch isFloatReg liveSet fromMap toMap tI tF Hfinj Htinj Hclass Htmp HtmpX HtmpS
              (2 * length (targetRegsToDo (initReady (sl_ml sl))) + 1) _ _ I0
              ltac:(unfold mu; pose proof (notReady_le_length (initReady (sl_ml sl))); lia))
    as (ml' & mid & Er & Em & Ok & I' & Htd').
  set (sti := sl_stackToRegIntervals sl).
  set (fs := sl_targetRegsFromStack sl).
  assert (Hfs : forall t, In t fs -> exists w, sti t = Some w /\ In w liveSet /\
                  fromMap w = REG_STK /\ toMap w = RegR t).
  { intros t Ht. destruct (proj1 (si_fs _ _ _ _ _ SI t) Ht) as (w & Hw & E1 & E2).
    exists w. split; [exact (si_sti _ _ _ _ _ SI w t Hw E1 E2)|auto]. }
  assert (Eload : stackLoads sti fs = Some (map (loadOf sti) fs)).
  { apply stackLoads_ok. intros t Ht. destruct (Hfs t Ht) as (w & E & _). rewrite E. discriminate. }
  assert (Hst : Forall (fun mv => exists w f, mv = addResolution w REG_STK (RegR f) /\ In w liveSet /\
                          fromMap w = RegR f /\ toMap w = REG_STK) (scanEmit fromMap toMap liveSet))
    by apply scanEmit_shape.
  assert (Hld : Forall (fun mv => exists w t, mv = addResolution w (RegR t) REG_STK /\ In w liveSet /\
                          fromMap w = REG_STK /\ toMap w = RegR t) (map (loadOf sti) fs)).
  { apply Forall_forall. intros mv Hm. apply in_map_iff in Hm. destruct Hm as (t & <- & Ht).
    destruct (Hfs t Ht) as (w & Es & Hw & E1 & E2). exists w, t. unfold loadOf. rewrite Es. auto. }
  exists (sl_fromMap sl), (sl_toMap sl), (scanEmit fromMap toMap liveSet), mid, (map (loadOf sti) fs), tI, tF.
  refine (conj _ (conj _ (conj _ (conj Hst (conj Ok (conj Hld (conj HtI (conj HtF (conj _ _))))))))).
  - change (match regMoves isXarch isFloatReg tI tF (2 * length (targetRegsToDo (initReady (sl_ml sl))) + 1)
                   (initReady (sl_ml sl)) with
            | None => None
            | Some ml' =>
                match stackLoads sti fs with
                | None => None
                | Some loads => Some (sl_fromMap sl, sl_toMap sl, emitted ml' ++ loads)
                end
            end = Some (sl_fromMap sl, sl_toMap sl, scanEmit fromMap toMap liveSet ++ mid ++ map (loadOf sti) fs)).
    rewrite Er, Eload, Em, Eem, (si_emit _ _ _ _ _ SI), app_assoc. reflexivity.
  - intros v Hv. rewrite !execMoves_app.
    set (M2 := execMoves (execMoves M0 (scanEmit fromMap toMap liveSet)) mid) in *.
    destruct (execMoves_loads sti fs M2) as [L1 L2].
    pose proof (inv_done _ _ _ _ _ _ _ _ _ I') as Idone.
    pose proof (inv_other _ _ _ _ _ _ _ _ _ I') as Io.
    destruct (toMap v) as [| |t] eqn:Et.
    + exfalso. exact (proj2 (Hna v Hv) Et).
    + unfold readM, mloc. rewrite L2. apply (proj2 (Io v Hv ltac:(intros f t (_ & _ & E & _); congruence))).
      right. exact Et.
    + unfold readM, mloc. rewrite L1. destruct (existsb (Nat.eqb t) fs) eqn:Ex.
      * apply existsb_eqb_In in Ex. destruct (Hfs t Ex) as (w & Es & Hw & Ewf & Ewt).
        assert (w = v) by exact (Htinj w v t Hw Hv Ewt Et). subst w. rewrite Es.
        apply (proj2 (Io v Hv ltac:(intros f t' (_ & E & _); congruence))). left. exact Ewf.
      * destruct (fromMap v) as [| |f] eqn:Ef.
        -- exfalso. exact (proj1 (Hna v Hv) Ef).
        -- exfalso. assert (Hin : In t fs) by (apply (si_fs _ _ _ _ _ SI); exists v; auto).
           apply existsb_eqb_In in Hin. congruence.
        -- destruct (Nat.eq_dec f t) as [<-|Hft].
           ++ apply (proj1 (Io v Hv ltac:(intros f' t' (_ & E1 & E2 & N); congruence))); auto.
           ++ apply (Idone v f t); [exact (conj Hv (conj Ef (conj Et Hft)))|rewrite Htd'; intros []].
  - intros r Hr. apply In_writtenRegs in Hr. destruct Hr as (mv & Hm & Hr).
    apply in_app_or in Hm. destruct Hm as [Hm|Hm]; [|apply in_app_or in Hm; destruct Hm as [Hm|Hm]].
    + destruct (proj1 (Forall_forall _ _) Hst mv Hm) as (w & f & -> & _). destruct Hr.
    + destruct (proj1 (proj1 (Forall_forall _ _) Ok mv Hm) r Hr) as [(w & f & Hw & Ef & Et & N)|T].
      * left. exists w. split; [exact Hw|split; [exact Et|congruence]].
      * right. exact T.
    + destruct (proj1 (Forall_forall _ _) Hld mv Hm) as (w & t & -> & Hw & Ef & Et).
      destruct Hr as [<-|[]]. left. exists w. split; [exact Hw|split; [exact Et|congruence]].
  - intros [X|S]; [exact (HtmpX X)|unfold tI; rewrite S; destruct isXarch; reflexivity].
  - intro S. unfold tF. rewrite S. simpl. rewrite andb_false_r. reflexivity.
Qed.

(** Counterexample to C2 as stated: on the example edge (two two-register
    cycles, one integer and one floating-point, on a critical edge of a
    non-x86 target using floating point), the code breaks the integer
    cycle through register 2 and the floating-point one through register
    12, two scratch registers that no variable occupies on either side. *)
Lemma resolveEdge_two_scratch_regs_cex :
  exists fm tm code,
    resolveEdge false ex_isFloatReg ex_allRegsInt ex_allRegsFlt true ResolveCritical
      ex_fromMap ex_toMap ex_live ex_live = Some (fm, tm, code) /\
    In 2 (writtenRegs code) /\ In 12 (writtenRegs code) /\
    (forall v, ex_fromMap v <> RegR 2 /\ ex_toMap v <> RegR 2) /\
    (forall v, ex_fromMap v <> RegR 12 /\ ex_toMap v <> RegR 12).
Proof.
  do 3 eexists. split; [vm_compute; reflexivity|].
  split; [simpl; tauto|]. split; [simpl; tauto|].
  split; intro v; destruct v as [|[|[|[|v]]]]; split; discriminate.
Qed.

(** Witness for C2 (amended): the theorem applies to the example edge,
    from the machine holding each variable in its from register. *)
Lemma resolveEdge_value_preserving_witness :
  exists fm tm stores mid loads tI tF,
    resolveEdge false ex_isFloatReg ex_allRegsInt ex_allRegsFlt true ResolveCritical
      ex_fromMap ex_toMap ex_live ex_live = Some (fm, tm, stores ++ mid ++ loads) /\
    (forall v, In v ex_live -> readM (execMoves ex_M0 (stores ++ mid ++ loads)) v (ex_toMap v) = Some v) /\
    (forall r, In r (writtenRegs (stores ++ mid ++ loads)) ->
       (exists v, In v ex_live /\ ex_toMap v = RegR r /\ ex_fromMap v <> RegR r) \/
       tI = RegR r \/ tF = RegR r) /\
    Forall (fun mv => exists w f, mv = addResolution w REG_STK (RegR f) /\ In w ex_live /\
                                  ex_fromMap w = RegR f /\ ex_toMap w = REG_STK) stores /\
    Forall (moveOK ex_live ex_fromMap ex_toMap tI tF) mid /\
    Forall (fun mv => exists w t, mv = addResolution w (RegR t) REG_STK /\ In w ex_live /\
                                  ex_fromMap w = REG_STK /\ ex_toMap w = RegR t) loads /\
    (tI = REG_NA \/ exists r, tI = RegR r /\ In r ex_allRegsInt /\
       forall v, In v ex_live -> ex_fromMap v <> RegR r /\ ex_toMap v <> RegR r) /\
    (tF = REG_NA \/ exists r, tF = RegR r /\ In r ex_allRegsFlt /\
       forall v, In v ex_live -> ex_fromMap v <> RegR r /\ ex_toMap v <> RegR r) /\
    (false = true \/ ResolveCritical = ResolveSharedCritical -> tI = REG_NA) /\
    (ResolveCritical = ResolveSharedCritical -> tF = REG_NA).
Proof.
  apply (resolveEdge_value_preserving false ex_isFloatReg ex_allRegsInt ex_allRegsFlt true
           ResolveCritical ex_fromMap ex_toMap ex_live ex_live ex_M0).
  - repeat constructor; simpl; intuition discriminate.
  - apply incl_refl.
  - intros v Hv. simpl in Hv. destruct Hv as [<-|[<-|[<-|[<-|[]]]]]; split; discriminate.
  - intros v w r Hv Hw. simpl in Hv, Hw.
    destruct Hv as [<-|[<-|[<-|[<-|[]]]]]; destruct Hw as [<-|[<-|[<-|[<-|[]]]]];
      simpl; intros E1 E2; congruence.
  - intros v w r Hv Hw. simpl in Hv, Hw.
    destruct Hv as [<-|[<-|[<-|[<-|[]]]]]; destruct Hw as [<-|[<-|[<-|[<-|[]]]]];
      simpl; intros E1 E2; congruence.
  - intros v f t Hv. simpl in Hv.
    destruct Hv as [<-|[<-|[<-|[<-|[]]]]]; simpl; intros E1 E2;
      injection E1 as <-; injection E2 as <-; reflexivity.
  - intros v Hv. simpl in Hv. destruct Hv as [<-|[<-|[<-|[<-|[]]]]]; reflexivity.
Defined.

End EdgeResolutionFacts.


Module ResolutionPassFacts.
Import EdgeResolution ResolutionPass EdgeResolutionFacts.

(** ** The maps [resolveEdge] writes *)

Lemma scanVar_maps rt sl w x :
  sl_fromMap (scanVar rt sl w) x =
    (if Nat.eqb x w then fromAfter rt (sl_fromMap sl) (sl_toMap sl) w else sl_fromMap sl x) /\
  sl_toMap (scanVar rt sl w) x =
    (if Nat.eqb x w then toAfter rt (sl_fromMap sl) (sl_toMap sl) w else sl_toMap sl x).
Proof.
  unfold scanVar, getVarReg, fromAfter, toAfter.
  destruct (Nat.eqb x w) eqn:Ex; [apply Nat.eqb_eq in Ex; subst x|].
  - destruct (Loc_eqb (sl_fromMap sl w) (sl_toMap sl w)) eqn:E.
    + apply Loc_eqb_spec in E. rewrite E. destruct rt; auto.
    + destruct (sl_fromMap sl w) as [| |f] eqn:Ef, (sl_toMap sl w) as [| |t] eqn:Et; simpl;
        destruct rt; simpl; unfold setVarReg; rewrite ?Nat.eqb_refl; auto.
  - destruct (Loc_eqb (sl_fromMap sl w) (sl_toMap sl w)) eqn:E; [auto|].
    destruct (sl_fromMap sl w) as [| |f] eqn:Ef, (sl_toMap sl w) as [| |t] eqn:Et; simpl;
      destruct rt; simpl; unfold setVarReg; rewrite ?Ex; auto.
Qed.

Lemma scan_maps rt l : forall sl x,
  sl_fromMap (fold_left (scanVar rt) l sl) x =
    (if varMember x l then fromAfter rt (sl_fromMap sl) (sl_toMap sl) x else sl_fromMap sl x) /\
  sl_toMap (fold_left (scanVar rt) l sl) x =
    (if varMember x l then toAfter rt (sl_fromMap sl) (sl_toMap sl) x else sl_toMap sl x).
Proof.
  induction l as [|w l IH]; intros sl x; simpl; [auto|].
  destruct (IH (scanVar rt sl w) x) as [H1 H2]. rewrite H1, H2. clear H1 H2.
  unfold varMember in *. simpl.
  destruct (Nat.eqb x w) eqn:Ex; simpl.
  - apply Nat.eqb_eq in Ex. subst x.
    destruct (scanVar_maps rt sl w w) as [A B]. rewrite Nat.eqb_refl in A, B.
    unfold fromAfter, toAfter in *. destruct rt; rewrite ?A, ?B;
      destruct (existsb (Nat.eqb w) l); auto.
  - destruct (scanVar_maps rt sl w x) as [A B]. rewrite Ex in A, B.
    unfold fromAfter, toAfter in *. destruct rt; rewrite ?A, ?B; auto.
Qed.

Lemma resolveEdgeMaps_spec rt fm tm l x :
  fst (resolveEdgeMaps rt fm tm l) x = (if varMember x l then fromAfter rt fm tm x else fm x) /\
  snd (resolveEdgeMaps rt fm tm l) x = (if varMember x l then toAfter rt fm tm x else tm x).
Proof. unfold resolveEdgeMaps. simpl. apply scan_maps. Qed.

(** ** Variable sets *)

Lemma varMember_In v s : varMember v s = true <-> In v s.
Proof.
  unfold varMember. rewrite existsb_exists. split.
  - intros [y [Hy E]]. apply Nat.eqb_eq in E. now subst.
  - intro H. exists v. split; auto. apply Nat.eqb_refl.
Qed.

Lemma In_varIntersection v a b : In v (varIntersection a b) <-> In v a /\ In v b.
Proof. unfold varIntersection. rewrite filter_In, varMember_In. tauto. Qed.

Lemma In_varUnion v a b : In v (varUnion a b) <-> In v a \/ In v b.
Proof.
  unfold varUnion. revert a. induction b as [|x b IH]; intro a; simpl; [tauto|].
  rewrite IH, In_maskSet. intuition.
Qed.

Lemma varIsEmpty_true s : varIsEmpty s = true -> forall v, ~ In v s.
Proof. destruct s; simpl; [auto|discriminate]. Qed.

Lemma map_snd_filter_NoDup (E : list (nat * nat)) b :
  NoDup E -> NoDup (map snd (filter (fun e => Nat.eqb (fst e) b) E)).
Proof.
  induction E as [|[b' s'] E IH]; intro ND; simpl; [constructor|].
  inversion ND as [|? ? Hn ND']; subst.
  destruct (Nat.eqb b' b) eqn:Eb; simpl; auto.
  constructor; auto. intro Hin. apply in_map_iff in Hin. destruct Hin as [[b'' s''] [Hs Hin]].
  simpl in Hs. subst s''. apply filter_In in Hin. destruct Hin as [Hin Hb]. simpl in Hb.
  apply Nat.eqb_eq in Hb, Eb. subst. contradiction.
Qed.

Lemma map_fst_filter_NoDup (E : list (nat * nat)) s :
  NoDup E -> NoDup (map fst (filter (fun e => Nat.eqb (snd e) s) E)).
Proof.
  induction E as [|[b' s'] E IH]; intro ND; simpl; [constructor|].
  inversion ND as [|? ? Hn ND']; subst.
  destruct (Nat.eqb s' s) eqn:Es; simpl; auto.
  constructor; auto. intro Hin. apply in_map_iff in Hin. destruct Hin as [[b'' s''] [Hs Hin]].
  simpl in Hs. subst b''. apply filter_In in Hin. destruct Hin as [Hin Hb]. simpl in Hb.
  apply Nat.eqb_eq in Hb, Es. subst. contradiction.
Qed.

Lemma firstn_S_nth {A} (l : list A) n d :
  n < length l -> firstn (S n) l = firstn n l ++ [nth n l d].
Proof.
  revert n. induction l as [|x l IH]; intros n H; simpl in H; [lia|].
  destruct n; simpl; [reflexivity|]. f_equal. apply IH. lia.
Qed.

Lemma nth_not_in_firstn {A} (l : list A) n d :
  NoDup l -> n < length l -> ~ In (nth n l d) (firstn n l).
Proof.
  revert n. induction l as [|x l IH]; intros n ND H; simpl in H; [lia|].
  inversion ND as [|? ? Hx ND']; subst.
  destruct n; simpl; [auto|]. intros [E|Hin].
  - apply Hx. rewrite E. apply nth_In. lia.
  - apply (IH n ND'); auto. lia.
Qed.

Lemma nth_map_lt {A B} (f : A -> B) (l : list A) n (d : A) (d' : B) :
  n < length l -> nth n (map f l) d' = f (nth n l d).
Proof.
  intro H. rewrite (nth_indep (map f l) d' (f d)) by (rewrite length_map; exact H).
  apply map_nth.
Qed.

Lemma existsb_filter_nonempty (p : nat -> bool) l :
  varIsEmpty (filter p l) = false -> existsb p (filter p l) = true.
Proof.
  induction l as [|x l IH]; simpl; [discriminate|].
  destruct (p x) eqn:E; simpl; [now rewrite E|exact IH].
Qed.

(** ** The flow graph during resolution *)

Section PassFacts.

Variable flowEdges0 : list (nat * nat).
Variable blocks0 : list nat.
Variable maxB : nat.
Variable fgFirstBB : nat.
Variable switchRegs : nat -> regMask.

(** A block with no unique predecessor: the target of a critical edge. *)
Definition critTarget (s : nat) : bool :=
  Nat.eqb s fgFirstBB || negb (Nat.eqb (length (preds0 flowEdges0 s)) 1).

(** The split edges: numbered [bbNumMaxBeforeResolution + 1] to
    [fgBBNumMax] from the oldest, each an edge of the original graph into
    a [critTarget], each with the moves of a new block. *)
Definition SplitsWF (st : RState) : Prop :=
  maxB <= rs_bbNumMax st /\
  map snd (rs_splits st) = rev (seq (S maxB) (rs_bbNumMax st - maxB)) /\
  NoDup (map fst (rs_splits st)) /\
  (forall b s N, In (b, s, N) (rs_splits st) ->
     In (b, s) flowEdges0 /\ critTarget s = true /\ rs_empty st N = false).

Lemma In_succs0 b s : In s (succs0 flowEdges0 b) <-> In (b, s) flowEdges0.
Proof.
  unfold succs0. rewrite in_map_iff. split.
  - intros [[b' s'] [Hs Hin]]. apply filter_In in Hin. simpl in *. destruct Hin as [Hin Hb].
    apply Nat.eqb_eq in Hb. now subst.
  - intro H. exists (b, s). split; auto. apply filter_In. split; auto. apply Nat.eqb_refl.
Qed.

Lemma In_preds0 b s : In b (preds0 flowEdges0 s) <-> In (b, s) flowEdges0.
Proof.
  unfold preds0. rewrite in_map_iff. split.
  - intros [[b' s'] [Hs Hin]]. apply filter_In in Hin. simpl in *. destruct Hin as [Hin Hb].
    apply Nat.eqb_eq in Hb. now subst.
  - intro H. exists (b, s). split; auto. apply filter_In. split; auto. apply Nat.eqb_refl.
Qed.

Lemma splitOf_Some st b s N : splitOf st b s = Some N -> In (b, s, N) (rs_splits st).
Proof.
  unfold splitOf. destruct (find _ _) as [[[b' s'] n]|] eqn:F; [|discriminate].
  intro H. inversion H; subst. apply find_some in F. destruct F as [Hin Hp].
  apply andb_true_iff in Hp. destruct Hp as [H1 H2]. apply Nat.eqb_eq in H1, H2. now subst.
Qed.

Lemma splitOf_None st b s N : splitOf st b s = None -> ~ In (b, s, N) (rs_splits st).
Proof.
  unfold splitOf. destruct (find _ _) as [[[b' s'] n]|] eqn:F; [discriminate|].
  intros _ Hin. apply (find_none _ _ F) in Hin. simpl in Hin.
  rewrite !Nat.eqb_refl in Hin. discriminate.
Qed.

Lemma splitOf_In st b s N :
  NoDup (map fst (rs_splits st)) -> In (b, s, N) (rs_splits st) -> splitOf st b s = Some N.
Proof.
  unfold splitOf. generalize (rs_splits st) as l.
  induction l as [|[[b' s'] n] l IH]; simpl; intros ND Hin; [contradiction|].
  inversion ND as [|? ? Hn ND']; subst.
  destruct (Nat.eqb b' b && Nat.eqb s' s) eqn:E.
  - apply andb_true_iff in E. destruct E as [E1 E2]. apply Nat.eqb_eq in E1, E2. subst.
    destruct Hin as [Heq|Hin]; [congruence|]. exfalso. apply Hn. apply in_map_iff.
    exists (b, s, N). auto.
  - destruct Hin as [Heq|Hin].
    + inversion Heq; subst. rewrite !Nat.eqb_refl in E. discriminate.
    + apply IH; auto.
Qed.

Lemma splitEdgeOf_In st b s N :
  NoDup (map snd (rs_splits st)) -> In (b, s, N) (rs_splits st) -> splitEdgeOf st N = Some (b, s).
Proof.
  unfold splitEdgeOf. generalize (rs_splits st) as l.
  induction l as [|[[b' s'] n] l IH]; simpl; intros ND Hin; [contradiction|].
  inversion ND as [|? ? Hn ND']; subst.
  destruct (Nat.eqb n N) eqn:E.
  - apply Nat.eqb_eq in E. subst.
    destruct Hin as [Heq|Hin]; [congruence|]. exfalso. apply Hn. apply in_map_iff.
    exists (b, s, N). auto.
  - destruct Hin as [Heq|Hin].
    + inversion Heq; subst. rewrite Nat.eqb_refl in E. discriminate.
    + apply IH; auto.
Qed.

Lemma GetSuccs_orig st b :
  b <= maxB -> (forall s N, ~ In (b, s, N) (rs_splits st)) ->
  GetSuccs flowEdges0 maxB st b = succs0 flowEdges0 b.
Proof.
  intros Hb Hn. unfold GetSuccs. apply Nat.leb_le in Hb. rewrite Hb.
  rewrite <- (map_id (succs0 flowEdges0 b)) at 2. apply map_ext. intro s.
  destruct (splitOf st b s) as [N|] eqn:E; auto.
  apply splitOf_Some in E. exfalso. exact (Hn s N E).
Qed.

Lemma GetPreds_length st s :
  s <= maxB -> length (GetPreds flowEdges0 maxB st s) = length (preds0 flowEdges0 s).
Proof. intro Hs. unfold GetPreds. apply Nat.leb_le in Hs. rewrite Hs. apply length_map. Qed.

Lemma UPred_None st s :
  s <= maxB -> (GetUniquePred flowEdges0 maxB fgFirstBB st s = None <-> critTarget s = true).
Proof.
  intro Hs. unfold GetUniquePred, critTarget.
  destruct (Nat.eqb s fgFirstBB); simpl; [tauto|].
  pose proof (GetPreds_length st s Hs) as L.
  destruct (GetPreds flowEdges0 maxB st s) as [|p [|q l]]; simpl in L;
    rewrite <- L; simpl; split; intro; auto; discriminate.
Qed.

Lemma UPred_Some st s p0 :
  s <= maxB -> critTarget s = false -> preds0 flowEdges0 s = [p0] ->
  (forall N, ~ In (p0, s, N) (rs_splits st)) ->
  GetUniquePred flowEdges0 maxB fgFirstBB st s = Some p0.
Proof.
  intros Hs Hc Hp Hn. unfold GetUniquePred. unfold critTarget in Hc.
  apply orb_false_iff in Hc. destruct Hc as [Hc _]. rewrite Hc.
  unfold GetPreds. apply Nat.leb_le in Hs. rewrite Hs, Hp. simpl.
  destruct (splitOf st p0 s) as [N|] eqn:E; auto.
  apply splitOf_Some in E. exfalso. exact (Hn N E).
Qed.

Lemma critTarget_false s :
  critTarget s = false -> s <> fgFirstBB /\ exists p0, preds0 flowEdges0 s = [p0].
Proof.
  unfold critTarget. intro H. apply orb_false_iff in H. destruct H as [H1 H2].
  apply Nat.eqb_neq in H1. split; auto. apply negb_false_iff, Nat.eqb_eq in H2.
  destruct (preds0 flowEdges0 s) as [|p [|q l]]; simpl in H2; try discriminate. eauto.
Qed.

Lemma SplitsWF_NoDup_snd st : SplitsWF st -> NoDup (map snd (rs_splits st)).
Proof. intros (_ & H & _). rewrite H. apply NoDup_rev, seq_NoDup. Qed.

Lemma SplitsWF_range st b s N :
  SplitsWF st -> In (b, s, N) (rs_splits st) -> maxB < N <= rs_bbNumMax st.
Proof.
  intros (Hle & H & _) Hin. assert (In N (map snd (rs_splits st))) as HN
    by (apply in_map_iff; exists (b, s, N); auto).
  rewrite H, <- in_rev, in_seq in HN. lia.
Qed.

Lemma SplitsWF_new st N :
  SplitsWF st -> maxB < N <= rs_bbNumMax st -> exists b s, In (b, s, N) (rs_splits st).
Proof.
  intros (Hle & H & _) HN. assert (In N (map snd (rs_splits st))) as Hin.
  { rewrite H, <- in_rev, in_seq. lia. }
  apply in_map_iff in Hin. destruct Hin as [[[b s] n] [E Hin]]. simpl in E. subst. eauto.
Qed.

Lemma SplitsWF_split st b s :
  SplitsWF st -> In (b, s) flowEdges0 -> critTarget s = true ->
  (forall N, ~ In (b, s, N) (rs_splits st)) -> SplitsWF (fgSplitEdge st b s false).
Proof.
  intros WF He Hc Hn. pose proof WF as (Hle & Hs & Hk & Hw).
  unfold fgSplitEdge. unfold SplitsWF. cbn [rs_bbNumMax rs_splits rs_empty map]. refine (conj _ (conj _ (conj _ _))).
  - lia.
  - rewrite Hs. replace (S (rs_bbNumMax st) - maxB) with (S (rs_bbNumMax st - maxB)) by lia.
    rewrite seq_S, rev_app_distr. simpl. f_equal. lia.
  - constructor; auto. intro Hin. apply in_map_iff in Hin. destruct Hin as [[[b' s'] N] [E Hin]].
    simpl in E. inversion E; subst. exact (Hn N Hin).
  - intros b' s' N [E|Hin].
    + inversion E; subst. refine (conj He (conj Hc _)). apply updr_same.
    + destruct (Hw b' s' N Hin) as (H1 & H2 & H3). refine (conj H1 (conj H2 _)).
      pose proof (SplitsWF_range st b' s' N WF Hin). rewrite updr_other; auto. lia.
Qed.

Lemma getInRef_orig st x : x <= maxB -> getInVarToRegMapRef maxB st x = InMap x.
Proof. intro H. unfold getInVarToRegMapRef. apply Nat.ltb_ge in H. now rewrite H. Qed.

Lemma getOutRef_orig st x : x <= maxB -> getOutVarToRegMapRef maxB st x = OutMap x.
Proof. intro H. unfold getOutVarToRegMapRef. apply Nat.ltb_ge in H. now rewrite H. Qed.

Lemma getIn_orig st x : x <= maxB -> getInVarToRegMap maxB st x = rs_inMaps st x.
Proof. intro H. unfold getInVarToRegMap. now rewrite getInRef_orig. Qed.

Lemma getOut_orig st x : x <= maxB -> getOutVarToRegMap maxB st x = rs_outMaps st x.
Proof. intro H. unfold getOutVarToRegMap. now rewrite getOutRef_orig. Qed.

Lemma resolveEdgeSt_split st p s l :
  p <= maxB -> s <= maxB ->
  resolveEdgeSt maxB st p s ResolveSplit l =
  storeMap st (InMap s) (snd (resolveEdgeMaps ResolveSplit (rs_outMaps st p) (rs_inMaps st s) l)).
Proof. intros Hp Hs. unfold resolveEdgeSt. now rewrite getOutRef_orig, getInRef_orig. Qed.

Lemma resolveEdgeSt_join st b s l :
  b <= maxB -> s <= maxB ->
  resolveEdgeSt maxB st b s ResolveJoin l =
  storeMap st (OutMap b) (fst (resolveEdgeMaps ResolveJoin (rs_outMaps st b) (rs_inMaps st s) l)).
Proof. intros Hb Hs. unfold resolveEdgeSt. now rewrite getOutRef_orig, getInRef_orig. Qed.

Lemma resolveEdgeSt_shared st b s l :
  b <= maxB ->
  resolveEdgeSt maxB st b s ResolveSharedCritical l =
  storeMap st (OutMap b) (fst (resolveEdgeMaps ResolveSharedCritical (rs_outMaps st b) (rs_shared st) l)).
Proof. intros Hb. unfold resolveEdgeSt. now rewrite getOutRef_orig. Qed.

Lemma resolveEdgeSt_crit st b s l :
  b <= maxB -> s <= maxB ->
  resolveEdgeSt maxB st b s ResolveCritical l =
  fgSplitEdge st b s
    (negb (existsb (fun v => negb (Loc_eqb (rs_outMaps st b v) (rs_inMaps st s v))) l)).
Proof. intros Hb Hs. unfold resolveEdgeSt. now rewrite getOutRef_orig, getInRef_orig. Qed.

(** ** [handleOutgoingCriticalEdges] *)

(** Every successor of [b] into which [v] is live wants it in [y]. *)
Definition commonIn (st : RState) (b v : nat) (y : Loc) : Prop :=
  forall s, In s (succs0 flowEdges0 b) -> In v (rs_liveIn st s) -> rs_inMaps st s v = y.

Lemma scanSuccs_common st v succs : forall acc m l x m' l',
  (forall s, In s succs -> In v (rs_liveIn st s) ->
     getVarReg (getInVarToRegMap maxB st s) v <> REG_NA) ->
  scanSuccs flowEdges0 maxB fgFirstBB st v succs acc m l = (x, m', l') -> x <> REG_NA ->
  (acc <> REG_NA -> x = acc) /\
  forall s, In s succs -> In v (rs_liveIn st s) -> getVarReg (getInVarToRegMap maxB st s) v = x.
Proof.
  induction succs as [|s0 rest IH]; intros acc m l x m' l' Hna Hs Hx; simpl in Hs.
  - inversion Hs; subst. split; auto. intros s [].
  - assert (Hna' : forall s, In s rest -> In v (rs_liveIn st s) ->
                     getVarReg (getInVarToRegMap maxB st s) v <> REG_NA)
      by (intros; apply Hna; simpl; auto).
    destruct (varMember v (rs_liveIn st s0)) eqn:Hl; simpl in Hs.
    + destruct (Loc_eqb acc REG_NA) eqn:Ea.
      * apply Loc_eqb_spec in Ea. subst acc.
        destruct (IH _ _ _ _ _ _ Hna' Hs Hx) as [H1 H2]. split; [congruence|].
        intros s [<-|Hin] Hv; [|auto]. symmetry. apply H1, Hna; simpl; auto.
      * destruct (Loc_eqb (getVarReg (getInVarToRegMap maxB st s0) v) acc) eqn:Et.
        -- apply Loc_eqb_spec in Et. destruct (IH _ _ _ _ _ _ Hna' Hs Hx) as [H1 H2].
           assert (acc <> REG_NA) as Ha by (intro E; rewrite E in Ea; discriminate Ea).
           split; auto. intros s [<-|Hin] Hv; [|auto]. rewrite Et. symmetry. apply H1; exact Ha.
        -- inversion Hs; subst. contradiction.
    + destruct (IH _ _ _ _ _ _ Hna' Hs Hx) as [H1 H2]. split; auto.
      intros s [<-|Hin] Hv; [|auto]. apply varMember_In in Hv. congruence.
Qed.

Lemma classifyVar_spec st b outMap lor cl v :
  GetSuccs flowEdges0 maxB st b = succs0 flowEdges0 b ->
  (forall s, In s (succs0 flowEdges0 b) -> s <= maxB) ->
  (forall s, In s (succs0 flowEdges0 b) -> In v (rs_liveIn st s) -> rs_inMaps st s v <> REG_NA) ->
  let cl' := classifyVar flowEdges0 maxB fgFirstBB switchRegs st b outMap lor cl v in
  (forall w, In w (cl_same cl') -> w = v \/ In w (cl_same cl)) /\
  (forall w, In w (cl_same cl) -> In w (cl_same cl')) /\
  (forall w, In w (cl_diff cl) -> In w (cl_diff cl')) /\
  (In v (cl_diff cl') \/ In v (cl_same cl') \/ commonIn st b v (outMap v)) /\
  ((forall w, In w (cl_same cl) -> commonIn st b w (cl_sameMap cl w)) ->
   forall w, In w (cl_same cl') -> commonIn st b w (cl_sameMap cl' w)).
Proof.
  intros Hsucc Hle Hna cl'. unfold cl', classifyVar. rewrite Hsucc.
  destruct (scanSuccs flowEdges0 maxB fgFirstBB st v (succs0 flowEdges0 b) REG_NA false true)
    as [[x m] lo] eqn:Hs.
  cbv beta iota zeta.
  set (y := match x with
            | RegR r =>
                if (m && (existsb (Nat.eqb r) lor || existsb (Nat.eqb r) (cl_sameWriteRegs cl)))
                   || existsb (Nat.eqb r) (switchRegs b) || (lo && m)
                then REG_NA else x
            | _ => x
            end).
  assert (Hy : y = REG_NA \/ y = x)
    by (unfold y; destruct x; auto; destruct (_ || _ || _); auto).
  destruct (Loc_eqb y REG_NA) eqn:Ey.
  - cbn [cl_same cl_diff cl_sameMap].
    refine (conj (fun w H => or_intror H) (conj (fun w H => H) (conj _ (conj _ (fun H => H))))).
    + intros w H. apply In_maskSet. auto.
    + left. apply In_maskSet. auto.
  - assert (Hyx : y = x) by (destruct Hy as [E|E]; auto; rewrite E in Ey; discriminate).
    assert (Hx : x <> REG_NA) by (intro E; rewrite Hyx, E in Ey; discriminate).
    assert (Hc : commonIn st b v x).
    { intros s Hs' Hv.
      assert (Hn : forall s0, In s0 (succs0 flowEdges0 b) -> In v (rs_liveIn st s0) ->
                     getVarReg (getInVarToRegMap maxB st s0) v <> REG_NA).
      { intros s0 H0 H1. rewrite getIn_orig by (apply Hle; exact H0). apply Hna; auto. }
      destruct (scanSuccs_common st v _ _ _ _ _ _ _ Hn Hs Hx) as [_ H2].
      rewrite <- (getIn_orig st s) by auto. apply H2; auto. }
    destruct (negb (Loc_eqb y (getVarReg outMap v))) eqn:En.
    + cbn [cl_same cl_diff cl_sameMap].
      refine (conj _ (conj _ (conj (fun w H => H) (conj _ _)))).
      * intros w H. apply In_maskSet in H. auto.
      * intros w H. apply In_maskSet. auto.
      * right. left. apply In_maskSet. auto.
      * intros Hold w Hw. unfold setVarReg. destruct (Nat.eqb w v) eqn:Ew.
        -- apply Nat.eqb_eq in Ew. subst w. rewrite Hyx. exact Hc.
        -- apply Nat.eqb_neq in Ew. apply In_maskSet in Hw. destruct Hw as [Hw|Hw]; [contradiction|].
           auto.
    + refine (conj (fun w H => or_intror H) (conj (fun w H => H) (conj (fun w H => H) (conj _ (fun H => H))))).
      right. right. apply negb_false_iff, Loc_eqb_spec in En. unfold getVarReg in En.
      rewrite <- En, Hyx. exact Hc.
Qed.

Lemma classify_fold st b outMap lor l : forall cl,
  GetSuccs flowEdges0 maxB st b = succs0 flowEdges0 b ->
  (forall s, In s (succs0 flowEdges0 b) -> s <= maxB) ->
  (forall v s, In s (succs0 flowEdges0 b) -> In v (rs_liveIn st s) -> rs_inMaps st s v <> REG_NA) ->
  let cl' := fold_left (classifyVar flowEdges0 maxB fgFirstBB switchRegs st b outMap lor) l cl in
  (forall w, In w (cl_same cl') -> In w l \/ In w (cl_same cl)) /\
  (forall w, In w (cl_same cl) -> In w (cl_same cl')) /\
  (forall w, In w (cl_diff cl) -> In w (cl_diff cl')) /\
  (forall v, In v l -> In v (cl_diff cl') \/ In v (cl_same cl') \/ commonIn st b v (outMap v)) /\
  ((forall w, In w (cl_same cl) -> commonIn st b w (cl_sameMap cl w)) ->
   forall w, In w (cl_same cl') -> commonIn st b w (cl_sameMap cl' w)).
Proof.
  induction l as [|v l IH]; intros cl Hsucc Hle Hna cl'; simpl in cl'.
  - refine (conj (fun w H => or_intror H) (conj (fun w H => H) (conj (fun w H => H) (conj _ (fun H => H))))).
    intros v [].
  - destruct (classifyVar_spec st b outMap lor cl v Hsucc Hle (Hna v)) as (A1 & A2 & A3 & A4 & A5).
    destruct (IH (classifyVar flowEdges0 maxB fgFirstBB switchRegs st b outMap lor cl v) Hsucc Hle Hna)
      as (B1 & B2 & B3 & B4 & B5).
    fold cl' in B1, B2, B3, B4, B5.
    refine (conj _ (conj _ (conj _ (conj _ _)))).
    + intros w H. destruct (B1 w H) as [H'|H']; [simpl; auto|]. destruct (A1 w H') as [E|E]; simpl; auto.
    + intros w H. auto.
    + intros w H. auto.
    + intros w [<-|Hw]; [|auto]. destruct A4 as [H|[H|H]]; auto.
    + intros H. apply B5, A5, H.
Qed.

(** What the first loop of [resolveEdges] leaves alone. *)
Definition MapsFrame (st st' : RState) : Prop :=
  rs_liveIn st' = rs_liveIn st /\ rs_liveOut st' = rs_liveOut st /\
  rs_inMaps st' = rs_inMaps st /\ rs_outMaps st' = rs_outMaps st /\
  rs_splitInfo st' = rs_splitInfo st.

Lemma MapsFrame_refl st : MapsFrame st st.
Proof. repeat split. Qed.

Lemma MapsFrame_trans a b c : MapsFrame a b -> MapsFrame b c -> MapsFrame a c.
Proof. intros (A1 & A2 & A3 & A4 & A5) (B1 & B2 & B3 & B4 & B5). repeat split; congruence. Qed.

Lemma MapsFrame_split st b s e : MapsFrame st (fgSplitEdge st b s e).
Proof. repeat split. Qed.

Lemma crit_fold b D st2 n :
  b <= maxB -> (forall s, In s (succs0 flowEdges0 b) -> s <= maxB) ->
  NoDup (succs0 flowEdges0 b) -> SplitsWF st2 ->
  (forall s N, ~ In (b, s, N) (rs_splits st2)) ->
  n <= length (succs0 flowEdges0 b) ->
  let st3 := fold_left (critEdgeStep flowEdges0 maxB fgFirstBB b D) (seq 0 n) st2 in
  SplitsWF st3 /\ MapsFrame st2 st3 /\
  (forall b' s N, In (b', s, N) (rs_splits st3) ->
     In (b', s, N) (rs_splits st2) \/ (b' = b /\ In s (firstn n (succs0 flowEdges0 b)))) /\
  incl (rs_splits st2) (rs_splits st3) /\
  (forall j, j < n -> critTarget (nth j (succs0 flowEdges0 b) 0) = true ->
     (forall N, ~ In (b, nth j (succs0 flowEdges0 b) 0, N) (rs_splits st3)) ->
     forall v, In v D -> In v (rs_liveIn st2 (nth j (succs0 flowEdges0 b) 0)) ->
     rs_outMaps st2 b v = rs_inMaps st2 (nth j (succs0 flowEdges0 b) 0) v).
Proof.
  intros Hb Hsl HND WF2 Hno2. induction n as [|n IH]; intros Hn st3; subst st3.
  - simpl. refine (conj WF2 (conj (MapsFrame_refl _) (conj (fun _ _ _ H => or_introl H)
      (conj (incl_refl _) _)))). intros j Hj. lia.
  - rewrite seq_S, fold_left_app. simpl.
    destruct (IH ltac:(lia)) as (WF3 & F3 & N3 & I3 & C3).
    set (st3 := fold_left (critEdgeStep flowEdges0 maxB fgFirstBB b D) (seq 0 n) st2) in *.
    set (s := nth n (succs0 flowEdges0 b) 0).
    assert (Hsin : In s (succs0 flowEdges0 b)) by (apply nth_In; lia).
    assert (Hsle : s <= maxB) by auto.
    assert (Hnot : forall N, ~ In (b, s, N) (rs_splits st3)).
    { intros N Hin. destruct (N3 _ _ _ Hin) as [H|[_ H]]; [exact (Hno2 _ _ H)|].
      exact (nth_not_in_firstn _ n 0 HND ltac:(lia) H). }
    assert (HGS : GetSucc flowEdges0 maxB st3 b n = s).
    { unfold GetSucc, GetSuccs. assert (Hb' := Hb). apply Nat.leb_le in Hb'. rewrite Hb'.
      rewrite (nth_map_lt _ _ n 0 0) by lia. fold s.
      destruct (splitOf st3 b s) as [N|] eqn:E; [|reflexivity].
      exfalso. exact (Hnot N (splitOf_Some _ _ _ _ E)). }
    assert (Hfs : forall x, In x (firstn n (succs0 flowEdges0 b)) -> In x (firstn (S n) (succs0 flowEdges0 b))).
    { intros x Hx. rewrite (firstn_S_nth _ n 0) by lia. apply in_or_app. auto. }
    assert (Hfs' : In s (firstn (S n) (succs0 flowEdges0 b))).
    { rewrite (firstn_S_nth _ n 0) by lia. apply in_or_app. right. left. reflexivity. }
    unfold critEdgeStep. cbv zeta. rewrite HGS.
    destruct (Nat.eqb (length (GetPreds flowEdges0 maxB st3 s)) 1 && negb (Nat.eqb s fgFirstBB)) eqn:Ec.
    + assert (Hct : critTarget s = false).
      { unfold critTarget. rewrite <- (GetPreds_length st3 s Hsle).
        apply andb_true_iff in Ec. destruct Ec as [E1 E2]. rewrite E1.
        apply negb_true_iff in E2. now rewrite E2. }
      refine (conj WF3 (conj F3 (conj _ (conj I3 _)))).
      * intros b' s' N Hin. destruct (N3 _ _ _ Hin) as [H|[E H]]; auto.
      * intros j Hj. destruct (Nat.eq_dec j n) as [->|Hjn]; [fold s; congruence|].
        apply C3. lia.
    + assert (Hct : critTarget s = true).
      { unfold critTarget. rewrite <- (GetPreds_length st3 s Hsle).
        destruct (Nat.eqb s fgFirstBB); simpl in *; auto.
        rewrite andb_true_r in Ec. now rewrite Ec. }
      destruct F3 as (L3 & O3 & In3 & Out3 & S3).
      rewrite getOut_orig, getIn_orig by auto.
      destruct (varIsEmpty (filter (fun v => negb (Loc_eqb (getVarReg (rs_outMaps st3 b) v)
                  (getVarReg (rs_inMaps st3 s) v))) (varIntersection D (rs_liveIn st3 s)))) eqn:Ee.
      * refine (conj WF3 (conj (conj L3 (conj O3 (conj In3 (conj Out3 S3)))) (conj _ (conj I3 _)))).
        -- intros b' s' N Hin. destruct (N3 _ _ _ Hin) as [H|[E H]]; auto.
        -- intros j Hj. destruct (Nat.eq_dec j n) as [->|Hjn]; [|apply C3; lia].
           fold s. intros _ _ v Hv Hl.
           destruct (Loc_eqb (rs_outMaps st3 b v) (rs_inMaps st3 s v)) eqn:El.
           ++ apply Loc_eqb_spec in El. rewrite <- Out3, <- In3. exact El.
           ++ exfalso. apply (varIsEmpty_true _ Ee v). apply filter_In. split.
              ** apply In_varIntersection. rewrite L3. auto.
              ** unfold getVarReg. now rewrite El.
      * rewrite resolveEdgeSt_crit by auto.
        unfold getVarReg in *. rewrite (existsb_filter_nonempty _ _ Ee). simpl negb.
        assert (WF4 : SplitsWF (fgSplitEdge st3 b s false)).
        { apply SplitsWF_split; auto. apply In_succs0. exact Hsin. }
        refine (conj WF4 (conj (MapsFrame_trans _ _ _ (conj L3 (conj O3 (conj In3 (conj Out3 S3))))
                 (MapsFrame_split _ _ _ _)) (conj _ (conj _ _)))).
        -- intros b' s' N [E|Hin].
           ++ inversion E; subst. right. auto.
           ++ destruct (N3 _ _ _ Hin) as [H|[E H]]; auto.
        -- intros e He. right. apply I3, He.
        -- intros j Hj. destruct (Nat.eq_dec j n) as [->|Hjn].
           ++ fold s. intros _ Hn'. exfalso. apply (Hn' (S (rs_bbNumMax st3))). left. reflexivity.
           ++ intros Hc Hn' v Hv Hl. apply C3; auto; [lia|]. intros N Hin. apply (Hn' N). right. exact Hin.
Qed.

Lemma SplitsWF_store st r m : SplitsWF st -> SplitsWF (storeMap st r m).
Proof. destruct r; exact (fun H => H). Qed.

Lemma hOCE_finish b D st2 O :
  b <= maxB -> (forall s, In s (succs0 flowEdges0 b) -> s <= maxB) ->
  NoDup (succs0 flowEdges0 b) -> SplitsWF st2 ->
  (forall s N, ~ In (b, s, N) (rs_splits st2)) ->
  (forall v, In v O -> In v D \/ commonIn st2 b v (rs_outMaps st2 b v)) ->
  let st' := if varIsEmpty D then st2
             else fold_left (critEdgeStep flowEdges0 maxB fgFirstBB b D)
                            (seq 0 (length (succs0 flowEdges0 b))) st2 in
  SplitsWF st' /\ MapsFrame st2 st' /\
  (forall b' s N, In (b', s, N) (rs_splits st') -> In (b', s, N) (rs_splits st2) \/ b' = b) /\
  incl (rs_splits st2) (rs_splits st') /\
  (forall s, In s (succs0 flowEdges0 b) -> critTarget s = true ->
     (forall N, ~ In (b, s, N) (rs_splits st')) ->
     forall v, In v O -> In v (rs_liveIn st2 s) -> rs_outMaps st' b v = rs_inMaps st2 s v).
Proof.
  intros Hb Hsl HND WF Hno K st'. subst st'. destruct (varIsEmpty D) eqn:ED.
  - refine (conj WF (conj (MapsFrame_refl _) (conj (fun _ _ _ H => or_introl H)
      (conj (incl_refl _) _)))).
    intros s Hs Hc Hn v Hv Hl. destruct (K v Hv) as [H|H].
    + exfalso. exact (varIsEmpty_true D ED v H).
    + symmetry. apply H; auto.
  - destruct (crit_fold b D st2 (length (succs0 flowEdges0 b)) Hb Hsl HND WF Hno (le_n _))
      as (WF3 & F3 & N3 & I3 & C3).
    refine (conj WF3 (conj F3 (conj _ (conj I3 _)))).
    + intros b' s N Hin. destruct (N3 _ _ _ Hin) as [H|[E _]]; auto.
    + intros s Hs Hc Hn v Hv Hl. destruct F3 as (_ & _ & _ & Out3 & _). rewrite Out3.
      destruct (K v Hv) as [HD|Hcm].
      * destruct (In_nth _ _ 0 Hs) as [j [Hj E]]. rewrite <- E in *. apply (C3 j); auto.
      * symmetry. apply Hcm; auto.
Qed.

Lemma hOCE_spec cand st b :
  b <= maxB -> (forall s, In s (succs0 flowEdges0 b) -> s <= maxB) ->
  NoDup (succs0 flowEdges0 b) -> SplitsWF st ->
  (forall s N, ~ In (b, s, N) (rs_splits st)) ->
  (forall v s, In s (succs0 flowEdges0 b) -> In v (rs_liveIn st s) -> rs_inMaps st s v <> REG_NA) ->
  let st' := handleOutgoingCriticalEdges flowEdges0 maxB fgFirstBB switchRegs cand st b in
  SplitsWF st' /\
  rs_liveIn st' = rs_liveIn st /\ rs_liveOut st' = rs_liveOut st /\
  rs_inMaps st' = rs_inMaps st /\ rs_splitInfo st' = rs_splitInfo st /\
  (forall x v, rs_outMaps st' x v <> rs_outMaps st x v -> x = b /\ In v cand) /\
  (forall b' s N, In (b', s, N) (rs_splits st') -> In (b', s, N) (rs_splits st) \/ b' = b) /\
  incl (rs_splits st) (rs_splits st') /\
  (forall s, In s (succs0 flowEdges0 b) -> critTarget s = true ->
     (forall N, ~ In (b, s, N) (rs_splits st')) ->
     forall v, In v (rs_liveIn st s) -> In v (rs_liveOut st b) -> In v cand ->
     rs_outMaps st' b v = rs_inMaps st s v).
Proof.
  intros Hb Hsl HND WF Hno Hna st'. subst st'.
  assert (HGS := GetSuccs_orig st b Hb Hno).
  unfold handleOutgoingCriticalEdges. cbv zeta.
  rewrite getOut_orig by exact Hb. unfold NumSucc. rewrite HGS.
  set (O := varIntersection (rs_liveOut st b) cand).
  destruct (varIsEmpty O) eqn:EO.
  { refine (conj WF (conj eq_refl (conj eq_refl (conj eq_refl (conj eq_refl (conj _ (conj
      (fun _ _ _ H => or_introl H) (conj (incl_refl _) _)))))))).
    - intros x v H. exfalso. apply H. reflexivity.
    - intros s _ _ _ v Hl Ho Hc. exfalso. apply (varIsEmpty_true O EO v).
      apply In_varIntersection. auto. }
  set (lor := fold_left (fun m v => match getVarReg (rs_outMaps st b) v with
                                    | RegR r => maskSet r m | _ => m end) (rs_liveOut st b) []).
  destruct (classify_fold st b (rs_outMaps st b) lor O (mkCL [] [] (rs_shared st) [] []) HGS Hsl Hna)
    as (A1 & _ & _ & A4 & A5).
  set (cl := fold_left (classifyVar flowEdges0 maxB fgFirstBB switchRegs st b (rs_outMaps st b) lor) O
               (mkCL [] [] (rs_shared st) [] [])) in *.
  assert (A5' : forall w, In w (cl_same cl) -> commonIn st b w (cl_sameMap cl w))
    by (apply A5; intros w []).
  assert (A1' : forall w, In w (cl_same cl) -> In w O)
    by (intros w H; destruct (A1 w H) as [H'|[]]; exact H').
  assert (HOc : forall v, In v O -> In v cand) by (intros v H; apply In_varIntersection in H; tauto).
  clear A1 A5.
  (* The three ways of resolving the shared critical set. *)
  assert (Fin : forall st2 D,
    SplitsWF st2 -> rs_splits st2 = rs_splits st ->
    rs_liveIn st2 = rs_liveIn st -> rs_liveOut st2 = rs_liveOut st ->
    rs_inMaps st2 = rs_inMaps st -> rs_splitInfo st2 = rs_splitInfo st ->
    (forall x v, rs_outMaps st2 x v <> rs_outMaps st x v -> x = b /\ In v cand) ->
    (forall v, In v O -> In v D \/ commonIn st b v (rs_outMaps st2 b v)) ->
    let st' := if varIsEmpty D then st2
               else fold_left (critEdgeStep flowEdges0 maxB fgFirstBB b D)
                              (seq 0 (length (succs0 flowEdges0 b))) st2 in
    SplitsWF st' /\
    rs_liveIn st' = rs_liveIn st /\ rs_liveOut st' = rs_liveOut st /\
    rs_inMaps st' = rs_inMaps st /\ rs_splitInfo st' = rs_splitInfo st /\
    (forall x v, rs_outMaps st' x v <> rs_outMaps st x v -> x = b /\ In v cand) /\
    (forall b' s N, In (b', s, N) (rs_splits st') -> In (b', s, N) (rs_splits st) \/ b' = b) /\
    incl (rs_splits st) (rs_splits st') /\
    (forall s, In s (succs0 flowEdges0 b) -> critTarget s = true ->
       (forall N, ~ In (b, s, N) (rs_splits st')) ->
       forall v, In v (rs_liveIn st s) -> In v (rs_liveOut st b) -> In v cand ->
       rs_outMaps st' b v = rs_inMaps st s v)).
  { intros st2 D WF2 Sp2 L2 LO2 I2 SI2 Out2 K st'.
    assert (K' : forall v, In v O -> In v D \/ commonIn st2 b v (rs_outMaps st2 b v)).
    { intros v Hv. destruct (K v Hv) as [H|H]; [auto|right].
      unfold commonIn in *. rewrite L2, I2. exact H. }
    assert (Hno2 : forall s N, ~ In (b, s, N) (rs_splits st2)) by (rewrite Sp2; exact Hno).
    destruct (hOCE_finish b D st2 O Hb Hsl HND WF2 Hno2 K') as (W & (F1 & F2 & F3 & F4 & F5) & N & I & C).
    fold st' in W, F1, F2, F3, F4, F5, N, I, C.
    refine (conj W (conj _ (conj _ (conj _ (conj _ (conj _ (conj _ (conj _ _)))))))).
    - congruence.
    - congruence.
    - congruence.
    - congruence.
    - intros x v H. apply Out2. rewrite <- F4. exact H.
    - intros b' s N' H. rewrite <- Sp2. auto.
    - rewrite <- Sp2. exact I.
    - intros s Hs Hc Hn v Hl Ho Hv. rewrite <- I2. apply C; auto.
      + unfold O. apply In_varIntersection. auto.
      + rewrite L2. exact Hl. }
  destruct (varIsEmpty (cl_same cl)) eqn:ES; [|destruct (existsb (fun r => existsb (Nat.eqb r) (cl_diffReadRegs cl)) (cl_sameWriteRegs cl)) eqn:EC];
    cbv beta iota.
  - apply Fin; auto using SplitsWF_store.
    + intros x v H. exfalso. apply H. reflexivity.
    + intros v Hv. destruct (A4 v Hv) as [H|[H|H]]; auto.
      exfalso. exact (varIsEmpty_true _ ES v H).
  - apply Fin; auto using SplitsWF_store.
    + intros x v H. exfalso. apply H. reflexivity.
    + intros v Hv. rewrite In_varUnion. destruct (A4 v Hv) as [H|[H|H]]; auto.
  - rewrite resolveEdgeSt_shared by exact Hb.
    assert (Hout : forall v, fst (resolveEdgeMaps ResolveSharedCritical (rs_outMaps st b) (cl_sameMap cl)
                                  (cl_same cl)) v =
                             if varMember v (cl_same cl) then cl_sameMap cl v else rs_outMaps st b v)
      by (intro v; apply resolveEdgeMaps_spec).
    apply Fin; auto using SplitsWF_store.
    + intros x v H. cbn [storeMap rs_outMaps] in H. unfold upd in H.
      destruct (Nat.eqb x b) eqn:Ex; [|exfalso; apply H; reflexivity].
      apply Nat.eqb_eq in Ex. subst x. rewrite Hout in H.
      destruct (varMember v (cl_same cl)) eqn:Ev; [|exfalso; apply H; reflexivity].
      apply varMember_In in Ev. split; auto.
    + intros v Hv. cbn [storeMap rs_outMaps]. rewrite updr_same, Hout.
      destruct (varMember v (cl_same cl)) eqn:Ev.
      * right. apply A5'. apply varMember_In. exact Ev.
      * destruct (A4 v Hv) as [H|[H|H]]; auto.
        apply varMember_In in H. congruence.
Qed.

(** ** The original flow graph *)

Hypothesis HE : NoDup flowEdges0.
Hypothesis HEb : forall b s, In (b, s) flowEdges0 -> In b blocks0 /\ In s blocks0.
Hypothesis HB : NoDup blocks0.
Hypothesis HBr : forall b, In b blocks0 -> 0 < b <= maxB.
Hypothesis Hfirst : fgFirstBB <= maxB.

Lemma succs0_blocks b s : In s (succs0 flowEdges0 b) -> In s blocks0.
Proof. intro H. apply In_succs0, HEb in H. tauto. Qed.

Lemma succs0_le b s : In s (succs0 flowEdges0 b) -> s <= maxB.
Proof. intro H. apply succs0_blocks, HBr in H. lia. Qed.

Lemma succs0_NoDup b : NoDup (succs0 flowEdges0 b).
Proof. apply map_snd_filter_NoDup, HE. Qed.

Lemma preds0_NoDup s : NoDup (preds0 flowEdges0 s).
Proof. apply map_fst_filter_NoDup, HE. Qed.

Lemma Loc_eq_dec (a b : Loc) : {a = b} + {a <> b}.
Proof. decide equality. apply Nat.eq_dec. Qed.

(** ** The first loop of [resolveEdges] *)

Section Phase1.

Variable cand : list nat.
Variable st0 : RState.
Hypothesis Hmax0 : rs_bbNumMax st0 = maxB.
Hypothesis Hsplits0 : rs_splits st0 = [].
Hypothesis Hna0 : forall v s, In s blocks0 -> In v (rs_liveIn st0 s) -> rs_inMaps st0 s v <> REG_NA.

Definition phase1Step (st : RState) (block : nat) : RState :=
  if Nat.ltb maxB block then st
  else if hasCriticalOutEdge flowEdges0 maxB fgFirstBB st0 block
       then handleOutgoingCriticalEdges flowEdges0 maxB fgFirstBB switchRegs cand st block
       else st.

(** After the blocks [P]: only their out maps changed, only their edges
    were split, and each edge out of them into a [critTarget] that was
    not split already agrees on the candidates. *)
Definition Ph1 (P : list nat) (st : RState) : Prop :=
  SplitsWF st /\
  rs_liveIn st = rs_liveIn st0 /\ rs_liveOut st = rs_liveOut st0 /\
  rs_inMaps st = rs_inMaps st0 /\ rs_splitInfo st = rs_splitInfo st0 /\
  (forall x v, rs_outMaps st x v <> rs_outMaps st0 x v -> In x P /\ In v cand) /\
  (forall b s N, In (b, s, N) (rs_splits st) ->
     In b P /\ hasCriticalOutEdge flowEdges0 maxB fgFirstBB st0 b = true) /\
  (forall b, In b P -> hasCriticalOutEdge flowEdges0 maxB fgFirstBB st0 b = true ->
     forall s, In s (succs0 flowEdges0 b) -> critTarget s = true ->
     (forall N, ~ In (b, s, N) (rs_splits st)) ->
     forall v, In v (rs_liveIn st0 s) -> In v (rs_liveOut st0 b) -> In v cand ->
     rs_outMaps st b v = rs_inMaps st0 s v).

Lemma Ph1_init : Ph1 [] st0.
Proof.
  unfold Ph1. refine (conj _ (conj eq_refl (conj eq_refl (conj eq_refl (conj eq_refl (conj _ (conj _ _))))))).
  - unfold SplitsWF. rewrite Hmax0, Hsplits0, Nat.sub_diag. simpl.
    refine (conj (le_n _) (conj eq_refl (conj (NoDup_nil _) _))). intros b s N [].
  - intros x v H. exfalso. apply H. reflexivity.
  - rewrite Hsplits0. intros b s N [].
  - intros b [].
Qed.

Lemma Ph1_step P st b :
  ~ In b P -> In b blocks0 -> Ph1 P st -> Ph1 (P ++ [b]) (phase1Step st b).
Proof.
  intros HbP Hbb (W & L & LO & I & SI & O & S & D).
  assert (Hble : b <= maxB) by (apply HBr in Hbb; lia).
  assert (HinP : forall x, In x P -> In x (P ++ [b])) by (intros; apply in_or_app; auto).
  assert (Hbin : In b (P ++ [b])) by (apply in_or_app; right; left; reflexivity).
  unfold phase1Step. apply Nat.ltb_ge in Hble as Hlt. rewrite Hlt.
  destruct (hasCriticalOutEdge flowEdges0 maxB fgFirstBB st0 b) eqn:Hc.
  - assert (Hno : forall s N, ~ In (b, s, N) (rs_splits st))
      by (intros s N H; apply S in H; tauto).
    assert (Hna : forall v s, In s (succs0 flowEdges0 b) -> In v (rs_liveIn st s) ->
                    rs_inMaps st s v <> REG_NA).
    { intros v s Hs Hv. rewrite I. rewrite L in Hv. apply Hna0; auto. apply (succs0_blocks b); auto. }
    destruct (hOCE_spec cand st b Hble (succs0_le b) (succs0_NoDup b) W Hno Hna)
      as (W' & L' & LO' & I' & SI' & O' & N' & Inc' & C').
    set (st' := handleOutgoingCriticalEdges flowEdges0 maxB fgFirstBB switchRegs cand st b) in *.
    unfold Ph1. refine (conj W' (conj _ (conj _ (conj _ (conj _ (conj _ (conj _ _))))))).
    + congruence.
    + congruence.
    + congruence.
    + congruence.
    + intros x v H. destruct (Loc_eq_dec (rs_outMaps st' x v) (rs_outMaps st x v)) as [E|E].
      * rewrite E in H. destruct (O x v H). auto.
      * destruct (O' x v E) as [-> Hv]. auto.
    + intros b' s N H. destruct (N' _ _ _ H) as [H' | ->].
      * destruct (S _ _ _ H'). auto.
      * auto.
    + intros b' Hb' Hc' s Hs Hct Hn v Hl Ho Hv. apply in_app_or in Hb'. destruct Hb' as [Hb'|[<-|[]]].
      * assert (b' <> b) by (intro E; subst; contradiction).
        destruct (Loc_eq_dec (rs_outMaps st' b' v) (rs_outMaps st b' v)) as [E|E].
        -- rewrite E. apply D; auto. intros N HN. apply (Hn N). apply Inc'. exact HN.
        -- destruct (O' b' v E). contradiction.
      * rewrite <- I. apply C'; auto; congruence.
  - unfold Ph1. refine (conj W (conj L (conj LO (conj I (conj SI (conj _ (conj _ _))))))).
    + intros x v H. destruct (O x v H). auto.
    + intros b' s N H. destruct (S _ _ _ H). auto.
    + intros b' Hb' Hc' s Hs Hct Hn v Hl Ho Hv. apply in_app_or in Hb'. destruct Hb' as [Hb'|[<-|[]]].
      * apply D; auto.
      * congruence.
Qed.

Lemma Ph1_fold l : forall P st,
  NoDup (P ++ l) -> (forall b, In b l -> In b blocks0) -> Ph1 P st ->
  Ph1 (P ++ l) (fold_left phase1Step l st).
Proof.
  induction l as [|b l IH]; intros P st ND Hl H; simpl; [now rewrite app_nil_r|].
  replace (P ++ b :: l) with ((P ++ [b]) ++ l) by (now rewrite <- app_assoc).
  apply IH.
  - now rewrite <- app_assoc.
  - intros; apply Hl; simpl; auto.
  - apply Ph1_step; auto.
    + intro Hin. apply NoDup_remove_2 in ND. apply ND. apply in_or_app. auto.
    + apply Hl. simpl. auto.
Qed.

Lemma phase1_spec :
  let st1 := if hasCriticalEdges flowEdges0 blocks0 maxB fgFirstBB st0
             then fold_left phase1Step blocks0 st0 else st0 in
  Ph1 blocks0 st1 /\
  forall b, In b blocks0 -> hasCriticalOutEdge flowEdges0 maxB fgFirstBB st0 b = true ->
    hasCriticalEdges flowEdges0 blocks0 maxB fgFirstBB st0 = true.
Proof.
  intro st1. split.
  - subst st1. destruct (hasCriticalEdges flowEdges0 blocks0 maxB fgFirstBB st0) eqn:Hc.
    + apply (Ph1_fold blocks0 [] st0 HB (fun b H => H) Ph1_init).
    + destruct Ph1_init as (W & L & LO & I & SI & O & S & D).
      unfold Ph1. refine (conj W (conj L (conj LO (conj I (conj SI (conj _ (conj _ _))))))).
      * intros x v H. exfalso. apply H. reflexivity.
      * rewrite Hsplits0. intros b s N [].
      * intros b Hb Hcb. exfalso. unfold hasCriticalEdges in Hc.
        assert (existsb (fun b => hasCriticalInEdge flowEdges0 maxB fgFirstBB st0 b ||
                  hasCriticalOutEdge flowEdges0 maxB fgFirstBB st0 b) blocks0 = true)
          as E by (apply existsb_exists; exists b; rewrite Hcb, orb_true_r; auto).
        congruence.
  - intros b Hb Hcb. unfold hasCriticalEdges. apply existsb_exists. exists b.
    rewrite Hcb, orb_true_r. auto.
Qed.

End Phase1.

Lemma GetSuccs_length st b :
  b <= maxB -> length (GetSuccs flowEdges0 maxB st b) = length (succs0 flowEdges0 b).
Proof. intro Hb. unfold GetSuccs. apply Nat.leb_le in Hb. rewrite Hb. apply length_map. Qed.

Lemma walkUniquePred_orig fuel st p : p <= maxB -> walkUniquePred flowEdges0 maxB fgFirstBB fuel st p = Some p.
Proof. intro H. apply Nat.ltb_ge in H. destruct fuel; simpl; now rewrite H. Qed.

(** ** The second loop of [resolveEdges] *)

(** A block whose only successor is the target of critical edges: it
    gets the moves of the join resolution. *)
Definition isJoin (x : nat) : Prop :=
  exists s, succs0 flowEdges0 x = [s] /\ critTarget s = true.

Section Phase2.

Variable cand : list nat.
Variable st1 : RState.
Hypothesis W1 : SplitsWF st1.
Hypothesis HS1 : forall b s N, In (b, s, N) (rs_splits st1) -> 1 < length (succs0 flowEdges0 b).

(** After split resolution of the blocks [Pin] and join resolution of
    the blocks [Pout]. *)
Definition Ph2 (Pin Pout : list nat) (st : RState) : Prop :=
  rs_splits st = rs_splits st1 /\ rs_bbNumMax st = rs_bbNumMax st1 /\ rs_empty st = rs_empty st1 /\
  rs_liveIn st = rs_liveIn st1 /\ rs_liveOut st = rs_liveOut st1 /\
  rs_splitInfo st = rs_splitInfo st1 /\
  (forall x v, rs_inMaps st x v <> rs_inMaps st1 x v -> In x Pin /\ critTarget x = false /\ In v cand) /\
  (forall x v, rs_outMaps st x v <> rs_outMaps st1 x v -> In x Pout /\ isJoin x /\ In v cand) /\
  (forall x, In x Pin -> critTarget x = false -> forall p0, preds0 flowEdges0 x = [p0] ->
     forall v, In v (rs_liveIn st1 x) -> In v cand -> rs_inMaps st x v = rs_outMaps st1 p0 v) /\
  (forall x, In x Pout -> forall s, succs0 flowEdges0 x = [s] -> critTarget s = true ->
     forall v, In v (rs_liveIn st1 s) -> In v cand -> rs_outMaps st x v = rs_inMaps st1 s v).

Lemma Ph2_init : Ph2 [] [] st1.
Proof.
  unfold Ph2. repeat (split; [reflexivity|]).
  refine (conj _ (conj _ (conj _ _))).
  - intros x v H. exfalso. apply H. reflexivity.
  - intros x v H. exfalso. apply H. reflexivity.
  - intros x [].
  - intros x [].
Qed.

Lemma no_split_into st p0 x N :
  rs_splits st = rs_splits st1 -> critTarget x = false -> ~ In (p0, x, N) (rs_splits st).
Proof.
  intros Sp Hc Hin. rewrite Sp in Hin. destruct W1 as (_ & _ & _ & Hw).
  destruct (Hw _ _ _ Hin) as (_ & H & _). congruence.
Qed.

Lemma no_split_from st x s N :
  rs_splits st = rs_splits st1 -> length (succs0 flowEdges0 x) = 1 -> ~ In (x, s, N) (rs_splits st).
Proof. intros Sp Hl Hin. rewrite Sp in Hin. apply HS1 in Hin. lia. Qed.

Lemma Ph2_addIn P Q st x :
  Ph2 P Q st ->
  (critTarget x = false -> forall p0, preds0 flowEdges0 x = [p0] ->
     forall v, In v (rs_liveIn st1 x) -> In v cand -> rs_inMaps st x v = rs_outMaps st1 p0 v) ->
  Ph2 (P ++ [x]) Q st.
Proof.
  intros (Sp & Mx & Em & L & LO & SI & G2 & G3 & G4 & G5) Hx.
  unfold Ph2. refine (conj Sp (conj Mx (conj Em (conj L (conj LO (conj SI (conj _ (conj G3 (conj _ G5))))))))).
  - intros y v H. destruct (G2 y v H) as (A & B & C). split; auto. apply in_or_app. auto.
  - intros y Hy. apply in_app_or in Hy. destruct Hy as [Hy|[<-|[]]]; auto.
Qed.

Lemma Ph2_addOut P Q st x :
  Ph2 P Q st ->
  (forall s, succs0 flowEdges0 x = [s] -> critTarget s = true ->
     forall v, In v (rs_liveIn st1 s) -> In v cand -> rs_outMaps st x v = rs_inMaps st1 s v) ->
  Ph2 P (Q ++ [x]) st.
Proof.
  intros (Sp & Mx & Em & L & LO & SI & G2 & G3 & G4 & G5) Hx.
  unfold Ph2. refine (conj Sp (conj Mx (conj Em (conj L (conj LO (conj SI (conj G2 (conj _ (conj G4 _))))))))).
  - intros y v H. destruct (G3 y v H) as (A & B & C). split; auto. apply in_or_app. auto.
  - intros y Hy. apply in_app_or in Hy. destruct Hy as [Hy|[<-|[]]]; auto.
Qed.

Lemma split_part P st x :
  ~ In x P -> In x blocks0 -> Ph2 P P st ->
  let inSet := varIntersection (rs_liveIn st x) cand in
  exists stA,
    (if varIsEmpty inSet then Some st
     else match GetUniquePred flowEdges0 maxB fgFirstBB st x with
          | None => Some st
          | Some p =>
              match walkUniquePred flowEdges0 maxB fgFirstBB (rs_bbNumMax st) st p with
              | Some p' => Some (resolveEdgeSt maxB st p' x ResolveSplit inSet)
              | None => None
              end
          end) = Some stA /\ Ph2 (P ++ [x]) P stA.
Proof.
  intros HxP Hxb H2 inSet. pose proof H2 as (Sp & Mx & Em & L & LO & SI & G2 & G3 & G4 & G5).
  assert (Hxle : x <= maxB) by (apply HBr in Hxb; lia).
  destruct (critTarget x) eqn:Hct.
  { rewrite (proj2 (UPred_None st x Hxle) Hct).
    exists st. split; [now destruct (varIsEmpty inSet)|].
    apply Ph2_addIn; auto. intro H; rewrite Hct in H; discriminate H. }
  destruct (critTarget_false x Hct) as [_ [p0 Hp0]].
  assert (Hp0b : In p0 blocks0).
  { assert (In p0 (preds0 flowEdges0 x)) as H by (rewrite Hp0; left; reflexivity).
    apply In_preds0, HEb in H. tauto. }
  assert (Hp0le : p0 <= maxB) by (apply HBr in Hp0b; lia).
  destruct (varIsEmpty inSet) eqn:Ei.
  { exists st. split; [reflexivity|]. apply Ph2_addIn; auto.
    intros _ p1 Hp1 v Hv Hvc. exfalso. apply (varIsEmpty_true _ Ei v). unfold inSet.
    apply In_varIntersection. rewrite L. auto. }
  rewrite (UPred_Some st x p0 Hxle Hct Hp0 (fun N => no_split_into st p0 x N Sp Hct)).
  rewrite walkUniquePred_orig by exact Hp0le.
  rewrite resolveEdgeSt_split by assumption.
  eexists. split; [reflexivity|].
  assert (HM : forall v, snd (resolveEdgeMaps ResolveSplit (rs_outMaps st p0) (rs_inMaps st x) inSet) v =
                         if varMember v inSet then rs_outMaps st p0 v else rs_inMaps st x v)
    by (intro v; apply resolveEdgeMaps_spec).
  unfold Ph2. cbn [storeMap rs_splits rs_bbNumMax rs_empty rs_liveIn rs_liveOut rs_splitInfo rs_inMaps rs_outMaps].
  refine (conj Sp (conj Mx (conj Em (conj L (conj LO (conj SI (conj _ (conj G3 (conj _ G5))))))))).
  - intros y v H. destruct (Nat.eq_dec y x) as [->|Hyx].
    + rewrite updr_same, HM in H. split; [apply in_or_app; right; left; reflexivity|]. split; auto.
      destruct (varMember v inSet) eqn:Ev.
      * apply varMember_In, In_varIntersection in Ev. tauto.
      * destruct (G2 x v H) as (A & _). contradiction.
    + rewrite updr_other in H by exact Hyx. destruct (G2 y v H) as (A & B & C).
      split; auto. apply in_or_app. auto.
  - intros y Hy Hc p1 Hp1 v Hv Hvc. destruct (Nat.eq_dec y x) as [->|Hyx].
    + rewrite updr_same, HM. rewrite Hp0 in Hp1. inversion Hp1. subst p1.
      assert (Ev : varMember v inSet = true)
        by (apply varMember_In, In_varIntersection; rewrite L; auto).
      rewrite Ev. destruct (Loc_eq_dec (rs_outMaps st p0 v) (rs_outMaps st1 p0 v)) as [E|E]; auto.
      exfalso. destruct (G3 p0 v E) as (_ & [s' [Hs' Hcs']] & _).
      assert (In x (succs0 flowEdges0 p0)) as Hx
        by (apply In_succs0, In_preds0; rewrite Hp0; left; reflexivity).
      rewrite Hs' in Hx. destruct Hx as [->|[]]. congruence.
    + rewrite updr_other by exact Hyx. apply in_app_or in Hy.
      destruct Hy as [Hy|[E|[]]]; [apply G4; auto|congruence].
Qed.

Lemma join_part P Q st stA x :
  ~ In x Q -> In x blocks0 -> Ph2 P Q stA ->
  exists st',
    (if Nat.eqb (NumSucc flowEdges0 maxB st x) 1 then
       match GetUniquePred flowEdges0 maxB fgFirstBB stA (GetSucc flowEdges0 maxB stA x 0) with
       | Some _ => Some stA
       | None =>
           if varIsEmpty (varIntersection (rs_liveIn stA (GetSucc flowEdges0 maxB stA x 0)) cand)
           then Some stA
           else Some (resolveEdgeSt maxB stA x (GetSucc flowEdges0 maxB stA x 0) ResolveJoin
                        (varIntersection (rs_liveIn stA (GetSucc flowEdges0 maxB stA x 0)) cand))
       end
     else Some stA) = Some st' /\ Ph2 P (Q ++ [x]) st'.
Proof.
  intros HxQ Hxb H2. pose proof H2 as (Sp & Mx & Em & L & LO & SI & G2 & G3 & G4 & G5).
  assert (Hxle : x <= maxB) by (apply HBr in Hxb; lia).
  unfold NumSucc. rewrite GetSuccs_length by exact Hxle.
  destruct (Nat.eqb (length (succs0 flowEdges0 x)) 1) eqn:Hl.
  2:{ exists stA. split; [reflexivity|]. apply Ph2_addOut; auto.
      intros s Hs. rewrite Hs in Hl. discriminate. }
  apply Nat.eqb_eq in Hl.
  destruct (succs0 flowEdges0 x) as [|s [|s' l]] eqn:Hsx; simpl in Hl; try lia. clear Hl.
  assert (Hs1 : length (succs0 flowEdges0 x) = 1) by (rewrite Hsx; reflexivity).
  assert (Hsb : In s blocks0) by (apply (succs0_blocks x); rewrite Hsx; left; reflexivity).
  assert (Hsle : s <= maxB) by (apply HBr in Hsb; lia).
  assert (HGS : GetSucc flowEdges0 maxB stA x 0 = s).
  { unfold GetSucc. rewrite (GetSuccs_orig stA x Hxle (fun s0 N => no_split_from stA x s0 N Sp Hs1)).
    rewrite Hsx. reflexivity. }
  rewrite HGS.
  destruct (critTarget s) eqn:Hcs.
  2:{ destruct (critTarget_false s Hcs) as [_ [p Hp]].
      destruct (GetUniquePred flowEdges0 maxB fgFirstBB stA s) eqn:HU.
      - exists stA. split; [reflexivity|]. apply Ph2_addOut; auto.
        intros s0 Hs0. rewrite Hsx in Hs0. inversion Hs0. subst s0. congruence.
      - apply (UPred_None stA s Hsle) in HU. congruence. }
  rewrite (proj2 (UPred_None stA s Hsle) Hcs).
  destruct (varIsEmpty (varIntersection (rs_liveIn stA s) cand)) eqn:Ei.
  { exists stA. split; [reflexivity|]. apply Ph2_addOut; auto.
    intros s0 Hs0 _ v Hv Hvc. rewrite Hsx in Hs0. inversion Hs0. subst s0.
    exfalso. apply (varIsEmpty_true _ Ei v). apply In_varIntersection. rewrite L. auto. }
  rewrite resolveEdgeSt_join by assumption.
  eexists. split; [reflexivity|].
  set (O := varIntersection (rs_liveIn stA s) cand).
  assert (HM : forall v, fst (resolveEdgeMaps ResolveJoin (rs_outMaps stA x) (rs_inMaps stA s) O) v =
                         if varMember v O then rs_inMaps stA s v else rs_outMaps stA x v)
    by (intro v; apply resolveEdgeMaps_spec).
  assert (Hins : forall v, rs_inMaps stA s v = rs_inMaps st1 s v).
  { intro v. destruct (Loc_eq_dec (rs_inMaps stA s v) (rs_inMaps st1 s v)) as [E|E]; auto.
    destruct (G2 s v E) as (_ & C & _). congruence. }
  unfold Ph2. cbn [storeMap rs_splits rs_bbNumMax rs_empty rs_liveIn rs_liveOut rs_splitInfo rs_inMaps rs_outMaps].
  refine (conj Sp (conj Mx (conj Em (conj L (conj LO (conj SI (conj G2 (conj _ (conj G4 _))))))))).
  - intros y v H. destruct (Nat.eq_dec y x) as [->|Hyx].
    + rewrite updr_same, HM in H. split; [apply in_or_app; right; left; reflexivity|].
      destruct (varMember v O) eqn:Ev.
      * apply varMember_In, In_varIntersection in Ev. split; [|tauto]. exists s. auto.
      * destruct (G3 x v H) as (A & _). contradiction.
    + rewrite updr_other in H by exact Hyx. destruct (G3 y v H) as (A & B & C).
      split; auto. apply in_or_app. auto.
  - intros y Hy s0 Hs0 Hc v Hv Hvc. destruct (Nat.eq_dec y x) as [->|Hyx].
    + rewrite updr_same, HM. rewrite Hsx in Hs0. inversion Hs0. subst s0.
      assert (Ev : varMember v O = true)
        by (apply varMember_In, In_varIntersection; rewrite L; auto).
      rewrite Ev. apply Hins.
    + rewrite updr_other by exact Hyx. apply in_app_or in Hy.
      destruct Hy as [Hy|[E|[]]]; [apply G5; auto|congruence].
Qed.

Lemma Ph2_step P st x :
  ~ In x P -> In x blocks0 -> Ph2 P P st ->
  exists st', resolveBlock flowEdges0 maxB fgFirstBB cand st x = Some st' /\ Ph2 (P ++ [x]) (P ++ [x]) st'.
Proof.
  intros HxP Hxb H2.
  assert (Hxle : x <= maxB) by (apply HBr in Hxb; lia).
  destruct (split_part P st x HxP Hxb H2) as [stA [HA H2A]].
  destruct (join_part (P ++ [x]) P st stA x HxP Hxb H2A) as [st' [HJ H2']].
  exists st'. split; [|exact H2'].
  unfold resolveBlock. apply Nat.ltb_ge in Hxle. rewrite Hxle. cbv zeta.
  rewrite HA. exact HJ.
Qed.

Lemma Ph2_fold l : forall P st,
  NoDup (P ++ l) -> (forall b, In b l -> In b blocks0) -> Ph2 P P st ->
  exists st', optFold (resolveBlock flowEdges0 maxB fgFirstBB cand) l st = Some st' /\
              Ph2 (P ++ l) (P ++ l) st'.
Proof.
  induction l as [|x l IH]; intros P st ND Hl H2.
  - exists st. rewrite app_nil_r. auto.
  - assert (HxP : ~ In x P) by (intro Hin; apply NoDup_remove_2 in ND; apply ND; apply in_or_app; auto).
    destruct (Ph2_step P st x HxP (Hl x (or_introl eq_refl)) H2) as [st' [Hs H2']].
    destruct (IH (P ++ [x]) st') as [st'' [Hf H2'']].
    + now rewrite <- app_assoc.
    + intros; apply Hl; simpl; auto.
    + exact H2'.
    + exists st''. unfold optFold in *. simpl. rewrite Hs.
      rewrite <- app_assoc in H2''. split; assumption.
Qed.

Lemma phase2_spec :
  exists st2, optFold (resolveBlock flowEdges0 maxB fgFirstBB cand) blocks0 st1 = Some st2 /\
              Ph2 blocks0 blocks0 st2.
Proof. exact (Ph2_fold blocks0 [] st1 HB (fun b H => H) Ph2_init). Qed.

End Phase2.

Lemma SplitsWF_congr st st' :
  rs_splits st' = rs_splits st -> rs_bbNumMax st' = rs_bbNumMax st -> rs_empty st' = rs_empty st ->
  SplitsWF st -> SplitsWF st'.
Proof. intros E1 E2 E3. unfold SplitsWF. now rewrite E1, E2, E3. Qed.

(** ** The fix-up loop over the new blocks *)

Section Phase3.

Variable st2 : RState.
Hypothesis W2 : SplitsWF st2.

(** After the new blocks [P]: each knows the edge it was made for. *)
Definition Ph3 (P : list nat) (st : RState) : Prop :=
  rs_splits st = rs_splits st2 /\ rs_bbNumMax st = rs_bbNumMax st2 /\ rs_empty st = rs_empty st2 /\
  rs_inMaps st = rs_inMaps st2 /\ rs_outMaps st = rs_outMaps st2 /\
  (forall x, x <= maxB -> rs_liveIn st x = rs_liveIn st2 x) /\
  (forall b s N, In (b, s, N) (rs_splits st2) -> In N P -> rs_splitInfo st N = (b, s)).

Lemma Ph3_init : Ph3 [] st2.
Proof.
  unfold Ph3. repeat (split; [reflexivity|]). intros b s N _ [].
Qed.

Lemma Ph3_step P st N :
  ~ In N P -> maxB < N <= rs_bbNumMax st2 -> Ph3 P st ->
  exists st', fixupSplitBlock flowEdges0 maxB fgFirstBB st N = Some st' /\ Ph3 (P ++ [N]) st'.
Proof.
  intros HNP HN (Sp & Mx & Em & I & O & L & SI).
  assert (WF : SplitsWF st) by (apply (SplitsWF_congr st2); auto).
  destruct (SplitsWF_new st2 N W2 HN) as [b [s Hin]].
  assert (Hin' : In (b, s, N) (rs_splits st)) by (rewrite Sp; exact Hin).
  pose proof W2 as (_ & _ & _ & Hw). destruct (Hw _ _ _ Hin) as (He & _ & Hem).
  destruct (HEb _ _ He) as [Hb Hs]. apply HBr in Hb, Hs.
  assert (HSE : splitEdgeOf st N = Some (b, s)) by (apply splitEdgeOf_In; auto using SplitsWF_NoDup_snd).
  assert (HwS : walkSucc flowEdges0 maxB (S (rs_bbNumMax st)) st N = Some s).
  { cbn [walkSucc]. unfold GetUniqueSucc, GetSuccs.
    replace (Nat.leb N maxB) with false by (symmetry; apply Nat.leb_gt; lia). rewrite HSE.
    replace (Nat.ltb maxB s) with false by (symmetry; apply Nat.ltb_ge; lia). reflexivity. }
  assert (HwP : walkPred flowEdges0 maxB fgFirstBB (S (rs_bbNumMax st)) st N = Some b).
  { cbn [walkPred]. unfold GetUniquePred, GetPreds.
    replace (Nat.eqb N fgFirstBB) with false by (symmetry; apply Nat.eqb_neq; lia).
    replace (Nat.leb N maxB) with false by (symmetry; apply Nat.leb_gt; lia). rewrite HSE.
    replace (Nat.ltb maxB b) with false by (symmetry; apply Nat.ltb_ge; lia). reflexivity. }
  unfold fixupSplitBlock. rewrite HwS, HwP.
  replace (rs_empty st N) with false by (rewrite Em; symmetry; exact Hem).
  eexists. split; [reflexivity|].
  unfold Ph3. cbn [rs_splits rs_bbNumMax rs_empty rs_inMaps rs_outMaps rs_liveIn rs_splitInfo].
  refine (conj Sp (conj Mx (conj Em (conj I (conj O (conj _ _)))))).
  - intros x Hx. rewrite updr_other by lia. auto.
  - intros b' s' N' Hin2 HN'. destruct (Nat.eq_dec N' N) as [->|HNN].
    + rewrite updr_same. rewrite <- Sp in Hin2.
      rewrite (splitEdgeOf_In st b' s' N (SplitsWF_NoDup_snd st WF) Hin2) in HSE. congruence.
    + rewrite updr_other by exact HNN. apply in_app_or in HN'.
      destruct HN' as [HN'|[E|[]]]; [auto|congruence].
Qed.

Lemma Ph3_fold l : forall P st,
  NoDup (P ++ l) -> (forall N, In N l -> maxB < N <= rs_bbNumMax st2) -> Ph3 P st ->
  exists st', optFold (fixupSplitBlock flowEdges0 maxB fgFirstBB) l st = Some st' /\ Ph3 (P ++ l) st'.
Proof.
  induction l as [|N l IH]; intros P st ND Hl H3.
  - exists st. rewrite app_nil_r. auto.
  - assert (HNP : ~ In N P) by (intro Hin; apply NoDup_remove_2 in ND; apply ND; apply in_or_app; auto).
    destruct (Ph3_step P st N HNP (Hl N (or_introl eq_refl)) H3) as [st' [Hs H3']].
    destruct (IH (P ++ [N]) st') as [st'' [Hf H3'']].
    + now rewrite <- app_assoc.
    + intros; apply Hl; simpl; auto.
    + exact H3'.
    + exists st''. unfold optFold in *. simpl. rewrite Hs.
      rewrite <- app_assoc in H3''. split; assumption.
Qed.

Lemma phase3_spec :
  exists st3,
    (if Nat.ltb maxB (rs_bbNumMax st2)
     then optFold (fixupSplitBlock flowEdges0 maxB fgFirstBB)
                  (seq (S maxB) (rs_bbNumMax st2 - maxB)) st2
     else Some st2) = Some st3 /\
    Ph3 (seq (S maxB) (rs_bbNumMax st2 - maxB)) st3.
Proof.
  destruct (Nat.ltb maxB (rs_bbNumMax st2)) eqn:Hlt.
  - apply (Ph3_fold (seq (S maxB) (rs_bbNumMax st2 - maxB)) [] st2 (seq_NoDup _ _)); [|exact Ph3_init].
    intros N HN. apply in_seq in HN. lia.
  - apply Nat.ltb_ge in Hlt. exists st2. split; [reflexivity|].
    replace (rs_bbNumMax st2 - maxB) with 0 by lia. exact Ph3_init.
Qed.

End Phase3.

Lemma hasCriticalOutEdge_orig st0 b s :
  rs_splits st0 = [] -> In b blocks0 -> In s (succs0 flowEdges0 b) ->
  length (succs0 flowEdges0 b) <> 1 -> critTarget s = true ->
  hasCriticalOutEdge flowEdges0 maxB fgFirstBB st0 b = true.
Proof.
  intros Hsp Hb Hs Hl Hc. assert (Hble : b <= maxB) by (apply HBr in Hb; lia).
  assert (HGS : GetSuccs flowEdges0 maxB st0 b = succs0 flowEdges0 b)
    by (apply GetSuccs_orig; auto; rewrite Hsp; intros ? ? []).
  unfold hasCriticalOutEdge, NumSucc. rewrite HGS. apply andb_true_iff. split.
  - apply Nat.ltb_lt. destruct (succs0 flowEdges0 b) as [|x [|y l]]; simpl in *; try lia; contradiction.
  - apply existsb_exists. exists s. split; auto.
    rewrite (proj2 (UPred_None st0 s (succs0_le b s Hs)) Hc). reflexivity.
Qed.

(** ** Edge consistency *)

(** C1: when the original graph's live sets are consistent (a variable
    live into a successor is live out of each predecessor), each variable
    live into a block has a location there, and the variables that are
    not resolution candidates (live into some block, split or spilled)
    are in the same location on both sides of each edge, [resolveEdges]
    completes, and on every edge of the final flow graph (split edges
    included) every variable live into the successor has the same
    location in the predecessor's outgoing map as in the successor's
    incoming map. *)
Theorem resolveEdges_edge_consistency (resolutionCandidateVars splitOrSpilledVars : list nat)
    (st0 : RState) :
  rs_bbNumMax st0 = maxB ->
  rs_splits st0 = [] ->
  (forall b s v, In (b, s) flowEdges0 -> In v (rs_liveIn st0 s) -> In v (rs_liveOut st0 b)) ->
  (forall s v, In s blocks0 -> In v (rs_liveIn st0 s) -> rs_inMaps st0 s v <> REG_NA) ->
  (forall b s v, In (b, s) flowEdges0 -> In v (rs_liveIn st0 s) ->
     ~ In v (varIntersection resolutionCandidateVars splitOrSpilledVars) ->
     rs_outMaps st0 b v = rs_inMaps st0 s v) ->
  exists st',
    resolveEdges flowEdges0 blocks0 maxB fgFirstBB switchRegs
      resolutionCandidateVars splitOrSpilledVars st0 = Some st' /\
    forall b s, In (b, s) (flowEdges flowEdges0 blocks0 maxB st') ->
      forall v, In v (rs_liveIn st' s) ->
        getVarReg (getOutVarToRegMap maxB st' b) v = getVarReg (getInVarToRegMap maxB st' s) v.
Proof.
  intros Hmax0 Hsp0 Hlive Hna0 Hnc.
  set (cand := varIntersection resolutionCandidateVars splitOrSpilledVars) in *.
  set (st1 := if hasCriticalEdges flowEdges0 blocks0 maxB fgFirstBB st0
              then fold_left (phase1Step cand st0) blocks0 st0 else st0).
  assert (Hunf : resolveEdges flowEdges0 blocks0 maxB fgFirstBB switchRegs
                   resolutionCandidateVars splitOrSpilledVars st0 =
    if varIsEmpty cand then Some st0 else
    match optFold (resolveBlock flowEdges0 maxB fgFirstBB cand) blocks0 st1 with
    | None => None
    | Some st2 =>
        if Nat.ltb maxB (rs_bbNumMax st2)
        then optFold (fixupSplitBlock flowEdges0 maxB fgFirstBB)
                     (seq (S maxB) (rs_bbNumMax st2 - maxB)) st2
        else Some st2
    end) by reflexivity.
  rewrite Hunf. clear Hunf.
  destruct (varIsEmpty cand) eqn:Ec.
  { (* no candidate: nothing moves and the graph is the original one *)
    exists st0. split; [reflexivity|]. intros b' s' He v Hv.
    unfold flowEdges in He. rewrite Hmax0, Nat.sub_diag, app_nil_r in He.
    apply in_flat_map in He. destruct He as [x [Hx He]]. apply in_map_iff in He.
    destruct He as [s [E Hs]]. inversion E; subst b' s'.
    assert (Hxle : x <= maxB) by (apply HBr in Hx; lia).
    rewrite GetSuccs_orig in Hs by (auto; rewrite Hsp0; intros ? ? []).
    rewrite getOut_orig, getIn_orig by (auto; apply (succs0_le x); exact Hs).
    unfold getVarReg. apply Hnc; [apply In_succs0; exact Hs|exact Hv|].
    exact (varIsEmpty_true _ Ec v). }
  (* the first loop *)
  destruct (phase1_spec cand st0 Hmax0 Hsp0 (fun v s Hs Hv => Hna0 s v Hs Hv)) as [P1 _].
  fold st1 in P1. destruct P1 as (W1 & L1 & LO1 & I1 & SI1 & O1 & S1 & D1).
  assert (HS1 : forall b s N, In (b, s, N) (rs_splits st1) -> 1 < length (succs0 flowEdges0 b)).
  { intros b s N Hin. destruct (S1 _ _ _ Hin) as [Hb Hc].
    assert (Hble : b <= maxB) by (apply HBr in Hb; lia).
    unfold hasCriticalOutEdge, NumSucc in Hc. apply andb_true_iff in Hc. destruct Hc as [Hc _].
    apply Nat.ltb_lt in Hc. rewrite GetSuccs_length in Hc by exact Hble. exact Hc. }
  (* the second loop *)
  destruct (phase2_spec cand st1 W1 HS1) as [st2 [Hf2 P2]]. rewrite Hf2.
  destruct P2 as (Sp2 & Mx2 & Em2 & L2 & LO2 & SI2 & G2 & G3 & G4 & G5).
  assert (W2 : SplitsWF st2) by (apply (SplitsWF_congr st1); auto).
  (* the fix-up loop *)
  destruct (phase3_spec st2 W2) as [st3 [Hf3 P3]]. rewrite Hf3.
  destruct P3 as (Sp3 & Mx3 & Em3 & I3 & O3 & L3 & SI3).
  assert (W3 : SplitsWF st3) by (apply (SplitsWF_congr st2); auto).
  assert (Hinfo : forall b s N, In (b, s, N) (rs_splits st3) -> rs_splitInfo st3 N = (b, s)).
  { intros b s N Hin. rewrite Sp3 in Hin. apply SI3; auto.
    apply in_seq. rewrite <- Sp3 in Hin. pose proof (SplitsWF_range st3 b s N W3 Hin). lia. }
  exists st3. split; [reflexivity|].
  intros b' s' He v Hv. unfold flowEdges in He.
  apply in_flat_map in He. destruct He as [x [Hx He]]. apply in_map_iff in He.
  destruct He as [s [E Hs]]. inversion E; subst b' s'. clear E.
  apply in_app_or in Hx. destruct Hx as [Hx|Hx].
  - (* an original block *)
    assert (Hxle : x <= maxB) by (apply HBr in Hx; lia).
    assert (Hx0 : 0 < x) by (apply HBr in Hx; lia).
    unfold GetSuccs in Hs. apply Nat.leb_le in Hxle as Hleb. rewrite Hleb in Hs.
    apply in_map_iff in Hs. destruct Hs as [s0 [Es Hs0]].
    destruct (splitOf st3 x s0) as [N|] eqn:HsN; subst s.
    + (* the edge into a new block: both sides are the out map of [x] *)
      apply splitOf_Some in HsN. pose proof (SplitsWF_range st3 x s0 N W3 HsN) as HN.
      unfold getInVarToRegMap, getInVarToRegMapRef.
      replace (Nat.ltb maxB N) with true by (symmetry; apply Nat.ltb_lt; lia).
      rewrite (Hinfo x s0 N HsN). replace (Nat.eqb x 0) with false by (symmetry; apply Nat.eqb_neq; lia).
      rewrite getOut_orig by exact Hxle. reflexivity.
    + (* an original edge *)
      assert (Hs0b : In s0 blocks0) by (apply (succs0_blocks x); exact Hs0).
      assert (Hs0le : s0 <= maxB) by (apply HBr in Hs0b; lia).
      assert (Hns : forall N, ~ In (x, s0, N) (rs_splits st1)).
      { intros N Hin. rewrite <- Sp2, <- Sp3 in Hin. exact (splitOf_None _ _ _ N HsN Hin). }
      rewrite getOut_orig, getIn_orig by assumption. rewrite O3, I3. unfold getVarReg.
      rewrite (L3 s0 Hs0le), L2, L1 in Hv.
      assert (He0 : In (x, s0) flowEdges0) by (apply In_succs0; exact Hs0).
      assert (Hin2 : rs_inMaps st2 s0 v = rs_inMaps st1 s0 v \/ critTarget s0 = false /\ In v cand).
      { destruct (Loc_eq_dec (rs_inMaps st2 s0 v) (rs_inMaps st1 s0 v)) as [E|E]; [auto|].
        destruct (G2 _ _ E) as (_ & A & B). auto. }
      assert (Hout2 : rs_outMaps st2 x v = rs_outMaps st1 x v \/ isJoin x /\ In v cand).
      { destruct (Loc_eq_dec (rs_outMaps st2 x v) (rs_outMaps st1 x v)) as [E|E]; [auto|].
        destruct (G3 _ _ E) as (_ & A & B). auto. }
      assert (Hout1 : rs_outMaps st1 x v = rs_outMaps st0 x v \/ In v cand).
      { destruct (Loc_eq_dec (rs_outMaps st1 x v) (rs_outMaps st0 x v)) as [E|E]; [auto|].
        right. exact (proj2 (O1 _ _ E)). }
      destruct (in_dec Nat.eq_dec v cand) as [Hvc|Hvc].
      * destruct (critTarget s0) eqn:Hcs.
        -- (* into the target of critical edges *)
           destruct Hin2 as [Hin2|[Hf _]]; [|discriminate]. rewrite Hin2, I1.
           destruct (Nat.eq_dec (length (succs0 flowEdges0 x)) 1) as [Hl|Hl].
           ++ destruct (succs0 flowEdges0 x) as [|s1 [|s2 l]] eqn:Hsx; simpl in Hl; try lia.
              destruct Hs0 as [-> | []].
              rewrite (G5 x Hx s0 Hsx Hcs v); [now rewrite I1|congruence|exact Hvc].
           ++ assert (Hnj : ~ isJoin x) by (intros [s1 [Hsx _]]; rewrite Hsx in Hl; simpl in Hl; lia).
              destruct Hout2 as [Hout2|[Hj _]]; [|contradiction]. rewrite Hout2.
              apply (D1 x Hx (hasCriticalOutEdge_orig st0 x s0 Hsp0 Hx Hs0 Hl Hcs) s0 Hs0 Hcs Hns);
                auto.
              apply (Hlive x s0 v He0 Hv).
        -- (* into a block with a unique predecessor *)
           destruct (critTarget_false s0 Hcs) as [_ [p0 Hp0]].
           assert (Hxp : x = p0).
           { assert (In x (preds0 flowEdges0 s0)) as H by (apply In_preds0; exact He0).
             rewrite Hp0 in H. destruct H as [->|[]]. reflexivity. }
           subst p0.
           assert (Hnj : ~ isJoin x).
           { intros [s1 [Hsx Hc1]]. rewrite Hsx in Hs0. destruct Hs0 as [->|[]]. congruence. }
           destruct Hout2 as [Hout2|[Hj _]]; [|contradiction]. rewrite Hout2.
           symmetry. apply (G4 s0 Hs0b Hcs x Hp0 v); [congruence|exact Hvc].
      * destruct Hin2 as [Hin2|[_ H]]; [|contradiction].
        destruct Hout2 as [Hout2|[_ H]]; [|contradiction].
        destruct Hout1 as [Hout1|H]; [|contradiction].
        rewrite Hin2, Hout2, Hout1, I1. apply Hnc; auto.
  - (* a new block: its out map is the in map of the block it falls into *)
    apply in_seq in Hx.
    destruct (SplitsWF_new st3 x W3 ltac:(lia)) as [b [s0 Hin]].
    assert (HSE : splitEdgeOf st3 x = Some (b, s0))
      by (apply splitEdgeOf_In; auto using SplitsWF_NoDup_snd).
    pose proof W3 as (_ & _ & _ & Hw). destruct (Hw _ _ _ Hin) as (He0 & _ & _).
    destruct (HEb _ _ He0) as [_ Hs0b]. apply HBr in Hs0b.
    unfold GetSuccs in Hs. replace (Nat.leb x maxB) with false in Hs by (symmetry; apply Nat.leb_gt; lia).
    rewrite HSE in Hs. destruct Hs as [<-|[]].
    unfold getOutVarToRegMap, getOutVarToRegMapRef.
    replace (Nat.ltb maxB x) with true by (symmetry; apply Nat.ltb_lt; lia).
    rewrite (Hinfo b s0 x Hin). replace (Nat.eqb s0 0) with false by (symmetry; apply Nat.eqb_neq; lia).
    rewrite getIn_orig by lia. reflexivity.
Qed.

End PassFacts.

Lemma resolveEdges_edge_consistency_witness :
  exists st', resolveEdges ex_flowEdges ex_blocks 4 1 (fun _ => [])
                [0; 1] [0; 1] ex_st0 = Some st' /\
    forall b s, In (b, s) (flowEdges ex_flowEdges ex_blocks 4 st') ->
      forall v, In v (rs_liveIn st' s) ->
        getVarReg (getOutVarToRegMap 4 st' b) v = getVarReg (getInVarToRegMap 4 st' s) v.
Proof.
  apply (resolveEdges_edge_consistency ex_flowEdges ex_blocks 4 1 (fun _ => []));
    unfold ex_flowEdges, ex_blocks, ex_st0; cbn [rs_bbNumMax rs_splits rs_liveIn rs_liveOut rs_inMaps rs_outMaps].
  - repeat constructor; simpl; intuition discriminate.
  - intros b s H; simpl in H;
      repeat destruct H as [H | H]; try contradiction; injection H as <- <-; simpl; tauto.
  - repeat constructor; simpl; intuition discriminate.
  - intros b H; simpl in H; intuition lia.
  - lia.
  - reflexivity.
  - reflexivity.
  - intros b s v H Hv; simpl in H;
      repeat destruct H as [H | H]; try contradiction; injection H as <- <-; simpl in *; tauto.
  - intros s v H Hv; simpl in H;
      repeat destruct H as [H | H]; try contradiction; subst s; simpl in Hv;
      repeat destruct Hv as [Hv | Hv]; try contradiction; subst v; simpl; discriminate.
  - intros b s v _ Hv Hn; exfalso; apply Hn; destruct s as [|[|[|[|[|s]]]]]; simpl in Hv;
      repeat destruct Hv as [Hv | Hv]; try contradiction; subst v; vm_compute; tauto.
Defined.

End ResolutionPassFacts.

Module RegMaskOpsFacts.
Import EdgeResolution RegMaskOps.

Open Scope Z_scope.


(** The lowest set bit of [m], found by [m & -m]. *)
Lemma land_opp_bits (k : nat) : forall m, 0 < m ->
  Z.testbit m (Z.of_nat k) = true ->
  (forall j, (j < k)%nat -> Z.testbit m (Z.of_nat j) = false) ->
  forall n, Z.testbit (Z.land m (- m)) n = (n =? Z.of_nat k).
Proof.
  induction k as [| k IH]; intros m Hm Hk Hlow n.
  - cbn [Z.of_nat] in *.
    pose proof (Z.div2_odd m) as Hd. rewrite <- Z.bit0_odd, Hk in Hd. cbn [Z.b2z] in Hd.
    set (q := Z.div2 m) in *.
    assert (Hopp : - m = Z.lnot (2 * q)) by (rewrite Z.lnot_eq_pred_opp; lia).
    rewrite Hopp.
    destruct (Z.ltb_spec n 0) as [Hn | Hn].
    + rewrite !Z.testbit_neg_r by lia. symmetry. apply Z.eqb_neq. lia.
    + rewrite Z.land_spec, Z.lnot_spec by lia. rewrite Hd.
      destruct (Z.eq_dec n 0) as [-> | Hn0].
      * rewrite Z.testbit_odd_0, Z.testbit_even_0. reflexivity.
      * replace n with (Z.succ (Z.pred n)) by lia.
        rewrite Z.testbit_odd_succ, Z.testbit_even_succ by lia.
        destruct (Z.testbit q (Z.pred n)); cbn; symmetry; apply Z.eqb_neq; lia.
  - assert (H0 : Z.testbit m 0 = false) by (apply (Hlow 0%nat); lia).
    pose proof (Z.div2_odd m) as Hd. rewrite <- Z.bit0_odd, H0 in Hd. cbn [Z.b2z] in Hd.
    set (m' := Z.div2 m) in *.
    assert (Hm' : 0 < m') by lia.
    assert (Hbits : forall j, 0 <= j -> Z.testbit m (Z.succ j) = Z.testbit m' j).
    { intros j Hj. rewrite Hd, Z.add_0_r. apply Z.testbit_even_succ; lia. }
    assert (Hopp : - m = 2 * (- m')) by lia.
    destruct (Z.ltb_spec n 0) as [Hn | Hn].
    + rewrite !Z.testbit_neg_r by lia. symmetry. apply Z.eqb_neq. lia.
    + rewrite Z.land_spec, Hopp.
      destruct (Z.eq_dec n 0) as [-> | Hn0].
      * rewrite Z.testbit_even_0, andb_false_r. symmetry. apply Z.eqb_neq. lia.
      * replace n with (Z.succ (Z.pred n)) by lia.
        rewrite Z.testbit_even_succ by lia. rewrite Hbits by lia.
        rewrite <- Z.land_spec. rewrite (IH m' Hm').
        -- destruct (Z.eqb_spec (Z.pred n) (Z.of_nat k)); symmetry;
             [apply Z.eqb_eq | apply Z.eqb_neq]; lia.
        -- rewrite <- Hbits by lia. rewrite <- Hk. f_equal. lia.
        -- intros j Hj. rewrite <- Hbits by lia.
           rewrite <- (Hlow (S j)) by lia. f_equal. lia.
Qed.


Definition Mask64 (m : Z) : Prop := 0 <= m /\ forall n, 64 <= n -> Z.testbit m n = false.

Lemma Mask64_range m : 0 <= m < 2 ^ 64 -> Mask64 m.
Proof.
  intros [H0 H1]. split; [exact H0 |]. intros n Hn.
  destruct (Z.eq_dec m 0) as [-> | Hnz]; [apply Z.bits_0 |].
  apply Z.bits_above_log2; [lia |].
  apply Z.log2_lt_pow2 in H1; lia.
Qed.

Lemma Mask64_land_l a b : Mask64 a -> Mask64 (Z.land a b).
Proof.
  intros [Ha Hb]. split.
  - apply Z.land_nonneg. now left.
  - intros n Hn. rewrite Z.land_spec, Hb by lia. reflexivity.
Qed.

Lemma Mask64_bits m n : Mask64 m -> Z.testbit m (Z.of_nat n) = true -> (n < 64)%nat.
Proof.
  intros [_ H] Ht. destruct (Nat.ltb_spec n 64) as [Hl | Hl]; [exact Hl |].
  rewrite H in Ht by lia. discriminate Ht.
Qed.

Lemma In_bitsOf m n : In n (bitsOf m) <-> (n < 64)%nat /\ Z.testbit m (Z.of_nat n) = true.
Proof.
  unfold bitsOf. rewrite filter_In, in_seq. split; intros [H1 H2]; split; lia || exact H2.
Qed.

Lemma StronglySorted_filter {A} (R : A -> A -> Prop) f l :
  StronglySorted R l -> StronglySorted R (filter f l).
Proof.
  induction 1 as [| a l Hs IH Hf]; cbn; [constructor |].
  destruct (f a); [| exact IH].
  constructor; [exact IH |]. rewrite Forall_forall in *.
  intros x Hx. apply filter_In in Hx. apply Hf, Hx.
Qed.

Lemma StronglySorted_seq a n : StronglySorted lt (seq a n).
Proof.
  revert a. induction n as [| n IH]; intros a; cbn; constructor; [apply IH |].
  rewrite Forall_forall. intros x Hx. apply in_seq in Hx. lia.
Qed.

Lemma bitsOf_sorted m : StronglySorted lt (bitsOf m).
Proof. apply StronglySorted_filter, StronglySorted_seq. Qed.

Lemma sorted_ext : forall l1 l2, StronglySorted lt l1 -> StronglySorted lt l2 ->
  (forall x, In x l1 <-> In x l2) -> l1 = l2.
Proof.
  induction l1 as [| a l1 IH]; intros [| b l2] H1 H2 Hx.
  - reflexivity.
  - exfalso. apply (proj2 (Hx b)). now left.
  - exfalso. apply (proj1 (Hx a)). now left.
  - inversion H1 as [| ? ? H1s H1f]; subst. inversion H2 as [| ? ? H2s H2f]; subst.
    rewrite Forall_forall in H1f, H2f.
    assert (a = b).
    { destruct (proj1 (Hx a) (or_introl eq_refl)) as [-> | Ha]; [reflexivity |].
      destruct (proj2 (Hx b) (or_introl eq_refl)) as [-> | Hb]; [reflexivity |].
      specialize (H1f _ Hb). specialize (H2f _ Ha). lia. }
    subst b. f_equal. apply IH; [exact H1s | exact H2s |].
    intros x. split; intros Hin.
    + destruct (proj1 (Hx x) (or_intror Hin)) as [<- | H]; [| exact H].
      specialize (H1f _ Hin). lia.
    + destruct (proj2 (Hx x) (or_intror Hin)) as [<- | H]; [| exact H].
      specialize (H2f _ Hin). lia.
Qed.

Lemma bitsOf_nil m : Mask64 m -> bitsOf m = [] -> m = 0.
Proof.
  intros [H0 Hh] Hnil. apply Z.bits_inj'. intros n Hn. rewrite Z.bits_0.
  destruct (Z.ltb_spec n 64) as [Hl | Hl]; [| apply Hh; lia].
  destruct (Z.testbit m n) eqn:Ht; [| reflexivity].
  exfalso. assert (Hi : In (Z.to_nat n) (bitsOf m)).
  { apply (proj2 (In_bitsOf m _)). rewrite Z2Nat.id by lia. split; [lia | exact Ht]. }
  rewrite Hnil in Hi. exact Hi.
Qed.

Lemma bitsOf_0 : bitsOf 0 = [].
Proof. reflexivity. Qed.

(** One step of the [genFindLowestBit] loops: the lowest register of a
    non-empty mask, and the mask without it. *)
Lemma lowestBit_step m k rest : Mask64 m -> bitsOf m = k :: rest ->
  genFindLowestBit m = genRegMask k /\
  genRegNumFromMask (genRegMask k) = k /\
  Mask64 (maskRemove m (genRegMask k)) /\
  bitsOf (maskRemove m (genRegMask k)) = rest.
Proof.
  intros HM Hb.
  pose proof (bitsOf_sorted m) as Hs. rewrite Hb in Hs.
  inversion Hs as [| ? ? Hrs Hrf]; subst. rewrite Forall_forall in Hrf.
  assert (Hk : (k < 64)%nat /\ Z.testbit m (Z.of_nat k) = true)
    by (apply (proj1 (In_bitsOf m k)); rewrite Hb; now left).
  assert (Hlow : forall j, (j < k)%nat -> Z.testbit m (Z.of_nat j) = false).
  { intros j Hj. destruct (Z.testbit m (Z.of_nat j)) eqn:Ht; [| reflexivity].
    assert (Hi : In j (bitsOf m)) by (apply (proj2 (In_bitsOf m j)); split; [lia | exact Ht]).
    rewrite Hb in Hi. destruct Hi as [-> | Hi]; [lia |]. specialize (Hrf _ Hi). lia. }
  assert (Hpos : 0 < m).
  { destruct HM as [HM0 _]. destruct (Z.eq_dec m 0) as [-> | ]; [| lia].
    rewrite Z.bits_0 in Hk. destruct Hk as [_ Hk]; discriminate Hk. }
  assert (Hgm : genRegMask k = 2 ^ Z.of_nat k).
  { unfold genRegMask. rewrite Z.shiftl_1_l. reflexivity. }
  assert (Hlb : genFindLowestBit m = genRegMask k).
  { rewrite Hgm. apply Z.bits_inj'. intros n Hn. unfold genFindLowestBit, MASK_MOD.
    rewrite Z.pow2_bits_eqb by lia. rewrite Z.land_spec.
    destruct (Z.ltb_spec n 64) as [Hl | Hl].
    - rewrite Z.mod_pow2_bits_low by lia. rewrite Z.sub_0_l.
      rewrite <- Z.land_spec. rewrite (land_opp_bits k m Hpos (proj2 Hk) Hlow n).
      apply Z.eqb_sym.
    - rewrite (proj2 HM n Hl). cbn. symmetry. apply Z.eqb_neq. lia. }
  split; [exact Hlb |]. split.
  { rewrite Hgm. unfold genRegNumFromMask. rewrite Z.log2_pow2 by lia. apply Nat2Z.id. }
  assert (HR : forall n, 0 <= n -> Z.testbit (maskRemove m (genRegMask k)) n =
                         Z.testbit m n && negb (n =? Z.of_nat k)).
  { intros n Hn. unfold maskRemove, MASK_MOD. rewrite Hgm, Z.land_spec.
    destruct (Z.ltb_spec n 64) as [Hl | Hl].
    - rewrite Z.mod_pow2_bits_low, Z.lnot_spec, Z.pow2_bits_eqb by lia.
      rewrite Z.eqb_sym. reflexivity.
    - rewrite (proj2 HM n Hl). reflexivity. }
  assert (HMR : Mask64 (maskRemove m (genRegMask k))) by (apply Mask64_land_l, HM).
  split; [exact HMR |].
  apply sorted_ext; [apply bitsOf_sorted | exact Hrs |].
  intros x. rewrite In_bitsOf, HR by lia. split.
  - intros [Hx Ht]. apply andb_prop in Ht as [Ht Hne].
    assert (Hi : In x (bitsOf m)) by (apply (proj2 (In_bitsOf m x)); split; assumption).
    rewrite Hb in Hi. destruct Hi as [-> | Hi]; [| exact Hi].
    rewrite Z.eqb_refl in Hne. discriminate Hne.
  - intros Hx. specialize (Hrf _ Hx).
    assert (Hi : In x (bitsOf m)) by (rewrite Hb; now right).
    apply In_bitsOf in Hi as [Hi Ht]. split; [exact Hi |].
    rewrite Ht. cbn. replace (Z.of_nat x =? Z.of_nat k) with false; [reflexivity |].
    symmetry. apply Z.eqb_neq. lia.
Qed.

Lemma bitsOf_length m : (length (bitsOf m) <= 64)%nat.
Proof. unfold bitsOf. rewrite <- (length_seq 64 0) at 2. apply filter_length_le. Qed.

(** The [rotateBlockStartLocation] loop read over the list of the
    candidate registers. *)
Fixpoint rotatePick (targetReg : Loc) (l : list regNumber) (firstReg : Loc) : Loc * Loc :=
  match l with
  | [] => (REG_NA, firstReg)
  | r :: l' =>
      if regGreater r targetReg then (RegR r, firstReg)
      else rotatePick targetReg l' (match firstReg with REG_NA => RegR r | _ => firstReg end)
  end.

Lemma rotateLoop_pick fuel : forall t m first, Mask64 m -> (length (bitsOf m) <= fuel)%nat ->
  rotateLoop fuel t m first = rotatePick t (bitsOf m) first.
Proof.
  induction fuel as [| f IH]; intros t m first HM Hl.
  - destruct (bitsOf m) eqn:Hb; [reflexivity | cbn in Hl; lia].
  - cbn [rotateLoop]. destruct (Z.eqb_spec m RBM_NONE) as [-> | Hne].
    + reflexivity.
    + destruct (bitsOf m) as [| k rest] eqn:Hb.
      { exfalso. apply Hne, bitsOf_nil; assumption. }
      destruct (lowestBit_step m k rest HM Hb) as (E1 & E2 & E3 & E4).
      rewrite E1, E2. cbn [rotatePick].
      destruct (regGreater k t); [reflexivity |].
      rewrite <- E4. apply IH; [exact E3 |]. rewrite E4. cbn in Hl. lia.
Qed.

Lemma rotatePick_found t : forall l first r, find (fun x => regGreater x t) l = Some r ->
  fst (rotatePick t l first) = RegR r.
Proof.
  induction l as [| a l IH]; intros first r Hf; cbn in *; [discriminate Hf |].
  destruct (regGreater a t); [injection Hf as ->; reflexivity | apply IH, Hf].
Qed.

Lemma rotatePick_none t : forall l first, find (fun x => regGreater x t) l = None ->
  rotatePick t l first =
  (REG_NA, match first with REG_NA => match l with r :: _ => RegR r | [] => REG_NA end | _ => first end).
Proof.
  induction l as [| a l IH]; intros first Hf; cbn in *.
  - destruct first; reflexivity.
  - destruct (regGreater a t); [discriminate Hf |]. rewrite IH by exact Hf.
    destruct first; reflexivity.
Qed.

Lemma filter_length_mono {A} (f g : A -> bool) l :
  (forall x, f x = true -> g x = true) -> (length (filter f l) <= length (filter g l))%nat.
Proof.
  intros H. induction l as [| a l IH]; cbn; [lia |].
  destruct (f a) eqn:Hf; [rewrite (H a Hf); cbn; lia |].
  destruct (g a); cbn; lia.
Qed.

Lemma genCountBits_mono a b : (forall n, Z.testbit a n = true -> Z.testbit b n = true) ->
  (genCountBits a <= genCountBits b)%nat.
Proof. intros H. apply filter_length_mono. intros x. apply H. Qed.

Lemma getConstrainedRegMask_props a c minRegCount :
  (forall n, Z.testbit (getConstrainedRegMask a c minRegCount) n = true -> Z.testbit a n = true) /\
  (Nat.min minRegCount (genCountBits a) <= genCountBits (getConstrainedRegMask a c minRegCount))%nat.
Proof.
  unfold getConstrainedRegMask. destruct (Nat.leb_spec minRegCount (genCountBits (Z.land a c))) as [Hle | Hlt].
  - split; [| lia]. intros n Hn. rewrite Z.land_spec in Hn. now apply andb_prop in Hn.
  - split; [tauto | lia].
Qed.

(** [getConstrainedRegMask] only drops registers of [regMaskActual],
    and keeps at least [minRegCount] of them when it has that many. *)
Theorem getConstrainedRegMask_keeps_min a c minRegCount :
  (forall n, Z.testbit (getConstrainedRegMask a c minRegCount) n = true -> Z.testbit a n = true) /\
  (Nat.min minRegCount (genCountBits a) <= genCountBits (getConstrainedRegMask a c minRegCount))%nat.
Proof. apply getConstrainedRegMask_props. Qed.

(** under every stress mode, [stressLimitRegs] returns registers of
    [mask], plus the fixed register of a fixed-register reference, which
    a limiting mode always adds; and, counting only the registers of
    [mask] in its result, it keeps at least [minRegCount] of them (1 with
    no RefPosition) when [mask] has that many. *)
Theorem stressLimitRegs_bounds cs ct si sf dbg limit refPosition mask :
  let r := stressLimitRegs cs ct si sf dbg limit refPosition mask in
  let minRegCount := match refPosition with Some rp => lr_minRegCandidateCount rp | None => 1%nat end in
  (forall n, Z.testbit r n = true ->
     Z.testbit mask n = true \/
     exists rp, refPosition = Some rp /\ lr_isFixedRegRef rp = true /\
                Z.testbit (lr_registerAssignment rp) n = true) /\
  (limit <> LSRA_LIMIT_NONE -> forall rp, refPosition = Some rp -> lr_isFixedRegRef rp = true ->
     forall n, Z.testbit (lr_registerAssignment rp) n = true -> Z.testbit r n = true) /\
  (Nat.min minRegCount (genCountBits mask) <= genCountBits (Z.land r mask))%nat.
Proof.
  cbv zeta.
  set (mc := match refPosition with Some rp => lr_minRegCandidateCount rp | None => 1%nat end).
  assert (Hm1 : forall m1 : regMaskTP,
            (forall n, Z.testbit m1 n = true -> Z.testbit mask n = true) ->
            (Nat.min mc (genCountBits mask) <= genCountBits m1)%nat ->
            let r := match refPosition with
                     | Some rp => if lr_isFixedRegRef rp then Z.lor m1 (lr_registerAssignment rp) else m1
                     | None => m1 end in
            (forall n, Z.testbit r n = true ->
               Z.testbit mask n = true \/
               exists rp, refPosition = Some rp /\ lr_isFixedRegRef rp = true /\
                          Z.testbit (lr_registerAssignment rp) n = true) /\
            (forall rp, refPosition = Some rp -> lr_isFixedRegRef rp = true ->
               forall n, Z.testbit (lr_registerAssignment rp) n = true -> Z.testbit r n = true) /\
            (Nat.min mc (genCountBits mask) <= genCountBits (Z.land r mask))%nat).
  { intros m1 Hsub Hcnt. cbv zeta.
    destruct refPosition as [rp |]; [destruct (lr_isFixedRegRef rp) eqn:Hfx |].
    - split; [| split].
      + intros n Hn. rewrite Z.lor_spec in Hn. apply orb_prop in Hn as [Hn | Hn].
        * left. apply Hsub, Hn.
        * right. exists rp. auto.
      + intros rp' Heq _ n Hn. injection Heq as <-. rewrite Z.lor_spec, Hn. apply orb_true_r.
      + etransitivity; [exact Hcnt |]. apply genCountBits_mono.
        intros n Hn. rewrite Z.land_spec, Z.lor_spec, Hn, (Hsub n Hn). reflexivity.
    - split; [| split]; [intros n Hn; left; apply Hsub, Hn | | ].
      + intros rp' Heq Hf. injection Heq as <-. rewrite Hf in Hfx. discriminate Hfx.
      + etransitivity; [exact Hcnt |]. apply genCountBits_mono.
        intros n Hn. rewrite Z.land_spec, Hn, (Hsub n Hn). reflexivity.
    - split; [| split]; [intros n Hn; left; apply Hsub, Hn | | ].
      + intros rp' Heq. discriminate Heq.
      + etransitivity; [exact Hcnt |]. apply genCountBits_mono.
        intros n Hn. rewrite Z.land_spec, Hn, (Hsub n Hn). reflexivity. }
  assert (Hid : (forall n, Z.testbit mask n = true -> Z.testbit mask n = true) /\
                (Nat.min mc (genCountBits mask) <= genCountBits mask)%nat) by (split; [tauto | lia]).
  destruct limit; unfold stressLimitRegs; fold mc.
  - split; [| split]; [intros n Hn; now left | | rewrite Z.land_diag; lia].
    intros Hne. exfalso. apply Hne. reflexivity.
  - destruct dbg.
    + destruct (Hm1 mask (proj1 Hid) (proj2 Hid)) as (A & B & C). auto.
    + destruct (getConstrainedRegMask_props mask cs mc) as [A B].
      destruct (Hm1 _ A B) as (A' & B' & C'). auto.
  - destruct (getConstrainedRegMask_props mask ct mc) as [A B].
    destruct (Hm1 _ A B) as (A' & B' & C'). auto.
  - destruct (negb (Z.land mask si =? RBM_NONE)).
    + destruct (getConstrainedRegMask_props mask si mc) as [A B].
      destruct (Hm1 _ A B) as (A' & B' & C'). auto.
    + destruct (negb (Z.land mask sf =? RBM_NONE)).
      * destruct (getConstrainedRegMask_props mask sf mc) as [A B].
        destruct (Hm1 _ A B) as (A' & B' & C'). auto.
      * destruct (Hm1 mask (proj1 Hid) (proj2 Hid)) as (A & B & C). auto.
Qed.

(** with [LSRA_BLOCK_BOUNDARY_ROTATE], a register location moves to
    the lowest candidate register above it, and wraps around to the
    lowest candidate when there is none above it.  With no candidate
    register at all, the assert that a candidate was found fails in a
    checked build, and a release build returns [REG_NA]. *)
Theorem rotateBlockStartLocation_next checked allRegsOfType availableRegs t
    (Hall : 0 <= allRegsOfType < 2 ^ 64) :
  let candidates := bitsOf (Z.land allRegsOfType availableRegs) in
  rotateBlockStartLocation checked true allRegsOfType (RegR t) availableRegs =
  match find (fun r => Nat.ltb t r) candidates with
  | Some r => Some (RegR r)
  | None => match candidates with
            | r :: _ => Some (RegR r)
            | [] => if checked then None else Some REG_NA
            end
  end.
Proof.
  cbv zeta. unfold rotateBlockStartLocation.
  assert (HM : Mask64 (Z.land allRegsOfType availableRegs)) by (apply Mask64_land_l, Mask64_range, Hall).
  rewrite (rotateLoop_pick 64 (RegR t) _ REG_NA HM (bitsOf_length _)).
  destruct (find (fun r => Nat.ltb t r) (bitsOf (Z.land allRegsOfType availableRegs))) as [r |] eqn:Hf.
  - pose proof (rotatePick_found (RegR t) _ REG_NA r Hf) as H.
    destruct (rotatePick (RegR t) _ REG_NA) as [a b]. cbn in H. subst a. reflexivity.
  - rewrite (rotatePick_none (RegR t) _ REG_NA Hf).
    destruct (bitsOf (Z.land allRegsOfType availableRegs)), checked; reflexivity.
Qed.

Lemma rotateBlockStartLocation_next_witness :
  (0 <= 255 < 2 ^ 64) /\
  rotateBlockStartLocation true true 255 (RegR 5%nat) 75 = Some (RegR 6%nat) /\
  rotateBlockStartLocation true true 255 (RegR 5%nat) 75 =
  match find (fun r => Nat.ltb 5 r) (bitsOf (Z.land 255 75)) with
  | Some r => Some (RegR r)
  | None => match bitsOf (Z.land 255 75) with
            | r :: _ => Some (RegR r)
            | [] => if true then None else Some REG_NA
            end
  end /\
  rotateBlockStartLocation true true 255 (RegR 5%nat) 0 = None.
Proof.
  split; [lia |]. split; [vm_compute; reflexivity |]. split.
  - apply (rotateBlockStartLocation_next true 255 75 5%nat); lia.
  - rewrite (rotateBlockStartLocation_next true 255 0 5%nat) by lia. vm_compute. reflexivity.
Defined.

End RegMaskOpsFacts.

Module RegisterFileFacts.
Import EdgeResolution EdgeResolutionFacts RegMaskOps RegMaskOpsFacts RegisterFile.

(** The fields no register-file operation writes. *)
Definition IvStatic (x y : Interval) : Prop :=
  iv_isLocalVar x = iv_isLocalVar y /\ iv_isConstant x = iv_isConstant y /\
  iv_isUpperVector x = iv_isUpperVector y /\ iv_relatedInterval x = iv_relatedInterval y /\
  iv_varIndex x = iv_varIndex y /\ iv_isGC x = iv_isGC y /\
  iv_firstRefPosition x = iv_firstRefPosition y /\ iv_recentRefPosition x = iv_recentRefPosition y.

Definition RpStatic (x y : RefPosition) : Prop :=
  rp_nodeLocation x = rp_nodeLocation y /\ rp_refType x = rp_refType y /\
  rp_nextRefPosition x = rp_nextRefPosition y.

Definition Static (st st' : LS) : Prop :=
  (forall i, IvStatic (interval st i) (interval st' i)) /\
  (forall r, RpStatic (refPos st r) (refPos st' r)) /\
  ls_curBBNum st = ls_curBBNum st' /\ ls_curBBStartLocation st = ls_curBBStartLocation st'.

Lemma Static_refl st : Static st st.
Proof. unfold Static, IvStatic, RpStatic. intuition. Qed.

Lemma Static_trans a b c : Static a b -> Static b c -> Static a c.
Proof.
  unfold Static, IvStatic, RpStatic. intros (H1 & H2 & H3 & H4) (G1 & G2 & G3 & G4).
  split; [| split; [| split; congruence]].
  - intros i. destruct (H1 i) as (? & ? & ? & ? & ? & ? & ? & ?).
    destruct (G1 i) as (? & ? & ? & ? & ? & ? & ? & ?). repeat split; congruence.
  - intros r. destruct (H2 r) as (? & ? & ?). destruct (G2 r) as (? & ? & ?).
    repeat split; congruence.
Qed.

Lemma Static_getNextRefPosition st st' i : Static st st' ->
  getNextRefPosition st' i = getNextRefPosition st i.
Proof.
  intros (H1 & H2 & _). unfold getNextRefPosition.
  destruct (H1 i) as (_ & _ & _ & _ & _ & _ & Hf & Hr). rewrite <- Hf, <- Hr.
  destruct (iv_recentRefPosition (interval st i)) as [r |]; [| reflexivity].
  destruct (H2 r) as (_ & _ & Hn). congruence.
Qed.

Ltac split_ifs :=
  repeat match goal with
  | |- context [if Nat.eqb ?a ?b then _ else _] => destruct (Nat.eqb_spec a b); [try subst |]
  end.

Ltac static_setter :=
  split; [| split; [| split]];
  [ intros j; cbn; unfold interval, upd; cbn; split_ifs; unfold IvStatic; cbn; intuition
  | intros j; cbn; unfold refPos, upd; cbn; split_ifs; unfold RpStatic; cbn; intuition
  | reflexivity | reflexivity ].

Lemma Static_setPhysReg st i v : Static st (setPhysReg st i v).
Proof. static_setter. Qed.
Lemma Static_setAssignedReg st i v : Static st (setAssignedReg st i v).
Proof. static_setter. Qed.
Lemma Static_setIsActive st i v : Static st (setIsActive st i v).
Proof. static_setter. Qed.
Lemma Static_setIsSpilled st i v : Static st (setIsSpilled st i v).
Proof. static_setter. Qed.
Lemma Static_setIsSplit st i v : Static st (setIsSplit st i v).
Proof. static_setter. Qed.
Lemma Static_setRegisterAssignment st r v : Static st (setRegisterAssignment st r v).
Proof. static_setter. Qed.
Lemma Static_setSpillAfter st r v : Static st (setSpillAfter st r v).
Proof. static_setter. Qed.
Lemma Static_setReg st r x : Static st (setReg st r x).
Proof. static_setter. Qed.
Lemma Static_updateAssignedInterval st r v : Static st (updateAssignedInterval st r v).
Proof. apply Static_setReg. Qed.
Lemma Static_updatePreviousInterval st r v : Static st (updatePreviousInterval st r v).
Proof. apply Static_setReg. Qed.
Lemma Static_addSplitOrSpilledVar st v : Static st (addSplitOrSpilledVar st v).
Proof. static_setter. Qed.
Lemma Static_setInVarRegForBB st b v l : Static st (setInVarRegForBB st b v l).
Proof. static_setter. Qed.
Lemma Static_rsSetRegsModified st m : Static st (rsSetRegsModified st m).
Proof. static_setter. Qed.


(** Reading back the stores. *)
Lemma interval_setInterval st i x j :
  interval (setInterval st i x) j = if Nat.eqb j i then x else interval st j.
Proof. reflexivity. Qed.
Lemma regRec_setReg st r x q :
  regRec (setReg st r x) q = if Nat.eqb q r then x else regRec st q.
Proof. reflexivity. Qed.
Lemma refPos_setRef st r x q :
  refPos (setRef st r x) q = if Nat.eqb q r then x else refPos st q.
Proof. reflexivity. Qed.
Lemma interval_setRef st r x q : interval (setRef st r x) q = interval st q.
Proof. reflexivity. Qed.
Lemma regRec_setRef st r x q : regRec (setRef st r x) q = regRec st q.
Proof. reflexivity. Qed.
Lemma sos_setRef st r x : ls_splitOrSpilledVars (setRef st r x) = ls_splitOrSpilledVars st.
Proof. reflexivity. Qed.
Lemma maps_setRef st r x : ls_inVarToRegMaps (setRef st r x) = ls_inVarToRegMaps st.
Proof. reflexivity. Qed.
Lemma curBBNum_setRef st r x : ls_curBBNum (setRef st r x) = ls_curBBNum st.
Proof. reflexivity. Qed.
Lemma curBBStart_setRef st r x : ls_curBBStartLocation (setRef st r x) = ls_curBBStartLocation st.
Proof. reflexivity. Qed.
Lemma regsModified_setRef st r x : ls_regsModified (setRef st r x) = ls_regsModified st.
Proof. reflexivity. Qed.
Lemma refPos_setInterval st i x q : refPos (setInterval st i x) q = refPos st q.
Proof. reflexivity. Qed.
Lemma regRec_setInterval st i x q : regRec (setInterval st i x) q = regRec st q.
Proof. reflexivity. Qed.
Lemma sos_setInterval st i x : ls_splitOrSpilledVars (setInterval st i x) = ls_splitOrSpilledVars st.
Proof. reflexivity. Qed.
Lemma maps_setInterval st i x : ls_inVarToRegMaps (setInterval st i x) = ls_inVarToRegMaps st.
Proof. reflexivity. Qed.
Lemma curBBNum_setInterval st i x : ls_curBBNum (setInterval st i x) = ls_curBBNum st.
Proof. reflexivity. Qed.
Lemma curBBStart_setInterval st i x : ls_curBBStartLocation (setInterval st i x) = ls_curBBStartLocation st.
Proof. reflexivity. Qed.
Lemma regsModified_setInterval st i x : ls_regsModified (setInterval st i x) = ls_regsModified st.
Proof. reflexivity. Qed.
Lemma refPos_setReg st r x q : refPos (setReg st r x) q = refPos st q.
Proof. reflexivity. Qed.
Lemma interval_setReg st r x q : interval (setReg st r x) q = interval st q.
Proof. reflexivity. Qed.
Lemma sos_setReg st r x : ls_splitOrSpilledVars (setReg st r x) = ls_splitOrSpilledVars st.
Proof. reflexivity. Qed.
Lemma maps_setReg st r x : ls_inVarToRegMaps (setReg st r x) = ls_inVarToRegMaps st.
Proof. reflexivity. Qed.
Lemma curBBNum_setReg st r x : ls_curBBNum (setReg st r x) = ls_curBBNum st.
Proof. reflexivity. Qed.
Lemma curBBStart_setReg st r x : ls_curBBStartLocation (setReg st r x) = ls_curBBStartLocation st.
Proof. reflexivity. Qed.
Lemma regsModified_setReg st r x : ls_regsModified (setReg st r x) = ls_regsModified st.
Proof. reflexivity. Qed.
Lemma refPos_addSplitOrSpilledVar st v q : refPos (addSplitOrSpilledVar st v) q = refPos st q.
Proof. reflexivity. Qed.
Lemma interval_addSplitOrSpilledVar st v q : interval (addSplitOrSpilledVar st v) q = interval st q.
Proof. reflexivity. Qed.
Lemma regRec_addSplitOrSpilledVar st v q : regRec (addSplitOrSpilledVar st v) q = regRec st q.
Proof. reflexivity. Qed.
Lemma maps_addSplitOrSpilledVar st v : ls_inVarToRegMaps (addSplitOrSpilledVar st v) = ls_inVarToRegMaps st.
Proof. reflexivity. Qed.
Lemma curBBNum_addSplitOrSpilledVar st v : ls_curBBNum (addSplitOrSpilledVar st v) = ls_curBBNum st.
Proof. reflexivity. Qed.
Lemma curBBStart_addSplitOrSpilledVar st v : ls_curBBStartLocation (addSplitOrSpilledVar st v) = ls_curBBStartLocation st.
Proof. reflexivity. Qed.
Lemma regsModified_addSplitOrSpilledVar st v : ls_regsModified (addSplitOrSpilledVar st v) = ls_regsModified st.
Proof. reflexivity. Qed.
Lemma refPos_setInVarRegForBB st b v l q : refPos (setInVarRegForBB st b v l) q = refPos st q.
Proof. reflexivity. Qed.
Lemma interval_setInVarRegForBB st b v l q : interval (setInVarRegForBB st b v l) q = interval st q.
Proof. reflexivity. Qed.
Lemma regRec_setInVarRegForBB st b v l q : regRec (setInVarRegForBB st b v l) q = regRec st q.
Proof. reflexivity. Qed.
Lemma sos_setInVarRegForBB st b v l : ls_splitOrSpilledVars (setInVarRegForBB st b v l) = ls_splitOrSpilledVars st.
Proof. reflexivity. Qed.
Lemma curBBNum_setInVarRegForBB st b v l : ls_curBBNum (setInVarRegForBB st b v l) = ls_curBBNum st.
Proof. reflexivity. Qed.
Lemma curBBStart_setInVarRegForBB st b v l : ls_curBBStartLocation (setInVarRegForBB st b v l) = ls_curBBStartLocation st.
Proof. reflexivity. Qed.
Lemma regsModified_setInVarRegForBB st b v l : ls_regsModified (setInVarRegForBB st b v l) = ls_regsModified st.
Proof. reflexivity. Qed.
Lemma refPos_rsSetRegsModified st m q : refPos (rsSetRegsModified st m) q = refPos st q.
Proof. reflexivity. Qed.
Lemma interval_rsSetRegsModified st m q : interval (rsSetRegsModified st m) q = interval st q.
Proof. reflexivity. Qed.
Lemma regRec_rsSetRegsModified st m q : regRec (rsSetRegsModified st m) q = regRec st q.
Proof. reflexivity. Qed.
Lemma sos_rsSetRegsModified st m : ls_splitOrSpilledVars (rsSetRegsModified st m) = ls_splitOrSpilledVars st.
Proof. reflexivity. Qed.
Lemma maps_rsSetRegsModified st m : ls_inVarToRegMaps (rsSetRegsModified st m) = ls_inVarToRegMaps st.
Proof. reflexivity. Qed.
Lemma curBBNum_rsSetRegsModified st m : ls_curBBNum (rsSetRegsModified st m) = ls_curBBNum st.
Proof. reflexivity. Qed.
Lemma curBBStart_rsSetRegsModified st m : ls_curBBStartLocation (rsSetRegsModified st m) = ls_curBBStartLocation st.
Proof. reflexivity. Qed.
Lemma sos_addSplitOrSpilledVar st v :
  ls_splitOrSpilledVars (addSplitOrSpilledVar st v) = maskSet v (ls_splitOrSpilledVars st).
Proof. reflexivity. Qed.
Lemma maps_setInVarRegForBB st b v l :
  ls_inVarToRegMaps (setInVarRegForBB st b v l) =
  upd (ls_inVarToRegMaps st) b (setVarReg (ls_inVarToRegMaps st b) v l).
Proof. reflexivity. Qed.
Lemma regsModified_rsSetRegsModified st m :
  ls_regsModified (rsSetRegsModified st m) = Z.lor (ls_regsModified st) m.
Proof. reflexivity. Qed.

Create Rewrite HintDb rf.
#[export] Hint Rewrite interval_setRef regRec_setRef sos_setRef maps_setRef curBBNum_setRef curBBStart_setRef regsModified_setRef refPos_setInterval regRec_setInterval sos_setInterval maps_setInterval curBBNum_setInterval curBBStart_setInterval regsModified_setInterval refPos_setReg interval_setReg sos_setReg maps_setReg curBBNum_setReg curBBStart_setReg regsModified_setReg refPos_addSplitOrSpilledVar interval_addSplitOrSpilledVar regRec_addSplitOrSpilledVar maps_addSplitOrSpilledVar curBBNum_addSplitOrSpilledVar curBBStart_addSplitOrSpilledVar regsModified_addSplitOrSpilledVar refPos_setInVarRegForBB interval_setInVarRegForBB regRec_setInVarRegForBB sos_setInVarRegForBB curBBNum_setInVarRegForBB curBBStart_setInVarRegForBB regsModified_setInVarRegForBB refPos_rsSetRegsModified interval_rsSetRegsModified regRec_rsSetRegsModified sos_rsSetRegsModified maps_rsSetRegsModified curBBNum_rsSetRegsModified curBBStart_rsSetRegsModified interval_setInterval regRec_setReg refPos_setRef sos_addSplitOrSpilledVar maps_setInVarRegForBB regsModified_rsSetRegsModified : rf.

Ltac rf := autorewrite with rf in *; cbn [iv_physReg iv_assignedReg iv_isActive iv_isSpilled iv_isSplit
  iv_isLocalVar iv_isConstant iv_isUpperVector iv_relatedInterval iv_varIndex iv_isGC
  iv_firstRefPosition iv_recentRefPosition rg_assignedInterval rg_previousInterval
  rg_isBusyUntilNextKill rp_nodeLocation rp_refType rp_nextRefPosition rp_delayRegFree rp_lastUse
  rp_regOptional rp_isActualRef rp_spillAfter rp_registerAssignment] in *.


Ltac eqbs :=
  repeat match goal with
  | H : context [Nat.eqb ?a ?b] |- _ => destruct (Nat.eqb_spec a b); [try subst |]
  | |- context [Nat.eqb ?a ?b] => destruct (Nat.eqb_spec a b); [try subst |]
  end.

(** The local intervals that are split or spilled have their variable
    in [splitOrSpilledVars]. *)
Definition SosInv (st : LS) : Prop :=
  forall j, iv_isLocalVar (interval st j) = true ->
    iv_isSplit (interval st j) = true \/ iv_isSpilled (interval st j) = true ->
    In (iv_varIndex (interval st j)) (ls_splitOrSpilledVars st).

(** Upper-vector intervals are not lclVar intervals. *)
Definition UpperOK (st : LS) : Prop :=
  forall j, iv_isUpperVector (interval st j) = true -> iv_isLocalVar (interval st j) = false.

(** What the spilling helpers leave alone: the register records, the
    [physReg]/[assignedReg] links and [rsModifiedRegsMask]; they only
    deactivate intervals and only add to [splitOrSpilledVars]. *)
Definition SpillFrame (st st' : LS) : Prop :=
  Static st st' /\ (forall r, regRec st' r = regRec st r) /\
  (forall j, iv_physReg (interval st' j) = iv_physReg (interval st j) /\
             iv_assignedReg (interval st' j) = iv_assignedReg (interval st j) /\
             (iv_isActive (interval st' j) = true -> iv_isActive (interval st j) = true)) /\
  ls_regsModified st' = ls_regsModified st /\
  (forall v, In v (ls_splitOrSpilledVars st) -> In v (ls_splitOrSpilledVars st')).

Lemma SpillFrame_refl st : SpillFrame st st.
Proof. repeat split; auto using Static_refl. Qed.

Lemma SpillFrame_trans a b c : SpillFrame a b -> SpillFrame b c -> SpillFrame a c.
Proof.
  intros (S1 & R1 & I1 & M1 & V1) (S2 & R2 & I2 & M2 & V2).
  split; [eapply Static_trans; eassumption |].
  split; [intros r; rewrite R2; apply R1 |].
  split; [| split; [congruence | auto]].
  intros j. destruct (I1 j) as (A1 & B1 & C1). destruct (I2 j) as (A2 & B2 & C2).
  repeat split; [congruence | congruence | auto].
Qed.

Ltac unfold_setters :=
  unfold setPhysReg, setAssignedReg, setIsActive, setIsSpilled, setIsSplit,
    setRegisterAssignment, setSpillAfter, updateAssignedInterval, updatePreviousInterval in *.

Lemma SpillFrame_setIsSpilled st i v : SpillFrame st (setIsSpilled st i v).
Proof.
  split; [apply Static_setIsSpilled |]. unfold_setters.
  repeat split; intros; rf; eqbs; auto.
Qed.

Lemma SpillFrame_setIsSplit st i v : SpillFrame st (setIsSplit st i v).
Proof.
  split; [apply Static_setIsSplit |]. unfold_setters.
  repeat split; intros; rf; eqbs; auto.
Qed.

Lemma SpillFrame_setIsActive_false st i : SpillFrame st (setIsActive st i false).
Proof.
  split; [apply Static_setIsActive |]. unfold_setters.
  repeat split; intros; rf; eqbs; auto; discriminate.
Qed.

Lemma SpillFrame_addSplitOrSpilledVar st v : SpillFrame st (addSplitOrSpilledVar st v).
Proof.
  split; [apply Static_addSplitOrSpilledVar |].
  repeat split; intros; rf; auto. apply In_maskSet; auto.
Qed.

Lemma SpillFrame_setInVarRegForBB st b v l : SpillFrame st (setInVarRegForBB st b v l).
Proof. split; [apply Static_setInVarRegForBB |]. repeat split; intros; rf; auto. Qed.

Lemma SpillFrame_setRegisterAssignment st r v : SpillFrame st (setRegisterAssignment st r v).
Proof. split; [apply Static_setRegisterAssignment |]. unfold_setters. repeat split; intros; rf; auto. Qed.

Lemma SpillFrame_setSpillAfter st r v : SpillFrame st (setSpillAfter st r v).
Proof. split; [apply Static_setSpillAfter |]. unfold_setters. repeat split; intros; rf; auto. Qed.

Lemma SpillFrame_setIntervalAsSpilled st i : SpillFrame st (setIntervalAsSpilled st i).
Proof.
  unfold setIntervalAsSpilled.
  destruct (iv_isUpperVector (interval st i)).
  - eapply SpillFrame_trans; [apply SpillFrame_setIsSpilled |].
    destruct (_ && _); [eapply SpillFrame_trans; [apply SpillFrame_addSplitOrSpilledVar |] |];
      apply SpillFrame_setIsSpilled.
  - destruct (_ && _); [eapply SpillFrame_trans; [apply SpillFrame_addSplitOrSpilledVar |] |];
      apply SpillFrame_setIsSpilled.
Qed.

Lemma SpillFrame_setIntervalAsSplit st i : SpillFrame st (setIntervalAsSplit st i).
Proof.
  unfold setIntervalAsSplit.
  destruct (_ && _); [eapply SpillFrame_trans; [apply SpillFrame_addSplitOrSpilledVar |] |];
    apply SpillFrame_setIsSplit.
Qed.

Lemma SpillFrame_spillInterval st i f t : SpillFrame st (spillInterval st i f t).
Proof.
  unfold spillInterval. cbv zeta.
  set (st1 := if negb (rp_lastUse _) then _ else _).
  assert (H1 : SpillFrame st st1).
  { subst st1. destruct (negb _); [| apply SpillFrame_refl].
    destruct (_ && _); [apply SpillFrame_setRegisterAssignment | apply SpillFrame_setSpillAfter]. }
  assert (H3 : SpillFrame st (setIntervalAsSpilled (setIsActive st1 i false) i)).
  { eapply SpillFrame_trans; [exact H1 |]. eapply SpillFrame_trans;
      [apply SpillFrame_setIsActive_false | apply SpillFrame_setIntervalAsSpilled]. }
  destruct (Nat.leb _ _); [| exact H3].
  eapply SpillFrame_trans; [exact H3 | apply SpillFrame_setInVarRegForBB].
Qed.

Lemma SosInv_setIntervalAsSpilled st i : UpperOK st -> SosInv st -> SosInv (setIntervalAsSpilled st i).
Proof.
  intros Hup Hinv. unfold setIntervalAsSpilled.
  destruct (iv_isUpperVector (interval st i)) eqn:Hu.
  - pose proof (Hup i Hu) as Hil.
    intros j. unfold_setters. destruct (_ && _) eqn:Hc; rf; eqbs; rf;
      intros Hl Hs; rewrite ?In_maskSet; try (rewrite Hil in Hl; discriminate Hl);
      try (rewrite Hil in Hc; discriminate Hc);
      try solve [left; reflexivity | right; apply Hinv; auto | apply Hinv; auto].
    all: apply Hinv; [assumption | right].
    all: destruct (iv_isSpilled _) eqn:E; [reflexivity |]; rewrite ?Hl, ?E in Hc; discriminate Hc.
  - intros j. unfold_setters. destruct (_ && _) eqn:Hc; rf; eqbs; rf;
      intros Hl Hs; rewrite ?In_maskSet;
      try solve [left; reflexivity | right; apply Hinv; auto | apply Hinv; auto].
    all: apply Hinv; [assumption | right].
    all: destruct (iv_isSpilled _) eqn:E; [reflexivity |]; rewrite ?Hl, ?E in Hc; discriminate Hc.
Qed.

Lemma SosInv_setIntervalAsSplit st i : SosInv st -> SosInv (setIntervalAsSplit st i).
Proof.
  intros Hinv j. unfold setIntervalAsSplit. unfold_setters.
  destruct (_ && _) eqn:Hc; rf; eqbs; rf; intros Hl Hs; rewrite ?In_maskSet;
    try solve [left; reflexivity | right; apply Hinv; auto | apply Hinv; auto].
  all: apply Hinv; [assumption | left].
  all: destruct (iv_isSplit _) eqn:E; [reflexivity |]; rewrite ?Hl, ?E in Hc; discriminate Hc.
Qed.

Lemma SosInv_frame st st' : SosInv st -> Static st st' ->
  (forall j, iv_isSplit (interval st' j) = iv_isSplit (interval st j)) ->
  (forall j, iv_isSpilled (interval st' j) = iv_isSpilled (interval st j)) ->
  (forall v, In v (ls_splitOrSpilledVars st) -> In v (ls_splitOrSpilledVars st')) ->
  SosInv st'.
Proof.
  intros Hinv (HS & _) Hsp Hsd Hv j Hl Hs. rewrite Hsp, Hsd in Hs.
  destruct (HS j) as (El & _ & _ & _ & Ev & _). rewrite <- Ev. rewrite <- El in Hl. auto.
Qed.

Lemma UpperOK_Static st st' : Static st st' -> UpperOK st -> UpperOK st'.
Proof.
  intros (HS & _) H j Hu. destruct (HS j) as (El & _ & Eu & _).
  rewrite <- El. apply H. congruence.
Qed.

Ltac sos_frame :=
  eapply SosInv_frame; [eassumption | first [apply Static_setIsActive | apply Static_setRegisterAssignment
    | apply Static_setSpillAfter | apply Static_setInVarRegForBB | apply Static_setPhysReg
    | apply Static_setAssignedReg | apply Static_setReg | apply Static_updateAssignedInterval
    | apply Static_updatePreviousInterval | apply Static_rsSetRegsModified] | | | ];
  intros; unfold_setters; rf; eqbs; auto.

Lemma SosInv_spillInterval st i f t : UpperOK st -> SosInv st -> SosInv (spillInterval st i f t).
Proof.
  intros Hup Hinv. unfold spillInterval. cbv zeta.
  set (st1 := if negb (rp_lastUse _) then _ else _).
  assert (H1 : SosInv st1 /\ Static st st1).
  { subst st1. destruct (negb _); [| split; [exact Hinv | apply Static_refl]].
    destruct (_ && _); split; try sos_frame;
      first [apply Static_setRegisterAssignment | apply Static_setSpillAfter]. }
  destruct H1 as [H1 HS1].
  assert (H2 : SosInv (setIsActive st1 i false)) by sos_frame.
  assert (H3 : SosInv (setIntervalAsSpilled (setIsActive st1 i false) i)).
  { apply SosInv_setIntervalAsSpilled; [| exact H2].
    eapply UpperOK_Static; [| eapply UpperOK_Static; [exact HS1 | exact Hup]]. apply Static_setIsActive. }
  destruct (Nat.leb _ _); [sos_frame | exact H3].
Qed.

Lemma optReg_eqb_spec a r : optReg_eqb a r = true <-> a = Some r.
Proof.
  destruct a as [x |]; cbn; [rewrite Nat.eqb_eq; split; congruence | split; discriminate].
Qed.

Lemma unassignPhysReg_spec st reg s a :
  rg_assignedInterval (regRec st reg) = Some a ->
  let st' := unassignPhysReg st reg s in
  let ph := iv_physReg (interval st a) in
  Static st st' /\
  (forall q, q <> reg -> regRec st' q = regRec st q) /\
  (forall j, j <> a -> iv_physReg (interval st' j) = iv_physReg (interval st j) /\
                       iv_assignedReg (interval st' j) = iv_assignedReg (interval st j)) /\
  iv_physReg (interval st' a) = (match ph with Some r => if Nat.eqb r reg then None else ph | None => None end) /\
  (iv_physReg (interval st' a) <> None -> iv_assignedReg (interval st' a) = iv_assignedReg (interval st a)) /\
  (forall j, iv_isActive (interval st' j) = true -> iv_isActive (interval st j) = true) /\
  ls_regsModified st' = ls_regsModified st /\
  (forall v, In v (ls_splitOrSpilledVars st) -> In v (ls_splitOrSpilledVars st')) /\
  (rg_assignedInterval (regRec st' reg) = None \/
   exists p, rg_previousInterval (regRec st reg) = Some p /\ p <> a /\
     rg_assignedInterval (regRec st' reg) = Some p /\ rg_previousInterval (regRec st' reg) = None /\
     iv_assignedReg (interval st p) = Some reg /\ getNextRefPosition st p <> None).
Proof.
  intros Ha. cbv zeta. unfold unassignPhysReg. rewrite Ha.
  unfold checkAndClearInterval.
  set (st1 := updateAssignedInterval st reg None).
  assert (E1 : Static st st1) by apply Static_updateAssignedInterval.
  assert (Rq1 : forall q, q <> reg -> regRec st1 q = regRec st q).
  { intros q Hq. subst st1. unfold_setters. rf. eqbs; [congruence | reflexivity]. }
  assert (R1 : rg_assignedInterval (regRec st1 reg) = None /\
               rg_previousInterval (regRec st1 reg) = rg_previousInterval (regRec st reg)).
  { subst st1. unfold_setters. rf. rewrite Nat.eqb_refl. cbn. split; reflexivity. }
  assert (I1 : forall j, interval st1 j = interval st j) by (intros; subst st1; unfold_setters; rf; reflexivity).
  assert (O1 : ls_regsModified st1 = ls_regsModified st /\ ls_splitOrSpilledVars st1 = ls_splitOrSpilledVars st)
    by (subst st1; unfold_setters; rf; split; reflexivity).
  rewrite !I1. set (ph := iv_physReg (interval st a)).
  destruct (negb (optReg_eqb ph reg) && match ph with Some _ => true | None => false end) eqn:Hret.
  - (* the interval lives in another register: only the record is cleared *)
    apply andb_prop in Hret as [Hne Hsome]. apply negb_true_iff in Hne.
    split; [exact E1 |]. split; [exact Rq1 |].
    split; [intros j _; rewrite I1; split; reflexivity |].
    split.
    { rewrite I1. fold ph. destruct ph as [r |]; [| discriminate Hsome].
      destruct (Nat.eqb_spec r reg); [subst; cbn in Hne; rewrite Nat.eqb_refl in Hne; discriminate Hne | reflexivity]. }
    split; [intros _; rewrite I1; reflexivity |].
    split; [intros j; rewrite I1; auto |].
    split; [apply O1 |]. split; [rewrite (proj2 O1); auto |].
    left. apply R1.
  - assert (Hph : match ph with Some r => if Nat.eqb r reg then None else ph | None => None end = None).
    { destruct ph as [r |]; [| reflexivity]. cbn in Hret.
      destruct (Nat.eqb_spec r reg); [reflexivity | discriminate Hret]. }
    rewrite Hph.
    set (nr := match s with Some s0 => rp_nextRefPosition (refPos st1 s0) | None => None end).
    set (st2 := setPhysReg st1 a None).
    assert (F2 : Static st st2 /\ (forall q, regRec st2 q = regRec st1 q) /\
                 (forall j, j <> a -> iv_physReg (interval st2 j) = iv_physReg (interval st j) /\
                                      iv_assignedReg (interval st2 j) = iv_assignedReg (interval st j)) /\
                 iv_physReg (interval st2 a) = None /\
                 (forall j, iv_isActive (interval st2 j) = iv_isActive (interval st j)) /\
                 (forall j, iv_assignedReg (interval st2 j) = iv_assignedReg (interval st j)) /\
                 ls_regsModified st2 = ls_regsModified st /\
                 ls_splitOrSpilledVars st2 = ls_splitOrSpilledVars st).
    { subst st2. split; [eapply Static_trans; [exact E1 | apply Static_setPhysReg] |].
      unfold setPhysReg.
      split; [intros q; rf; reflexivity |].
      split; [intros j Hj; rf; eqbs; [congruence | rewrite !I1; split; reflexivity] |].
      split; [rf; rewrite Nat.eqb_refl; reflexivity |].
      split; [intros j; rf; eqbs; rf; rewrite ?I1; reflexivity |].
      split; [intros j; rf; eqbs; rf; rewrite ?I1; reflexivity |].
      rf; exact O1. }
    destruct F2 as (S2 & Rg2 & Ph2 & Pa2 & Ac2 & As2 & M2 & V2).
    set (st3 := if iv_isActive (interval st2 a) && match nr with Some _ => true | None => false end
                then match s with
                     | Some s0 => match nr with Some n => spillInterval st2 a s0 n | None => st2 end
                     | None => st2 end
                else st2).
    assert (F3 : SpillFrame st2 st3).
    { subst st3. clearbody nr.
      destruct (iv_isActive (interval st2 a) && match nr with Some _ => true | None => false end);
        [| apply SpillFrame_refl].
      destruct s as [s0 |]; [| apply SpillFrame_refl].
      destruct nr as [n |]; [apply SpillFrame_spillInterval | apply SpillFrame_refl]. }
    destruct F3 as (S3 & Rg3 & I3 & M3 & V3).
    assert (S03 : Static st st3) by (eapply Static_trans; eassumption).
    assert (Rq3 : forall q, q <> reg -> regRec st3 q = regRec st q).
    { intros q Hq. rewrite Rg3, Rg2. apply Rq1, Hq. }
    assert (Ph3 : forall j, j <> a -> iv_physReg (interval st3 j) = iv_physReg (interval st j) /\
                                     iv_assignedReg (interval st3 j) = iv_assignedReg (interval st j)).
    { intros j Hj. destruct (I3 j) as (A & B & _). destruct (Ph2 j Hj). split; congruence. }
    assert (Pa3 : iv_physReg (interval st3 a) = None) by (destruct (I3 a) as (A & _); congruence).
    assert (Ac3 : forall j, iv_isActive (interval st3 j) = true -> iv_isActive (interval st j) = true).
    { intros j H. destruct (I3 j) as (_ & _ & C). rewrite <- Ac2. auto. }
    assert (M03 : ls_regsModified st3 = ls_regsModified st) by congruence.
    assert (V03 : forall v, In v (ls_splitOrSpilledVars st) -> In v (ls_splitOrSpilledVars st3)).
    { intros v Hv. apply V3. rewrite V2. exact Hv. }
    assert (R3 : rg_assignedInterval (regRec st3 reg) = None /\
                 rg_previousInterval (regRec st3 reg) = rg_previousInterval (regRec st reg)).
    { rewrite Rg3, Rg2. exact R1. }
    destruct nr as [n |].
    + (* more references: the interval keeps this register as its assignedReg *)
      split; [eapply Static_trans; [exact S03 | apply Static_setAssignedReg] |].
      unfold setAssignedReg.
      split; [intros q Hq; rf; apply Rq3, Hq |].
      split; [intros j Hj; rf; eqbs; [congruence | apply Ph3, Hj] |].
      split; [rf; rewrite Nat.eqb_refl; exact Pa3 |].
      split; [rf; rewrite Nat.eqb_refl; rf; rewrite Pa3; intros Hne0; exfalso; apply Hne0; reflexivity |].
      split; [intros j; rf; eqbs; rf; apply Ac3 |].
      split; [rf; exact M03 |]. split; [intros v Hv; rf; auto |]. left. rf. apply R3.
    + destruct (canRestorePreviousInterval st3 reg a) eqn:Hc.
      * (* the remembered interval is restored *)
        split; [eapply Static_trans; [exact S03 | apply Static_setReg] |].
        split; [intros q Hq; rf; eqbs; try congruence; apply Rq3, Hq |].
        split; [intros j Hj; rf; apply Ph3, Hj |]. split; [rf; exact Pa3 |].
        split; [rf; rewrite Pa3; intros Hne0; exfalso; apply Hne0; reflexivity |].
        split; [intros j; rf; apply Ac3 |]. split; [rf; exact M03 |]. split; [intros v Hv; rf; auto |].
        right. rf. rewrite Nat.eqb_refl. rf.
        unfold canRestorePreviousInterval in Hc. rewrite (proj2 R3) in Hc.
        destruct (rg_previousInterval (regRec st reg)) as [p |] eqn:Hp; [| discriminate Hc].
        apply andb_prop in Hc as [Hc Hn]. apply andb_prop in Hc as [Hpa Hr].
        apply negb_true_iff, Nat.eqb_neq in Hpa.
        exists p. split; [reflexivity |]. split; [exact Hpa |].
        split; [exact (proj2 R3) |]. split; [reflexivity |]. split.
        -- destruct (Ph3 p Hpa) as [_ B]. rewrite <- B. apply optReg_eqb_spec, Hr.
        -- rewrite (Static_getNextRefPosition st st3 p S03) in Hn.
           destruct (getNextRefPosition st p); [discriminate | discriminate Hn].
      * split; [eapply Static_trans; [exact S03 | eapply Static_trans;
                 [apply Static_updateAssignedInterval | apply Static_updatePreviousInterval]] |].
        unfold_setters.
        split; [intros q Hq; rf; eqbs; try congruence; apply Rq3, Hq |].
        split; [intros j Hj; rf; apply Ph3, Hj |]. split; [rf; exact Pa3 |].
        split; [rf; rewrite Pa3; intros Hne0; exfalso; apply Hne0; reflexivity |].
        split; [intros j; rf; apply Ac3 |]. split; [rf; exact M03 |]. split; [intros v Hv; rf; auto |].
        left. rf. rewrite Nat.eqb_refl. reflexivity.
Qed.

Definition Good (st : LS) : Prop := SosInv st /\ UpperOK st.

Lemma Good_frame st st' : Good st -> Static st st' ->
  (forall j, iv_isSplit (interval st' j) = iv_isSplit (interval st j)) ->
  (forall j, iv_isSpilled (interval st' j) = iv_isSpilled (interval st j)) ->
  (forall v, In v (ls_splitOrSpilledVars st) -> In v (ls_splitOrSpilledVars st')) ->
  Good st'.
Proof.
  intros [H1 H2] HS Hs1 Hs2 Hv. split; [eapply SosInv_frame; eassumption | eapply UpperOK_Static; eassumption].
Qed.

Ltac good_frame :=
  eapply Good_frame; [eassumption | first [apply Static_setIsActive | apply Static_setPhysReg
    | apply Static_setAssignedReg | apply Static_setReg | apply Static_updateAssignedInterval
    | apply Static_updatePreviousInterval | apply Static_rsSetRegsModified] | | | ];
  intros; unfold_setters; rf; eqbs; auto.

Lemma Good_setReg st r x : Good st -> Good (setReg st r x).
Proof. intros. good_frame. Qed.
Lemma Good_updateAssignedInterval st r x : Good st -> Good (updateAssignedInterval st r x).
Proof. intros. good_frame. Qed.
Lemma Good_updatePreviousInterval st r x : Good st -> Good (updatePreviousInterval st r x).
Proof. intros. good_frame. Qed.
Lemma Good_setPhysReg st i x : Good st -> Good (setPhysReg st i x).
Proof. intros. good_frame. Qed.
Lemma Good_setAssignedReg st i x : Good st -> Good (setAssignedReg st i x).
Proof. intros. good_frame. Qed.
Lemma Good_setIsActive st i x : Good st -> Good (setIsActive st i x).
Proof. intros. good_frame. Qed.
Lemma Good_rsSetRegsModified st m : Good st -> Good (rsSetRegsModified st m).
Proof. intros. good_frame. Qed.
Lemma Good_setInVarRegForBB st b v l : Good st -> Good (setInVarRegForBB st b v l).
Proof.
  intros H. eapply Good_frame; [exact H | apply Static_setInVarRegForBB | | |]; intros; rf; auto.
Qed.
Lemma Good_spillInterval st i f t : Good st -> Good (spillInterval st i f t).
Proof.
  intros [H1 H2]. split; [apply SosInv_spillInterval; assumption |].
  eapply UpperOK_Static; [| exact H2]. apply (proj1 (SpillFrame_spillInterval st i f t)).
Qed.
Lemma Good_setIntervalAsSpilled st i : Good st -> Good (setIntervalAsSpilled st i).
Proof.
  intros [H1 H2]. split; [apply SosInv_setIntervalAsSpilled; assumption |].
  eapply UpperOK_Static; [| exact H2]. apply (proj1 (SpillFrame_setIntervalAsSpilled st i)).
Qed.
Lemma Good_setIntervalAsSplit st i : Good st -> Good (setIntervalAsSplit st i).
Proof.
  intros [H1 H2]. split; [apply SosInv_setIntervalAsSplit; assumption |].
  eapply UpperOK_Static; [| exact H2]. apply (proj1 (SpillFrame_setIntervalAsSplit st i)).
Qed.

Ltac good :=
  repeat match goal with
  | |- Good (if ?c then _ else _) => destruct c
  | |- Good (match ?x with _ => _ end) => destruct x
  | |- Good (let _ := _ in _) => cbv zeta
  | |- Good (setReg _ _ _) => apply Good_setReg
  | |- Good (updateAssignedInterval _ _ _) => apply Good_updateAssignedInterval
  | |- Good (updatePreviousInterval _ _ _) => apply Good_updatePreviousInterval
  | |- Good (setPhysReg _ _ _) => apply Good_setPhysReg
  | |- Good (setAssignedReg _ _ _) => apply Good_setAssignedReg
  | |- Good (setIsActive _ _ _) => apply Good_setIsActive
  | |- Good (rsSetRegsModified _ _) => apply Good_rsSetRegsModified
  | |- Good (spillInterval _ _ _ _) => apply Good_spillInterval
  | |- Good (checkAndClearInterval _ _ _) => unfold checkAndClearInterval
  end; try assumption.

Lemma Good_unassignPhysReg st reg s : Good st -> Good (unassignPhysReg st reg s).
Proof. intros H. unfold unassignPhysReg. good. Qed.

(** Every interval's [physReg] holds it, is its [assignedReg], and has
    been reported to [rsSetRegsModified]. *)
Definition RegInv (st : LS) : Prop :=
  forall j r, iv_physReg (interval st j) = Some r ->
    rg_assignedInterval (regRec st r) = Some j /\ iv_assignedReg (interval st j) = Some r /\
    Z.testbit (ls_regsModified st) (Z.of_nat r) = true.

Lemma RegInv_frame st st' : RegInv st ->
  (forall j r, iv_physReg (interval st' j) = Some r -> iv_physReg (interval st j) = Some r /\
     iv_assignedReg (interval st' j) = iv_assignedReg (interval st j)) ->
  (forall r, rg_assignedInterval (regRec st' r) = rg_assignedInterval (regRec st r)) ->
  ls_regsModified st' = ls_regsModified st ->
  RegInv st'.
Proof.
  intros H Hp Hr Hm j r Hj. rewrite Hr, Hm. destruct (Hp j r Hj) as [A B]. rewrite B. apply H, A.
Qed.

Lemma RegInv_SpillFrame st st' : RegInv st -> SpillFrame st st' -> RegInv st'.
Proof.
  intros H (_ & Hr & Hi & Hm & _). apply (RegInv_frame st); auto.
  - intros j r Hj. destruct (Hi j) as [A [B _]]. split; congruence.
  - intros r. rewrite Hr. reflexivity.
Qed.

Lemma RegInv_setIsActive st i v : RegInv st -> RegInv (setIsActive st i v).
Proof.
  intros H. apply (RegInv_frame st); [exact H | | |]; intros; unfold_setters; rf; eqbs; rf; auto.
Qed.

Lemma RegInv_unassignPhysReg st reg s : RegInv st -> RegInv (unassignPhysReg st reg s).
Proof.
  intros H. destruct (rg_assignedInterval (regRec st reg)) as [a |] eqn:Ha;
    [| unfold unassignPhysReg; rewrite Ha; exact H].
  destruct (unassignPhysReg_spec st reg s a Ha) as (_ & Rq & Ph & Pa & Pas & _ & Hm & _ & Hreg).
  intros j r Hj. rewrite Hm.
  assert (Hold : iv_physReg (interval st j) = Some r /\ r <> reg /\
     iv_assignedReg (interval (unassignPhysReg st reg s) j) = iv_assignedReg (interval st j)).
  { destruct (Nat.eq_dec j a) as [-> | Hja].
    - rewrite Pas by congruence. rewrite Pa in Hj.
      destruct (iv_physReg (interval st a)) as [r' |] eqn:Hr'; [| discriminate Hj].
      destruct (Nat.eqb_spec r' reg); [discriminate Hj | injection Hj as <-; auto].
    - destruct (Ph j Hja) as [A B]. rewrite A in Hj. split; [exact Hj |]. split; [| exact B].
      intros ->. destruct (H j reg Hj) as [C _]. congruence. }
  destruct Hold as (Hold & Hne & Has). rewrite Rq by exact Hne. rewrite Has. apply H, Hold.
Qed.

End RegisterFileFacts.

Module RegisterFileInvariants.
Import EdgeResolution EdgeResolutionFacts RegMaskOps RegMaskOpsFacts RegisterFile RegisterFileFacts.

Lemma RegInv_setInVarRegForBB st b v l : RegInv st -> RegInv (setInVarRegForBB st b v l).
Proof. intros H. eapply RegInv_SpillFrame; [exact H | apply SpillFrame_setInVarRegForBB]. Qed.
Lemma RegInv_spillInterval st i f t : RegInv st -> RegInv (spillInterval st i f t).
Proof. intros H. eapply RegInv_SpillFrame; [exact H | apply SpillFrame_spillInterval]. Qed.
Lemma RegInv_setIntervalAsSpilled st i : RegInv st -> RegInv (setIntervalAsSpilled st i).
Proof. intros H. eapply RegInv_SpillFrame; [exact H | apply SpillFrame_setIntervalAsSpilled]. Qed.
Lemma RegInv_setIntervalAsSplit st i : RegInv st -> RegInv (setIntervalAsSplit st i).
Proof. intros H. eapply RegInv_SpillFrame; [exact H | apply SpillFrame_setIntervalAsSplit]. Qed.
Lemma RegInv_setPhysReg_None st i : RegInv st -> RegInv (setPhysReg st i None).
Proof.
  intros H. apply (RegInv_frame st); [exact H | | |]; intros; unfold_setters; rf; eqbs; rf; auto; discriminate.
Qed.

Ltac rinv :=
  repeat match goal with
  | |- RegInv (if ?c then _ else _) => destruct c
  | |- RegInv (match ?x with _ => _ end) => destruct x
  | |- RegInv (let _ := _ in _) => cbv zeta
  | |- RegInv (setIsActive _ _ _) => apply RegInv_setIsActive
  | |- RegInv (unassignPhysReg _ _ _) => apply RegInv_unassignPhysReg
  | |- RegInv (setInVarRegForBB _ _ _ _) => apply RegInv_setInVarRegForBB
  | |- RegInv (spillInterval _ _ _ _) => apply RegInv_spillInterval
  | |- RegInv (setPhysReg _ _ None) => apply RegInv_setPhysReg_None
  end; try assumption.

Ltac ginv :=
  repeat match goal with
  | |- Good (if ?c then _ else _) => destruct c
  | |- Good (match ?x with _ => _ end) => destruct x
  | |- Good (let _ := _ in _) => cbv zeta
  | |- Good (setReg _ _ _) => apply Good_setReg
  | |- Good (updateAssignedInterval _ _ _) => apply Good_updateAssignedInterval
  | |- Good (updatePreviousInterval _ _ _) => apply Good_updatePreviousInterval
  | |- Good (setPhysReg _ _ _) => apply Good_setPhysReg
  | |- Good (setAssignedReg _ _ _) => apply Good_setAssignedReg
  | |- Good (setIsActive _ _ _) => apply Good_setIsActive
  | |- Good (rsSetRegsModified _ _) => apply Good_rsSetRegsModified
  | |- Good (setInVarRegForBB _ _ _ _) => apply Good_setInVarRegForBB
  | |- Good (spillInterval _ _ _ _) => apply Good_spillInterval
  | |- Good (unassignPhysReg _ _ _) => apply Good_unassignPhysReg
  end; try assumption.

Lemma Good_unassignPhysRegRec st reg : Good st -> Good (unassignPhysRegRec st reg).
Proof. intros H. unfold unassignPhysRegRec. ginv. Qed.
Lemma RegInv_unassignPhysRegRec st reg : RegInv st -> RegInv (unassignPhysRegRec st reg).
Proof. intros H. unfold unassignPhysRegRec. rinv. Qed.
Lemma Good_unassignPhysRegNoSpill st reg : Good st -> Good (unassignPhysRegNoSpill st reg).
Proof. intros H. unfold unassignPhysRegNoSpill. ginv. Qed.
Lemma RegInv_unassignPhysRegNoSpill st reg : RegInv st -> RegInv (unassignPhysRegNoSpill st reg).
Proof. intros H. unfold unassignPhysRegNoSpill. rinv. Qed.
Lemma Good_freeRegister st reg : Good st -> Good (freeRegister st reg).
Proof. intros H. unfold freeRegister. ginv. Qed.
Lemma RegInv_freeRegister st reg : RegInv st -> RegInv (freeRegister st reg).
Proof. intros H. unfold freeRegister. rinv. Qed.
Lemma Good_spillGCRef st reg : Good st -> Good (spillGCRef st reg).
Proof. intros H. unfold spillGCRef. ginv. Qed.
Lemma RegInv_spillGCRef st reg : RegInv st -> RegInv (spillGCRef st reg).
Proof. intros H. unfold spillGCRef. rinv. Qed.

Lemma Good_freeRegistersLoop f st m : Good st -> Good (freeRegistersLoop f st m).
Proof.
  revert st m. induction f as [| f IH]; intros st m H; cbn; [exact H |].
  destruct (Z.eqb m RBM_NONE); [exact H |]. apply IH, Good_freeRegister, H.
Qed.
Lemma RegInv_freeRegistersLoop f st m : RegInv st -> RegInv (freeRegistersLoop f st m).
Proof.
  revert st m. induction f as [| f IH]; intros st m H; cbn; [exact H |].
  destruct (Z.eqb m RBM_NONE); [exact H |]. apply IH, RegInv_freeRegister, H.
Qed.
Lemma Good_spillGCRefsLoop f st m : Good st -> Good (spillGCRefsLoop f st m).
Proof.
  revert st m. induction f as [| f IH]; intros st m H; cbn; [exact H |].
  destruct (Z.eqb m RBM_NONE); [exact H |]. apply IH, Good_spillGCRef, H.
Qed.
Lemma RegInv_spillGCRefsLoop f st m : RegInv st -> RegInv (spillGCRefsLoop f st m).
Proof.
  revert st m. induction f as [| f IH]; intros st m H; cbn; [exact H |].
  destruct (Z.eqb m RBM_NONE); [exact H |]. apply IH, RegInv_spillGCRef, H.
Qed.
Lemma Good_freeRegisters st m : Good st -> Good (freeRegisters st m).
Proof. intros H. unfold freeRegisters. destruct (Z.eqb _ _); [exact H | apply Good_freeRegistersLoop, H]. Qed.
Lemma RegInv_freeRegisters st m : RegInv st -> RegInv (freeRegisters st m).
Proof. intros H. unfold freeRegisters. destruct (Z.eqb _ _); [exact H | apply RegInv_freeRegistersLoop, H]. Qed.
Lemma Good_spillGCRefs st k : Good st -> Good (spillGCRefs st k).
Proof. intros H. apply Good_spillGCRefsLoop, H. Qed.
Lemma RegInv_spillGCRefs st k : RegInv st -> RegInv (spillGCRefs st k).
Proof. intros H. apply RegInv_spillGCRefsLoop, H. Qed.

Lemma unassignPhysReg_clears st reg s : RegInv st ->
  forall j, iv_physReg (interval (unassignPhysReg st reg s) j) <> Some reg.
Proof.
  intros H j Hj. destruct (rg_assignedInterval (regRec st reg)) as [a |] eqn:Ha.
  - destruct (unassignPhysReg_spec st reg s a Ha) as (_ & _ & Ph & Pa & _).
    destruct (Nat.eq_dec j a) as [-> | Hja].
    + rewrite Pa in Hj. destruct (iv_physReg (interval st a)) as [r |]; [| discriminate Hj].
      destruct (Nat.eqb_spec r reg); [discriminate Hj | congruence].
    + destruct (Ph j Hja) as [A _]. rewrite A in Hj. destruct (H j reg Hj) as [B _]. congruence.
  - unfold unassignPhysReg in Hj. rewrite Ha in Hj. destruct (H j reg Hj) as [B _]. congruence.
Qed.

Lemma RegInv_updateAssignedInterval st reg v : RegInv st ->
  (forall j, iv_physReg (interval st j) = Some reg -> v = Some j) ->
  RegInv (updateAssignedInterval st reg v).
Proof.
  intros H Hv j r Hj. unfold_setters. rf. destruct (H j r Hj) as (A & B & C).
  eqbs; rf; auto.
Qed.

Lemma unassignPhysReg_regsModified st reg s :
  ls_regsModified (unassignPhysReg st reg s) = ls_regsModified st.
Proof.
  destruct (rg_assignedInterval (regRec st reg)) as [a |] eqn:Ha.
  - apply (unassignPhysReg_spec st reg s a Ha).
  - unfold unassignPhysReg. rewrite Ha. reflexivity.
Qed.

Lemma checkAndAssignInterval_spec st reg i : RegInv st ->
  let st' := checkAndAssignInterval st reg i in
  RegInv st' /\ rg_assignedInterval (regRec st' reg) = Some i /\
  ls_regsModified st' = ls_regsModified st.
Proof.
  intros H. cbv zeta. unfold checkAndAssignInterval.
  destruct (rg_assignedInterval (regRec st reg)) as [a |] eqn:Ha.
  - destruct (Nat.eqb_spec a i) as [<- | Hai]; cbn [negb].
    + split; [apply RegInv_updateAssignedInterval; [exact H |] |].
      * intros j Hj. destruct (H j reg Hj) as [A _]. congruence.
      * unfold_setters; rf; rewrite Nat.eqb_refl; split; reflexivity.
    + set (st1 := if optReg_eqb _ reg then setPhysReg st a None else st).
      assert (H1 : RegInv st1 /\ rg_assignedInterval (regRec st1 reg) = Some a /\
                   ls_regsModified st1 = ls_regsModified st).
      { subst st1. destruct (optReg_eqb _ _); [| auto].
        split; [apply RegInv_setPhysReg_None, H |]. unfold_setters; rf; auto. }
      destruct H1 as (H1 & Ha1 & M1).
      assert (E : unassignPhysRegRec st1 reg = unassignPhysReg st1 reg (iv_recentRefPosition (interval st1 a)))
        by (unfold unassignPhysRegRec; rewrite Ha1; reflexivity).
      rewrite E. split; [apply RegInv_updateAssignedInterval; [apply RegInv_unassignPhysReg, H1 |] |].
      * intros j Hj. exfalso. exact (unassignPhysReg_clears st1 reg _ H1 j Hj).
      * unfold_setters; rf; rewrite Nat.eqb_refl; split; [reflexivity |].
        rewrite unassignPhysReg_regsModified. exact M1.
  - split; [apply RegInv_updateAssignedInterval; [exact H |] |].
    + intros j Hj. destruct (H j reg Hj) as [A _]. congruence.
    + unfold_setters; rf; rewrite Nat.eqb_refl; split; reflexivity.
Qed.

Lemma testbit_genRegMask reg : Z.testbit (genRegMask reg) (Z.of_nat reg) = true.
Proof.
  unfold genRegMask. rewrite Z.shiftl_spec by lia. rewrite Z.sub_diag. reflexivity.
Qed.

Lemma RegInv_rsSetRegsModified st m : RegInv st -> RegInv (rsSetRegsModified st m).
Proof.
  intros H j r Hj. rf. destruct (H j r Hj) as (A & B & C). rewrite Z.lor_spec, C. auto.
Qed.

Lemma RegInv_assignPhysReg st reg i : RegInv st -> RegInv (assignPhysReg st reg i).
Proof.
  intros H. unfold assignPhysReg. cbv zeta.
  set (st1 := rsSetRegsModified st (genRegMask reg)).
  assert (H1 : RegInv st1) by apply RegInv_rsSetRegsModified, H.
  assert (B1 : Z.testbit (ls_regsModified st1) (Z.of_nat reg) = true).
  { subst st1. rf. rewrite Z.lor_spec, testbit_genRegMask. apply orb_true_r. }
  destruct (checkAndAssignInterval_spec st1 reg i H1) as (H2 & A2 & M2).
  set (st2 := checkAndAssignInterval st1 reg i) in *.
  apply RegInv_setIsActive.
  intros j r Hj. unfold_setters. rf.
  destruct (Nat.eqb_spec j i) as [-> | Hji]; rf.
  - injection Hj as <-. rewrite A2, M2, Nat.eqb_refl. cbn. auto.
  - destruct (H2 j r Hj) as (A & B & C). auto.
Qed.

Lemma Good_checkAndAssignInterval st reg i : Good st -> Good (checkAndAssignInterval st reg i).
Proof.
  intros H. unfold checkAndAssignInterval. apply Good_updateAssignedInterval.
  ginv; apply Good_unassignPhysRegRec; ginv.
Qed.

Lemma Good_assignPhysReg st reg i : Good st -> Good (assignPhysReg st reg i).
Proof.
  intros H. unfold assignPhysReg. ginv. apply Good_checkAndAssignInterval. ginv.
Qed.

Lemma Good_unassignIntervalBlockStart st reg m : Good st -> Good (unassignIntervalBlockStart st reg m).
Proof. intros H. unfold unassignIntervalBlockStart. ginv. Qed.

Lemma RegInv_unassignIntervalBlockStart st reg m : RegInv st -> RegInv (unassignIntervalBlockStart st reg m).
Proof.
  intros H. unfold unassignIntervalBlockStart.
  destruct (rg_assignedInterval (regRec st reg)) as [a |] eqn:Ha; [| exact H].
  destruct (isAssignedToInterval st a reg) eqn:Hia; [rinv |].
  apply RegInv_updateAssignedInterval; [exact H |].
  intros j Hj. destruct (H j reg Hj) as (A & B & _). rewrite Ha in A. injection A as <-.
  unfold isAssignedToInterval in Hia. rewrite B in Hia. cbn in Hia. rewrite Nat.eqb_refl in Hia. discriminate Hia.
Qed.

End RegisterFileInvariants.

Module RegisterFileOutcomes.
Import EdgeResolution EdgeResolutionFacts RegMaskOps RegMaskOpsFacts RegisterFile RegisterFileFacts RegisterFileInvariants.

(** What a step without spilling leaves alone: the split and spilled
    flags, the RefPositions, [splitOrSpilledVars] and the
    [inVarToRegMaps]. *)
Definition NoSpill (st st' : LS) : Prop :=
  (forall j, iv_isSpilled (interval st' j) = iv_isSpilled (interval st j) /\
             iv_isSplit (interval st' j) = iv_isSplit (interval st j)) /\
  (forall r, refPos st' r = refPos st r) /\
  ls_splitOrSpilledVars st' = ls_splitOrSpilledVars st /\
  ls_inVarToRegMaps st' = ls_inVarToRegMaps st.

Lemma NoSpill_refl st : NoSpill st st.
Proof. repeat split; auto. Qed.

Lemma NoSpill_trans a b c : NoSpill a b -> NoSpill b c -> NoSpill a c.
Proof.
  intros (A1 & B1 & C1 & D1) (A2 & B2 & C2 & D2).
  split; [| split; [intros r; rewrite B2; apply B1 | split; congruence]].
  intros j. destruct (A1 j), (A2 j). split; congruence.
Qed.

Ltac nospill_step := intros (A & B & C & D); unfold_setters;
  repeat split; intros; rf; eqbs; rf; try apply A; auto.

Lemma NoSpill_setPhysReg st st' i v : NoSpill st st' -> NoSpill st (setPhysReg st' i v).
Proof. nospill_step. Qed.
Lemma NoSpill_setAssignedReg st st' i v : NoSpill st st' -> NoSpill st (setAssignedReg st' i v).
Proof. nospill_step. Qed.
Lemma NoSpill_setIsActive st st' i v : NoSpill st st' -> NoSpill st (setIsActive st' i v).
Proof. nospill_step. Qed.
Lemma NoSpill_setReg st st' r x : NoSpill st st' -> NoSpill st (setReg st' r x).
Proof. nospill_step. Qed.
Lemma NoSpill_updateAssignedInterval st st' r v : NoSpill st st' -> NoSpill st (updateAssignedInterval st' r v).
Proof. intros H. apply NoSpill_setReg, H. Qed.
Lemma NoSpill_updatePreviousInterval st st' r v : NoSpill st st' -> NoSpill st (updatePreviousInterval st' r v).
Proof. intros H. apply NoSpill_setReg, H. Qed.

Lemma unassignPhysReg_nospill st reg s a :
  rg_assignedInterval (regRec st reg) = Some a ->
  (iv_isActive (interval st a) = false \/
   match s with Some s0 => rp_nextRefPosition (refPos st s0) | None => None end = None) ->
  NoSpill st (unassignPhysReg st reg s).
Proof.
  intros Ha Hc. unfold unassignPhysReg. rewrite Ha. cbv zeta. unfold checkAndClearInterval.
  assert (E : match s with Some s0 => rp_nextRefPosition (refPos (updateAssignedInterval st reg None) s0)
              | None => None end = match s with Some s0 => rp_nextRefPosition (refPos st s0) | None => None end)
    by (destruct s; unfold_setters; rf; reflexivity).
  rewrite E. clear E.
  assert (E : iv_isActive (interval (setPhysReg (updateAssignedInterval st reg None) a None) a) =
              iv_isActive (interval st a))
    by (unfold_setters; rf; rewrite Nat.eqb_refl; reflexivity).
  rewrite E. clear E.
  set (nr := match s with Some s0 => rp_nextRefPosition (refPos st s0) | None => None end) in *.
  assert (Hsp : iv_isActive (interval st a) && match nr with Some _ => true | None => false end = false).
  { destruct Hc as [-> | ->]; [reflexivity | apply andb_false_r]. }
  rewrite Hsp.
  match goal with |- NoSpill _ (if ?c then _ else _) => destruct c end.
  - apply NoSpill_updateAssignedInterval, NoSpill_refl.
  - destruct nr.
    + apply NoSpill_setAssignedReg, NoSpill_setPhysReg, NoSpill_updateAssignedInterval, NoSpill_refl.
    + destruct (canRestorePreviousInterval _ _ _).
      * apply NoSpill_setReg, NoSpill_setPhysReg, NoSpill_updateAssignedInterval, NoSpill_refl.
      * apply NoSpill_updatePreviousInterval, NoSpill_updateAssignedInterval,
          NoSpill_setPhysReg, NoSpill_updateAssignedInterval, NoSpill_refl.
Qed.

Lemma setIntervalAsSpilled_post st i :
  let st' := setIntervalAsSpilled st i in
  iv_isSpilled (interval st' i) = true /\
  iv_isSpilled (interval st' (if iv_isUpperVector (interval st i) then iv_relatedInterval (interval st i) else i)) = true /\
  iv_isActive (interval st' i) = iv_isActive (interval st i) /\
  (forall r, refPos st' r = refPos st r) /\
  ls_inVarToRegMaps st' = ls_inVarToRegMaps st /\
  ls_curBBNum st' = ls_curBBNum st /\ ls_curBBStartLocation st' = ls_curBBStartLocation st /\
  iv_varIndex (interval st' i) = iv_varIndex (interval st i).
Proof.
  cbv zeta. unfold setIntervalAsSpilled.
  destruct (iv_isUpperVector (interval st i)) eqn:Hu.
  - set (rel := iv_relatedInterval (interval st i)).
    match goal with |- context [if ?c then addSplitOrSpilledVar _ _ else _] => destruct c end;
      unfold_setters; rf; eqbs; rf; repeat split; intros; rf; auto; congruence.
  - match goal with |- context [if ?c then addSplitOrSpilledVar _ _ else _] => destruct c end;
      unfold_setters; rf; eqbs; rf; repeat split; intros; rf; auto; congruence.
Qed.

Lemma spillInterval_post st i f t :
  let st' := spillInterval st i f t in
  iv_isActive (interval st' i) = false /\ iv_isSpilled (interval st' i) = true /\
  iv_isSpilled (interval st' (if iv_isUpperVector (interval st i) then iv_relatedInterval (interval st i) else i)) = true /\
  (rp_lastUse (refPos st f) = false ->
     rp_spillAfter (refPos st' f) = true \/ rp_registerAssignment (refPos st' f) = RBM_NONE) /\
  ((rp_nodeLocation (refPos st f) <= ls_curBBStartLocation st)%nat ->
     getVarReg (ls_inVarToRegMaps st' (ls_curBBNum st)) (iv_varIndex (interval st i)) = REG_STK).
Proof.
  cbv zeta. unfold spillInterval. cbv zeta.
  set (st1 := if negb (rp_lastUse _) then _ else _).
  assert (R1 : rp_lastUse (refPos st f) = false ->
               rp_spillAfter (refPos st1 f) = true \/ rp_registerAssignment (refPos st1 f) = RBM_NONE).
  { intros Hl. subst st1. rewrite Hl. cbn [negb].
    match goal with |- context [if ?c then _ else _] => destruct c end;
      unfold_setters; rf; rewrite Nat.eqb_refl; rf; auto. }
  assert (S1 : Static st st1).
  { subst st1. destruct (negb _); [| apply Static_refl].
    match goal with |- context [if ?c then _ else _] => destruct c end;
      [apply Static_setRegisterAssignment | apply Static_setSpillAfter]. }
  assert (I1 : forall j, interval st1 j = interval st j).
  { intros j. subst st1. destruct (negb _); [| reflexivity].
    match goal with |- context [if ?c then _ else _] => destruct c end; unfold_setters; rf; reflexivity. }
  assert (C1 : ls_curBBNum st1 = ls_curBBNum st /\ ls_curBBStartLocation st1 = ls_curBBStartLocation st /\
               ls_inVarToRegMaps st1 = ls_inVarToRegMaps st).
  { subst st1. destruct (negb _); [| auto].
    match goal with |- context [if ?c then _ else _] => destruct c end; unfold_setters; rf; auto. }
  clearbody st1.
  set (st2 := setIsActive st1 i false).
  destruct (setIntervalAsSpilled_post st2 i) as (P1 & P2 & P3 & P4 & P5 & P6 & P7 & P8).
  set (st3 := setIntervalAsSpilled st2 i) in *.
  assert (U2 : iv_isUpperVector (interval st2 i) = iv_isUpperVector (interval st i) /\
               iv_relatedInterval (interval st2 i) = iv_relatedInterval (interval st i) /\
               iv_isActive (interval st2 i) = false /\ iv_varIndex (interval st2 i) = iv_varIndex (interval st i) /\
               (forall r, refPos st2 r = refPos st1 r) /\ ls_inVarToRegMaps st2 = ls_inVarToRegMaps st1 /\
               ls_curBBNum st2 = ls_curBBNum st1 /\ ls_curBBStartLocation st2 = ls_curBBStartLocation st1).
  { subst st2. unfold_setters. rf. rewrite Nat.eqb_refl. rf. rewrite !I1. repeat split; auto. }
  destruct U2 as (U1 & U2 & U3 & U4 & U5 & U6 & U7 & U8).
  rewrite U1, U2 in P2. rewrite U3 in P3.
  destruct C1 as (C1a & C1b & C1c).
  assert (Hrest : forall st4, (forall j, interval st4 j = interval st3 j) -> (forall r, refPos st4 r = refPos st3 r) ->
      iv_isActive (interval st4 i) = false /\ iv_isSpilled (interval st4 i) = true /\
      iv_isSpilled (interval st4 (if iv_isUpperVector (interval st i) then iv_relatedInterval (interval st i) else i)) = true /\
      (rp_lastUse (refPos st f) = false ->
         rp_spillAfter (refPos st4 f) = true \/ rp_registerAssignment (refPos st4 f) = RBM_NONE)).
  { intros st4 Hi Hr. rewrite !Hi, !Hr, P4, U5. split; [exact P3 |]. split; [exact P1 |]. split; [exact P2 | exact R1]. }
  destruct (Nat.leb_spec (rp_nodeLocation (refPos st f)) (ls_curBBStartLocation st3)) as [Hle | Hgt].
  - destruct (Hrest (setInVarRegForBB st3 (ls_curBBNum st3) (iv_varIndex (interval st3 i)) REG_STK))
      as (Q1 & Q2 & Q3 & Q4); [intros; rf; reflexivity | intros; rf; reflexivity |].
    repeat split; auto.
    intros _. rf. rewrite P6, U7, C1a, P8, U4. unfold getVarReg, upd, setVarReg. rewrite !Nat.eqb_refl. reflexivity.
  - destruct (Hrest st3) as (Q1 & Q2 & Q3 & Q4); [reflexivity | reflexivity |].
    repeat split; auto.
    intros Hle. exfalso. rewrite P7, U8, C1b in Hgt. lia.
Qed.

(** When [unassignPhysReg] is given a spill RefPosition [s] and the
    register's interval is active and referenced again after [s], the
    register is emptied, the interval loses its [physReg] but keeps its
    [assignedReg], becomes inactive and spilled (and so does its related
    interval for an upper vector), [s] is marked [spillAfter] (or its
    register assignment cleared) unless it is a last use, and a spill at
    or before the start of the current block sets the variable to the
    stack in the current block's inVarToRegMap. *)
Theorem unassignPhysReg_spill st reg a s n :
  rg_assignedInterval (regRec st reg) = Some a ->
  iv_physReg (interval st a) = Some reg \/ iv_physReg (interval st a) = None ->
  iv_isActive (interval st a) = true ->
  rp_nextRefPosition (refPos st s) = Some n ->
  let st' := unassignPhysReg st reg (Some s) in
  let tgt := if iv_isUpperVector (interval st a) then iv_relatedInterval (interval st a) else a in
  rg_assignedInterval (regRec st' reg) = None /\
  iv_physReg (interval st' a) = None /\ iv_assignedReg (interval st' a) = Some reg /\
  iv_isActive (interval st' a) = false /\
  iv_isSpilled (interval st' a) = true /\ iv_isSpilled (interval st' tgt) = true /\
  (rp_lastUse (refPos st s) = false ->
     rp_spillAfter (refPos st' s) = true \/ rp_registerAssignment (refPos st' s) = RBM_NONE) /\
  ((rp_nodeLocation (refPos st s) <= ls_curBBStartLocation st)%nat ->
     getVarReg (ls_inVarToRegMaps st' (ls_curBBNum st)) (iv_varIndex (interval st a)) = REG_STK).
Proof.
  intros Ha Hph Hact Hn. cbv zeta. unfold unassignPhysReg. rewrite Ha. cbv zeta.
  unfold checkAndClearInterval.
  set (st1 := updateAssignedInterval st reg None).
  assert (I1 : forall j, interval st1 j = interval st j) by (intros; subst st1; unfold_setters; rf; reflexivity).
  assert (P1 : forall r, refPos st1 r = refPos st r) by (intros; subst st1; unfold_setters; rf; reflexivity).
  assert (R1 : rg_assignedInterval (regRec st1 reg) = None)
    by (subst st1; unfold_setters; rf; rewrite Nat.eqb_refl; reflexivity).
  assert (C1 : ls_curBBNum st1 = ls_curBBNum st /\ ls_curBBStartLocation st1 = ls_curBBStartLocation st)
    by (subst st1; unfold_setters; rf; auto).
  rewrite !I1, P1, Hn.
  assert (Hret : negb (optReg_eqb (iv_physReg (interval st a)) reg)
                 && match iv_physReg (interval st a) with Some _ => true | None => false end = false)
    by (destruct Hph as [E | E]; rewrite E; cbn; rewrite ?Nat.eqb_refl; reflexivity).
  rewrite Hret.
  set (st2 := setPhysReg st1 a None).
  assert (A2 : iv_isActive (interval st2 a) = true /\ iv_physReg (interval st2 a) = None /\
               iv_isUpperVector (interval st2 a) = iv_isUpperVector (interval st a) /\
               iv_relatedInterval (interval st2 a) = iv_relatedInterval (interval st a) /\
               iv_varIndex (interval st2 a) = iv_varIndex (interval st a) /\
               (forall r, refPos st2 r = refPos st r) /\ rg_assignedInterval (regRec st2 reg) = None /\
               ls_curBBNum st2 = ls_curBBNum st /\ ls_curBBStartLocation st2 = ls_curBBStartLocation st).
  { subst st2. unfold setPhysReg. rf. rewrite Nat.eqb_refl. rf. rewrite !I1. repeat split; intros; rf; auto; apply C1. }
  destruct A2 as (A1 & A2 & A3 & A4 & A5 & A6 & A7 & A8 & A9).
  rewrite A1. cbn [andb].
  destruct (spillInterval_post st2 a s n) as (Q1 & Q2 & Q3 & Q4 & Q5).
  destruct (SpillFrame_spillInterval st2 a s n) as (_ & F2 & F3 & _).
  rewrite A3, A4 in Q3. rewrite !A6 in Q4. rewrite A6, A8, A9, A5 in Q5.
  set (st3 := spillInterval st2 a s n) in *.
  unfold setAssignedReg. rf. rewrite !Nat.eqb_refl. rf.
  split; [rewrite F2; exact A7 |].
  split; [rewrite (proj1 (F3 a)); exact A2 |].
  split; [reflexivity |]. split; [exact Q1 |]. split; [exact Q2 |].
  split; [destruct (iv_isUpperVector (interval st a)); [| rewrite Nat.eqb_refl; exact Q2];
          destruct (Nat.eqb_spec (iv_relatedInterval (interval st a)) a) as [E | E]; rf;
          [rewrite E in Q3 |]; exact Q3 |].
  split; [exact Q4 |].
  intros Hle. exact (Q5 Hle).
Qed.

Lemma unassignPhysReg_releases st reg s a :
  rg_assignedInterval (regRec st reg) = Some a ->
  let st' := unassignPhysReg st reg s in
  rg_assignedInterval (regRec st' reg) <> Some a /\ iv_physReg (interval st' a) <> Some reg /\
  (forall j, iv_isActive (interval st' j) = true -> iv_isActive (interval st j) = true) /\
  (forall q, q <> reg -> regRec st' q = regRec st q) /\ Static st st'.
Proof.
  intros Ha. cbv zeta.
  destruct (unassignPhysReg_spec st reg s a Ha) as (S & Rq & _ & Pa & _ & Ac & _ & _ & Hreg).
  split; [| split; [| split; [exact Ac | split; [exact Rq | exact S]]]].
  - destruct Hreg as [-> | (p & _ & Hpa & -> & _)]; [discriminate | congruence].
  - rewrite Pa. destruct (iv_physReg (interval st a)) as [r |]; [| discriminate].
    destruct (Nat.eqb_spec r reg); [discriminate | congruence].
Qed.

(** When the register's interval is inactive, or no RefPosition follows
    the given one, [unassignPhysReg] frees the register from the interval
    without spilling: the interval is no longer in the register, and no
    split or spilled flag, RefPosition, [splitOrSpilledVars] or
    inVarToRegMap changes. *)
Theorem unassignPhysReg_without_spill st reg s a :
  rg_assignedInterval (regRec st reg) = Some a ->
  iv_isActive (interval st a) = false \/
  match s with Some s0 => rp_nextRefPosition (refPos st s0) | None => None end = None ->
  let st' := unassignPhysReg st reg s in
  rg_assignedInterval (regRec st' reg) <> Some a /\ iv_physReg (interval st' a) <> Some reg /\
  (forall j, iv_isSpilled (interval st' j) = iv_isSpilled (interval st j) /\
             iv_isSplit (interval st' j) = iv_isSplit (interval st j)) /\
  (forall r, refPos st' r = refPos st r) /\
  ls_splitOrSpilledVars st' = ls_splitOrSpilledVars st /\
  ls_inVarToRegMaps st' = ls_inVarToRegMaps st.
Proof.
  intros Ha Hc. cbv zeta.
  destruct (unassignPhysReg_releases st reg s a Ha) as (R1 & R2 & _).
  split; [exact R1 | split; [exact R2 | exact (unassignPhysReg_nospill st reg s a Ha Hc)]].
Qed.

(** On targets other than ARM32, [unassignPhysRegNoSpill] frees the
    register from its interval, and that interval stays active; the other registers, the split and
    spilled flags, the RefPositions, [splitOrSpilledVars] and the
    inVarToRegMaps do not change. *)
Theorem unassignPhysRegNoSpill_outcome st reg a :
  rg_assignedInterval (regRec st reg) = Some a ->
  let st' := unassignPhysRegNoSpill st reg in
  iv_isActive (interval st' a) = true /\
  rg_assignedInterval (regRec st' reg) <> Some a /\ iv_physReg (interval st' a) <> Some reg /\
  (forall q, q <> reg -> regRec st' q = regRec st q) /\
  (forall j, iv_isSpilled (interval st' j) = iv_isSpilled (interval st j) /\
             iv_isSplit (interval st' j) = iv_isSplit (interval st j)) /\
  (forall r, refPos st' r = refPos st r) /\
  ls_splitOrSpilledVars st' = ls_splitOrSpilledVars st /\
  ls_inVarToRegMaps st' = ls_inVarToRegMaps st.
Proof.
  intros Ha. cbv zeta. unfold unassignPhysRegNoSpill. rewrite Ha. cbv zeta.
  set (st1 := setIsActive st a false).
  assert (Ha1 : rg_assignedInterval (regRec st1 reg) = Some a) by (subst st1; unfold_setters; rf; exact Ha).
  destruct (unassignPhysReg_releases st1 reg None a Ha1) as (R1 & R2 & _ & R4 & _).
  assert (N : NoSpill st (unassignPhysReg st1 reg None)).
  { apply (NoSpill_trans st st1); [apply NoSpill_setIsActive, NoSpill_refl |].
    exact (unassignPhysReg_nospill st1 reg None a Ha1 (or_intror eq_refl)). }
  set (st2 := unassignPhysReg st1 reg None) in *.
  assert (Ereg : forall q, regRec (setIsActive st2 a true) q = regRec st2 q)
    by (intros; unfold_setters; rf; reflexivity).
  split; [unfold_setters; rf; rewrite Nat.eqb_refl; reflexivity |].
  split; [rewrite Ereg; exact R1 |].
  split; [unfold setIsActive; rf; rewrite Nat.eqb_refl; rf; exact R2 |].
  split; [intros q Hq; rewrite Ereg, (R4 q Hq); subst st1; unfold_setters; rf; reflexivity |].
  exact (NoSpill_setIsActive st st2 a true N).
Qed.

(** On targets other than ARM32, [freeRegister] deactivates the
    register's interval; the register
    keeps it exactly when the interval is a constant or its next
    RefPosition is not a def; nothing is spilled, and the other
    registers do not change. *)
Theorem freeRegister_outcome st reg a :
  rg_assignedInterval (regRec st reg) = Some a ->
  let st' := freeRegister st reg in
  iv_isActive (interval st' a) = false /\
  (rg_assignedInterval (regRec st' reg) = Some a <->
     iv_isConstant (interval st a) = true \/
     exists n, getNextRefPosition st a = Some n /\ RefTypeIsDef (rp_refType (refPos st n)) = false) /\
  (forall q, q <> reg -> regRec st' q = regRec st q) /\
  (forall j, iv_isSpilled (interval st' j) = iv_isSpilled (interval st j) /\
             iv_isSplit (interval st' j) = iv_isSplit (interval st j)) /\
  (forall r, refPos st' r = refPos st r) /\
  ls_splitOrSpilledVars st' = ls_splitOrSpilledVars st /\
  ls_inVarToRegMaps st' = ls_inVarToRegMaps st.
Proof.
  intros Ha. cbv zeta. unfold freeRegister. rewrite Ha. cbv zeta.
  set (st1 := setIsActive st a false).
  assert (N1 : NoSpill st st1) by apply NoSpill_setIsActive, NoSpill_refl.
  assert (S1 : Static st st1) by apply Static_setIsActive.
  assert (Ha1 : rg_assignedInterval (regRec st1 reg) = Some a) by (subst st1; unfold_setters; rf; exact Ha).
  assert (G1 : forall q, regRec st1 q = regRec st q) by (intros; subst st1; unfold_setters; rf; reflexivity).
  assert (A1 : iv_isActive (interval st1 a) = false /\ iv_isConstant (interval st1 a) = iv_isConstant (interval st a))
    by (subst st1; unfold_setters; rf; rewrite Nat.eqb_refl; rf; auto).
  destruct A1 as [A1 K1].
  assert (P1 : forall r, refPos st1 r = refPos st r) by apply N1.
  rewrite K1, (Static_getNextRefPosition st st1 a S1).
  assert (Hun : let st' := unassignPhysReg st1 reg None in
      iv_isActive (interval st' a) = false /\ rg_assignedInterval (regRec st' reg) <> Some a /\
      (forall q, q <> reg -> regRec st' q = regRec st q) /\ NoSpill st st').
  { cbv zeta. destruct (unassignPhysReg_releases st1 reg None a Ha1) as (R1 & _ & R3 & R4 & _).
    split; [destruct (iv_isActive (interval (unassignPhysReg st1 reg None) a)) eqn:E;
            [rewrite (R3 a E) in A1; discriminate A1 | reflexivity] |].
    split; [exact R1 |]. split; [intros q Hq; rewrite R4, G1 by exact Hq; reflexivity |].
    apply (NoSpill_trans st st1); [exact N1 |].
    exact (unassignPhysReg_nospill st1 reg None a Ha1 (or_intror eq_refl)). }
  cbv zeta in Hun. destruct Hun as (U1 & U2 & U3 & U4).
  assert (Hkeep : iv_isActive (interval st1 a) = false /\
      (rg_assignedInterval (regRec st1 reg) = Some a <-> True) /\
      (forall q, q <> reg -> regRec st1 q = regRec st q) /\ NoSpill st st1).
  { split; [exact A1 |]. split; [split; auto |]. split; [intros; apply G1 | exact N1]. }
  destruct (iv_isConstant (interval st a)) eqn:Hk; cbn [negb].
  - destruct Hkeep as (B1 & B2 & B3 & B4). split; [exact B1 |].
    split; [split; auto |]. split; [exact B3 | exact B4].
  - destruct (getNextRefPosition st a) as [n |] eqn:Hn.
    + rewrite P1. destruct (RefTypeIsDef (rp_refType (refPos st n))) eqn:Hd.
      * split; [exact U1 |].
        split; [split; [intros E; exfalso; exact (U2 E) |] |].
        { intros [E | (n' & E1 & E2)]; [discriminate E |]. injection E1 as <-. congruence. }
        split; [exact U3 | exact U4].
      * destruct Hkeep as (B1 & B2 & B3 & B4). split; [exact B1 |].
        split; [split; [intros _; right; exists n; auto | intros _; exact Ha1] |].
        split; [exact B3 | exact B4].
    + split; [exact U1 |].
      split; [split; [intros E; exfalso; exact (U2 E) |] |].
      { intros [E | (n' & E1 & E2)]; [discriminate E | discriminate E1]. }
      split; [exact U3 | exact U4].
Qed.

Lemma freeRegistersLoop_fold fuel : forall st m, Mask64 m -> (length (bitsOf m) <= fuel)%nat ->
  freeRegistersLoop fuel st m = fold_left freeRegister (bitsOf m) st.
Proof.
  induction fuel as [| f IH]; intros st m HM Hl.
  - destruct (bitsOf m) eqn:Hb; [reflexivity | cbn in Hl; lia].
  - cbn [freeRegistersLoop]. destruct (Z.eqb_spec m RBM_NONE) as [-> | Hne].
    + reflexivity.
    + destruct (bitsOf m) as [| k rest] eqn:Hb.
      { exfalso. apply Hne, bitsOf_nil; assumption. }
      destruct (lowestBit_step m k rest HM Hb) as (E1 & E2 & E3 & E4).
      rewrite E1, E2. cbn [fold_left]. rewrite <- E4. apply IH; [exact E3 |].
      rewrite E4. cbn in Hl. lia.
Qed.

Lemma spillGCRefsLoop_fold fuel : forall st m, Mask64 m -> (length (bitsOf m) <= fuel)%nat ->
  spillGCRefsLoop fuel st m = fold_left spillGCRef (bitsOf m) st.
Proof.
  induction fuel as [| f IH]; intros st m HM Hl.
  - destruct (bitsOf m) eqn:Hb; [reflexivity | cbn in Hl; lia].
  - cbn [spillGCRefsLoop]. destruct (Z.eqb_spec m RBM_NONE) as [-> | Hne].
    + reflexivity.
    + destruct (bitsOf m) as [| k rest] eqn:Hb.
      { exfalso. apply Hne, bitsOf_nil; assumption. }
      destruct (lowestBit_step m k rest HM Hb) as (E1 & E2 & E3 & E4).
      rewrite E1, E2. cbn [fold_left]. rewrite <- E4. apply IH; [exact E3 |].
      rewrite E4. cbn in Hl. lia.
Qed.

Lemma freeRegister_other st reg q : q <> reg -> regRec (freeRegister st reg) q = regRec st q.
Proof.
  intros Hq. unfold freeRegister.
  destruct (rg_assignedInterval (regRec st reg)) as [a |] eqn:Ha; [| reflexivity]. cbv zeta.
  assert (Ha1 : rg_assignedInterval (regRec (setIsActive st a false) reg) = Some a)
    by (unfold_setters; rf; exact Ha).
  assert (G : regRec (setIsActive st a false) q = regRec st q) by (unfold_setters; rf; reflexivity).
  destruct (unassignPhysReg_releases (setIsActive st a false) reg None a Ha1) as (_ & _ & _ & R4 & _).
  repeat match goal with |- context [if ?c then _ else _] => destruct c end;
    try destruct (getNextRefPosition _ _); try destruct (RefTypeIsDef _);
    rewrite ?R4 by exact Hq; exact G.
Qed.

Lemma fold_freeRegister_other l : forall st q, ~ In q l ->
  regRec (fold_left freeRegister l st) q = regRec st q.
Proof.
  induction l as [| r l IH]; intros st q Hq; [reflexivity |]. cbn [fold_left].
  rewrite IH by (intros H; apply Hq; right; exact H).
  apply freeRegister_other. intros ->. apply Hq. left. reflexivity.
Qed.

(** On targets other than ARM32, for a 64-bit mask, [freeRegisters]
    frees the registers of the mask one at a time from the lowest; a register outside the mask keeps
    its record. *)
Theorem freeRegisters_fold st m :
  0 <= m < 2 ^ 64 ->
  freeRegisters st m = fold_left freeRegister (bitsOf m) st /\
  (forall q, Z.testbit m (Z.of_nat q) = false -> regRec (freeRegisters st m) q = regRec st q).
Proof.
  intros Hm. pose proof (Mask64_range m Hm) as HM.
  assert (E : freeRegisters st m = fold_left freeRegister (bitsOf m) st).
  { unfold freeRegisters. destruct (Z.eqb_spec m RBM_NONE) as [-> | _].
    - reflexivity.
    - apply freeRegistersLoop_fold; [exact HM | apply bitsOf_length]. }
  split; [exact E |]. intros q Hq. rewrite E. apply fold_freeRegister_other.
  intros Hi. apply (proj1 (In_bitsOf m q)) in Hi as [_ Ht]. congruence.
Qed.

(** A register holds no interval that is both active and of a GC type. *)
Definition NoLiveGC (st : LS) (r : regNumber) : Prop :=
  forall a, rg_assignedInterval (regRec st r) = Some a ->
    iv_isActive (interval st a) = false \/ iv_isGC (interval st a) = false.

(** The interval a register remembers is not both active and of a GC type. *)
Definition PrevNoLiveGC (st : LS) (r : regNumber) : Prop :=
  forall p, rg_previousInterval (regRec st r) = Some p ->
    iv_isActive (interval st p) = false \/ iv_isGC (interval st p) = false.

Lemma spillGCRef_frame st x :
  let st' := spillGCRef st x in
  (forall q, q <> x -> regRec st' q = regRec st q) /\
  (forall j, iv_isActive (interval st' j) = true -> iv_isActive (interval st j) = true) /\
  Static st st'.
Proof.
  cbv zeta. unfold spillGCRef.
  destruct (rg_assignedInterval (regRec st x)) as [a |] eqn:Ha; [| split; [auto | split; [auto | apply Static_refl]]].
  destruct (_ || _); [split; [auto | split; [auto | apply Static_refl]] |].
  destruct (unassignPhysReg_releases st x (iv_recentRefPosition (interval st a)) a Ha) as (_ & _ & R3 & R4 & R5).
  auto.
Qed.

Lemma NoLiveGC_frame st st' r :
  rg_assignedInterval (regRec st' r) = rg_assignedInterval (regRec st r) ->
  (forall j, iv_isActive (interval st' j) = true -> iv_isActive (interval st j) = true) ->
  Static st st' -> NoLiveGC st r -> NoLiveGC st' r.
Proof.
  intros Hr Ha (HS & _) H a Hra. rewrite Hr in Hra. destruct (HS a) as (_ & _ & _ & _ & _ & Eg & _).
  rewrite <- Eg. destruct (H a Hra) as [E | E]; [left | right; exact E].
  destruct (iv_isActive (interval st' a)) eqn:E'; [| reflexivity]. rewrite (Ha a E') in E. exact E.
Qed.

Lemma PrevNoLiveGC_frame st st' r :
  rg_previousInterval (regRec st' r) = rg_previousInterval (regRec st r) ->
  (forall j, iv_isActive (interval st' j) = true -> iv_isActive (interval st j) = true) ->
  Static st st' -> PrevNoLiveGC st r -> PrevNoLiveGC st' r.
Proof.
  intros Hr Ha (HS & _) H a Hra. rewrite Hr in Hra. destruct (HS a) as (_ & _ & _ & _ & _ & Eg & _).
  rewrite <- Eg. destruct (H a Hra) as [E | E]; [left | right; exact E].
  destruct (iv_isActive (interval st' a)) eqn:E'; [| reflexivity]. rewrite (Ha a E') in E. exact E.
Qed.

Lemma spillGCRef_clears st x : PrevNoLiveGC st x -> NoLiveGC (spillGCRef st x) x.
Proof.
  intros Hp. unfold spillGCRef.
  destruct (rg_assignedInterval (regRec st x)) as [a |] eqn:Ha; [| intros b Hb; rewrite Ha in Hb; discriminate Hb].
  destruct (negb (iv_isActive (interval st a)) || negb (iv_isGC (interval st a))) eqn:Hc.
  - intros b Hb. rewrite Ha in Hb. injection Hb as <-.
    apply orb_true_iff in Hc as [Hc | Hc]; apply negb_true_iff in Hc; auto.
  - destruct (unassignPhysReg_spec st x (iv_recentRefPosition (interval st a)) a Ha)
      as (S & _ & _ & _ & _ & Ac & _ & _ & Hreg).
    intros b Hb. destruct Hreg as [E | (p & Ep & _ & E & _)]; rewrite E in Hb; [discriminate Hb |].
    injection Hb as <-. destruct (S) as (HS & _). destruct (HS p) as (_ & _ & _ & _ & _ & Eg & _).
    rewrite <- Eg. destruct (Hp p Ep) as [E1 | E1]; [left | right; exact E1].
    destruct (iv_isActive (interval (unassignPhysReg st x (iv_recentRefPosition (interval st a))) p)) eqn:E';
      [| reflexivity]. rewrite (Ac p E') in E1. exact E1.
Qed.

Lemma fold_spillGCRef l : forall st r, NoDup l -> (forall x, In x l -> PrevNoLiveGC st x) ->
  NoLiveGC st r \/ In r l -> NoLiveGC (fold_left spillGCRef l st) r.
Proof.
  induction l as [| x l IH]; intros st r Hnd Hp Hr; cbn [fold_left].
  - destruct Hr as [Hr | []]. exact Hr.
  - inversion Hnd as [| ? ? Hx Hnd']; subst.
    destruct (spillGCRef_frame st x) as (F1 & F2 & F3).
    apply IH; [exact Hnd' | |].
    + intros y Hy. apply (PrevNoLiveGC_frame st); [| exact F2 | exact F3 | apply Hp; right; exact Hy].
      rewrite F1; [reflexivity |]. intros ->. contradiction.
    + destruct (Nat.eq_dec r x) as [-> | Hrx].
      * left. apply spillGCRef_clears, Hp. left. reflexivity.
      * destruct Hr as [Hr | [-> | Hr]]; [left | contradiction | right; exact Hr].
        apply (NoLiveGC_frame st); [rewrite F1 by exact Hrx; reflexivity | exact F2 | exact F3 | exact Hr].
Qed.

Lemma NoDup_bitsOf m : NoDup (bitsOf m).
Proof. apply NoDup_filter, seq_NoDup. Qed.

(** After [spillGCRefs] at a RefPosition, no register of the
    killed mask holds an interval that is both active and of a GC type,
    provided the interval each such register previously held was not
    both active and of a GC type. *)
Theorem spillGCRefs_no_active_gc st k :
  let m := rp_registerAssignment (refPos st k) in
  0 <= m < 2 ^ 64 ->
  (forall r p, Z.testbit m (Z.of_nat r) = true -> rg_previousInterval (regRec st r) = Some p ->
     iv_isActive (interval st p) = false \/ iv_isGC (interval st p) = false) ->
  forall r a, Z.testbit m (Z.of_nat r) = true ->
  rg_assignedInterval (regRec (spillGCRefs st k) r) = Some a ->
  iv_isActive (interval (spillGCRefs st k) a) = false \/ iv_isGC (interval (spillGCRefs st k) a) = false.
Proof.
  cbv zeta. intros Hm Hp r a Hr. pose proof (Mask64_range _ Hm) as HM.
  unfold spillGCRefs. rewrite spillGCRefsLoop_fold by (exact HM || apply bitsOf_length).
  apply fold_spillGCRef; [apply NoDup_bitsOf | |].
  - intros x Hx. apply (proj1 (In_bitsOf _ x)) in Hx as [_ Hx]. intros p Ep. exact (Hp x p Hx Ep).
  - right. apply (proj2 (In_bitsOf _ r)). split; [exact (Mask64_bits _ r HM Hr) | exact Hr].
Qed.

Lemma checkAndAssignInterval_post st reg i :
  let st' := checkAndAssignInterval st reg i in
  rg_assignedInterval (regRec st' reg) = Some i /\
  (forall q, q <> reg -> regRec st' q = regRec st q) /\
  ls_regsModified st' = ls_regsModified st /\
  (forall a, rg_assignedInterval (regRec st reg) = Some a -> a <> i ->
     iv_physReg (interval st' a) <> Some reg).
Proof.
  cbv zeta. unfold checkAndAssignInterval.
  assert (U : forall st1, let st2 := updateAssignedInterval st1 reg (Some i) in
     rg_assignedInterval (regRec st2 reg) = Some i /\ (forall q, q <> reg -> regRec st2 q = regRec st1 q) /\
     ls_regsModified st2 = ls_regsModified st1 /\ (forall j, interval st2 j = interval st1 j)).
  { intros st1. cbv zeta. unfold_setters. rf. rewrite Nat.eqb_refl.
    repeat split; intros; rf; eqbs; auto; congruence. }
  destruct (rg_assignedInterval (regRec st reg)) as [a |] eqn:Ha.
  - destruct (Nat.eqb_spec a i) as [<- | Hai]; cbn [negb].
    + destruct (U st) as (U1 & U2 & U3 & _). split; [exact U1 | split; [exact U2 | split; [exact U3 |]]].
      intros a' E H'. injection E as <-. contradiction.
    + set (st1 := if optReg_eqb _ reg then setPhysReg st a None else st).
      assert (H1 : rg_assignedInterval (regRec st1 reg) = Some a /\ (forall q, regRec st1 q = regRec st q) /\
                   ls_regsModified st1 = ls_regsModified st).
      { subst st1. destruct (optReg_eqb _ _); [unfold_setters; rf; auto | auto]. }
      destruct H1 as (H1 & G1 & M1).
      assert (E : unassignPhysRegRec st1 reg = unassignPhysReg st1 reg (iv_recentRefPosition (interval st1 a)))
        by (unfold unassignPhysRegRec; rewrite H1; reflexivity).
      rewrite E.
      destruct (unassignPhysReg_releases st1 reg (iv_recentRefPosition (interval st1 a)) a H1) as (_ & R2 & _ & R4 & _).
      destruct (U (unassignPhysReg st1 reg (iv_recentRefPosition (interval st1 a)))) as (U1 & U2 & U3 & U4).
      split; [exact U1 |].
      split; [intros q Hq; rewrite U2, R4, G1 by exact Hq; reflexivity |].
      split; [rewrite U3, unassignPhysReg_regsModified; exact M1 |].
      intros a' E' _. injection E' as <-. rewrite U4. exact R2.
  - destruct (U st) as (U1 & U2 & U3 & _). split; [exact U1 | split; [exact U2 | split; [exact U3 |]]].
    intros a' E. discriminate E.
Qed.

(** On targets other than ARM32, after [assignPhysReg reg i], the
    register holds [i], [i] is active
    with [reg] as its [physReg] and [assignedReg], [reg] is marked
    modified, the other registers are unchanged, and the
    register's previous interval, if other than [i], is no longer in
    it. *)
Theorem assignPhysReg_post st reg i :
  let st' := assignPhysReg st reg i in
  rg_assignedInterval (regRec st' reg) = Some i /\
  iv_physReg (interval st' i) = Some reg /\ iv_assignedReg (interval st' i) = Some reg /\
  iv_isActive (interval st' i) = true /\
  Z.testbit (ls_regsModified st') (Z.of_nat reg) = true /\
  (forall q, q <> reg -> regRec st' q = regRec st q) /\
  (forall a, rg_assignedInterval (regRec st reg) = Some a -> a <> i ->
     iv_physReg (interval st' a) <> Some reg).
Proof.
  cbv zeta. unfold assignPhysReg. cbv zeta.
  set (st1 := rsSetRegsModified st (genRegMask reg)).
  destruct (checkAndAssignInterval_post st1 reg i) as (C1 & C2 & C3 & C4).
  set (st2 := checkAndAssignInterval st1 reg i) in *.
  unfold_setters.
  split; [rf; exact C1 |].
  split; [rf; rewrite !Nat.eqb_refl; rf; reflexivity |].
  split; [rf; rewrite !Nat.eqb_refl; rf; reflexivity |].
  split; [rf; rewrite !Nat.eqb_refl; rf; reflexivity |].
  split; [rf; rewrite C3; subst st1; rf; rewrite Z.lor_spec, testbit_genRegMask; apply orb_true_r |].
  split; [intros q Hq; rf; rewrite C2 by exact Hq; subst st1; rf; reflexivity |].
  intros a Ha Hai. rf. rewrite !(proj2 (Nat.eqb_neq a i) Hai).
  apply C4; [subst st1; rf; exact Ha | exact Hai].
Qed.


(** Any sequence of the register-file operations keeps every interval
    in its [physReg] register, with [assignedReg] equal to it and the
    register marked modified. *)
Theorem regInv_runOps st ops : RegInv st -> RegInv (runOps st ops).
Proof.
  unfold runOps. revert st. induction ops as [| op ops IH]; intros st H; cbn [fold_left]; [exact H |].
  apply IH. destruct op; cbn [runOp].
  - apply RegInv_assignPhysReg, H.
  - apply checkAndAssignInterval_spec, H.
  - apply RegInv_unassignPhysReg, H.
  - apply RegInv_unassignPhysRegRec, H.
  - apply RegInv_unassignPhysRegNoSpill, H.
  - apply RegInv_freeRegister, H.
  - apply RegInv_freeRegisters, H.
  - apply RegInv_spillGCRefs, H.
  - apply RegInv_spillInterval, H.
  - apply RegInv_setIntervalAsSplit, H.
  - apply RegInv_setIntervalAsSpilled, H.
  - apply RegInv_unassignIntervalBlockStart, H.
Qed.

(** When no upper-vector interval is a local, any sequence of the
    register-file operations keeps every split or spilled local's
    variable in [splitOrSpilledVars]. *)
Theorem splitOrSpilledVars_runOps st ops : UpperOK st -> SosInv st -> SosInv (runOps st ops).
Proof.
  intros Hu Hs. assert (H : Good st) by (split; assumption). clear Hu Hs.
  enough (G : Good (runOps st ops)) by apply G.
  unfold runOps. revert st H. induction ops as [| op ops IH]; intros st H; cbn [fold_left]; [exact H |].
  apply IH. destruct op; cbn [runOp].
  - apply Good_assignPhysReg, H.
  - apply Good_checkAndAssignInterval, H.
  - apply Good_unassignPhysReg, H.
  - apply Good_unassignPhysRegRec, H.
  - apply Good_unassignPhysRegNoSpill, H.
  - apply Good_freeRegister, H.
  - apply Good_freeRegisters, H.
  - apply Good_spillGCRefs, H.
  - apply Good_spillInterval, H.
  - apply Good_setIntervalAsSplit, H.
  - apply Good_setIntervalAsSpilled, H.
  - apply Good_unassignIntervalBlockStart, H.
Qed.

Local Open Scope nat_scope.

(** A small register file: local 0 (a GC ref) lives in register 3 and
    local 1 in register 5; both are active and neither is split or
    spilled.  RefPosition 0, at location 4 (before the current block,
    which starts at 5), is local 0's recent reference, with RefPosition 1
    next; RefPosition 2 is local 1's, with the def 3 next.  Every other
    RefPosition is a kill of registers 3 and 5. *)
Definition ex_iv (p : option regNumber) (act isGC : bool) (v : nat) (recent : option nat) : Interval :=
  mkInterval p p act false false true false false 0 v isGC recent recent.

Definition ex_ref (loc : LsraLocation) (t : RefType) (next : option nat) (mask : regMaskTP) : RefPosition :=
  mkRefPosition loc t next false false false true false mask.

Definition ex_ls : LS :=
  mkLS (fun r => match r with
                 | O => ex_ref 4 RefTypeUse (Some 1) 8%Z
                 | S O => ex_ref 10 RefTypeUse None 8%Z
                 | S (S O) => ex_ref 6 RefTypeUse (Some 3) 32%Z
                 | S (S (S O)) => ex_ref 12 RefTypeDef None 32%Z
                 | _ => ex_ref 0 RefTypeKill None 40%Z
                 end)
       (fun i => match i with
                 | O => ex_iv (Some 3) true true 0 (Some 0)
                 | S O => ex_iv (Some 5) true false 1 (Some 2)
                 | _ => mkInterval None None false false false false false false 0 i false None None
                 end)
       (fun r => mkRegRecord (if Nat.eqb r 3 then Some 0 else if Nat.eqb r 5 then Some 1 else None) None false)
       []
       (fun _ v => if Nat.eqb v 0 then RegR 3 else REG_STK)
       0 5 40%Z.

Lemma regInv_runOps_witness :
  RegInv ex_ls /\ RegInv (runOps ex_ls [OpFreeRegister 5; OpAssignPhysReg 7 2; OpSpillGCRefs 9]).
Proof.
  assert (H : RegInv ex_ls).
  { intros j r Hj. destruct j as [| [| j]]; cbn in Hj; try discriminate Hj;
      (injection Hj as <-; split; [reflexivity | split; reflexivity]). }
  split; [exact H | exact (regInv_runOps ex_ls _ H)].
Defined.

Lemma splitOrSpilledVars_runOps_witness :
  UpperOK ex_ls /\ SosInv ex_ls /\
  SosInv (runOps ex_ls [OpUnassignPhysReg 3 (Some 0); OpSetIntervalAsSplit 1; OpFreeRegisters 40%Z]).
Proof.
  assert (Hu : UpperOK ex_ls) by (intros j Hj; destruct j as [| [| j]]; discriminate Hj).
  assert (Hs : SosInv ex_ls)
    by (intros j Hl [Hj | Hj]; destruct j as [| [| j]]; cbn in Hl, Hj; discriminate).
  split; [exact Hu | split; [exact Hs | exact (splitOrSpilledVars_runOps ex_ls _ Hu Hs)]].
Defined.

Lemma unassignPhysReg_spill_witness :
  rg_assignedInterval (regRec ex_ls 3) = Some 0 /\ iv_physReg (interval ex_ls 0) = Some 3 /\
  iv_isActive (interval ex_ls 0) = true /\ rp_nextRefPosition (refPos ex_ls 0) = Some 1 /\
  iv_isSpilled (interval (unassignPhysReg ex_ls 3 (Some 0)) 0) = true /\
  getVarReg (ls_inVarToRegMaps (unassignPhysReg ex_ls 3 (Some 0)) 0) 0 = REG_STK.
Proof.
  destruct (unassignPhysReg_spill ex_ls 3 0 0 1 eq_refl (or_introl eq_refl) eq_refl eq_refl)
    as (_ & _ & _ & _ & Hs & _ & _ & Hm).
  split; [reflexivity |]. split; [reflexivity |]. split; [reflexivity |]. split; [reflexivity |].
  split; [exact Hs | apply Hm; cbn; lia].
Defined.

Lemma unassignPhysReg_without_spill_witness :
  rg_assignedInterval (regRec ex_ls 5) = Some 1 /\
  ls_splitOrSpilledVars (unassignPhysReg ex_ls 5 None) = [] /\
  rg_assignedInterval (regRec (unassignPhysReg ex_ls 5 None) 5) <> Some 1.
Proof.
  destruct (unassignPhysReg_without_spill ex_ls 5 None 1 eq_refl (or_intror eq_refl))
    as (H1 & _ & _ & _ & H5 & _).
  split; [reflexivity | split; [exact H5 | exact H1]].
Defined.

Lemma unassignPhysRegNoSpill_outcome_witness :
  rg_assignedInterval (regRec ex_ls 3) = Some 0 /\
  iv_isActive (interval (unassignPhysRegNoSpill ex_ls 3) 0) = true /\
  iv_physReg (interval (unassignPhysRegNoSpill ex_ls 3) 0) <> Some 3.
Proof.
  destruct (unassignPhysRegNoSpill_outcome ex_ls 3 0 eq_refl) as (H1 & _ & H3 & _).
  split; [reflexivity | split; [exact H1 | exact H3]].
Defined.

Lemma freeRegister_outcome_witness :
  rg_assignedInterval (regRec ex_ls 5) = Some 1 /\
  iv_isActive (interval (freeRegister ex_ls 5) 1) = false /\
  rg_assignedInterval (regRec (freeRegister ex_ls 5) 5) <> Some 1.
Proof.
  destruct (freeRegister_outcome ex_ls 5 1 eq_refl) as (H1 & H2 & _).
  split; [reflexivity | split; [exact H1 |]].
  intros E. apply H2 in E as [E | (n & E1 & E2)]; [discriminate E |].
  cbn in E1. injection E1 as <-. discriminate E2.
Defined.

Lemma freeRegisters_fold_witness :
  (0 <= 40 < 2 ^ 64)%Z /\
  freeRegisters ex_ls 40%Z = fold_left freeRegister [3; 5] ex_ls /\
  regRec (freeRegisters ex_ls 40%Z) 4 = regRec ex_ls 4.
Proof.
  assert (Hm : (0 <= 40 < 2 ^ 64)%Z) by lia.
  destruct (freeRegisters_fold ex_ls 40 Hm) as [E F].
  split; [exact Hm | split; [exact E | apply F; reflexivity]].
Defined.

Lemma spillGCRefs_no_active_gc_witness :
  (0 <= rp_registerAssignment (refPos ex_ls 9) < 2 ^ 64)%Z /\
  (forall r p, rg_previousInterval (regRec ex_ls r) = Some p -> False) /\
  forall a, rg_assignedInterval (regRec (spillGCRefs ex_ls 9) 3) = Some a ->
    iv_isActive (interval (spillGCRefs ex_ls 9) a) = false \/
    iv_isGC (interval (spillGCRefs ex_ls 9) a) = false.
Proof.
  assert (Hm : (0 <= rp_registerAssignment (refPos ex_ls 9) < 2 ^ 64)%Z) by (cbn; lia).
  assert (Hp : forall r p, rg_previousInterval (regRec ex_ls r) = Some p -> False)
    by (intros r p E; discriminate E).
  split; [exact Hm | split; [exact Hp |]].
  intros a. apply (spillGCRefs_no_active_gc ex_ls 9 Hm); [| reflexivity].
  intros r p _ E. exfalso. exact (Hp r p E).
Defined.


End RegisterFileOutcomes.
